(** * The Set command family of the sharded store (src/server/set_family.cc)

    A shallow embedding of the shard-local set operations ([OpAdd], [OpRem],
    [OpPop], [OpUnion], [OpDiff], [OpInter]), of the cross-shard combiners,
    of the SMOVE coordinator [Mover] and of the command handlers that drive
    them, followed by the properties of the specification that can be stated
    over them.

    The collaborators that set_family.cc only includes (the packed integer
    set of redis/intset.h, [FlatSet] of core/flat_set.h, the integer parser
    of redis/util.h, the key dictionary and the transaction layer) are
    modelled from the specification; each such definition says so. *)

From Stdlib Require Import ZArith Lia Bool.
From Stdlib Require Import DecimalString DecimalZ.
From stdpp Require Import gmap strings list fin_maps sorting.

Local Open Scope Z_scope.

(** ** Machine integers *)

Definition LLONG_MIN : Z := - 2 ^ 63.
Definition LLONG_MAX : Z := 2 ^ 63 - 1.

Definition in_llong (z : Z) : bool := (LLONG_MIN <=? z) && (z <=? LLONG_MAX).

(** [uint32_t] and [unsigned] counters wrap around modulo 2^32. *)
Definition UINT32_MOD : Z := 2 ^ 32.
Definition add32 (a b : Z) : Z := (a + b) mod UINT32_MOD.

Definition b2z (b : bool) : Z := if b then 1 else 0.

(** ** Decimal text of integers *)

(** [absl::numbers_internal::FastIntToBuffer] and [absl::StrCat] on an
    [int64_t]: the decimal digits, with a leading minus sign for negative
    numbers and no leading zero. *)
Definition FastIntToBuffer (z : Z) : string :=
  NilEmpty.string_of_int (Z.to_int z).

Definition StrCat (z : Z) : string := FastIntToBuffer z.

(** Modelled from the spec: [string2ll] of redis/util.h, which is declared
    outside set_family.cc. Section 4.1: the value parser accepts exactly the
    canonical integer encoding the store uses, for integers of
    [[-2^63, 2^63-1]]; every other byte string is rejected. *)
Definition string2ll (s : string) : option Z :=
  match NilEmpty.int_of_string s with
  | Some d =>
      let z := Z.of_int d in
      if in_llong z && String.eqb (FastIntToBuffer z) s then Some z else None
  | None => None
  end.

(** ** IntSet *)

(** Modelled from the spec: the [intset] of redis/intset.h (section 4.1), a
    sorted packed array of distinct signed integers. The storage width
    (16, 32 or 64 bits) is not observable through the operations below and
    is left out. *)
Abbreviation intset := (list Z).

Definition intsetNew : intset := [].

Definition intsetLen (iset : intset) : Z := Z.of_nat (length iset).

Definition intsetFind (iset : intset) (v : Z) : bool :=
  existsb (Z.eqb v) iset.

Fixpoint intsetInsertSorted (v : Z) (iset : intset) : intset :=
  match iset with
  | [] => [v]
  | x :: r => if v <? x then v :: x :: r else x :: intsetInsertSorted v r
  end.

(** [intsetAdd iset v] returns the container and whether [v] was inserted. *)
Definition intsetAdd (iset : intset) (v : Z) : intset * bool :=
  if intsetFind iset v then (iset, false) else (intsetInsertSorted v iset, true).

Fixpoint intsetDelete (v : Z) (iset : intset) : intset :=
  match iset with
  | [] => []
  | x :: r => if v =? x then r else x :: intsetDelete v r
  end.

(** [intsetRemove iset v] returns the container and whether [v] was removed. *)
Definition intsetRemove (iset : intset) (v : Z) : intset * bool :=
  if intsetFind iset v then (intsetDelete v iset, true) else (iset, false).

(** [intsetGet iset pos] is the member at position [pos] in ascending order,
    or nothing when [pos] is out of range. *)
Definition intsetGet (iset : intset) (pos : nat) : option Z := iset !! pos.

(** [intsetTrimTail iset k] removes the last [k] members. *)
Definition intsetTrimTail (iset : intset) (k : nat) : intset :=
  take (length iset - k)%nat iset.

(** ** FlatSet *)

(** Modelled from the spec: [FlatSet] of core/flat_set.h (section 4.2), a
    hash set of byte strings. Its iteration order is implementation-defined;
    the model iterates in insertion order, [begin()] being the head. *)
Abbreviation FlatSet := (list string).

Definition FlatSet_Contains (fs : FlatSet) (v : string) : bool :=
  existsb (String.eqb v) fs.

Definition FlatSet_Add (fs : FlatSet) (v : string) : FlatSet * bool :=
  if FlatSet_Contains fs v then (fs, false) else (fs ++ [v], true).

Fixpoint FlatSet_Delete (v : string) (fs : FlatSet) : FlatSet :=
  match fs with
  | [] => []
  | x :: r => if String.eqb v x then r else x :: FlatSet_Delete v r
  end.

Definition FlatSet_Remove (fs : FlatSet) (v : string) : FlatSet * bool :=
  if FlatSet_Contains fs v then (FlatSet_Delete v fs, true) else (fs, false).

Definition FlatSet_Empty (fs : FlatSet) : bool :=
  match fs with [] => true | _ => false end.

Definition FlatSet_Size (fs : FlatSet) : Z := Z.of_nat (length fs).

(** [fs->Erase(fs->begin())]. *)
Definition FlatSet_EraseBegin (fs : FlatSet) : FlatSet := tail fs.

(** ** Operation results *)

Inductive OpStatus : Type :=
  | OK
  | KEY_NOTFOUND
  | WRONG_TYPE
  | SKIPPED
  | INVALID_INT
  | UNEXPECTED.

Global Instance OpStatus_eq_dec : EqDecision OpStatus.
Proof. solve_decision. Defined.

(** [OpResult<V>]: a status together with a value; the value is the default
    of its type when the result was built from a status alone. *)
Record OpResult (V : Type) : Type := mkOpResult {
  status : OpStatus;
  value : V
}.
Arguments mkOpResult {V} _ _.
Arguments status {V} _.
Arguments value {V} _.

(** [operator bool] of an [OpResult]. *)
Definition is_ok {V} (r : OpResult V) : bool := bool_decide (status r = OK).

Definition value_or {V} (r : OpResult V) (v : V) : V :=
  if is_ok r then value r else v.

Definition ResultOf {V} (v : V) : OpResult V := mkOpResult OK v.

(** ** Values of the key dictionary *)

Inductive ObjType : Type := OBJ_STRING | OBJ_LIST | OBJ_SET | OBJ_ZSET | OBJ_HASH.

Global Instance ObjType_eq_dec : EqDecision ObjType.
Proof. solve_decision. Defined.

(** The encoding tag of a set together with the object its pointer
    designates: [kEncodingIntSet] with an [intset], or [kEncodingStrMap]
    with a [FlatSet]. *)
Inductive SetRepr : Type :=
  | kEncodingIntSet (iset : intset)
  | kEncodingStrMap (fs : FlatSet).

(** Modelled from the spec: [CompactObj] (section 4.3), the generic value
    container. A slot is empty when just created, or holds a set in one of
    the two encodings, or a value of another type (a string here). *)
Inductive CompactObj : Type :=
  | CoEmpty
  | CoString (s : string)
  | CoSet (r : SetRepr).

Definition ObjTypeOf (co : CompactObj) : ObjType :=
  match co with
  | CoSet _ => OBJ_SET
  | _ => OBJ_STRING
  end.

(** [CompactObj::Size] on a set. *)
Definition Size (co : CompactObj) : Z :=
  match co with
  | CoSet (kEncodingIntSet iset) => intsetLen iset
  | CoSet (kEncodingStrMap fs) => FlatSet_Size fs
  | _ => 0
  end.

(** [CompactObj::IsMember]: an IntSet parses the value and searches for the
    integer, a value that is no integer is no member; a FlatSet looks the
    value up. *)
Definition IsMember (co : CompactObj) (v : string) : bool :=
  match co with
  | CoSet (kEncodingIntSet iset) =>
      match string2ll v with
      | Some llval => intsetFind iset llval
      | None => false
      end
  | CoSet (kEncodingStrMap fs) => FlatSet_Contains fs v
  | _ => false
  end.

(** ** The key dictionary of a shard *)

Abbreviation DbIndex := nat.

(** Modelled from the spec: [db_slice], the per-shard key dictionary, as a
    finite map from database index and key to the stored value. [PreUpdate]
    and [PostUpdate] bracket a mutation for memory accounting and do not
    change the dictionary; they are not represented. *)
Abbreviation DbSlice := (gmap (DbIndex * string) CompactObj).

(** [OpResult<MainIterator>]: an iterator to the entry found, represented by
    the value it points to, or the status of the failed lookup. *)
Inductive FindResult : Type :=
  | FindOk (co : CompactObj)
  | FindFailed (st : OpStatus).

Definition find_status (r : FindResult) : OpStatus :=
  match r with
  | FindOk _ => OK
  | FindFailed st => st
  end.

(** [db_slice.Find(db_ind, key, req_type)]: [KEY_NOTFOUND] for an absent
    key, [WRONG_TYPE] for a value of another type. *)
Definition Find (db : DbSlice) (db_ind : DbIndex) (key : string)
    (req_type : ObjType) : FindResult :=
  match db !! (db_ind, key) with
  | None => FindFailed KEY_NOTFOUND
  | Some co =>
      if bool_decide (ObjTypeOf co = req_type) then FindOk co
      else FindFailed WRONG_TYPE
  end.

(** [db_slice.AddOrFind(db_ind, key)]: the entry of the key, created empty
    when the key is absent, and whether it was created. *)
Definition AddOrFind (db : DbSlice) (db_ind : DbIndex) (key : string)
    : CompactObj * bool :=
  match db !! (db_ind, key) with
  | Some co => (co, false)
  | None => (CoEmpty, true)
  end.

(** [db_slice.Del(db_ind, it)] on the iterator of [key] (possibly the end
    iterator, for which nothing happens): the dictionary and whether an
    entry was deleted. *)
Definition Del (db : DbSlice) (db_ind : DbIndex) (key : string)
    : DbSlice * bool :=
  match db !! (db_ind, key) with
  | Some _ => (delete (db_ind, key) db, true)
  | None => (db, false)
  end.

(** Writing through the reference [it->second]. *)
Definition StoreValue (db : DbSlice) (db_ind : DbIndex) (key : string)
    (co : CompactObj) : DbSlice :=
  <[(db_ind, key) := co]> db.

(** ** Local string sets and vectors *)

(** [absl::flat_hash_set<string>] as used for the local [uniques] sets: the
    members without repetition; iteration follows insertion order. *)
Abbreviation StringSet := (list string).

Definition emplace (uniques : StringSet) (s : string) : StringSet :=
  if FlatSet_Contains uniques s then uniques else uniques ++ [s].

Definition erase (uniques : StringSet) (s : string) : StringSet :=
  FlatSet_Delete s uniques.

Abbreviation StringVec := (list string).

Definition ToVec (set : StringSet) : StringVec := set.

Definition ToSvArray (set : StringSet) : StringVec := set.

(** ** Shard-local helpers *)

(** [ConvertTo(src, dest)]: every integer of [src], in ascending order, is
    added to [dest] as its decimal text. *)
Definition ConvertTo (src : intset) (dest : FlatSet) : FlatSet :=
  fold_left (fun fs intele => fst (FlatSet_Add fs (FastIntToBuffer intele)))
    src dest.

(** [CreateFlatSet(mr)]: a new, empty [FlatSet]. *)
Definition CreateFlatSet : FlatSet := [].

Section ShardOps.

(** [server.set_max_intset_entries], the configured bound of the IntSet
    encoding. *)
Variable set_max_intset_entries : Z.

Definition max_entries : Z :=
  if 2 ^ 16 <=? set_max_intset_entries then 2 ^ 16
  else set_max_intset_entries.

(** [IntsetAddSafe(val, is, &success, &added)] returns the container,
    [success] and [added]. *)
Definition IntsetAddSafe (val : string) (iset : intset)
    : intset * bool * bool :=
  match string2ll val with
  | None => (iset, false, false)
  | Some llval =>
      let '(iset', inserted) := intsetAdd iset llval in
      if inserted then (iset', intsetLen iset' <=? max_entries, true)
      else (iset', true, false)
  end.

(** The body of the loop of [RemoveSet] over an IntSet, on the container
    and the count: a value that is no integer is skipped. *)
Definition RemoveSet_intset_step : intset * Z -> string -> intset * Z :=
  fun '(iset, removed) val =>
    match string2ll val with
    | None => (iset, removed)
    | Some llval =>
        let '(iset', is_removed) := intsetRemove iset llval in
        (iset', add32 removed (b2z is_removed))
    end.

(** The body of the loop of [RemoveSet] over a FlatSet. *)
Definition RemoveSet_flatset_step : FlatSet * Z -> string -> FlatSet * Z :=
  fun '(fs, removed) val =>
    let '(fs', r) := FlatSet_Remove fs val in (fs', add32 removed (b2z r)).

(** [RemoveSet(vals, set)] returns the set, [removed] and [isempty]. *)
Definition RemoveSet (vals : list string) (set : SetRepr)
    : SetRepr * Z * bool :=
  match set with
  | kEncodingIntSet iset =>
      let '(iset', removed) :=
        fold_left RemoveSet_intset_step vals (iset, 0) in
      (kEncodingIntSet iset', removed, intsetLen iset' =? 0)
  | kEncodingStrMap fs =>
      let '(fs', removed) :=
        fold_left RemoveSet_flatset_step vals (fs, 0) in
      (kEncodingStrMap fs', removed, FlatSet_Empty fs')
  end.

(** [FillSet(set, f)] calls [f] on the text of every member, in iteration
    order; the list of these texts. *)
Definition FillSet (set : CompactObj) : list string :=
  match set with
  | CoSet (kEncodingIntSet iset) => FastIntToBuffer <$> iset
  | CoSet (kEncodingStrMap fs) => fs
  | _ => []
  end.

(** ** OpAdd *)

(** The first loop of [OpAdd], over an IntSet: the container, the count and
    [success] when the loop is left. *)
Fixpoint OpAdd_intset_loop (vals : list string) (iset : intset) (res : Z)
    : intset * Z * bool :=
  match vals with
  | [] => (iset, res, true)
  | val :: rest =>
      let '(iset', success, added) := IntsetAddSafe val iset in
      let res' := add32 res (b2z added) in
      if success then OpAdd_intset_loop rest iset' res'
      else (iset', res', false)
  end.

(** The second loop of [OpAdd], over a FlatSet. *)
Definition OpAdd_flatset_loop (vals : list string) (fs : FlatSet) (res : Z)
    : FlatSet * Z :=
  fold_left
    (fun '(f, r) val =>
       let '(f', added) := FlatSet_Add f val in (f', add32 r (b2z added)))
    vals (fs, res).

(** The two loops of [OpAdd] on the set [r0]: the IntSet loop with its
    conversion, if [r0] is an IntSet, and then the FlatSet loop over all of
    [vals], if the encoding is (or has become) [kEncodingStrMap]. *)
Definition OpAdd_loops (vals : list string) (r0 : SetRepr) : SetRepr * Z :=
  let '(r1, res1) :=
    match r0 with
    | kEncodingIntSet iset =>
        let '(iset', res, success) := OpAdd_intset_loop vals iset 0 in
        if success then (kEncodingIntSet iset', res)
        else (kEncodingStrMap (ConvertTo iset' CreateFlatSet), res)
    | kEncodingStrMap _ => (r0, 0)
    end in
  match r1 with
  | kEncodingStrMap fs =>
      let '(fs', res) := OpAdd_flatset_loop vals fs res1 in
      (kEncodingStrMap fs', res)
  | kEncodingIntSet _ => (r1, res1)
  end.

(** The set [OpAdd] starts from: a new one when the slot was just created
    or is overwritten, an IntSet if every value parses as an integer; the
    set found otherwise, and nothing for a value of another type. *)
Definition OpAdd_init (co : CompactObj) (inserted overwrite : bool)
    (vals : list string) : option SetRepr :=
  if inserted || overwrite then
    if forallb (fun v => bool_decide (is_Some (string2ll v))) vals
    then Some (kEncodingIntSet intsetNew)
    else Some (kEncodingStrMap CreateFlatSet)
  else
    match co with
    | CoSet r => Some r
    | _ => None
    end.

(** [OpAdd(op_args, key, vals, overwrite)] on the dictionary of the shard. *)
Definition OpAdd (db : DbSlice) (db_ind : DbIndex) (key : string)
    (vals : list string) (overwrite : bool) : DbSlice * OpResult Z :=
  if overwrite && bool_decide (vals = []) then
    (fst (Del db db_ind key), ResultOf 0)
  else
    let '(co, inserted) := AddOrFind db db_ind key in
    match OpAdd_init co inserted overwrite vals with
    | None => (db, mkOpResult WRONG_TYPE 0)
    | Some r0 =>
        let '(r, res) := OpAdd_loops vals r0 in
        (StoreValue db db_ind key (CoSet r), ResultOf res)
    end.

(** ** OpRem *)

Definition OpRem (db : DbSlice) (db_ind : DbIndex) (key : string)
    (vals : list string) : DbSlice * OpResult Z :=
  match Find db db_ind key OBJ_SET with
  | FindFailed st => (db, mkOpResult st 0)
  | FindOk (CoSet r) =>
      let '(r', removed, isempty) := RemoveSet vals r in
      if isempty then (fst (Del db db_ind key), ResultOf removed)
      else (StoreValue db db_ind key (CoSet r'), ResultOf removed)
  | FindOk _ => (db, mkOpResult WRONG_TYPE 0)
  end.

End ShardOps.

(** ** Assertions *)

(** A computation either completes or stops at a failed assertion: [CHECK]
    aborts the process, [DCHECK] and [LOG(DFATAL)] do so in builds without
    [NDEBUG]. *)
Inductive Outcome (A : Type) : Type :=
  | Done (a : A)
  | Aborted (what : string).
Arguments Done {A} _.
Arguments Aborted {A} _.

Global Instance Outcome_ret : MRet Outcome := fun A a => Done a.

Global Instance Outcome_bind : MBind Outcome := fun A B k m =>
  match m with
  | Done a => k a
  | Aborted w => Aborted w
  end.

Definition CHECK (what : string) (c : bool) : Outcome unit :=
  if c then Done tt else Aborted what.

Definition completes {A} (m : Outcome A) : Prop :=
  match m with Done _ => True | Aborted _ => False end.

(** ** OpPop *)

(** The IntSet branch of a partial pop copies the members at the positions
    [slen - count .. slen - 1] into [result]; [val] keeps its previous
    content when [intsetGet] has nothing at a position. *)
Definition OpPop_intset_copy (iset : intset) (slen count : nat) : StringVec :=
  snd (fold_left
         (fun '(val, result) i =>
            let val' := default val (intsetGet iset i) in
            (val', result ++ [StrCat val']))
         (seq (slen - count) count) (0, [])).

(** The FlatSet branch of a partial pop takes [begin()] and erases it,
    [count] times. *)
Fixpoint OpPop_flatset_loop (count : nat) (fs : FlatSet) (result : StringVec)
    : FlatSet * StringVec :=
  match count with
  | O => (fs, result)
  | S count' =>
      match fs with
      | str :: _ =>
          OpPop_flatset_loop count' (FlatSet_EraseBegin fs) (result ++ [str])
      | [] => (fs, result)
      end
  end.

(** [SetFamily::OpPop(op_args, key, count)]; [count] is [unsigned]. The
    [CHECK] on [Del] cannot fail, the entry having just been found. *)
Definition OpPop (db : DbSlice) (db_ind : DbIndex) (key : string)
    (count : nat) : DbSlice * OpResult StringVec :=
  match Find db db_ind key OBJ_SET with
  | FindFailed st => (db, mkOpResult st [])
  | FindOk co =>
      if (count =? 0)%nat then (db, ResultOf [])
      else
        let slen := Z.to_nat (Size co) in
        if (slen <=? count)%nat then
          (fst (Del db db_ind key), ResultOf (FillSet co))
        else
          match co with
          | CoSet (kEncodingIntSet iset) =>
              let result := OpPop_intset_copy iset slen count in
              let iset' := intsetTrimTail iset count in
              (StoreValue db db_ind key (CoSet (kEncodingIntSet iset')),
               ResultOf result)
          | CoSet (kEncodingStrMap fs) =>
              let '(fs', result) := OpPop_flatset_loop count fs [] in
              (StoreValue db db_ind key (CoSet (kEncodingStrMap fs')),
               ResultOf result)
          | _ => (db, ResultOf [])
          end
  end.

(** ** Cross-shard combiners *)

Abbreviation ResultStringVec := (list (OpResult StringVec)).

(** [UnionResultVec(result_vec)]. *)
Fixpoint UnionResultVec_loop (result_vec : ResultStringVec)
    (uniques : StringSet) : OpResult StringSet :=
  match result_vec with
  | [] => ResultOf uniques
  | val :: rest =>
      if is_ok val || bool_decide (status val = SKIPPED) then
        UnionResultVec_loop rest (fold_left emplace (value val) uniques)
      else if negb (bool_decide (status val = KEY_NOTFOUND)) then
        mkOpResult (status val) []
      else UnionResultVec_loop rest uniques
  end.

Definition UnionResultVec (result_vec : ResultStringVec)
    : OpResult StringSet :=
  UnionResultVec_loop result_vec [].

Abbreviation ShardId := nat.

(** [DiffResultVec(result_vec, src_shard)]; [src_shard] indexes
    [result_vec], an index out of range contributes no member. *)
Definition DiffResultVec (result_vec : ResultStringVec) (src_shard : ShardId)
    : OpResult StringSet :=
  match List.find (fun res => bool_decide (status res = WRONG_TYPE)) result_vec with
  | Some res => mkOpResult (status res) []
  | None =>
      let uniques :=
        fold_left emplace
          (match result_vec !! src_shard with
           | Some r => value r
           | None => []
           end) [] in
      ResultOf
        (fold_left
           (fun uniques '(i, res) =>
              if (i =? src_shard)%nat then uniques
              else if is_ok res then fold_left erase (value res) uniques
              else uniques)
           (imap (fun i res => (i, res)) result_vec) uniques)
  end.

(** [absl::flat_hash_map<string_view, unsigned>] of [InterResultVec]: the
    keys in insertion order, each with its counter. *)
Abbreviation CountMap := (list (string * Z)).

Definition CountMap_emplace (uniques : CountMap) (s : string) (n : Z)
    : CountMap :=
  if existsb (fun kv => String.eqb s (fst kv)) uniques then uniques
  else uniques ++ [(s, n)].

(** [it = uniques.find(s); if (it != uniques.end()) ++it->second]. *)
Definition CountMap_increment (uniques : CountMap) (s : string) : CountMap :=
  (fun kv => if String.eqb s (fst kv) then (fst kv, add32 (snd kv) 1) else kv)
    <$> uniques.

(** [InterResultVec(result_vec, required_shard_cnt)]: the loop over the
    per-shard results, ended by the selection of the members counted
    [required_shard_cnt] times. *)
Fixpoint InterResultVec_loop (result_vec : ResultStringVec)
    (required_shard_cnt : Z) (uniques : CountMap) (first : bool)
    : OpResult StringVec :=
  match result_vec with
  | [] =>
      ResultOf
        (fst <$> filter (fun k_v => snd k_v = required_shard_cnt) uniques)
  | res :: rest =>
      if bool_decide (status res = SKIPPED) then
        InterResultVec_loop rest required_shard_cnt uniques first
      else if bool_decide (status res = KEY_NOTFOUND) then ResultOf []
      else if negb (is_ok res) then mkOpResult (status res) []
      else if first then
        InterResultVec_loop rest required_shard_cnt
          (fold_left (fun u s => CountMap_emplace u s 1) (value res) uniques)
          false
      else
        InterResultVec_loop rest required_shard_cnt
          (fold_left CountMap_increment (value res) uniques) false
  end.

Definition InterResultVec (result_vec : ResultStringVec)
    (required_shard_cnt : Z) : OpResult StringVec :=
  InterResultVec_loop result_vec required_shard_cnt [] true.

(** ** Transactions *)

(** The callbacks a handler passes to the transaction layer. *)
Inductive HopCallback : Type :=
  | NoOpCb
  | Cb_OpFind
  | Cb_OpMutate
  | Cb_diff
  | Cb_inter
  | Cb_union
  | Cb_store
  | Cb_single.

Inductive ErrorReply : Type :=
  | kWrongTypeErr
  | kInvalidIntErr
  | StatusError (st : OpStatus).

Inductive Reply : Type :=
  | SendLong (n : Z)
  | SendError (e : ErrorReply)
  | SendNull
  | SendBulkString (s : string)
  | SendStringArr (arr : list string).

(** What a client and the transaction queue observe of a command. *)
Inductive Event : Type :=
  | EvSchedule
  | EvExecute (cb : HopCallback) (is_concluding : bool)
  | EvReply (r : Reply).

(** Modelled from the spec: the transaction of a command (section 5), with
    the number of shards, the database index and the key arguments of the
    command in their original order. *)
Record Transaction : Type := mkTransaction {
  shard_set_size : nat;
  db_index : DbIndex;
  key_args : list string
}.

(** The connection context of a command: the dictionaries of the shards,
    indexed by shard id, the selected database, whether the command runs
    inside a script, and the events so far. *)
Record ConnectionContext : Type := mkContext {
  shard_set : list DbSlice;
  conn_db_index : DbIndex;
  script_info : bool;
  events : list Event
}.

Definition with_shards (cntx : ConnectionContext) (shards : list DbSlice)
    : ConnectionContext :=
  mkContext shards (conn_db_index cntx) (script_info cntx) (events cntx).

Definition emit (cntx : ConnectionContext) (e : Event) : ConnectionContext :=
  mkContext (shard_set cntx) (conn_db_index cntx) (script_info cntx)
    (events cntx ++ [e]).

Definition ArgS (args : list string) (i : nat) : string := nth i args ""%string.

(** [sort(arr.begin(), arr.end())] on strings. *)
Definition sort_strings (arr : list string) : list string :=
  merge_sort (fun a b => Is_true (String.leb a b)) arr.

Section Transactions.

(** Whether the build defines [NDEBUG], which compiles [DCHECK] away and
    turns [LOG(DFATAL)] into an error message. *)
Variable NDEBUG : bool.

(** The hash function that routes a key to its shard. *)
Variable hash : string -> nat.

Variable set_max_intset_entries : Z.

(** [absl::SimpleAtoi(arg, &count)] on an [unsigned]: the number the text
    denotes, if it denotes one. The parser belongs to a library outside the
    repository; SPOP only depends on whether it succeeds and on the number
    it yields. *)
Variable SimpleAtoi : string -> option nat.

Definition DCHECK (what : string) (c : bool) : Outcome unit :=
  if NDEBUG then Done tt else CHECK what c.

(** Modelled from the spec: [Shard(key, n)] is [hash(key) mod n]
    (section 3). *)
Definition Shard (key : string) (shard_set_size : nat) : ShardId :=
  (hash key mod shard_set_size)%nat.

(** Modelled from the spec: [ShardArgsInShard(shard_id)], the key
    arguments routed to the shard, in their original order (section 5). *)
Definition ShardArgsInShard (t : Transaction) (sid : ShardId) : list string :=
  filter (fun k => Shard k (shard_set_size t) = sid) (key_args t).

(** Modelled from the spec: [unique_shard_cnt()], the number of shards that
    hold at least one key argument (section 5). *)
Definition unique_shard_cnt (t : Transaction) : Z :=
  Z.of_nat
    (length
       (filter (fun sid => ShardArgsInShard t sid <> [])
          (seq 0 (shard_set_size t)))).

(** A shard callback reads and writes the dictionary of its shard and the
    variables [C] its closure captured. Every callback of set_family.cc but
    the single-hop ones returns [OpStatus::OK], which is not represented. *)
Definition Callback (C : Type) : Type :=
  Transaction -> ShardId -> DbSlice -> C -> Outcome (DbSlice * C).

Fixpoint Execute_on {C} (cb : Callback C) (t : Transaction)
    (sids : list ShardId) (shards : list DbSlice) (c : C)
    : Outcome (list DbSlice * C) :=
  match sids with
  | [] => Done (shards, c)
  | sid :: rest =>
      match ShardArgsInShard t sid, shards !! sid with
      | _ :: _, Some db =>
          '(db', c') ← cb t sid db c;
          Execute_on cb t rest (<[sid := db']> shards) c'
      | _, _ => Execute_on cb t rest shards c
      end
  end.

(** Modelled from the spec: [Execute(cb, is_concluding)] runs [cb] on each
    shard that holds a key argument (section 5); the hop is recorded. *)
Definition Execute {C} (name : HopCallback) (cb : Callback C)
    (is_concluding : bool) (t : Transaction) (cntx : ConnectionContext)
    (c : C) : Outcome (ConnectionContext * C) :=
  '(shards, c') ←
    Execute_on cb t (seq 0 (shard_set_size t)) (shard_set cntx) c;
  Done (emit (with_shards cntx shards) (EvExecute name is_concluding), c').

Definition Schedule (cntx : ConnectionContext) : ConnectionContext :=
  emit cntx EvSchedule.

(** Modelled from the spec: [ScheduleSingleHop(cb)] and
    [ScheduleSingleHopT(cb)] schedule and run a single concluding hop; the
    value the callback returns is handed back through [C]. *)
Definition ScheduleSingleHop {C} (name : HopCallback) (cb : Callback C)
    (t : Transaction) (cntx : ConnectionContext) (c : C)
    : Outcome (ConnectionContext * C) :=
  Execute name cb true t (Schedule cntx) c.

Definition NoOp : Callback unit := fun t sid db c => Done (db, c).

(** ** Shard-local operations that read the transaction *)

Fixpoint OpUnion_loop (db : DbSlice) (db_ind : DbIndex) (keys : list string)
    (uniques : StringSet) : OpResult StringVec :=
  match keys with
  | [] => ResultOf (ToVec uniques)
  | key :: rest =>
      match Find db db_ind key OBJ_SET with
      | FindOk co =>
          OpUnion_loop db db_ind rest (fold_left emplace (FillSet co) uniques)
      | FindFailed st =>
          if negb (bool_decide (st = KEY_NOTFOUND)) then mkOpResult st []
          else OpUnion_loop db db_ind rest uniques
      end
  end.

(** [SetFamily::OpUnion(op_args, keys)]. *)
Definition OpUnion (db : DbSlice) (db_ind : DbIndex) (keys : list string)
    : Outcome (OpResult StringVec) :=
  DCHECK "!keys.empty()" (negb (bool_decide (keys = [])));;
  Done (OpUnion_loop db db_ind keys []).

(** [SetFamily::OpDiff(t, es)]. The block that fills [uniques] and
    subtracts the other keys is compiled out ([#if 0]): [uniques] is empty
    when it is returned. [keys.front()] of an empty slice is undefined. *)
Definition OpDiff (t : Transaction) (sid : ShardId) (db : DbSlice)
    : Outcome (OpResult StringVec) :=
  let keys := ShardArgsInShard t sid in
  DCHECK "!keys.empty()" (negb (bool_decide (keys = [])));;
  match keys with
  | [] => Aborted "keys.front()"
  | front :: _ =>
      match Find db (db_index t) front OBJ_SET with
      | FindFailed st => Done (mkOpResult st [])
      | FindOk _ =>
          let uniques : StringSet := [] in
          Done (ResultOf (ToVec uniques))
      end
  end.

(** [SetFamily::OpInter(t, es, remove_first)]. The intersection of several
    keys of one shard is compiled out ([#if 0]) after [LOG(DFATAL)]. *)
Definition OpInter (t : Transaction) (sid : ShardId) (db : DbSlice)
    (remove_first : bool) : Outcome (OpResult StringVec) :=
  let keys := ShardArgsInShard t sid in
  let keys := if remove_first then drop 1 keys else keys in
  DCHECK "!keys.empty()" (negb (bool_decide (keys = [])));;
  match keys with
  | [front] =>
      match Find db (db_index t) front OBJ_SET with
      | FindFailed st => Done (mkOpResult st [])
      | FindOk co => Done (ResultOf (FillSet co))
      end
  | _ =>
      DCHECK "TBD" false;;
      Done (ResultOf [])
  end.

(** ** Mover: the two steps of SMOVE *)

Record Mover : Type := mkMover {
  src_ : string;
  dest_ : string;
  member_ : string;
  found_0 : OpResult bool;
  found_1 : OpResult bool
}.

(** [found_[index] = r]. *)
Definition set_found (m : Mover) (index : nat) (r : OpResult bool) : Mover :=
  match index with
  | O => mkMover (src_ m) (dest_ m) (member_ m) r (found_1 m)
  | _ => mkMover (src_ m) (dest_ m) (member_ m) (found_0 m) r
  end.

(** The body of the loop of [Mover::OpFind] for the key [k]. *)
Definition OpFind_key (db : DbSlice) (db_ind : DbIndex) (m : Mover)
    (k : string) : Mover :=
  let index := if bool_decide (k = src_ m) then 0%nat else 1%nat in
  match Find db db_ind k OBJ_SET, index with
  | FindOk co, O => set_found m 0 (ResultOf (IsMember co (member_ m)))
  | res, _ => set_found m index (mkOpResult (find_status res) false)
  end.

(** [Mover::OpFind(t, es)]. *)
Definition Mover_OpFind : Callback Mover := fun t sid db m =>
  let largs := ShardArgsInShard t sid in
  DCHECK "largs.size() < 2" (length largs <? 2)%nat;;
  Done (db, fold_left (OpFind_key db (db_index t)) largs m).

Fixpoint OpMutate_loop (m : Mover) (db_ind : DbIndex) (largs : list string)
    (db : DbSlice) : Outcome DbSlice :=
  match largs with
  | [] => Done db
  | k :: rest =>
      if bool_decide (k = src_ m) then
        let '(db', r) := OpRem db db_ind k [member_ m] in
        CHECK "1 == OpRem(op_args, k, {member_}).value()" (value r =? 1);;
        OpMutate_loop m db_ind rest db'
      else
        DCHECK "k == dest_" (bool_decide (k = dest_ m));;
        let '(db', _) := OpAdd set_max_intset_entries db db_ind k [member_ m] false in
        OpMutate_loop m db_ind rest db'
  end.

(** [Mover::OpMutate(t, es)]. *)
Definition Mover_OpMutate : Callback Mover := fun t sid db m =>
  let largs := ShardArgsInShard t sid in
  DCHECK "largs.size() < 2" (length largs <? 2)%nat;;
  db' ← OpMutate_loop m (db_index t) largs db;
  Done (db', m).

(** [Mover::Find(t)]: the non-concluding step. *)
Definition Mover_Find (m : Mover) (t : Transaction) (cntx : ConnectionContext)
    : Outcome (ConnectionContext * Mover) :=
  Execute Cb_OpFind Mover_OpFind false t cntx m.

(** The decision of [Mover::Commit]: the result and [noop]. *)
Definition Commit_decision (m : Mover) : OpResult Z * bool :=
  if bool_decide (status (found_0 m) = WRONG_TYPE)
     || bool_decide (status (found_1 m) = WRONG_TYPE)
  then (mkOpResult WRONG_TYPE 0, true)
  else if negb (value_or (found_0 m) false) then (ResultOf 0, true)
  else (ResultOf 1, bool_decide (src_ m = dest_ m)).

(** [Mover::Commit(t)]. *)
Definition Mover_Commit (m : Mover) (t : Transaction)
    (cntx : ConnectionContext) : Outcome (ConnectionContext * OpResult Z) :=
  let '(res, noop) := Commit_decision m in
  if noop then
    '(cntx', _) ← Execute NoOpCb NoOp true t cntx tt;
    Done (cntx', res)
  else
    '(cntx', _) ← Execute Cb_OpMutate Mover_OpMutate true t cntx m;
    Done (cntx', res).

(** ** Command handlers *)

(** The key arguments of a command, from the positions of its first and
    last key in the table of [SetFamily::Register]; a negative last
    position counts from the end of the arguments. *)
Definition KeyArgs (first_key : nat) (last_key : Z) (args : list string)
    : list string :=
  let last :=
    if last_key <? 0 then Z.of_nat (length args) + last_key else last_key in
  take (Z.to_nat (last + 1) - first_key)%nat (drop first_key args).

(** [cntx->transaction], as the dispatcher prepares it for the command. *)
Definition transaction_of (cntx : ConnectionContext) (first_key : nat)
    (last_key : Z) (args : list string) : Transaction :=
  mkTransaction (length (shard_set cntx)) (conn_db_index cntx)
    (KeyArgs first_key last_key args).

Definition reply (cntx : ConnectionContext) (r : Reply) : ConnectionContext :=
  emit cntx (EvReply r).

(** [SetFamily::SAdd]. An unexpected status is logged and answered with a
    null reply. *)
Definition SAdd (args : list string) (cntx : ConnectionContext)
    : Outcome ConnectionContext :=
  let key := ArgS args 1 in
  let vals := drop 2 args in
  let t := transaction_of cntx 1 1 args in
  let cb : Callback (OpResult Z) := fun t shard db _ =>
    let '(db', r) := OpAdd set_max_intset_entries db (db_index t) key vals false in
    Done (db', r) in
  '(cntx, result) ← ScheduleSingleHop Cb_single cb t cntx (ResultOf 0);
  if is_ok result then Done (reply cntx (SendLong (value result)))
  else
    match status result with
    | WRONG_TYPE => Done (reply cntx (SendError kWrongTypeErr))
    | _ => Done (reply cntx SendNull)
    end.

(** [SetFamily::SIsMember]. *)
Definition SIsMember (args : list string) (cntx : ConnectionContext)
    : Outcome ConnectionContext :=
  let key := ArgS args 1 in
  let val := ArgS args 2 in
  let t := transaction_of cntx 1 1 args in
  let cb : Callback OpStatus := fun t shard db _ =>
    match Find db (db_index t) key OBJ_SET with
    | FindOk co => Done (db, if IsMember co val then OK else KEY_NOTFOUND)
    | FindFailed st => Done (db, st)
    end in
  '(cntx, result) ← ScheduleSingleHop Cb_single cb t cntx OK;
  match result with
  | OK => Done (reply cntx (SendLong 1))
  | _ => Done (reply cntx (SendLong 0))
  end.

(** [SetFamily::SMove]. *)
Definition SMove (args : list string) (cntx : ConnectionContext)
    : Outcome ConnectionContext :=
  let src := ArgS args 1 in
  let dest := ArgS args 2 in
  let member := ArgS args 3 in
  let t := transaction_of cntx 1 2 args in
  let mover := mkMover src dest member (ResultOf false) (ResultOf false) in
  let cntx := Schedule cntx in
  '(cntx, mover) ← Mover_Find mover t cntx;
  '(cntx, result) ← Mover_Commit mover t cntx;
  if negb (is_ok result) then
    Done (reply cntx (SendError (StatusError (status result))))
  else Done (reply cntx (SendLong (value result))).

(** [SetFamily::SRem]. *)
Definition SRem (args : list string) (cntx : ConnectionContext)
    : Outcome ConnectionContext :=
  let key := ArgS args 1 in
  let vals := drop 2 args in
  let t := transaction_of cntx 1 1 args in
  let cb : Callback (OpResult Z) := fun t shard db _ =>
    let '(db', r) := OpRem db (db_index t) key vals in
    Done (db', r) in
  '(cntx, result) ← ScheduleSingleHop Cb_single cb t cntx (ResultOf 0);
  match status result with
  | WRONG_TYPE => Done (reply cntx (SendError kWrongTypeErr))
  | OK => Done (reply cntx (SendLong (value result)))
  | _ => Done (reply cntx (SendLong 0))
  end.

(** [SetFamily::SCard]. The callback returns an [OpResult<uint32_t>], to
    which the size is narrowed. *)
Definition SCard (args : list string) (cntx : ConnectionContext)
    : Outcome ConnectionContext :=
  let key := ArgS args 1 in
  let t := transaction_of cntx 1 1 args in
  let cb : Callback (OpResult Z) := fun t shard db _ =>
    match Find db (db_index t) key OBJ_SET with
    | FindFailed st => Done (db, mkOpResult st 0)
    | FindOk co => Done (db, ResultOf (Size co mod UINT32_MOD))
    end in
  '(cntx, result) ← ScheduleSingleHop Cb_single cb t cntx (ResultOf 0);
  match status result with
  | OK => Done (reply cntx (SendLong (value result)))
  | WRONG_TYPE => Done (reply cntx (SendError kWrongTypeErr))
  | _ => Done (reply cntx (SendLong 0))
  end.

(** [SetFamily::SPop]. Without a count the reply is the member popped, or
    null for a missing key; [front()] of an empty vector is undefined. *)
Definition SPop (args : list string) (cntx : ConnectionContext)
    : Outcome ConnectionContext :=
  let key := ArgS args 1 in
  match (if (2 <? length args)%nat then SimpleAtoi (ArgS args 2)
         else Some 1%nat) with
  | None => Done (reply cntx (SendError kInvalidIntErr))
  | Some count =>
      let t := transaction_of cntx 1 1 args in
      let cb : Callback (OpResult StringVec) := fun t shard db _ =>
        let '(db', r) := OpPop db (db_index t) key count in
        Done (db', r) in
      '(cntx, result) ← ScheduleSingleHop Cb_single cb t cntx (ResultOf []);
      if is_ok result || bool_decide (status result = KEY_NOTFOUND) then
        if (length args =? 2)%nat then
          if bool_decide (status result = KEY_NOTFOUND) then
            Done (reply cntx SendNull)
          else
            DCHECK "1 == result.value().size()"
              (length (value result) =? 1)%nat;;
            match value result with
            | front :: _ => Done (reply cntx (SendBulkString front))
            | [] => Aborted "result.value().front()"
            end
        else Done (reply cntx (SendStringArr (value result)))
      else Done (reply cntx (SendError (StatusError (status result))))
  end.

(** [ResultStringVec result_set(n, OpStatus::SKIPPED)]. *)
Definition skipped_results (n : nat) : ResultStringVec :=
  replicate n (mkOpResult SKIPPED []).

(** The replies of the array commands are sorted inside a script. *)
Definition script_sorted (cntx : ConnectionContext) (arr : list string)
    : list string :=
  if script_info cntx then sort_strings arr else arr.

(** [SetFamily::SDiff]. *)
Definition SDiff (args : list string) (cntx : ConnectionContext)
    : Outcome ConnectionContext :=
  let t := transaction_of cntx 1 (-1) args in
  let result_set := skipped_results (shard_set_size t) in
  let src_key := ArgS args 1 in
  let src_shard := Shard src_key (length result_set) in
  let cb : Callback ResultStringVec := fun t shard db result_set =>
    let largs := ShardArgsInShard t shard in
    if (shard =? src_shard)%nat then
      CHECK "src_key == largs.front()" (bool_decide (head largs = Some src_key));;
      r ← OpDiff t shard db;
      Done (db, <[shard := r]> result_set)
    else
      r ← OpUnion db (db_index t) largs;
      Done (db, <[shard := r]> result_set) in
  '(cntx, result_set) ← ScheduleSingleHop Cb_diff cb t cntx result_set;
  let rsv := DiffResultVec result_set src_shard in
  if negb (is_ok rsv) then
    Done (reply cntx (SendError (StatusError (status rsv))))
  else
    let arr := ToSvArray (value rsv) in
    Done (reply cntx (SendStringArr (script_sorted cntx arr))).

(** The callback of the concluding hop of the STORE commands. *)
Definition store_cb (dest_shard : ShardId) (dest_key : string)
    (result : StringVec) : Callback unit := fun t shard db c =>
  if (shard =? dest_shard)%nat then
    let '(db', _) :=
      OpAdd set_max_intset_entries db (db_index t) dest_key result true in
    Done (db', c)
  else Done (db, c).

(** The callback of the first hop of [SetFamily::SDiffStore]. *)
Definition SDiffStore_diff_cb (dest_key src_key : string)
    (dest_shard src_shard : ShardId) : Callback ResultStringVec :=
  fun t shard db result_set =>
  let largs := ShardArgsInShard t shard in
  DCHECK "!largs.empty()" (negb (bool_decide (largs = [])));;
  '(largs, stop) ←
    (if (shard =? dest_shard)%nat then
       CHECK "largs.front() == dest_key"
         (bool_decide (head largs = Some dest_key));;
       let largs := drop 1 largs in
       Done (largs, bool_decide (largs = []))
     else Done (largs, false));
  if (stop : bool) then Done (db, result_set)
  else if (shard =? src_shard)%nat then
    CHECK "src_key == largs.front()" (bool_decide (head largs = Some src_key));;
    r ← OpDiff t shard db;
    Done (db, <[shard := r]> result_set)
  else
    r ← OpUnion db (db_index t) largs;
    Done (db, <[shard := r]> result_set).

(** [SetFamily::SDiffStore] from the combination of the per-shard results
    of the first hop on. *)
Definition SDiffStore_conclude (t : Transaction) (dest_key : string)
    (dest_shard src_shard : ShardId) (cntx : ConnectionContext)
    (result_set : ResultStringVec) : Outcome ConnectionContext :=
  let rsv := DiffResultVec result_set src_shard in
  if negb (is_ok rsv) then
    '(cntx, _) ← Execute NoOpCb NoOp true t cntx tt;
    Done (reply cntx (SendError (StatusError (status rsv))))
  else
    let result := ToSvArray (value rsv) in
    '(cntx, _) ←
      Execute Cb_store (store_cb dest_shard dest_key result) true t cntx tt;
    Done (reply cntx (SendLong (Z.of_nat (length result)))).

(** [SetFamily::SDiffStore]. *)
Definition SDiffStore (args : list string) (cntx : ConnectionContext)
    : Outcome ConnectionContext :=
  let t := transaction_of cntx 1 (-1) args in
  let result_set := skipped_results (shard_set_size t) in
  let dest_key := ArgS args 1 in
  let dest_shard := Shard dest_key (length result_set) in
  let src_key := ArgS args 2 in
  let src_shard := Shard src_key (length result_set) in
  let cntx := Schedule cntx in
  '(cntx, result_set) ←
    Execute Cb_diff (SDiffStore_diff_cb dest_key src_key dest_shard src_shard)
      false t cntx result_set;
  SDiffStore_conclude t dest_key dest_shard src_shard cntx result_set.

(** [SetFamily::SMembers]. *)
Definition SMembers (args : list string) (cntx : ConnectionContext)
    : Outcome ConnectionContext :=
  let t := transaction_of cntx 1 1 args in
  let cb : Callback (OpResult StringVec) := fun t shard db _ =>
    r ← OpInter t shard db false;
    Done (db, r) in
  '(cntx, result) ← ScheduleSingleHop Cb_inter cb t cntx (ResultOf []);
  if is_ok result || bool_decide (status result = KEY_NOTFOUND) then
    Done (reply cntx (SendStringArr (script_sorted cntx (value result))))
  else Done (reply cntx (SendError (StatusError (status result)))).

(** [SetFamily::SInter]. *)
Definition SInter (args : list string) (cntx : ConnectionContext)
    : Outcome ConnectionContext :=
  let t := transaction_of cntx 1 (-1) args in
  let result_set := skipped_results (shard_set_size t) in
  let cb : Callback ResultStringVec := fun t shard db result_set =>
    r ← OpInter t shard db false;
    Done (db, <[shard := r]> result_set) in
  '(cntx, result_set) ← ScheduleSingleHop Cb_inter cb t cntx result_set;
  let result := InterResultVec result_set (unique_shard_cnt t) in
  if is_ok result then
    Done (reply cntx (SendStringArr (script_sorted cntx (value result))))
  else Done (reply cntx (SendError (StatusError (status result)))).

(** The callback of the first hop of [SetFamily::SInterStore]; the closure
    also captures the counter [inter_shard_cnt]. *)
Definition SInterStore_inter_cb (dest_key : string) (dest_shard : ShardId)
    : Callback (ResultStringVec * Z) :=
  fun t shard db '(result_set, inter_shard_cnt) =>
  let largs := ShardArgsInShard t shard in
  stop ←
    (if (shard =? dest_shard)%nat then
       CHECK "largs.front() == dest_key"
         (bool_decide (head largs = Some dest_key));;
       Done (length largs =? 1)%nat
     else Done false);
  if (stop : bool) then Done (db, (result_set, inter_shard_cnt))
  else
    let inter_shard_cnt := add32 inter_shard_cnt 1 in
    r ← OpInter t shard db (shard =? dest_shard)%nat;
    Done (db, (<[shard := r]> result_set, inter_shard_cnt)).

(** [SetFamily::SInterStore] from the combination of the per-shard results
    of the first hop on. *)
Definition SInterStore_conclude (t : Transaction) (dest_key : string)
    (dest_shard : ShardId) (cntx : ConnectionContext)
    (result_set : ResultStringVec) (inter_shard_cnt : Z)
    : Outcome ConnectionContext :=
  let result := InterResultVec result_set inter_shard_cnt in
  if negb (is_ok result) then
    '(cntx, _) ← Execute NoOpCb NoOp true t cntx tt;
    Done (reply cntx (SendError (StatusError (status result))))
  else
    '(cntx, _) ←
      Execute Cb_store (store_cb dest_shard dest_key (value result)) true t cntx tt;
    Done (reply cntx (SendLong (Z.of_nat (length (value result))))).

(** [SetFamily::SInterStore]. *)
Definition SInterStore (args : list string) (cntx : ConnectionContext)
    : Outcome ConnectionContext :=
  let t := transaction_of cntx 1 (-1) args in
  let result_set := skipped_results (shard_set_size t) in
  let dest_key := ArgS args 1 in
  let dest_shard := Shard dest_key (length result_set) in
  let cntx := Schedule cntx in
  '(cntx, (result_set, inter_shard_cnt)) ←
    Execute Cb_inter (SInterStore_inter_cb dest_key dest_shard) false t cntx
      (result_set, 0);
  SInterStore_conclude t dest_key dest_shard cntx result_set inter_shard_cnt.

(** [SetFamily::SUnion]. Its per-shard results start out
    default-constructed, which is [OK] with an empty vector. *)
Definition SUnion (args : list string) (cntx : ConnectionContext)
    : Outcome ConnectionContext :=
  let t := transaction_of cntx 1 (-1) args in
  let result_set : ResultStringVec :=
    replicate (shard_set_size t) (ResultOf []) in
  let cb : Callback ResultStringVec := fun t shard db result_set =>
    let largs := ShardArgsInShard t shard in
    r ← OpUnion db (db_index t) largs;
    Done (db, <[shard := r]> result_set) in
  '(cntx, result_set) ← ScheduleSingleHop Cb_union cb t cntx result_set;
  let unionset := UnionResultVec result_set in
  if is_ok unionset then
    let arr := ToSvArray (value unionset) in
    Done (reply cntx (SendStringArr (script_sorted cntx arr)))
  else Done (reply cntx (SendError (StatusError (status unionset)))).

(** The callback of the first hop of [SetFamily::SUnionStore]. *)
Definition SUnionStore_union_cb (dest_key : string) (dest_shard : ShardId)
    : Callback ResultStringVec :=
  fun t shard db result_set =>
  let largs := ShardArgsInShard t shard in
  '(largs, stop) ←
    (if (shard =? dest_shard)%nat then
       CHECK "largs.front() == dest_key"
         (bool_decide (head largs = Some dest_key));;
       let largs := drop 1 largs in
       Done (largs, bool_decide (largs = []))
     else Done (largs, false));
  if (stop : bool) then Done (db, result_set)
  else
    r ← OpUnion db (db_index t) largs;
    Done (db, <[shard := r]> result_set).

(** [SetFamily::SUnionStore] from the combination of the per-shard results
    of the first hop on. *)
Definition SUnionStore_conclude (t : Transaction) (dest_key : string)
    (dest_shard : ShardId) (cntx : ConnectionContext)
    (result_set : ResultStringVec) : Outcome ConnectionContext :=
  let unionset := UnionResultVec result_set in
  if negb (is_ok unionset) then
    '(cntx, _) ← Execute NoOpCb NoOp true t cntx tt;
    Done (reply cntx (SendError (StatusError (status unionset))))
  else
    let result := ToSvArray (value unionset) in
    '(cntx, _) ←
      Execute Cb_store (store_cb dest_shard dest_key result) true t cntx tt;
    Done (reply cntx (SendLong (Z.of_nat (length result)))).

(** [SetFamily::SUnionStore]. *)
Definition SUnionStore (args : list string) (cntx : ConnectionContext)
    : Outcome ConnectionContext :=
  let t := transaction_of cntx 1 (-1) args in
  let result_set := skipped_results (shard_set_size t) in
  let dest_key := ArgS args 1 in
  let dest_shard := Shard dest_key (length result_set) in
  let cntx := Schedule cntx in
  '(cntx, result_set) ←
    Execute Cb_union (SUnionStore_union_cb dest_key dest_shard) false t cntx
      result_set;
  SUnionStore_conclude t dest_key dest_shard cntx result_set.

(** ** The command table *)

(** The flags of a command, or-ed into its mask. *)
Inductive CO : Type :=
  | CO_READONLY
  | CO_WRITE
  | CO_FAST
  | CO_DENYOOM
  | CO_RANDOM.

(** [CommandId]: the name, the mask, the arity (a negative one is a lower
    bound on the number of arguments), the positions of the first and the
    last key, the step between keys, and the handler. *)
Record CommandId : Type := CI {
  ci_name : string;
  ci_opt_mask : list CO;
  ci_arity : Z;
  ci_first_key : nat;
  ci_last_key : Z;
  ci_step : nat;
  ci_handler : list string -> ConnectionContext -> Outcome ConnectionContext
}.

(** [SetFamily::Register]: the entries it puts into the registry. *)
Definition Register : list CommandId :=
  [ CI "SADD" [CO_WRITE; CO_FAST; CO_DENYOOM] (-3) 1 1 1 SAdd;
    CI "SDIFF" [CO_READONLY] (-2) 1 (-1) 1 SDiff;
    CI "SDIFFSTORE" [CO_WRITE; CO_DENYOOM] (-3) 1 (-1) 1 SDiffStore;
    CI "SINTER" [CO_READONLY] (-2) 1 (-1) 1 SInter;
    CI "SINTERSTORE" [CO_WRITE; CO_DENYOOM] (-3) 1 (-1) 1 SInterStore;
    CI "SMEMBERS" [CO_READONLY] 2 1 1 1 SMembers;
    CI "SISMEMBER" [CO_FAST; CO_READONLY] 3 1 1 1 SIsMember;
    CI "SMOVE" [CO_FAST; CO_WRITE] 4 1 2 1 SMove;
    CI "SREM" [CO_WRITE; CO_FAST; CO_DENYOOM] (-3) 1 1 1 SRem;
    CI "SCARD" [CO_READONLY; CO_FAST] 2 1 1 1 SCard;
    CI "SPOP" [CO_WRITE; CO_RANDOM; CO_FAST] (-2) 1 1 1 SPop;
    CI "SUNION" [CO_READONLY] (-2) 1 (-1) 1 SUnion;
    CI "SUNIONSTORE" [CO_WRITE; CO_DENYOOM] (-3) 1 (-1) 1 SUnionStore ]%string.

End Transactions.

(** ** Vocabulary of the statements *)

(** The members of a set, as the texts [FillSet] enumerates. *)
Definition members (r : SetRepr) : list string := FillSet (CoSet r).

Definition is_intset (r : SetRepr) : Prop :=
  match r with kEncodingIntSet _ => True | kEncodingStrMap _ => False end.

(** The number of values of [vals] that are new to a set with the members
    [old], a repeated value counting once. *)
Definition new_count (old vals : list string) : nat :=
  length (remove_dups (list_difference vals old)).

(** The number of members of [old] that occur among [vals]. *)
Definition removed_count (old vals : list string) : nat :=
  length (list_intersection old vals).

(** The invariant of the data model on a stored set: the integers of an
    IntSet are strictly ascending and within 64 bits, a FlatSet has no
    repetition; and on a dictionary: every set in it is so. *)
Definition intset_wf (iset : intset) : Prop :=
  StronglySorted Z.lt iset /\ Forall (fun z => in_llong z = true) iset.

Definition set_wf (r : SetRepr) : Prop :=
  match r with
  | kEncodingIntSet iset => intset_wf iset
  | kEncodingStrMap fs => NoDup fs
  end.

Definition db_wf (db : DbSlice) : Prop :=
  forall k r, db !! k = Some (CoSet r) -> set_wf r.

(** Two more invariants of a dictionary: an IntSet holds at most
    [max_entries] integers, and no stored set is empty. *)
Definition db_bounded (max : Z) (db : DbSlice) : Prop :=
  forall k iset,
    db !! k = Some (CoSet (kEncodingIntSet iset)) ->
    intsetLen iset <= max_entries max.

Definition db_nonempty (db : DbSlice) : Prop :=
  forall k r, db !! k = Some (CoSet r) -> members r <> [].

(** The contributions of the shards to a combiner: the values of the
    results that are not [SKIPPED], in shard order. *)
Definition contributions (result_vec : ResultStringVec) : list StringVec :=
  value <$> filter (fun res => status res <> SKIPPED) result_vec.

(** The status of the first result that is neither [OK] nor [SKIPPED]. *)
Definition first_failure (result_vec : ResultStringVec) : option OpStatus :=
  status <$>
    List.find
      (fun res => negb (is_ok res) && negb (bool_decide (status res = SKIPPED)))
      result_vec.

(** How often [s] occurs in a contribution, and in a list of them. *)
Definition occurrences (s : string) (c : StringVec) : nat :=
  length (filter (fun x => x = s) c).

Definition later_occurrences (s : string) (rest : list StringVec) : nat :=
  sum_list (occurrences s <$> rest).

(** The members of [uniques] that [InterResultVec] selects, the counters
    after the contributions [cs] were counted, and a counter after [n]
    increments. *)
Definition select_counted (required_shard_cnt : Z) (uniques : CountMap)
    : StringVec :=
  fst <$> filter (fun k_v => snd k_v = required_shard_cnt) uniques.

Definition increment_all (uniques : CountMap) (cs : list StringVec) : CountMap :=
  fold_left (fun u c => fold_left CountMap_increment c u) cs uniques.

Definition bump (n : nat) (x : Z) : Z := Nat.iter n (fun x => add32 x 1) x.

(** A reply that is an error, and the events of a command that went
    through its two hops: scheduling, a first hop, a concluding hop and the
    reply, the concluding hop being [NoOpCb] when the reply is an error. *)
Definition is_error_reply (r : Reply) : Prop :=
  match r with SendError _ => True | _ => False end.

Definition concluded_after (before after : list Event) : Prop :=
  exists cb1 cb2 r,
    after = before ++ [EvSchedule; EvExecute cb1 false; EvExecute cb2 true;
                       EvReply r]
    /\ (is_error_reply r -> cb2 = NoOpCb).

(** The context a command leaves that ran one concluding hop, which left
    the dictionaries [shards], and then replied [r]. *)
Definition after_single_hop (cntx : ConnectionContext) (name : HopCallback)
    (shards : list DbSlice) (r : Reply) : ConnectionContext :=
  reply (emit (with_shards (Schedule cntx) shards) (EvExecute name true)) r.

(** What the store holds under a key: the entry of the key in the
    dictionary of its shard, for the hash function [hash]. *)
Definition stored (hash : string -> nat) (cntx : ConnectionContext)
    (key : string) : option CompactObj :=
  db ← shard_set cntx !! (hash key mod length (shard_set cntx))%nat;
  db !! (conn_db_index cntx, key).

(** The events with which a command may end: a reply alone, a single
    concluding hop and a reply, or two hops and a reply. *)
Definition well_ended (before after : list Event) : Prop :=
  (exists r, after = before ++ [EvReply r])
  \/ (exists name r,
        after = before ++ [EvSchedule; EvExecute name true; EvReply r])
  \/ concluded_after before after.

(** Whether a number of arguments suits the arity of a command. *)
Definition arity_ok (arity : Z) (args : list string) : Prop :=
  if arity <? 0 then - arity <= Z.of_nat (length args)
  else Z.of_nat (length args) = arity.

(** What the find step of SMOVE records for the source in the dictionary
    [db], and two movers with the same keys and member. *)
Definition source_found (db : DbSlice) (db_ind : DbIndex) (m : Mover)
    : OpResult bool :=
  match Find db db_ind (src_ m) OBJ_SET with
  | FindOk co => ResultOf (IsMember co (member_ m))
  | FindFailed st => mkOpResult st false
  end.

Definition same_keys (m m' : Mover) : Prop :=
  src_ m' = src_ m /\ dest_ m' = dest_ m /\ member_ m' = member_ m.

(** ** Concrete dictionaries *)

Local Open Scope string_scope.

(** Two shards, keys routed by their length: ["a"] lives on shard 1 and
    holds 1, 2, 3; ["bb"] lives on shard 0 and holds 2, 3, 4. *)
Definition two_shards : list DbSlice :=
  [ {[ (0%nat, "bb") := CoSet (kEncodingIntSet [2; 3; 4]) ]};
    {[ (0%nat, "a") := CoSet (kEncodingIntSet [1; 2; 3]) ]} ].

(** One shard with the sets ["a"] = 1, 2, 3 and ["b"] = 2, 3, 4 and the
    string ["k"]. *)
Definition one_shard : list DbSlice :=
  [ <[ (0%nat, "a") := CoSet (kEncodingIntSet [1; 2; 3]) ]>
      (<[ (0%nat, "b") := CoSet (kEncodingIntSet [2; 3; 4]) ]>
         {[ (0%nat, "k") := CoString "string" ]}) ].

Definition context_of (shards : list DbSlice) : ConnectionContext :=
  mkContext shards 0 false [].

(** Three shards, keys routed by their length: the string ["kkk"] on
    shard 0, the set ["a"] = 1, 2, 3 on shard 1, nothing on shard 2. *)
Definition three_shards : list DbSlice :=
  [ {[ (0%nat, "kkk") := CoString "string" ]};
    {[ (0%nat, "a") := CoSet (kEncodingIntSet [1; 2; 3]) ]};
    ∅ ].

(** A parser of counts for the examples: the number an unsigned decimal
    numeral denotes. *)
Definition decimal_count (s : string) : option nat :=
  Nat.of_uint <$> NilEmpty.uint_of_string s.

Local Close Scope string_scope.

(** * Properties *)

(** ** Decimal text *)

Lemma FastIntToBuffer_inj (a b : Z) :
  FastIntToBuffer a = FastIntToBuffer b -> a = b.
Proof.
  unfold FastIntToBuffer. intros H.
  apply DecimalZ.to_int_inj.
  assert (Hs : Some (Z.to_int a) = Some (Z.to_int b)).
  { rewrite <- !NilEmpty.isi. by rewrite H. }
  by injection Hs.
Qed.

Lemma string2ll_canonical (s : string) (z : Z) :
  string2ll s = Some z -> FastIntToBuffer z = s.
Proof.
  unfold string2ll. destruct (NilEmpty.int_of_string s) as [d|]; [|done].
  simpl. destruct (in_llong (Z.of_int d) && _) eqn:E; [|done].
  intros [= <-]. apply andb_true_iff in E as [_ E].
  by apply String.eqb_eq in E.
Qed.

Lemma string2ll_in_llong (s : string) (z : Z) :
  string2ll s = Some z -> in_llong z = true.
Proof.
  unfold string2ll. destruct (NilEmpty.int_of_string s) as [d|]; [|done].
  simpl. destruct (in_llong (Z.of_int d) && _) eqn:E; [|done].
  intros [= <-]. by apply andb_true_iff in E as [E _].
Qed.

Lemma string2ll_FastIntToBuffer (z : Z) :
  in_llong z = true -> string2ll (FastIntToBuffer z) = Some z.
Proof.
  intros Hz. unfold string2ll, FastIntToBuffer at 1.
  rewrite NilEmpty.isi. simpl. rewrite DecimalZ.of_to, Hz.
  by rewrite String.eqb_refl.
Qed.

Lemma string2ll_inj (s1 s2 : string) (z : Z) :
  string2ll s1 = Some z -> string2ll s2 = Some z -> s1 = s2.
Proof.
  intros H1 H2. apply string2ll_canonical in H1, H2. congruence.
Qed.

(** ** IntSet and FlatSet as lists without repetition *)

Lemma intsetFind_true (iset : intset) (v : Z) :
  intsetFind iset v = true <-> v ∈ iset.
Proof.
  unfold intsetFind. rewrite existsb_exists. split.
  - intros (x & Hx & Heq). apply Z.eqb_eq in Heq as ->.
    by apply list_elem_of_In.
  - intros Hv. exists v. split; [by apply list_elem_of_In | apply Z.eqb_refl].
Qed.

Lemma intsetFind_false (iset : intset) (v : Z) :
  intsetFind iset v = false <-> v ∉ iset.
Proof.
  rewrite <- intsetFind_true. by destruct (intsetFind iset v).
Qed.

Lemma intsetInsertSorted_perm (v : Z) (iset : intset) :
  intsetInsertSorted v iset ≡ₚ v :: iset.
Proof.
  induction iset as [|x r IH]; simpl; [done|].
  destruct (v <? x); [done|]. rewrite IH. apply Permutation_swap.
Qed.

Lemma intsetDelete_perm (v : Z) (iset : intset) :
  v ∈ iset -> iset ≡ₚ v :: intsetDelete v iset.
Proof.
  induction iset as [|x r IH]; simpl; [by intros ?%elem_of_nil|].
  destruct (v =? x) eqn:E.
  - apply Z.eqb_eq in E as ->. done.
  - apply Z.eqb_neq in E. intros [?|Hin]%elem_of_cons; [done|].
    rewrite (IH Hin) at 1. apply Permutation_swap.
Qed.

Lemma FlatSet_Contains_true (fs : FlatSet) (v : string) :
  FlatSet_Contains fs v = true <-> v ∈ fs.
Proof.
  unfold FlatSet_Contains. rewrite existsb_exists. split.
  - intros (x & Hx & Heq). apply String.eqb_eq in Heq as ->.
    by apply list_elem_of_In.
  - intros Hv. exists v. split; [by apply list_elem_of_In | apply String.eqb_refl].
Qed.

Lemma FlatSet_Contains_false (fs : FlatSet) (v : string) :
  FlatSet_Contains fs v = false <-> v ∉ fs.
Proof.
  rewrite <- FlatSet_Contains_true. by destruct (FlatSet_Contains fs v).
Qed.

Lemma FlatSet_Delete_perm (v : string) (fs : FlatSet) :
  v ∈ fs -> fs ≡ₚ v :: FlatSet_Delete v fs.
Proof.
  induction fs as [|x r IH]; simpl; [by intros ?%elem_of_nil|].
  destruct (String.eqb v x) eqn:E.
  - apply String.eqb_eq in E as ->. done.
  - apply String.eqb_neq in E. intros [?|Hin]%elem_of_cons; [done|].
    rewrite (IH Hin) at 1. apply Permutation_swap.
Qed.

(** Counters that stay below 2^32 are not affected by the wrap-around. *)
Lemma add32_mod (a b : Z) : add32 a b mod UINT32_MOD = (a mod UINT32_MOD + b) mod UINT32_MOD.
Proof.
  unfold add32. rewrite Z.mod_mod by (unfold UINT32_MOD; lia).
  by rewrite Zplus_mod_idemp_l.
Qed.

Lemma add32_range (a b : Z) : 0 <= add32 a b < UINT32_MOD.
Proof. unfold add32. apply Z.mod_pos_bound. unfold UINT32_MOD. lia. Qed.

(** A set that grew from [old] by the values [vals] has as many new members
    as [vals] has distinct values outside [old]. *)
Lemma grown_set_perm (old vals new : list string) :
  NoDup old -> NoDup new ->
  (forall s, s ∈ new <-> s ∈ old \/ s ∈ vals) ->
  new ≡ₚ old ++ remove_dups (list_difference vals old).
Proof.
  intros Hold Hnew Hiff. apply NoDup_Permutation; [done| |].
  - apply NoDup_app. split_and!; [done| |apply NoDup_remove_dups].
    intros s Hs Hs'. apply elem_of_remove_dups, list_elem_of_difference in Hs'.
    tauto.
  - intros s. rewrite Hiff, elem_of_app, elem_of_remove_dups,
      list_elem_of_difference.
    destruct (decide (s ∈ old)); tauto.
Qed.

Lemma list_difference_length_le (vals old : list string) :
  (length (remove_dups (list_difference vals old)) <= length vals)%nat.
Proof.
  apply submseteq_length, NoDup_submseteq; [apply NoDup_remove_dups|].
  intros s Hs. apply elem_of_remove_dups, list_elem_of_difference in Hs. tauto.
Qed.

(** ** The loops of OpAdd *)

Lemma UINT32_MOD_pos : 0 < UINT32_MOD.
Proof. unfold UINT32_MOD. lia. Qed.

Lemma counter_step (res b d t res1 res' : Z) :
  res1 mod UINT32_MOD = (res mod UINT32_MOD + b) mod UINT32_MOD ->
  res' mod UINT32_MOD = (res1 mod UINT32_MOD + d) mod UINT32_MOD ->
  t = b + d ->
  res' mod UINT32_MOD = (res mod UINT32_MOD + t) mod UINT32_MOD.
Proof.
  intros H1 H2 ->. rewrite H2, H1, Zplus_mod_idemp_l. f_equal. lia.
Qed.

Lemma counter_exact (res d : Z) :
  0 <= res < UINT32_MOD -> 0 <= d < UINT32_MOD ->
  res mod UINT32_MOD = (0 mod UINT32_MOD + d) mod UINT32_MOD -> res = d.
Proof.
  intros Hr Hd. rewrite Zmod_0_l, Z.add_0_l.
  by rewrite !Z.mod_small.
Qed.

Lemma intsetAdd_spec (iset : intset) (v : Z) :
  (intsetAdd iset v = (iset, false) ∧ v ∈ iset)
  ∨ (∃ iset', intsetAdd iset v = (iset', true) ∧ iset' ≡ₚ v :: iset ∧ v ∉ iset).
Proof.
  unfold intsetAdd. destruct (intsetFind iset v) eqn:E.
  - left. by apply intsetFind_true in E.
  - right. apply intsetFind_false in E.
    eexists. split_and!; [done|apply intsetInsertSorted_perm|done].
Qed.

Lemma OpAdd_intset_loop_spec (max : Z) (vals : list string) :
  forall (iset : intset) (res : Z) iset' res' success,
  OpAdd_intset_loop max vals iset res = (iset', res', success) ->
  NoDup iset ->
  NoDup iset'
  /\ (forall z, z ∈ iset -> z ∈ iset')
  /\ (forall z, z ∈ iset' -> z ∈ iset \/ exists v, v ∈ vals /\ string2ll v = Some z)
  /\ (success = true -> forall v, v ∈ vals -> exists z, string2ll v = Some z /\ z ∈ iset')
  /\ (length iset <= length iset')%nat
  /\ res' mod UINT32_MOD =
       (res mod UINT32_MOD + (Z.of_nat (length iset') - Z.of_nat (length iset))) mod UINT32_MOD
  /\ (0 <= res < UINT32_MOD -> 0 <= res' < UINT32_MOD)
  /\ (success = true ->
        length iset' = length iset \/ intsetLen iset' <= max_entries max)
  /\ (success = false ->
        (exists v, v ∈ vals /\ string2ll v = None)
        \/ ((length iset < length iset')%nat /\ max_entries max < intsetLen iset')).
Proof.
  induction vals as [|val rest IH]; intros iset res iset' res' success Hloop Hnd.
  - simpl in Hloop. injection Hloop as <- <- <-.
    split_and!.
    + done.
    + done.
    + intros z Hz. by left.
    + intros _ v Hv. by apply elem_of_nil in Hv.
    + done.
    + rewrite Z.sub_diag, Z.add_0_r. by rewrite Z.mod_mod by (unfold UINT32_MOD; lia).
    + done.
    + intros _. by left.
    + done.
  - simpl in Hloop. unfold IntsetAddSafe in Hloop.
    destruct (string2ll val) as [llval|] eqn:Hparse.
    + destruct (intsetAdd_spec iset llval) as [[Hadd Hin]|(i1 & Hadd & Hperm & Hnin)];
        rewrite Hadd in Hloop.
      * (* already a member *)
        destruct (IH _ _ _ _ _ Hloop Hnd)
          as (H1 & H2 & H3 & H4 & H5 & H6 & H7 & H8 & H9).
        split_and!.
        -- done.
        -- done.
        -- intros z Hz. destruct (H3 z Hz) as [?|(v & Hv & Hzv)]; [by left|].
           right. exists v. split; [by right|done].
        -- intros Hs v [->|Hv]%elem_of_cons; [|by apply H4].
           exists llval. split; [done|by apply H2].
        -- done.
        -- eapply counter_step; [apply add32_mod|apply H6|simpl; lia].
        -- intros _. apply H7, add32_range.
        -- done.
        -- intros Hs. destruct (H9 Hs) as [(v & Hv & Hn)|?]; [|by right].
           left. exists v. split; [by right|done].
      * (* inserted *)
        assert (Hnd1 : NoDup i1).
        { rewrite Hperm. by apply NoDup_cons. }
        assert (Hlen1 : length i1 = S (length iset)).
        { by rewrite Hperm. }
        destruct (intsetLen i1 <=? max_entries max) eqn:Hmax.
        -- apply Z.leb_le in Hmax.
           destruct (IH _ _ _ _ _ Hloop Hnd1)
             as (H1 & H2 & H3 & H4 & H5 & H6 & H7 & H8 & H9).
           split_and!.
           ++ done.
           ++ intros z Hz. apply H2. rewrite Hperm. by right.
           ++ intros z Hz. destruct (H3 z Hz) as [Hz1|(v & Hv & Hzv)].
              ** rewrite Hperm in Hz1. apply elem_of_cons in Hz1 as [->|?]; [|by left].
                 right. exists val. split; [by left|done].
              ** right. exists v. split; [by right|done].
           ++ intros Hs v [->|Hv]%elem_of_cons; [|by apply H4].
              exists llval. split; [done|]. apply H2. rewrite Hperm. by left.
           ++ lia.
           ++ eapply counter_step; [apply add32_mod|apply H6|simpl; lia].
           ++ intros _. apply H7, add32_range.
           ++ intros Hs. right. unfold intsetLen in *.
              destruct (H8 Hs) as [Heq|?]; [|done]. rewrite Heq. done.
           ++ intros Hs. destruct (H9 Hs) as [(v & Hv & Hn)|[Hlt Hgt]].
              ** left. exists v. split; [by right|done].
              ** right. split; [lia|done].
        -- apply Z.leb_gt in Hmax. injection Hloop as <- <- <-.
           split_and!.
           ++ done.
           ++ intros z Hz. rewrite Hperm. by right.
           ++ intros z Hz. rewrite Hperm in Hz.
              apply elem_of_cons in Hz as [->|?]; [|by left].
              right. exists val. split; [by left|done].
           ++ done.
           ++ lia.
           ++ rewrite add32_mod. simpl. f_equal. lia.
           ++ intros _. apply add32_range.
           ++ done.
           ++ intros _. right. split; [lia|done].
    + (* no integer *)
      injection Hloop as <- <- <-.
      split_and!.
      * done.
      * done.
      * intros z Hz. by left.
      * done.
      * done.
      * rewrite add32_mod. simpl. f_equal. lia.
      * intros _. apply add32_range.
      * done.
      * intros _. left. exists val. split; [by left|done].
Qed.

Lemma FlatSet_Add_spec (fs : FlatSet) (v : string) :
  (FlatSet_Add fs v = (fs, false) ∧ v ∈ fs)
  ∨ (FlatSet_Add fs v = (fs ++ [v], true) ∧ v ∉ fs).
Proof.
  unfold FlatSet_Add. destruct (FlatSet_Contains fs v) eqn:E.
  - left. by apply FlatSet_Contains_true in E.
  - right. by apply FlatSet_Contains_false in E.
Qed.

Lemma ConvertTo_spec (src : intset) :
  forall dest : FlatSet,
  NoDup src -> (forall z, z ∈ src -> FastIntToBuffer z ∉ dest) ->
  ConvertTo src dest = dest ++ (FastIntToBuffer <$> src).
Proof.
  unfold ConvertTo.
  induction src as [|z src IH]; intros dest Hnd Hfresh; simpl.
  - by rewrite app_nil_r.
  - apply NoDup_cons in Hnd as [Hz Hnd].
    destruct (FlatSet_Add_spec dest (FastIntToBuffer z)) as [[_ Hin]|[-> _]].
    + exfalso. apply (Hfresh z); [by left|done].
    + simpl. rewrite IH; [by rewrite <- app_assoc|done|].
      intros z' Hz' [Hin|Hin%list_elem_of_singleton]%elem_of_app.
      * apply (Hfresh z'); [by right|done].
      * apply FastIntToBuffer_inj in Hin as ->. done.
Qed.

Lemma NoDup_map_FastIntToBuffer (iset : intset) :
  NoDup iset -> NoDup (FastIntToBuffer <$> iset).
Proof.
  intros Hnd. apply NoDup_fmap_2_strong; [|done].
  intros a b _ _. apply FastIntToBuffer_inj.
Qed.

Lemma OpAdd_flatset_loop_spec (vals : list string) :
  forall (fs : FlatSet) (res : Z) fs' res',
  OpAdd_flatset_loop vals fs res = (fs', res') ->
  NoDup fs ->
  NoDup fs'
  ∧ (forall s, s ∈ fs' <-> s ∈ fs ∨ s ∈ vals)
  ∧ (length fs <= length fs')%nat
  ∧ res' mod UINT32_MOD =
      (res mod UINT32_MOD + (Z.of_nat (length fs') - Z.of_nat (length fs))) mod UINT32_MOD
  ∧ (0 <= res < UINT32_MOD -> 0 <= res' < UINT32_MOD).
Proof.
  unfold OpAdd_flatset_loop.
  induction vals as [|val rest IH]; intros fs res fs' res' Hloop Hnd; simpl in Hloop.
  - injection Hloop as <- <-. split_and!.
    + done.
    + intros s. split; [by left|]. intros [?|?%elem_of_nil]; done.
    + done.
    + rewrite Z.sub_diag, Z.add_0_r. by rewrite Z.mod_mod by (unfold UINT32_MOD; lia).
    + done.
  - destruct (FlatSet_Add_spec fs val) as [[Hadd Hin]|[Hadd Hnin]];
      rewrite Hadd in Hloop.
    + destruct (IH _ _ _ _ Hloop Hnd) as (H1 & H2 & H3 & H4 & H5).
      split_and!.
      * done.
      * intros s. rewrite H2, elem_of_cons. split; [tauto|].
        intros [?|[->|?]]; tauto.
      * done.
      * eapply counter_step; [apply add32_mod|apply H4|simpl; lia].
      * intros _. apply H5, add32_range.
    + assert (Hnd1 : NoDup (fs ++ [val])).
      { apply NoDup_app. split_and!; [done| |apply NoDup_singleton].
        intros s Hs ->%list_elem_of_singleton. done. }
      destruct (IH _ _ _ _ Hloop Hnd1) as (H1 & H2 & H3 & H4 & H5).
      rewrite length_app in H3, H4. simpl in H3, H4.
      split_and!.
      * done.
      * intros s. rewrite H2, elem_of_app, list_elem_of_singleton, elem_of_cons.
        tauto.
      * lia.
      * eapply counter_step; [apply add32_mod|apply H4|simpl; lia].
      * intros _. apply H5, add32_range.
Qed.

Lemma members_intset_elem (iset : intset) (s : string) :
  s ∈ members (kEncodingIntSet iset) <-> exists z, s = FastIntToBuffer z ∧ z ∈ iset.
Proof. unfold members. simpl. apply list_elem_of_fmap. Qed.

Lemma members_intset_NoDup (iset : intset) :
  NoDup (members (kEncodingIntSet iset)) <-> NoDup iset.
Proof.
  split; [apply NoDup_fmap_1|apply NoDup_map_FastIntToBuffer].
Qed.

Lemma members_intset_length (iset : intset) :
  length (members (kEncodingIntSet iset)) = length iset.
Proof. unfold members. simpl. apply length_fmap. Qed.

Lemma OpAdd_loops_spec (max : Z) (vals : list string) (r0 r : SetRepr) (res : Z) :
  OpAdd_loops max vals r0 = (r, res) ->
  NoDup (members r0) ->
  Z.of_nat (length vals) < UINT32_MOD ->
  NoDup (members r)
  ∧ (forall s, s ∈ members r <-> s ∈ members r0 ∨ s ∈ vals)
  ∧ res = Z.of_nat (new_count (members r0) vals)
  ∧ (is_intset r <->
       is_intset r0
       ∧ Forall (fun v => is_Some (string2ll v)) vals
       ∧ (new_count (members r0) vals = 0%nat
          ∨ Z.of_nat (length (members r0) + new_count (members r0) vals)
              <= max_entries max)).
Proof.
  intros Hloops Hnd0 Hlen.
  assert (Hcount : forall r', NoDup (members r') ->
    (forall s, s ∈ members r' <-> s ∈ members r0 ∨ s ∈ vals) ->
    length (members r') = (length (members r0) + new_count (members r0) vals)%nat
    ∧ Z.of_nat (new_count (members r0) vals) < UINT32_MOD).
  { intros r' Hnd' Hiff. split.
    - rewrite (grown_set_perm _ _ _ Hnd0 Hnd' Hiff). by rewrite length_app.
    - pose proof (list_difference_length_le vals (members r0)).
      unfold new_count. lia. }
  unfold OpAdd_loops in Hloops. destruct r0 as [iset|fs].
  - destruct (OpAdd_intset_loop max vals iset 0) as [[iset' res1] success] eqn:Hloop.
    apply members_intset_NoDup in Hnd0 as Hndi.
    destruct (OpAdd_intset_loop_spec _ _ _ _ _ _ _ Hloop Hndi)
      as (H1 & H2 & H3 & H4 & H5 & H6 & H7 & H8 & H9).
    assert (Hsub : forall s, s ∈ members (kEncodingIntSet iset') ->
                     s ∈ members (kEncodingIntSet iset) ∨ s ∈ vals).
    { intros s (z & -> & Hz)%members_intset_elem.
      destruct (H3 z Hz) as [?|(v & Hv & Hp)].
      - left. apply members_intset_elem. eauto.
      - right. by rewrite (string2ll_canonical _ _ Hp). }
    assert (Hsup : forall s, s ∈ members (kEncodingIntSet iset) ->
                     s ∈ members (kEncodingIntSet iset')).
    { intros s (z & -> & Hz)%members_intset_elem.
      apply members_intset_elem. eauto. }
    assert (Hr1 : 0 <= res1 < UINT32_MOD) by (apply H7; unfold UINT32_MOD; lia).
    destruct success.
    + injection Hloops as <- <-.
      assert (Hiff : forall s, s ∈ members (kEncodingIntSet iset') <->
                       s ∈ members (kEncodingIntSet iset) ∨ s ∈ vals).
      { intros s. split; [apply Hsub|]. intros [?|Hv]; [by apply Hsup|].
        destruct (H4 eq_refl s Hv) as (z & Hp & Hz).
        apply members_intset_elem. exists z.
        by rewrite (string2ll_canonical _ _ Hp). }
      assert (Hnd' : NoDup (members (kEncodingIntSet iset')))
        by by apply members_intset_NoDup.
      destruct (Hcount _ Hnd' Hiff) as [Hl Hb].
      rewrite !members_intset_length in Hl.
      split_and!.
      * done.
      * done.
      * apply counter_exact; [done|lia|]. rewrite H6. f_equal. lia.
      * split; [intros _|done]. split_and!; [done| |].
        -- apply Forall_forall. intros v Hv.
           destruct (H4 eq_refl v Hv) as (z & -> & _). by eexists.
        -- rewrite members_intset_length.
           destruct (H8 eq_refl) as [Heq|Hle]; [left; lia|right].
           unfold intsetLen in Hle. lia.
    + rewrite ConvertTo_spec in Hloops; [|done|intros z _ Hin; by apply elem_of_nil in Hin].
      simpl in Hloops.
      destruct (OpAdd_flatset_loop vals (FastIntToBuffer <$> iset') res1)
        as [fs' res'] eqn:Hfl.
      injection Hloops as <- <-.
      destruct (OpAdd_flatset_loop_spec _ _ _ _ _ Hfl (NoDup_map_FastIntToBuffer _ H1))
        as (F1 & F2 & F3 & F4 & F5).
      assert (Hiff : forall s, s ∈ members (kEncodingStrMap fs') <->
                       s ∈ members (kEncodingIntSet iset) ∨ s ∈ vals).
      { intros s. unfold members at 1. simpl. rewrite F2. split.
        - intros [Hs|?]; [|by right]. by apply Hsub.
        - intros [Hs|?]; [|by right]. left. by apply Hsup. }
      destruct (Hcount (kEncodingStrMap fs') F1 Hiff) as [Hl Hb].
      rewrite members_intset_length in Hl. unfold members in Hl at 1. simpl in Hl.
      rewrite length_fmap in F3, F4.
      split_and!.
      * done.
      * done.
      * apply counter_exact; [by apply F5|lia|].
        eapply (counter_step 0 _ _ _ res1); [apply H6|apply F4|lia].
      * split; [done|]. intros (_ & Hall & Hcard). simpl.
        destruct (H9 eq_refl) as [(v & Hv & Hn)|[Hlt Hgt]].
        -- rewrite Forall_forall in Hall. destruct (Hall v Hv) as [z Hz]. congruence.
        -- rewrite members_intset_length in Hcard. unfold intsetLen in Hgt.
           destruct Hcard as [?|?]; lia.
  - destruct (OpAdd_flatset_loop vals fs 0) as [fs' res'] eqn:Hfl.
    injection Hloops as <- <-.
    destruct (OpAdd_flatset_loop_spec _ _ _ _ _ Hfl Hnd0) as (F1 & F2 & F3 & F4 & F5).
    destruct (Hcount (kEncodingStrMap fs') F1 F2) as [Hl Hb].
    unfold members in Hl at 1 2. simpl in Hl.
    split_and!.
    + done.
    + done.
    + apply counter_exact; [apply F5; unfold UINT32_MOD; lia|lia|].
      rewrite F4. f_equal. lia.
    + simpl. tauto.
Qed.

Lemma all_integers_Forall (vals : list string) :
  forallb (fun v => bool_decide (is_Some (string2ll v))) vals = true
  <-> Forall (fun v => is_Some (string2ll v)) vals.
Proof.
  rewrite forallb_forall, Forall_forall. split.
  - intros H v Hv. apply list_elem_of_In in Hv.
    specialize (H v Hv). by apply bool_decide_eq_true in H.
  - intros H v Hv. apply list_elem_of_In in Hv.
    apply bool_decide_eq_true. by apply H.
Qed.

Lemma new_count_nil (vals : list string) :
  new_count [] vals = length (remove_dups vals).
Proof.
  unfold new_count. f_equal. f_equal.
  induction vals as [|v vals IH]; simpl; [done|].
  by rewrite IH.
Qed.

Lemma Del_fst (db : DbSlice) (db_ind : DbIndex) (key : string) :
  fst (Del db db_ind key) = delete (db_ind, key) db.
Proof.
  unfold Del. destruct (db !! (db_ind, key)) eqn:E; simpl; [done|].
  symmetry. by apply delete_id.
Qed.

(** C1: [OpAdd] without overwrite on a key that is absent or holds an
    IntSet, with fewer than 2^32 values. The count returned is the number of
    distinct values that were no members before; the set stored afterwards
    has no repetition and holds exactly the former members (an integer as
    its decimal text) and the values, whatever the point at which the IntSet
    was converted; and it is still an IntSet exactly when every value
    parses as an integer and no insertion brought the cardinality above
    [max_entries], the configured bound clamped to 65536. *)
Theorem OpAdd_intset_count (max : Z) (db : DbSlice) (db_ind : DbIndex)
    (key : string) (vals : list string) (iset : intset) :
  db !! (db_ind, key) = Some (CoSet (kEncodingIntSet iset))
    ∨ (db !! (db_ind, key) = None ∧ iset = []) ->
  NoDup iset ->
  Z.of_nat (length vals) < UINT32_MOD ->
  let old := members (kEncodingIntSet iset) in
  exists r : SetRepr,
    OpAdd max db db_ind key vals false
      = (<[(db_ind, key) := CoSet r]> db, ResultOf (Z.of_nat (new_count old vals)))
    ∧ NoDup (members r)
    ∧ (forall s, s ∈ members r <-> s ∈ old ∨ s ∈ vals)
    ∧ (is_intset r <->
         Forall (fun v => is_Some (string2ll v)) vals
         ∧ (new_count old vals = 0%nat
            ∨ Z.of_nat (length iset + new_count old vals) <= max_entries max))
    ∧ max_entries max = Z.min max 65536.
Proof.
  intros Hkey Hnd Hlen old.
  assert (Hndold : NoDup old) by by apply members_intset_NoDup.
  assert (Hmax : max_entries max = Z.min max 65536).
  { unfold max_entries. destruct (2 ^ 16 <=? max) eqn:E.
    - apply Z.leb_le in E. lia.
    - apply Z.leb_gt in E. lia. }
  unfold OpAdd. simpl. unfold AddOrFind, OpAdd_init, StoreValue.
  destruct Hkey as [Hkey|[Hkey ->]]; rewrite Hkey; simpl.
  - destruct (OpAdd_loops max vals (kEncodingIntSet iset)) as [r res] eqn:Hloops.
    destruct (OpAdd_loops_spec _ _ _ _ _ Hloops Hndold Hlen) as (H1 & H2 & -> & H4).
    exists r. split_and!; try done.
    rewrite H4, members_intset_length. simpl. tauto.
  - destruct (forallb _ vals) eqn:Hall.
    + destruct (OpAdd_loops max vals (kEncodingIntSet intsetNew)) as [r res] eqn:Hloops.
      destruct (OpAdd_loops_spec _ _ _ _ _ Hloops Hndold Hlen) as (H1 & H2 & -> & H4).
      exists r. split_and!; try done.
      rewrite H4. simpl. tauto.
    + destruct (OpAdd_loops max vals (kEncodingStrMap CreateFlatSet)) as [r res] eqn:Hloops.
      destruct (OpAdd_loops_spec _ _ _ _ _ Hloops Hndold Hlen) as (H1 & H2 & -> & H4).
      exists r. split_and!; try done.
      rewrite H4. simpl. split; [tauto|]. intros [Hf _].
      apply all_integers_Forall in Hf. congruence.
Qed.

(** [OpAdd] with overwrite never answers [WRONG_TYPE], whatever the key
    holds. Without values the key is deleted and the result is 0; with
    values (fewer than 2^32) whatever the key held is replaced by a set
    without repetition whose members are exactly the values, and the result
    is the number of distinct values. *)
Theorem OpAdd_overwrite (max : Z) (db : DbSlice) (db_ind : DbIndex)
    (key : string) (vals : list string) :
  Z.of_nat (length vals) < UINT32_MOD ->
  status (snd (OpAdd max db db_ind key vals true)) = OK
  ∧ (vals = [] ->
       OpAdd max db db_ind key vals true = (delete (db_ind, key) db, ResultOf 0))
  ∧ (vals <> [] ->
       exists r : SetRepr,
         OpAdd max db db_ind key vals true
           = (<[(db_ind, key) := CoSet r]> db,
              ResultOf (Z.of_nat (length (remove_dups vals))))
         ∧ NoDup (members r)
         ∧ (forall s, s ∈ members r <-> s ∈ vals)).
Proof.
  intros Hlen.
  assert (Hne : vals <> [] ->
    exists r : SetRepr,
      OpAdd max db db_ind key vals true
        = (<[(db_ind, key) := CoSet r]> db,
           ResultOf (Z.of_nat (length (remove_dups vals))))
      ∧ NoDup (members r)
      ∧ (forall s, s ∈ members r <-> s ∈ vals)).
  { intros Hvals. unfold OpAdd. simpl.
    rewrite bool_decide_eq_false_2 by done.
    unfold OpAdd_init, StoreValue.
    destruct (AddOrFind db db_ind key) as [co inserted].
    rewrite orb_true_r.
    assert (Hinit : exists r0, members r0 = [] ∧
      (if forallb (fun v => bool_decide (is_Some (string2ll v))) vals
       then Some (kEncodingIntSet intsetNew)
       else Some (kEncodingStrMap CreateFlatSet)) = Some r0).
    { destruct (forallb _ vals); eexists; (split; [|reflexivity]); done. }
    destruct Hinit as (r0 & Hm & ->).
    destruct (OpAdd_loops max vals r0) as [r res] eqn:Hloops.
    assert (Hnd0 : NoDup (members r0)) by (rewrite Hm; constructor).
    destruct (OpAdd_loops_spec _ _ _ _ _ Hloops Hnd0 Hlen) as (H1 & H2 & -> & _).
    exists r. rewrite Hm, new_count_nil in *. split_and!; [done|done|].
    intros s. rewrite H2. split; [|by right]. by intros [?%elem_of_nil|?]. }
  split_and!; [| |done].
  - destruct (decide (vals = [])) as [->|Hvals]; [done|].
    destruct (Hne Hvals) as (r & -> & _). done.
  - intros ->. unfold OpAdd. simpl. by rewrite Del_fst.
Qed.

(** ** RemoveSet and OpRem *)

Lemma intsetRemove_spec (iset : intset) (v : Z) :
  (intsetRemove iset v = (iset, false) ∧ v ∉ iset)
  ∨ (intsetRemove iset v = (intsetDelete v iset, true)
     ∧ iset ≡ₚ v :: intsetDelete v iset).
Proof.
  unfold intsetRemove. destruct (intsetFind iset v) eqn:E.
  - right. apply intsetFind_true in E. split; [done|by apply intsetDelete_perm].
  - left. by apply intsetFind_false in E.
Qed.

Lemma FlatSet_Remove_spec (fs : FlatSet) (v : string) :
  (FlatSet_Remove fs v = (fs, false) ∧ v ∉ fs)
  ∨ (FlatSet_Remove fs v = (FlatSet_Delete v fs, true)
     ∧ fs ≡ₚ v :: FlatSet_Delete v fs).
Proof.
  unfold FlatSet_Remove. destruct (FlatSet_Contains fs v) eqn:E.
  - right. apply FlatSet_Contains_true in E. split; [done|by apply FlatSet_Delete_perm].
  - left. by apply FlatSet_Contains_false in E.
Qed.

(** A list without repetition that loses one occurrence of [v]. *)
Lemma removed_one {A} (l l' : list A) (v : A) :
  NoDup l -> l ≡ₚ v :: l' ->
  NoDup l' ∧ (forall x, x ∈ l' <-> x ∈ l ∧ x <> v) ∧ length l = S (length l').
Proof.
  intros Hnd Hperm. rewrite Hperm in Hnd. apply NoDup_cons in Hnd as [Hv Hnd].
  split_and!; [done| |by rewrite Hperm].
  intros x. rewrite Hperm, elem_of_cons. split.
  - intros Hx. split; [by right|]. by intros ->.
  - by intros [[?|?] ?].
Qed.

Lemma RemoveSet_intset_fold (vals : list string) :
  forall (i : intset) (removed : Z) i' removed',
  fold_left RemoveSet_intset_step vals (i, removed) = (i', removed') ->
  NoDup i ->
  NoDup i'
  ∧ (forall z, z ∈ i' <-> z ∈ i ∧ forall v, v ∈ vals -> string2ll v <> Some z)
  ∧ (length i' <= length i)%nat
  ∧ removed' mod UINT32_MOD =
      (removed mod UINT32_MOD + (Z.of_nat (length i) - Z.of_nat (length i'))) mod UINT32_MOD
  ∧ (0 <= removed < UINT32_MOD -> 0 <= removed' < UINT32_MOD).
Proof.
  induction vals as [|val rest IH]; intros i removed i' removed' Hfold Hnd;
    simpl in Hfold.
  - injection Hfold as <- <-. split_and!.
    + done.
    + intros z. split; [|tauto]. intros Hz. split; [done|].
      intros v Hv. by apply elem_of_nil in Hv.
    + done.
    + rewrite Z.sub_diag, Z.add_0_r. by rewrite Z.mod_mod by (unfold UINT32_MOD; lia).
    + done.
  - destruct (string2ll val) as [llval|] eqn:Hparse.
    + destruct (intsetRemove_spec i llval) as [[Hrem Hnin]|[Hrem Hperm]];
        rewrite Hrem in Hfold.
      * destruct (IH _ _ _ _ Hfold Hnd) as (H1 & H2 & H3 & H4 & H5).
        split_and!.
        -- done.
        -- intros z. rewrite H2. split.
           ++ intros [Hz Hall]. split; [done|].
              intros v [->|Hv]%elem_of_cons; [congruence|by apply Hall].
           ++ intros [Hz Hall]. split; [done|].
              intros v Hv. apply Hall. by right.
        -- done.
        -- eapply counter_step; [apply add32_mod|apply H4|simpl; lia].
        -- intros _. apply H5, add32_range.
      * destruct (removed_one _ _ _ Hnd Hperm) as (Hnd1 & Hmem & Hlen).
        destruct (IH _ _ _ _ Hfold Hnd1) as (H1 & H2 & H3 & H4 & H5).
        split_and!.
        -- done.
        -- intros z. rewrite H2, Hmem. split.
           ++ intros [[Hz Hne] Hall]. split; [done|].
              intros v [->|Hv]%elem_of_cons; [congruence|by apply Hall].
           ++ intros [Hz Hall]. split_and!; [done| |].
              ** intros ->. apply (Hall val); [by left|done].
              ** intros v Hv. apply Hall. by right.
        -- lia.
        -- eapply counter_step; [apply add32_mod|apply H4|simpl; lia].
        -- intros _. apply H5, add32_range.
    + destruct (IH _ _ _ _ Hfold Hnd) as (H1 & H2 & H3 & H4 & H5).
      split_and!; try done.
      intros z. rewrite H2. split.
      * intros [Hz Hall]. split; [done|].
        intros v [->|Hv]%elem_of_cons; [congruence|by apply Hall].
      * intros [Hz Hall]. split; [done|].
        intros v Hv. apply Hall. by right.
Qed.

Lemma RemoveSet_flatset_fold (vals : list string) :
  forall (f : FlatSet) (removed : Z) f' removed',
  fold_left RemoveSet_flatset_step vals (f, removed) = (f', removed') ->
  NoDup f ->
  NoDup f'
  ∧ (forall s, s ∈ f' <-> s ∈ f ∧ s ∉ vals)
  ∧ (length f' <= length f)%nat
  ∧ removed' mod UINT32_MOD =
      (removed mod UINT32_MOD + (Z.of_nat (length f) - Z.of_nat (length f'))) mod UINT32_MOD
  ∧ (0 <= removed < UINT32_MOD -> 0 <= removed' < UINT32_MOD).
Proof.
  induction vals as [|val rest IH]; intros f removed f' removed' Hfold Hnd;
    simpl in Hfold.
  - injection Hfold as <- <-. split_and!.
    + done.
    + intros s. split; [|tauto]. intros Hs. split; [done|]. apply not_elem_of_nil.
    + done.
    + rewrite Z.sub_diag, Z.add_0_r. by rewrite Z.mod_mod by (unfold UINT32_MOD; lia).
    + done.
  - destruct (FlatSet_Remove_spec f val) as [[Hrem Hnin]|[Hrem Hperm]];
      rewrite Hrem in Hfold.
    + destruct (IH _ _ _ _ Hfold Hnd) as (H1 & H2 & H3 & H4 & H5).
      split_and!.
      * done.
      * intros s. rewrite H2, not_elem_of_cons. split; [|tauto].
        intros [Hs Hr]. split_and!; [done| |done]. by intros ->.
      * done.
      * eapply counter_step; [apply add32_mod|apply H4|simpl; lia].
      * intros _. apply H5, add32_range.
    + destruct (removed_one _ _ _ Hnd Hperm) as (Hnd1 & Hmem & Hlen).
      destruct (IH _ _ _ _ Hfold Hnd1) as (H1 & H2 & H3 & H4 & H5).
      split_and!.
      * done.
      * intros s. rewrite H2, Hmem, not_elem_of_cons. tauto.
      * lia.
      * eapply counter_step; [apply add32_mod|apply H4|simpl; lia].
      * intros _. apply H5, add32_range.
Qed.

Lemma shrunk_set_length (old vals new : list string) :
  NoDup old -> NoDup new ->
  (forall s, s ∈ new <-> s ∈ old ∧ s ∉ vals) ->
  length old = (length new + removed_count old vals)%nat
  ∧ (removed_count old vals <= length vals)%nat.
Proof.
  intros Hold Hnew Hiff. split.
  - unfold removed_count. rewrite <- length_app. apply Permutation_length.
    apply NoDup_Permutation; [done| |].
    + apply NoDup_app. split_and!; [done| |by apply NoDup_list_intersection].
      intros s Hs Hs'. apply Hiff in Hs. apply list_elem_of_intersection in Hs'.
      tauto.
    + intros s. rewrite elem_of_app, Hiff, list_elem_of_intersection.
      destruct (decide (s ∈ vals)); tauto.
  - apply submseteq_length, NoDup_submseteq; [by apply NoDup_list_intersection|].
    intros s Hs. apply list_elem_of_intersection in Hs. tauto.
Qed.

Lemma RemoveSet_spec (vals : list string) (r r' : SetRepr) (removed : Z)
    (isempty : bool) :
  RemoveSet vals r = (r', removed, isempty) ->
  NoDup (members r) ->
  (forall iset, r = kEncodingIntSet iset -> Forall (fun z => in_llong z = true) iset) ->
  Z.of_nat (length vals) < UINT32_MOD ->
  NoDup (members r')
  ∧ (forall s, s ∈ members r' <-> s ∈ members r ∧ s ∉ vals)
  ∧ removed = Z.of_nat (removed_count (members r) vals)
  ∧ (isempty = true <-> members r' = [])
  ∧ (is_intset r' <-> is_intset r).
Proof.
  intros Hrem Hnd Hrange Hlen.
  assert (Hcount : forall r1, NoDup (members r1) ->
    (forall s, s ∈ members r1 <-> s ∈ members r ∧ s ∉ vals) ->
    forall removed1, 0 <= removed1 < UINT32_MOD ->
    removed1 mod UINT32_MOD =
      (0 mod UINT32_MOD + (Z.of_nat (length (members r)) - Z.of_nat (length (members r1))))
        mod UINT32_MOD ->
    removed1 = Z.of_nat (removed_count (members r) vals)).
  { intros r1 Hnd1 Hiff removed1 Hr Hmod.
    destruct (shrunk_set_length _ _ _ Hnd Hnd1 Hiff) as [Hl Hb].
    apply counter_exact; [done|lia|]. rewrite Hmod. f_equal. lia. }
  destruct r as [iset|fs]; simpl in Hrem.
  - destruct (fold_left RemoveSet_intset_step vals (iset, 0)) as [i' rem'] eqn:Hfold.
    injection Hrem as <- <- <-.
    apply members_intset_NoDup in Hnd as Hndi.
    destruct (RemoveSet_intset_fold _ _ _ _ _ Hfold Hndi) as (H1 & H2 & H3 & H4 & H5).
    specialize (Hrange iset eq_refl). rewrite Forall_forall in Hrange.
    assert (Hiff : forall s, s ∈ members (kEncodingIntSet i') <->
                     s ∈ members (kEncodingIntSet iset) ∧ s ∉ vals).
    { intros s. rewrite !members_intset_elem. split.
      - intros (z & -> & [Hz Hall]%H2). split; [eauto|].
        intros Hin. apply (Hall _ Hin).
        apply string2ll_FastIntToBuffer. by apply Hrange.
      - intros [(z & -> & Hz) Hnin]. exists z. split; [done|].
        apply H2. split; [done|]. intros v Hv Hp.
        apply string2ll_canonical in Hp. congruence. }
    assert (Hnd' : NoDup (members (kEncodingIntSet i')))
      by by apply members_intset_NoDup.
    split_and!.
    + done.
    + done.
    + apply (Hcount (kEncodingIntSet i') Hnd' Hiff).
      * apply H5. unfold UINT32_MOD. lia.
      * by rewrite !members_intset_length.
    + unfold intsetLen. rewrite Z.eqb_eq. unfold members. simpl.
      destruct i'; simpl; split; intros; (done || lia).
    + done.
  - destruct (fold_left RemoveSet_flatset_step vals (fs, 0)) as [f' rem'] eqn:Hfold.
    injection Hrem as <- <- <-.
    destruct (RemoveSet_flatset_fold _ _ _ _ _ Hfold Hnd) as (H1 & H2 & H3 & H4 & H5).
    split_and!.
    + done.
    + done.
    + apply (Hcount (kEncodingStrMap f') H1 H2).
      * apply H5. unfold UINT32_MOD. lia.
      * done.
    + unfold members. simpl. by destruct f'.
    + done.
Qed.

Lemma RemoveSet_intset_skips (vals : list string) :
  forall acc : intset * Z,
  fold_left RemoveSet_intset_step vals acc
  = fold_left RemoveSet_intset_step
      (filter (fun v => is_Some (string2ll v)) vals) acc.
Proof.
  induction vals as [|val rest IH]; intros [i n]; [done|].
  rewrite filter_cons. case_decide as Hp; simpl.
  - apply IH.
  - rewrite IH. destruct (string2ll val) as [z|]; [|done].
    exfalso. apply Hp. by eexists.
Qed.

(** C7: [OpRem] on a key that holds a set (without repetition, the
    integers of an IntSet within 64 bits), with fewer than 2^32 values. The
    members left are the former members that are not among the values; the
    count returned is the number of members that were removed; for an
    IntSet, the values that do not parse as integers play no part; and the
    key is in the dictionary afterwards exactly when members are left. *)
Theorem OpRem_count (db : DbSlice) (db_ind : DbIndex) (key : string)
    (vals : list string) (r : SetRepr) :
  db !! (db_ind, key) = Some (CoSet r) ->
  NoDup (members r) ->
  (forall iset, r = kEncodingIntSet iset -> Forall (fun z => in_llong z = true) iset) ->
  Z.of_nat (length vals) < UINT32_MOD ->
  exists r' : SetRepr,
    OpRem db db_ind key vals
      = (if decide (members r' = []) then delete (db_ind, key) db
         else <[(db_ind, key) := CoSet r']> db,
         ResultOf (Z.of_nat (removed_count (members r) vals)))
    ∧ NoDup (members r')
    ∧ (forall s, s ∈ members r' <-> s ∈ members r ∧ s ∉ vals)
    ∧ length (members r) = (length (members r') + removed_count (members r) vals)%nat
    ∧ (is_intset r ->
         RemoveSet vals r
         = RemoveSet (filter (fun v => is_Some (string2ll v)) vals) r)
    ∧ (is_Some (fst (OpRem db db_ind key vals) !! (db_ind, key))
       <-> members r' <> []).
Proof.
  intros Hkey Hnd Hrange Hlen.
  destruct (RemoveSet vals r) as [[r' removed] isempty] eqn:Hrem.
  destruct (RemoveSet_spec _ _ _ _ _ Hrem Hnd Hrange Hlen)
    as (H1 & H2 & -> & H4 & H5).
  assert (Hop : OpRem db db_ind key vals
      = (if decide (members r' = []) then delete (db_ind, key) db
         else <[(db_ind, key) := CoSet r']> db,
         ResultOf (Z.of_nat (removed_count (members r) vals)))).
  { unfold OpRem, Find. rewrite Hkey. simpl. rewrite Hrem.
    destruct isempty.
    - rewrite decide_True by by apply H4. by rewrite Del_fst.
    - rewrite decide_False; [done|]. intros He. apply H4 in He. done. }
  exists r'. split_and!.
  - done.
  - done.
  - done.
  - by destruct (shrunk_set_length _ _ _ Hnd H1 H2).
  - intros Hi. destruct r as [iset|fs]; [|done]. simpl.
    by rewrite <- RemoveSet_intset_skips.
  - rewrite Hop. simpl. destruct (decide (members r' = [])) as [He|Hne].
    + rewrite lookup_delete_eq. split; [by intros [? ?]|done].
    + rewrite lookup_insert_eq. split; [done|by eexists].
Qed.

(** ** OpPop *)

Lemma OpPop_intset_copy_fold (iset : intset) (count : nat) :
  forall (start : nat) (val : Z) (result : StringVec),
  (start + count <= length iset)%nat ->
  snd (fold_left
         (fun '(val, result) i =>
            let val' := default val (intsetGet iset i) in
            (val', result ++ [StrCat val']))
         (seq start count) (val, result))
  = result ++ (StrCat <$> take count (drop start iset)).
Proof.
  induction count as [|count IH]; intros start val result Hle; simpl.
  - by rewrite app_nil_r.
  - destruct (lookup_lt_is_Some_2 iset start) as [x Hx]; [lia|].
    change (intsetGet iset start) with (iset !! start).
    rewrite Hx. simpl. rewrite IH by lia.
    rewrite (drop_S _ _ _ Hx). simpl. by rewrite <- app_assoc.
Qed.

Lemma OpPop_intset_copy_spec (iset : intset) (count : nat) :
  (count <= length iset)%nat ->
  OpPop_intset_copy iset (length iset) count
  = StrCat <$> drop (length iset - count) iset.
Proof.
  intros Hle. unfold OpPop_intset_copy.
  rewrite OpPop_intset_copy_fold by lia. simpl.
  rewrite take_ge; [done|]. rewrite length_drop. lia.
Qed.

Lemma OpPop_flatset_loop_spec (count : nat) :
  forall (fs : FlatSet) (result : StringVec),
  (count <= length fs)%nat ->
  OpPop_flatset_loop count fs result = (drop count fs, result ++ take count fs).
Proof.
  induction count as [|count IH]; intros fs result Hle; simpl.
  - by rewrite app_nil_r.
  - destruct fs as [|str fs]; simpl in *; [lia|].
    rewrite IH by lia. by rewrite <- app_assoc.
Qed.

Lemma Size_members (r : SetRepr) :
  Z.to_nat (Size (CoSet r)) = length (members r).
Proof.
  destruct r; simpl; unfold intsetLen, FlatSet_Size, members; simpl;
    rewrite ?length_fmap; lia.
Qed.

Lemma StronglySorted_app_lt (l1 l2 : list Z) :
  StronglySorted Z.lt (l1 ++ l2) ->
  StronglySorted Z.lt l2 ∧ forall a b, a ∈ l1 -> b ∈ l2 -> a < b.
Proof.
  induction l1 as [|x l1 IH]; simpl; intros Hs.
  - split; [done|]. intros a b Ha. by apply elem_of_nil in Ha.
  - apply StronglySorted_inv in Hs as [Hs Hx].
    destruct (IH Hs) as [H1 H2]. split; [done|].
    intros a b [->|Ha]%elem_of_cons Hb; [|by apply H2].
    rewrite Forall_forall in Hx. apply Hx, elem_of_app. by right.
Qed.

(** C6: [OpPop] on a key that holds a set. With a count of 0 nothing is
    returned and the dictionary is unchanged; with a count that reaches the
    size all members are returned and the key is deleted; otherwise an
    IntSet loses its last [count] members, which are returned in ascending
    order and are larger than every member that stays, and a FlatSet loses
    the first [count] members of its iteration order. In both partial cases
    [size - count] members stay and, in a set without repetition, no
    returned member stays. *)
Theorem OpPop_spec (db : DbSlice) (db_ind : DbIndex) (key : string)
    (count : nat) (r : SetRepr) :
  db !! (db_ind, key) = Some (CoSet r) ->
  (count = 0%nat -> OpPop db db_ind key count = (db, ResultOf []))
  ∧ ((0 < count)%nat -> (length (members r) <= count)%nat ->
       OpPop db db_ind key count
       = (delete (db_ind, key) db, ResultOf (members r)))
  ∧ (forall iset, r = kEncodingIntSet iset ->
       (0 < count < length iset)%nat ->
       let stay := take (length iset - count) iset in
       let popped := drop (length iset - count) iset in
       OpPop db db_ind key count
       = (<[(db_ind, key) := CoSet (kEncodingIntSet (intsetTrimTail iset count))]> db,
          ResultOf (StrCat <$> popped))
       ∧ intsetTrimTail iset count = stay
       ∧ iset = stay ++ popped
       ∧ length popped = count
       ∧ length stay = (length iset - count)%nat
       ∧ (StronglySorted Z.lt iset ->
            StronglySorted Z.lt popped
            ∧ forall a b, a ∈ stay -> b ∈ popped -> a < b)
       ∧ (NoDup iset -> forall s, s ∈ StrCat <$> popped ->
            s ∉ members (kEncodingIntSet stay)))
  ∧ (forall fs, r = kEncodingStrMap fs ->
       (0 < count < length fs)%nat ->
       OpPop db db_ind key count
       = (<[(db_ind, key) := CoSet (kEncodingStrMap (drop count fs))]> db,
          ResultOf (take count fs))
       ∧ length (take count fs) = count
       ∧ length (drop count fs) = (length fs - count)%nat
       ∧ (NoDup fs -> forall s, s ∈ take count fs -> s ∉ drop count fs)).
Proof.
  intros Hkey.
  assert (Hfind : Find db db_ind key OBJ_SET = FindOk (CoSet r)).
  { unfold Find. by rewrite Hkey. }
  split_and!.
  - intros ->. unfold OpPop. by rewrite Hfind.
  - intros Hpos Hle. unfold OpPop. rewrite Hfind, Size_members.
    destruct (Nat.eqb_spec count 0); [lia|].
    destruct (Nat.leb_spec (length (members r)) count); [|lia].
    by rewrite Del_fst.
  - intros iset -> Hcount stay popped.
    assert (Happ : iset = stay ++ popped) by (symmetry; apply take_drop).
    split_and!.
    + unfold OpPop. rewrite Hfind, Size_members, members_intset_length.
      destruct (Nat.eqb_spec count 0); [lia|].
      destruct (Nat.leb_spec (length iset) count); [lia|].
      by rewrite OpPop_intset_copy_spec by lia.
    + done.
    + done.
    + unfold popped. rewrite length_drop. lia.
    + unfold stay. rewrite length_take. lia.
    + intros Hs. rewrite Happ in Hs. by apply StronglySorted_app_lt.
    + intros Hnd s (z & -> & Hz)%list_elem_of_fmap (z' & Heq & Hz')%members_intset_elem.
      apply FastIntToBuffer_inj in Heq as <-.
      rewrite Happ in Hnd. apply NoDup_app in Hnd as (_ & Hdis & _).
      by apply (Hdis z).
  - intros fs -> Hcount.
    split_and!.
    + unfold OpPop. rewrite Hfind, Size_members. unfold members at 1. simpl.
      destruct (Nat.eqb_spec count 0); [lia|].
      destruct (Nat.leb_spec (length fs) count); [lia|].
      by rewrite OpPop_flatset_loop_spec by lia.
    + rewrite length_take. lia.
    + by rewrite length_drop.
    + intros Hnd s Hs Hs'. rewrite <- (take_drop count fs) in Hnd.
      apply NoDup_app in Hnd as (_ & Hdis & _). by apply (Hdis s).
Qed.

(** ** The invariant of the stored sets *)

Lemma StronglySorted_lt_NoDup (l : list Z) : StronglySorted Z.lt l -> NoDup l.
Proof.
  induction 1 as [|x l Hs IH Hx]; constructor; [|done].
  intros Hin. rewrite Forall_forall in Hx. specialize (Hx _ Hin). lia.
Qed.

Lemma set_wf_NoDup (r : SetRepr) : set_wf r -> NoDup (members r).
Proof.
  destruct r as [iset|fs]; simpl; [|done].
  intros [Hs _]. by apply members_intset_NoDup, StronglySorted_lt_NoDup.
Qed.

Lemma set_wf_in_llong (r : SetRepr) :
  set_wf r ->
  forall iset, r = kEncodingIntSet iset -> Forall (fun z => in_llong z = true) iset.
Proof. intros Hwf iset ->. by destruct Hwf. Qed.

Lemma intsetInsertSorted_sorted (v : Z) (iset : intset) :
  StronglySorted Z.lt iset -> v ∉ iset ->
  StronglySorted Z.lt (intsetInsertSorted v iset).
Proof.
  induction iset as [|x r IH]; simpl; intros Hs Hv.
  - repeat constructor.
  - apply StronglySorted_cons in Hs as [Hx Hs].
    apply not_elem_of_cons in Hv as [Hne Hv].
    destruct (Z.ltb_spec v x).
    + apply StronglySorted_cons. split.
      * constructor; [done|]. eapply Forall_impl; [exact Hx|]. simpl. lia.
      * by apply StronglySorted_cons.
    + apply StronglySorted_cons. split; [|by apply IH].
      rewrite intsetInsertSorted_perm. constructor; [lia|done].
Qed.

Lemma intsetDelete_sorted (v : Z) (iset : intset) :
  StronglySorted Z.lt iset -> StronglySorted Z.lt (intsetDelete v iset).
Proof.
  induction iset as [|x r IH]; simpl; intros Hs; [done|].
  apply StronglySorted_cons in Hs as [Hx Hs].
  destruct (v =? x); [done|].
  apply StronglySorted_cons. split; [|by apply IH].
  rewrite Forall_forall in *. intros y Hy. apply Hx.
  clear -Hy. induction r as [|z r IHr]; simpl in *; [done|].
  destruct (v =? z); [by right|].
  apply elem_of_cons in Hy as [->|Hy]; [by left|right; by apply IHr].
Qed.

Lemma intsetDelete_Forall (P : Z -> Prop) (v : Z) (iset : intset) :
  Forall P iset -> Forall P (intsetDelete v iset).
Proof.
  induction 1 as [|x r Hx Hr IH]; simpl; [done|].
  destruct (v =? x); [done|by constructor].
Qed.

Lemma OpAdd_intset_loop_wf (max : Z) (vals : list string) :
  forall (iset : intset) (res : Z) iset' res' success,
  OpAdd_intset_loop max vals iset res = (iset', res', success) ->
  intset_wf iset -> intset_wf iset'.
Proof.
  induction vals as [|val rest IH]; intros iset res iset' res' success Hloop Hwf;
    simpl in Hloop.
  - by injection Hloop as <- <- <-.
  - unfold IntsetAddSafe in Hloop.
    destruct (string2ll val) as [llval|] eqn:Hparse;
      [|by injection Hloop as <- <- <-].
    destruct (intsetAdd_spec iset llval) as [[Hadd Hin]|(i1 & Hadd & Hperm & Hnin)];
      rewrite Hadd in Hloop; [by eapply IH|].
    assert (Hwf1 : intset_wf i1).
    { unfold intsetAdd in Hadd.
      destruct (intsetFind iset llval); [done|]. injection Hadd as <-.
      destruct Hwf as [Hs Hr]. split; [by apply intsetInsertSorted_sorted|].
      rewrite intsetInsertSorted_perm. constructor; [|done].
      by eapply string2ll_in_llong. }
    destruct (intsetLen i1 <=? max_entries max); [by eapply IH|].
    by injection Hloop as <- <- <-.
Qed.

Lemma OpAdd_loops_wf (max : Z) (vals : list string) (r0 r : SetRepr) (res : Z) :
  OpAdd_loops max vals r0 = (r, res) -> set_wf r0 -> set_wf r.
Proof.
  unfold OpAdd_loops. intros Hloops Hwf. destruct r0 as [iset|fs].
  - destruct (OpAdd_intset_loop max vals iset 0) as [[iset' res1] success] eqn:Hloop.
    pose proof (OpAdd_intset_loop_wf _ _ _ _ _ _ _ Hloop Hwf) as Hwf'.
    destruct success; [by injection Hloops as <- <-|].
    assert (Hnd : NoDup iset') by (destruct Hwf'; by apply StronglySorted_lt_NoDup).
    rewrite ConvertTo_spec in Hloops;
      [|done|intros z _ Hin; by apply elem_of_nil in Hin].
    simpl in Hloops.
    destruct (OpAdd_flatset_loop vals (FastIntToBuffer <$> iset') res1)
      as [fs' res'] eqn:Hfl.
    injection Hloops as <- <-.
    by destruct (OpAdd_flatset_loop_spec _ _ _ _ _ Hfl (NoDup_map_FastIntToBuffer _ Hnd)).
  - destruct (OpAdd_flatset_loop vals fs 0) as [fs' res'] eqn:Hfl.
    injection Hloops as <- <-.
    by destruct (OpAdd_flatset_loop_spec _ _ _ _ _ Hfl Hwf).
Qed.

Lemma db_wf_insert (db : DbSlice) (k : DbIndex * string) (r : SetRepr) :
  db_wf db -> set_wf r -> db_wf (<[k := CoSet r]> db).
Proof.
  intros Hdb Hr k' r'. destruct (decide (k = k')) as [<-|Hne].
  - rewrite lookup_insert_eq. by intros [= <-].
  - rewrite lookup_insert_ne by done. apply Hdb.
Qed.

Lemma db_wf_delete (db : DbSlice) (k : DbIndex * string) :
  db_wf db -> db_wf (delete k db).
Proof.
  intros Hdb k' r'. destruct (decide (k = k')) as [<-|Hne].
  - by rewrite lookup_delete_eq.
  - rewrite lookup_delete_ne by done. apply Hdb.
Qed.

(** [OpAdd] keeps the invariant of the dictionary. *)
Lemma OpAdd_db_wf (max : Z) (db : DbSlice) (db_ind : DbIndex) (key : string)
    (vals : list string) (overwrite : bool) :
  db_wf db -> db_wf (fst (OpAdd max db db_ind key vals overwrite)).
Proof.
  intros Hdb. unfold OpAdd.
  destruct (overwrite && bool_decide (vals = [])).
  { simpl. rewrite Del_fst. by apply db_wf_delete. }
  unfold AddOrFind, OpAdd_init, StoreValue.
  assert (Hint : set_wf (kEncodingIntSet intsetNew)) by (split; constructor).
  assert (Hstr : set_wf (kEncodingStrMap CreateFlatSet)) by constructor.
  assert (Hgo : forall r0, set_wf r0 ->
    db_wf (fst (let '(r, res) := OpAdd_loops max vals r0 in
                (<[(db_ind, key) := CoSet r]> db, ResultOf res)))).
  { intros r0 Hr0. destruct (OpAdd_loops max vals r0) as [r res] eqn:Hloops.
    simpl. apply db_wf_insert; [done|]. by eapply OpAdd_loops_wf. }
  destruct (db !! (db_ind, key)) as [co|] eqn:Hkey; simpl.
  - destruct overwrite.
    + destruct (forallb _ vals); by apply Hgo.
    + destruct co as [|s|r0]; try done. apply Hgo. by eapply Hdb.
  - destruct (forallb _ vals); by apply Hgo.
Qed.

Lemma RemoveSet_wf (vals : list string) (r r' : SetRepr) (removed : Z)
    (isempty : bool) :
  RemoveSet vals r = (r', removed, isempty) -> set_wf r -> set_wf r'.
Proof.
  destruct r as [iset|fs]; simpl.
  - destruct (fold_left RemoveSet_intset_step vals (iset, 0)) as [i' rem'] eqn:Hfold.
    intros [= <- <- <-] Hwf. simpl.
    revert iset i' rem' Hfold Hwf. generalize 0.
    induction vals as [|val rest IH]; intros n iset i' rem' Hfold Hwf;
      simpl in Hfold; [by injection Hfold as <- <-|].
    destruct (string2ll val) as [llval|]; [|by eapply IH].
    unfold intsetRemove in Hfold.
    destruct (intsetFind iset llval); [|by eapply IH].
    eapply IH; [exact Hfold|]. destruct Hwf as [Hs Hr].
    split; [by apply intsetDelete_sorted|by apply intsetDelete_Forall].
  - destruct (fold_left RemoveSet_flatset_step vals (fs, 0)) as [f' rem'] eqn:Hfold.
    intros [= <- <- <-] Hwf. simpl.
    by destruct (RemoveSet_flatset_fold _ _ _ _ _ Hfold Hwf).
Qed.

(** [OpRem] keeps the invariant of the dictionary. *)
Lemma OpRem_db_wf (db : DbSlice) (db_ind : DbIndex) (key : string)
    (vals : list string) :
  db_wf db -> db_wf (fst (OpRem db db_ind key vals)).
Proof.
  intros Hdb. unfold OpRem, Find.
  destruct (db !! (db_ind, key)) as [co|] eqn:Hkey; [|done].
  destruct co as [|s|r]; simpl; try done.
  destruct (RemoveSet vals r) as [[r' removed] isempty] eqn:Hrem.
  destruct isempty; simpl.
  - rewrite Del_fst. by apply db_wf_delete.
  - apply db_wf_insert; [done|]. eapply RemoveSet_wf; [exact Hrem|by eapply Hdb].
Qed.

(** [OpPop] keeps the invariant of the dictionary. *)
Lemma OpPop_db_wf (db : DbSlice) (db_ind : DbIndex) (key : string)
    (count : nat) :
  db_wf db -> db_wf (fst (OpPop db db_ind key count)).
Proof.
  intros Hdb. unfold OpPop, Find.
  destruct (db !! (db_ind, key)) as [co|] eqn:Hkey; [|done].
  destruct co as [|s|r]; simpl; try done.
  destruct (count =? 0)%nat; [done|].
  destruct (_ <=? count)%nat; simpl.
  { rewrite Del_fst. by apply db_wf_delete. }
  pose proof (Hdb _ _ Hkey) as Hwf.
  destruct r as [iset|fs]; simpl.
  - apply db_wf_insert; [done|]. destruct Hwf as [Hs Hr].
    unfold intsetTrimTail. split; [|by apply Forall_take].
    rewrite <- (take_drop (length iset - count) iset) in Hs.
    by apply StronglySorted_app_1_l in Hs.
  - destruct (OpPop_flatset_loop count fs []) as [fs' result] eqn:Hloop.
    simpl. apply db_wf_insert; [done|]. simpl.
    clear -Hloop Hwf. revert fs result Hloop Hwf. generalize (@nil string).
    induction count as [|count IH]; intros acc fs result Hloop Hwf;
      simpl in Hloop; [by injection Hloop as <- <-|].
    destruct fs as [|str fs]; [by injection Hloop as <- <-|].
    eapply IH; [exact Hloop|]. by apply NoDup_cons in Hwf as [_ ?].
Qed.

(** Closed, decidable facts about concrete values. *)
Ltac decide_concrete :=
  match goal with
  | |- ?P => refine (@bool_decide_unpack P _ _); vm_compute; exact I
  end.

(** ** InterResultVec *)

Lemma first_failure_cons_None (res : OpResult StringVec) (rest : ResultStringVec) :
  first_failure (res :: rest) = None ->
  (status res = OK ∨ status res = SKIPPED) ∧ first_failure rest = None.
Proof.
  unfold first_failure. simpl. unfold is_ok.
  destruct (status res) eqn:E; simpl; try done; intros H; split; auto.
Qed.

Lemma contributions_cons_ok (res : OpResult StringVec) (rest : ResultStringVec) :
  status res = OK ->
  contributions (res :: rest) = value res :: contributions rest.
Proof.
  intros Hst. unfold contributions. rewrite filter_cons_True; [done|].
  by rewrite Hst.
Qed.

Lemma contributions_cons_skipped (res : OpResult StringVec)
    (rest : ResultStringVec) :
  status res = SKIPPED -> contributions (res :: rest) = contributions rest.
Proof.
  intros Hst. unfold contributions. rewrite filter_cons_False; [done|].
  intros H. by apply H.
Qed.

Lemma InterResultVec_loop_failure (required : Z) (result_vec : ResultStringVec)
    (st : OpStatus) :
  first_failure result_vec = Some st ->
  forall uniques first,
  InterResultVec_loop result_vec required uniques first
  = if decide (st = KEY_NOTFOUND) then ResultOf [] else mkOpResult st [].
Proof.
  induction result_vec as [|res rest IH]; [done|].
  unfold first_failure. simpl. unfold is_ok.
  destruct (status res) eqn:E; simpl; intros Hf uniques first;
    try (injection Hf as <-; rewrite E; done).
  - destruct first; by apply IH.
  - by apply IH.
Qed.

Lemma InterResultVec_loop_later (required : Z) (result_vec : ResultStringVec) :
  first_failure result_vec = None ->
  forall uniques,
  InterResultVec_loop result_vec required uniques false
  = ResultOf (select_counted required (increment_all uniques (contributions result_vec))).
Proof.
  induction result_vec as [|res rest IH]; intros Hf uniques; [done|].
  apply first_failure_cons_None in Hf as [Hst Hf].
  destruct Hst as [Hst|Hst].
  - rewrite (contributions_cons_ok _ _ Hst). simpl. unfold is_ok.
    rewrite Hst. simpl. by apply IH.
  - rewrite (contributions_cons_skipped _ _ Hst). simpl.
    rewrite Hst. simpl. by apply IH.
Qed.

Lemma InterResultVec_loop_first (required : Z) (result_vec : ResultStringVec) :
  first_failure result_vec = None ->
  forall uniques,
  InterResultVec_loop result_vec required uniques true
  = match contributions result_vec with
    | [] => ResultOf (select_counted required uniques)
    | c :: rest =>
        ResultOf
          (select_counted required
             (increment_all
                (fold_left (fun u s => CountMap_emplace u s 1) c uniques) rest))
    end.
Proof.
  induction result_vec as [|res rest IH]; intros Hf uniques; [done|].
  apply first_failure_cons_None in Hf as [Hst Hf].
  destruct Hst as [Hst|Hst].
  - rewrite (contributions_cons_ok _ _ Hst). simpl. unfold is_ok.
    rewrite Hst. simpl. by apply InterResultVec_loop_later.
  - rewrite (contributions_cons_skipped _ _ Hst). simpl.
    rewrite Hst. simpl. by apply IH.
Qed.

Lemma CountMap_key_present (uniques : CountMap) (s : string) :
  existsb (fun kv => String.eqb s (fst kv)) uniques = true <-> s ∈ uniques.*1.
Proof.
  rewrite existsb_exists, list_elem_of_fmap. split.
  - intros (kv & Hin & ->%String.eqb_eq). exists kv. split; [done|].
    by apply list_elem_of_In.
  - intros (kv & -> & Hin). exists kv. split; [by apply list_elem_of_In|].
    apply String.eqb_refl.
Qed.

Lemma CountMap_emplace_all (c : StringVec) :
  forall uniques : CountMap,
  NoDup uniques.*1 -> Forall (fun kv => snd kv = 1) uniques ->
  let u' := fold_left (fun u s => CountMap_emplace u s 1) c uniques in
  NoDup u'.*1 ∧ Forall (fun kv => snd kv = 1) u'
  ∧ forall s, s ∈ u'.*1 <-> s ∈ uniques.*1 ∨ s ∈ c.
Proof.
  induction c as [|x c IH]; intros uniques Hnd Hone; simpl.
  - split_and!; [done|done|]. intros s. split; [by left|].
    by intros [?|?%elem_of_nil].
  - unfold CountMap_emplace at 2 4 6.
    destruct (existsb _ uniques) eqn:E.
    + apply CountMap_key_present in E.
      destruct (IH uniques Hnd Hone) as (H1 & H2 & H3).
      split_and!; [done|done|]. intros s. rewrite H3, elem_of_cons.
      split; [tauto|]. intros [?|[->|?]]; tauto.
    + assert (Hx : x ∉ uniques.*1).
      { intros Hin. apply CountMap_key_present in Hin. congruence. }
      destruct (IH (uniques ++ [(x, 1)])) as (H1 & H2 & H3).
      * rewrite fmap_app. simpl. apply NoDup_app. split_and!; [done| |apply NoDup_singleton].
        intros s Hs ->%list_elem_of_singleton. done.
      * apply Forall_app. split; [done|]. by constructor.
      * split_and!; [done|done|]. intros s.
        rewrite H3, fmap_app, elem_of_app, elem_of_cons. simpl.
        rewrite list_elem_of_singleton. tauto.
Qed.

Lemma occurrences_cons (s x : string) (c : StringVec) :
  occurrences s (x :: c) = ((if decide (x = s) then 1 else 0) + occurrences s c)%nat.
Proof.
  unfold occurrences. rewrite filter_cons. by case_decide.
Qed.

Lemma CountMap_increment_bump (uniques : CountMap) (s : string) :
  CountMap_increment uniques s
  = (fun kv => (fst kv, bump (if decide (s = fst kv) then 1 else 0) (snd kv)))
      <$> uniques.
Proof.
  unfold CountMap_increment. apply list_fmap_ext. intros _ [k n] _. simpl.
  destruct (String.eqb_spec s k) as [->|Hne].
  - by rewrite decide_True.
  - by rewrite decide_False.
Qed.

Lemma CountMap_increment_fold (c : StringVec) :
  forall uniques : CountMap,
  fold_left CountMap_increment c uniques
  = (fun kv => (fst kv, bump (occurrences (fst kv) c) (snd kv))) <$> uniques.
Proof.
  induction c as [|x c IH]; intros uniques; simpl.
  - symmetry. etrans; [|apply list_fmap_id]. apply list_fmap_ext.
    by intros _ [k n] _.
  - rewrite IH, CountMap_increment_bump, <- list_fmap_compose.
    apply list_fmap_ext. intros _ [k n] _. simpl. f_equal.
    rewrite occurrences_cons. unfold bump.
    rewrite Nat.add_comm, Nat.iter_add. done.
Qed.

Lemma increment_all_bump (cs : list StringVec) :
  forall uniques : CountMap,
  increment_all uniques cs
  = (fun kv => (fst kv, bump (later_occurrences (fst kv) cs) (snd kv))) <$> uniques.
Proof.
  unfold increment_all.
  induction cs as [|c cs IH]; intros uniques; simpl.
  - symmetry. etrans; [|apply list_fmap_id]. apply list_fmap_ext.
    by intros _ [k n] _.
  - rewrite IH, CountMap_increment_fold, <- list_fmap_compose.
    apply list_fmap_ext. intros _ [k n] _. simpl. f_equal.
    unfold later_occurrences, bump. simpl.
    rewrite Nat.add_comm, Nat.iter_add. done.
Qed.

Lemma bump_one (n : nat) : bump n 1 = (1 + Z.of_nat n) mod UINT32_MOD.
Proof.
  unfold bump. induction n as [|n IH]; simpl.
  - by rewrite Z.mod_small by (unfold UINT32_MOD; lia).
  - rewrite IH. unfold add32. rewrite Zplus_mod_idemp_l. f_equal. lia.
Qed.

Lemma select_counted_spec (required : Z) (uniques : CountMap)
    (cs : list StringVec) :
  NoDup uniques.*1 -> Forall (fun kv => snd kv = 1) uniques ->
  let result := select_counted required (increment_all uniques cs) in
  NoDup result
  ∧ forall s, s ∈ result <->
      s ∈ uniques.*1
      ∧ (1 + Z.of_nat (later_occurrences s cs)) mod UINT32_MOD = required.
Proof.
  intros Hnd Hone result. unfold result, select_counted.
  rewrite increment_all_bump. split.
  - eapply sublist_NoDup; [apply Hnd|].
    etrans; [apply fmap_sublist, sublist_filter|].
    rewrite <- list_fmap_compose. simpl.
    erewrite list_fmap_ext; [done|]. by intros _ [k n] _.
  - intros s. rewrite list_elem_of_fmap. rewrite Forall_forall in Hone. split.
    + intros ([k n] & -> & [Heq ([k' n'] & [= -> ->] & Hin)%list_elem_of_fmap]%list_elem_of_filter).
      pose proof (Hone _ Hin) as Hn. simpl in *. subst n'.
      rewrite bump_one in Heq.
      split; [|done]. apply list_elem_of_fmap. by exists (k', 1).
    + intros [([k n] & -> & Hin)%list_elem_of_fmap Heq].
      pose proof (Hone _ Hin) as Hn. simpl in *. subst n.
      exists (k, bump (later_occurrences k cs) 1). split; [done|].
      apply list_elem_of_filter. simpl. split.
      * by rewrite bump_one.
      * apply list_elem_of_fmap. by exists (k, 1).
Qed.

Lemma occurrences_NoDup (s : string) (c : StringVec) :
  NoDup c -> occurrences s c = if decide (s ∈ c) then 1%nat else 0%nat.
Proof.
  induction c as [|x c IH]; intros Hnd.
  - by rewrite decide_False by apply not_elem_of_nil.
  - apply NoDup_cons in Hnd as [Hx Hnd]. rewrite occurrences_cons, (IH Hnd).
    destruct (decide (x = s)) as [->|Hne].
    + rewrite (decide_False (P := s ∈ c)) by done.
      by rewrite decide_True by by left.
    + destruct (decide (s ∈ c)).
      * by rewrite decide_True by by right.
      * rewrite decide_False; [done|]. by intros [->|?]%elem_of_cons.
Qed.

Lemma later_occurrences_all (s : string) (rest : list StringVec) :
  Forall NoDup rest ->
  (later_occurrences s rest <= length rest)%nat
  ∧ (later_occurrences s rest = length rest <-> forall c, c ∈ rest -> s ∈ c).
Proof.
  unfold later_occurrences.
  induction rest as [|c rest IH]; intros Hnd; csimpl.
  - split; [done|]. split; [|done]. intros _ c Hc. by apply elem_of_nil in Hc.
  - apply Forall_cons in Hnd as [Hc Hnd]. destruct (IH Hnd) as [Hle Hiff].
    rewrite (occurrences_NoDup _ _ Hc). destruct (decide (s ∈ c)) as [Hs|Hs].
    + split; [lia|]. split.
      * intros Heq c' [->|Hc']%elem_of_cons; [done|]. apply Hiff; [lia|done].
      * intros Hall. f_equal. apply Hiff. intros c' Hc'. apply Hall. by right.
    + split; [lia|]. split; [lia|].
      intros Hall. exfalso. apply Hs, Hall. by left.
Qed.

(** C5, as the code has it: [InterResultVec] goes through the per-shard
    results in shard order, passing over [SKIPPED] ones. The first result
    that is neither [OK] nor [SKIPPED] ends it: with an empty array if it is
    [KEY_NOTFOUND], with its status otherwise. If there is none, the result
    holds, once each, exactly the members of the first contribution whose
    counter (1, plus the occurrences in the later contributions, modulo
    2^32) equals [required_shard_cnt]; when no contribution repeats a member
    and [required_shard_cnt] is the number of contributions, these are the
    members present in every contribution. *)
Theorem InterResultVec_spec (result_vec : ResultStringVec)
    (required_shard_cnt : Z) :
  let result := InterResultVec result_vec required_shard_cnt in
  (forall st, first_failure result_vec = Some st ->
     result = if decide (st = KEY_NOTFOUND) then ResultOf [] else mkOpResult st [])
  ∧ (first_failure result_vec = None -> contributions result_vec = [] ->
     result = ResultOf [])
  ∧ (forall c rest,
       first_failure result_vec = None -> contributions result_vec = c :: rest ->
       status result = OK
       ∧ NoDup (value result)
       ∧ forall s, s ∈ value result <->
           s ∈ c
           ∧ (1 + Z.of_nat (later_occurrences s rest)) mod UINT32_MOD
             = required_shard_cnt)
  ∧ (forall c rest,
       first_failure result_vec = None -> contributions result_vec = c :: rest ->
       Forall NoDup (c :: rest) ->
       required_shard_cnt = Z.of_nat (length (c :: rest)) ->
       required_shard_cnt < UINT32_MOD ->
       forall s, s ∈ value result <-> forall c', c' ∈ c :: rest -> s ∈ c').
Proof.
  intros result.
  assert (Hmain : forall c rest,
       first_failure result_vec = None -> contributions result_vec = c :: rest ->
       status result = OK
       ∧ NoDup (value result)
       ∧ forall s, s ∈ value result <->
           s ∈ c
           ∧ (1 + Z.of_nat (later_occurrences s rest)) mod UINT32_MOD
             = required_shard_cnt).
  { intros c rest Hf Hc. unfold result, InterResultVec.
    rewrite (InterResultVec_loop_first _ _ Hf), Hc. simpl.
    destruct (CountMap_emplace_all c [] (NoDup_nil_2 : NoDup ([] : CountMap).*1))
      as (H1 & H2 & H3); [constructor|].
    destruct (select_counted_spec required_shard_cnt _ rest H1 H2) as [S1 S2].
    split_and!; [done|done|]. intros s. rewrite S2, H3. simpl.
    split; [|tauto]. by intros [[?%elem_of_nil|?] ?]. }
  split_and!.
  - intros st Hf. by apply InterResultVec_loop_failure.
  - intros Hf Hc. unfold result, InterResultVec.
    by rewrite (InterResultVec_loop_first _ _ Hf), Hc.
  - done.
  - intros c rest Hf Hc Hnd Hreq Hlt s.
    destruct (Hmain c rest Hf Hc) as (_ & _ & ->).
    apply Forall_cons in Hnd as [Hndc Hnd].
    destruct (later_occurrences_all s rest Hnd) as [Hle Hiff].
    simpl in Hreq. rewrite Z.mod_small by lia. split.
    + intros [Hs Heq] c' [->|Hc']%elem_of_cons; [done|].
      apply Hiff; [lia|done].
    + intros Hall. split; [apply Hall; by left|].
      assert (later_occurrences s rest = length rest); [|lia].
      apply Hiff. intros c' Hc'. apply Hall. by right.
Qed.

(** C5 as the specification words it fails: a [KEY_NOTFOUND] of one shard
    does not empty the result when the result of an earlier shard is
    another error. *)
Lemma InterResultVec_KEY_NOTFOUND_after_error :
  let result_vec : ResultStringVec :=
    [mkOpResult WRONG_TYPE []; mkOpResult KEY_NOTFOUND []] in
  (exists res, res ∈ result_vec ∧ status res <> SKIPPED
               ∧ status res = KEY_NOTFOUND)
  ∧ InterResultVec result_vec 2 <> ResultOf [].
Proof.
  split.
  - exists (mkOpResult KEY_NOTFOUND []). split_and!; [|done|done].
    apply elem_of_cons. right. apply elem_of_cons. by left.
  - discriminate.
Qed.

Lemma InterResultVec_spec_witness :
  let result_vec : ResultStringVec :=
    [ResultOf ["a"; "b"]; mkOpResult SKIPPED []; ResultOf ["b"; "c"]]%string in
  "b"%string ∈ value (InterResultVec result_vec 2)
  ∧ "a"%string ∉ value (InterResultVec result_vec 2).
Proof.
  intros result_vec.
  pose proof (proj2 (proj2 (proj2 (InterResultVec_spec result_vec 2)))
                ["a"; "b"]%string [["b"; "c"]%string]
                eq_refl eq_refl) as H.
  assert (Hnd : Forall NoDup [["a"; "b"]; ["b"; "c"]]%string)
    by decide_concrete.
  specialize (H Hnd eq_refl eq_refl).
  split.
  - apply H. apply Forall_forall. decide_concrete.
  - intros Ha. pose proof (proj1 (H _) Ha) as Hall.
    apply Forall_forall in Hall. revert Hall. decide_concrete.
Defined.

(** ** Hops *)

Section Hops.

Variable NDEBUG : bool.
Variable hash : string -> nat.
Variable set_max_intset_entries : Z.

Lemma with_shards_id (cntx : ConnectionContext) :
  with_shards cntx (shard_set cntx) = cntx.
Proof. by destruct cntx. Qed.

Lemma Execute_on_NoOp (t : Transaction) (sids : list ShardId) :
  forall shards : list DbSlice,
  Execute_on hash NoOp t sids shards tt = Done (shards, tt).
Proof.
  induction sids as [|sid rest IH]; intros shards; simpl; [done|].
  destruct (ShardArgsInShard hash t sid); [apply IH|].
  destruct (shards !! sid) as [db|] eqn:E; [|apply IH].
  simpl. rewrite list_insert_id by done. apply IH.
Qed.

(** The concluding hop with [NoOpCb] always completes and leaves every
    dictionary as it is. *)
Lemma Execute_NoOp (t : Transaction) (cntx : ConnectionContext) :
  Execute hash NoOpCb NoOp true t cntx tt
  = Done (emit cntx (EvExecute NoOpCb true), tt).
Proof.
  unfold Execute. rewrite Execute_on_NoOp. simpl. by rewrite with_shards_id.
Qed.

Lemma Execute_events {C} (name : HopCallback) (cb : Callback C)
    (is_concluding : bool) (t : Transaction) (cntx cntx' : ConnectionContext)
    (c c' : C) :
  Execute hash name cb is_concluding t cntx c = Done (cntx', c') ->
  events cntx' = events cntx ++ [EvExecute name is_concluding].
Proof.
  unfold Execute.
  destruct (Execute_on hash cb t _ _ c) as [[shards c1]|w]; [|done].
  simpl. by intros [= <- <-].
Qed.

(** A hop whose callback leaves the captured variables alone and turns the
    dictionary [db] of shard [sid] into [f sid db] does so on every shard
    that holds a key argument, and nowhere else. *)
Lemma Execute_on_local {C} (cb : Callback C) (t : Transaction)
    (f : ShardId -> DbSlice -> DbSlice) (c : C) (sids : list ShardId) :
  forall shards : list DbSlice,
  NoDup sids ->
  (forall sid db, sid ∈ sids -> shards !! sid = Some db ->
     ShardArgsInShard hash t sid <> [] -> cb t sid db c = Done (f sid db, c)) ->
  exists shards',
    Execute_on hash cb t sids shards c = Done (shards', c)
    ∧ forall i,
        shards' !! i
        = if decide (i ∈ sids ∧ ShardArgsInShard hash t i <> [])
          then f i <$> shards !! i else shards !! i.
Proof.
  induction sids as [|sid rest IH]; intros shards Hnd Hcb.
  - exists shards. split; [done|]. intros i.
    rewrite decide_False; [done|]. intros [?%elem_of_nil _]. done.
  - apply NoDup_cons in Hnd as [Hsid Hnd]. simpl.
    assert (Hskip :
      (forall db, shards !! sid = Some db -> ShardArgsInShard hash t sid = []) ->
      exists shards',
        Execute_on hash cb t rest shards c = Done (shards', c)
        ∧ forall i,
            shards' !! i
            = if decide (i ∈ sid :: rest ∧ ShardArgsInShard hash t i <> [])
              then f i <$> shards !! i else shards !! i).
    { intros Hnone. destruct (IH shards Hnd) as (shards' & Hex & Hl).
      { intros sid' db Hin. apply Hcb. by right. }
      exists shards'. split; [done|]. intros i. rewrite Hl.
      destruct (decide (i = sid)) as [->|Hne].
      - rewrite decide_False by tauto.
        destruct (shards !! sid) as [db|] eqn:E.
        + rewrite decide_False; [done|]. intros [_ Hargs].
          by apply Hargs, (Hnone db).
        + by destruct (decide _).
      - destruct (decide (i ∈ rest ∧ _)) as [[Hin Hargs]|Hn].
        + rewrite decide_True; [done|]. split; [by right|done].
        + rewrite decide_False; [done|].
          intros [[?|?]%elem_of_cons ?]; tauto. }
    destruct (ShardArgsInShard hash t sid) as [|k largs] eqn:Hargs.
    { apply Hskip. done. }
    destruct (shards !! sid) as [db|] eqn:E.
    2: { apply Hskip. done. }
    rewrite (Hcb sid db); [|by left|done|by rewrite Hargs]. simpl.
    destruct (IH (<[sid := f sid db]> shards) Hnd) as (shards' & Hex & Hl).
    { intros sid' db' Hin Hl'. apply Hcb; [by right|].
      rewrite list_lookup_insert_ne in Hl'; [done|]. by intros ->. }
    exists shards'. split; [done|]. intros i. rewrite Hl.
    destruct (decide (i = sid)) as [->|Hne].
    + rewrite decide_False by tauto.
      rewrite decide_True by (split; [by left|by rewrite Hargs]).
      rewrite list_lookup_insert_eq by (by eapply lookup_lt_Some).
      by rewrite E.
    + rewrite list_lookup_insert_ne by done.
      destruct (decide (i ∈ rest ∧ _)) as [[Hin Hargs']|Hn].
      * rewrite decide_True; [done|]. split; [by right|done].
      * rewrite decide_False; [done|].
        intros [[?|?]%elem_of_cons ?]; tauto.
Qed.

(** A hop aborts when the callback aborts on a shard it reaches, the
    callbacks before it leaving the dictionaries alone. *)
Lemma Execute_on_aborts {C} (cb : Callback C) (t : Transaction)
    (w : string) (shards : list DbSlice) (bad : ShardId) :
  (forall sid db c, ShardArgsInShard hash t sid <> [] ->
     (exists c', cb t sid db c = Done (db, c')) ∨ cb t sid db c = Aborted w) ->
  ShardArgsInShard hash t bad <> [] ->
  is_Some (shards !! bad) ->
  (forall db c, cb t bad db c = Aborted w) ->
  forall (sids : list ShardId) (c : C),
  bad ∈ sids ->
  Execute_on hash cb t sids shards c = Aborted w.
Proof.
  intros Hcb Hactive [db0 Hdb0] Hbad.
  induction sids as [|sid sids IH]; intros c Hin; [by apply elem_of_nil in Hin|].
  cbn [Execute_on].
  assert (Hrest : sid <> bad -> forall c', Execute_on hash cb t sids shards c'
                                           = Aborted w).
  { intros Hne c'. apply IH. by apply elem_of_cons in Hin as [?|?]. }
  destruct (ShardArgsInShard hash t sid) as [|k ks] eqn:Hargs.
  { apply Hrest. intros ->. by rewrite Hargs in Hactive. }
  destruct (shards !! sid) as [db|] eqn:Hdb.
  2: { apply Hrest. intros ->. by rewrite Hdb0 in Hdb. }
  destruct (decide (sid = bad)) as [-> |Hne]; [by rewrite Hbad|].
  destruct (Hcb sid db c) as [[c' ->]| ->]; [by rewrite Hargs| |done].
  cbn [mbind Outcome_bind]. rewrite list_insert_id by done. by apply Hrest.
Qed.

End Hops.

(** ** Mover *)

Lemma Mover_OpMutate_src (NDEBUG : bool) (hash : string -> nat) (max : Z)
    (m : Mover) (t : Transaction) (sid : ShardId) (db : DbSlice) :
  ShardArgsInShard hash t sid = [src_ m] ->
  Mover_OpMutate NDEBUG hash max t sid db m
  = if value (snd (OpRem db (db_index t) (src_ m) [member_ m])) =? 1
    then Done (fst (OpRem db (db_index t) (src_ m) [member_ m]), m)
    else Aborted "1 == OpRem(op_args, k, {member_}).value()".
Proof.
  intros Hargs. unfold Mover_OpMutate, DCHECK. rewrite Hargs. simpl.
  rewrite bool_decide_eq_true_2 by done.
  destruct (OpRem db (db_index t) (src_ m) [member_ m]) as [db' r]. simpl.
  by destruct NDEBUG; destruct (value r =? 1).
Qed.

Lemma Mover_OpMutate_dest (NDEBUG : bool) (hash : string -> nat) (max : Z)
    (m : Mover) (t : Transaction) (sid : ShardId) (db : DbSlice) :
  src_ m <> dest_ m ->
  ShardArgsInShard hash t sid = [dest_ m] ->
  Mover_OpMutate NDEBUG hash max t sid db m
  = Done (fst (OpAdd max db (db_index t) (dest_ m) [member_ m] false), m).
Proof.
  intros Hne Hargs. unfold Mover_OpMutate, DCHECK. rewrite Hargs. simpl.
  rewrite bool_decide_eq_false_2 by done.
  rewrite bool_decide_eq_true_2 by done.
  destruct (OpAdd max db (db_index t) (dest_ m) [member_ m] false) as [db' r].
  by destruct NDEBUG.
Qed.

Lemma Mover_OpMutate_both (NDEBUG : bool) (hash : string -> nat) (max : Z)
    (m : Mover) (t : Transaction) (sid : ShardId) (db : DbSlice) :
  src_ m <> dest_ m ->
  ShardArgsInShard hash t sid = [src_ m; dest_ m] ->
  Mover_OpMutate NDEBUG hash max t sid db m
  = if NDEBUG then
      if value (snd (OpRem db (db_index t) (src_ m) [member_ m])) =? 1
      then Done (fst (OpAdd max
                        (fst (OpRem db (db_index t) (src_ m) [member_ m]))
                        (db_index t) (dest_ m) [member_ m] false), m)
      else Aborted "1 == OpRem(op_args, k, {member_}).value()"
    else Aborted "largs.size() < 2".
Proof.
  intros Hne Hargs. unfold Mover_OpMutate, DCHECK. rewrite Hargs.
  destruct NDEBUG; [|done]. simpl.
  rewrite bool_decide_eq_true_2 by done.
  destruct (OpRem db (db_index t) (src_ m) [member_ m]) as [db' r]. simpl.
  destruct (value r =? 1); [|done]. simpl.
  rewrite bool_decide_eq_false_2 by (by intros ?).
  by destruct (OpAdd max db' (db_index t) (dest_ m) [member_ m] false).
Qed.

(** C2: the decision of [Mover::Commit]. A [WRONG_TYPE] recorded for
    either key gives [WRONG_TYPE] and a concluding hop that does nothing;
    otherwise a source that does not hold the member gives 0 and a
    concluding hop that does nothing; otherwise the result is 1, with a
    concluding hop that does nothing if the two keys are equal and the hop
    of [OpMutate] if not. On a shard that holds only the source [OpMutate]
    is [OpRem] of the member (which has to remove it), on a shard that
    holds only the destination it is [OpAdd] of the member without
    overwrite; with the two keys on two shards, the dictionaries of these
    two shards change so and no other does. On a shard that holds both
    keys [OpMutate] removes the member from the source and then adds it to
    the destination in a build with [NDEBUG], and only the dictionary of
    that shard changes; a build that keeps its assertions does not get
    there, for the step [Find] before [Commit] stops on such a shard (as
    [OpMutate] itself would). *)
Theorem Mover_Commit_spec (NDEBUG : bool) (hash : string -> nat) (max : Z)
    (m : Mover) (t : Transaction) (cntx : ConnectionContext) :
  let wrong_type :=
    status (found_0 m) = WRONG_TYPE ∨ status (found_1 m) = WRONG_TYPE in
  let noop_hop := emit cntx (EvExecute NoOpCb true) in
  (wrong_type ->
     Mover_Commit NDEBUG hash max m t cntx
     = Done (noop_hop, mkOpResult WRONG_TYPE 0))
  ∧ (~ wrong_type -> value_or (found_0 m) false = false ->
     Mover_Commit NDEBUG hash max m t cntx = Done (noop_hop, ResultOf 0))
  ∧ (~ wrong_type -> value_or (found_0 m) false = true -> src_ m = dest_ m ->
     Mover_Commit NDEBUG hash max m t cntx = Done (noop_hop, ResultOf 1))
  ∧ (~ wrong_type -> value_or (found_0 m) false = true -> src_ m <> dest_ m ->
     Mover_Commit NDEBUG hash max m t cntx
     = '(cntx', _) ←
         Execute hash Cb_OpMutate (Mover_OpMutate NDEBUG hash max) true t cntx m;
       Done (cntx', ResultOf 1))
  ∧ (forall sid db, ShardArgsInShard hash t sid = [src_ m] ->
     Mover_OpMutate NDEBUG hash max t sid db m
     = if value (snd (OpRem db (db_index t) (src_ m) [member_ m])) =? 1
       then Done (fst (OpRem db (db_index t) (src_ m) [member_ m]), m)
       else Aborted "1 == OpRem(op_args, k, {member_}).value()")
  ∧ (forall sid db, src_ m <> dest_ m ->
     ShardArgsInShard hash t sid = [dest_ m] ->
     Mover_OpMutate NDEBUG hash max t sid db m
     = Done (fst (OpAdd max db (db_index t) (dest_ m) [member_ m] false), m))
  ∧ (forall db_s db_d,
     ~ wrong_type -> value_or (found_0 m) false = true ->
     key_args t = [src_ m; dest_ m] ->
     shard_set_size t = length (shard_set cntx) ->
     let ss := Shard hash (src_ m) (shard_set_size t) in
     let sd := Shard hash (dest_ m) (shard_set_size t) in
     ss <> sd ->
     shard_set cntx !! ss = Some db_s ->
     shard_set cntx !! sd = Some db_d ->
     value (snd (OpRem db_s (db_index t) (src_ m) [member_ m])) = 1 ->
     exists cntx',
       Mover_Commit NDEBUG hash max m t cntx = Done (cntx', ResultOf 1)
       ∧ events cntx' = events cntx ++ [EvExecute Cb_OpMutate true]
       ∧ shard_set cntx' !! ss
         = Some (fst (OpRem db_s (db_index t) (src_ m) [member_ m]))
       ∧ shard_set cntx' !! sd
         = Some (fst (OpAdd max db_d (db_index t) (dest_ m) [member_ m] false))
       ∧ forall i, i <> ss -> i <> sd ->
           shard_set cntx' !! i = shard_set cntx !! i)
  ∧ (forall sid db, src_ m <> dest_ m ->
     ShardArgsInShard hash t sid = [src_ m; dest_ m] ->
     Mover_OpMutate NDEBUG hash max t sid db m
     = if NDEBUG then
         if value (snd (OpRem db (db_index t) (src_ m) [member_ m])) =? 1
         then Done (fst (OpAdd max
                           (fst (OpRem db (db_index t) (src_ m) [member_ m]))
                           (db_index t) (dest_ m) [member_ m] false), m)
         else Aborted "1 == OpRem(op_args, k, {member_}).value()"
       else Aborted "largs.size() < 2")
  ∧ (forall db,
     ~ wrong_type -> value_or (found_0 m) false = true ->
     key_args t = [src_ m; dest_ m] ->
     shard_set_size t = length (shard_set cntx) ->
     let ss := Shard hash (src_ m) (shard_set_size t) in
     let sd := Shard hash (dest_ m) (shard_set_size t) in
     src_ m <> dest_ m ->
     ss = sd ->
     shard_set cntx !! ss = Some db ->
     value (snd (OpRem db (db_index t) (src_ m) [member_ m])) = 1 ->
     NDEBUG = true ->
     exists cntx',
       Mover_Commit NDEBUG hash max m t cntx = Done (cntx', ResultOf 1)
       ∧ events cntx' = events cntx ++ [EvExecute Cb_OpMutate true]
       ∧ shard_set cntx' !! ss
         = Some (fst (OpAdd max
                        (fst (OpRem db (db_index t) (src_ m) [member_ m]))
                        (db_index t) (dest_ m) [member_ m] false))
       ∧ forall i, i <> ss -> shard_set cntx' !! i = shard_set cntx !! i)
  ∧ (key_args t = [src_ m; dest_ m] ->
     shard_set_size t = length (shard_set cntx) ->
     let ss := Shard hash (src_ m) (shard_set_size t) in
     let sd := Shard hash (dest_ m) (shard_set_size t) in
     ss = sd ->
     is_Some (shard_set cntx !! ss) ->
     NDEBUG = false ->
     Mover_Find NDEBUG hash m t cntx = Aborted "largs.size() < 2").
Proof.
  intros wrong_type noop_hop.
  assert (Hmutate :
     ~ wrong_type -> value_or (found_0 m) false = true -> src_ m <> dest_ m ->
     Mover_Commit NDEBUG hash max m t cntx
     = '(cntx', _) ←
         Execute hash Cb_OpMutate (Mover_OpMutate NDEBUG hash max) true t cntx m;
       Done (cntx', ResultOf 1)).
  { intros Hw Hv Hne. unfold Mover_Commit, Commit_decision.
    rewrite !bool_decide_eq_false_2 by (unfold wrong_type in Hw; tauto).
    simpl. by rewrite Hv. }
  split_and!.
  - intros Hw. unfold Mover_Commit, Commit_decision.
    assert (bool_decide (status (found_0 m) = WRONG_TYPE)
            || bool_decide (status (found_1 m) = WRONG_TYPE) = true) as ->.
    { apply orb_true_iff. destruct Hw; [left|right]; by apply bool_decide_eq_true. }
    by rewrite Execute_NoOp.
  - intros Hw Hv. unfold Mover_Commit, Commit_decision.
    rewrite !bool_decide_eq_false_2 by (unfold wrong_type in Hw; tauto).
    simpl. rewrite Hv. simpl. by rewrite Execute_NoOp.
  - intros Hw Hv Heq. unfold Mover_Commit, Commit_decision.
    rewrite !bool_decide_eq_false_2 by (unfold wrong_type in Hw; tauto).
    simpl. rewrite Hv. simpl. rewrite bool_decide_eq_true_2 by done.
    by rewrite Execute_NoOp.
  - done.
  - intros sid db. apply Mover_OpMutate_src.
  - intros sid db. apply Mover_OpMutate_dest.
  - intros db_s db_d Hw Hv Hkeys Hsize ss sd Hne Hs Hd Hone.
    assert (Hkne : src_ m <> dest_ m).
    { intros Heq. apply Hne. unfold ss, sd. by rewrite Heq. }
    assert (Hargs : forall i, ShardArgsInShard hash t i
      = if decide (i = ss) then [src_ m]
        else if decide (i = sd) then [dest_ m] else []).
    { intros i. unfold ShardArgsInShard. rewrite Hkeys.
      rewrite !filter_cons, filter_nil. fold ss sd.
      destruct (decide (i = ss)) as [->|H1].
      - rewrite decide_True by done. by rewrite decide_False by (by intros ?).
      - rewrite decide_False by (by intros ?).
        destruct (decide (i = sd)) as [->|H2].
        + by rewrite decide_True by done.
        + by rewrite decide_False by (by intros ?). }
    set (f := fun (i : ShardId) (db : DbSlice) =>
      if decide (i = ss)
      then fst (OpRem db (db_index t) (src_ m) [member_ m])
      else fst (OpAdd max db (db_index t) (dest_ m) [member_ m] false)).
    destruct (Execute_on_local hash (Mover_OpMutate NDEBUG hash max) t f m
                (seq 0 (shard_set_size t)) (shard_set cntx))
      as (shards' & Hex & Hl).
    { apply NoDup_seq. }
    { intros i db _ Hi Hnonempty. rewrite Hargs in Hnonempty. unfold f.
      destruct (decide (i = ss)) as [->|H1].
      - rewrite Mover_OpMutate_src by by rewrite Hargs, decide_True.
        assert (db = db_s) as -> by congruence. by rewrite Hone.
      - destruct (decide (i = sd)) as [->|H2]; [|done].
        apply Mover_OpMutate_dest; [done|].
        rewrite Hargs, decide_False by (by intros ?). by rewrite decide_True. }
    assert (Hin : forall i db, shard_set cntx !! i = Some db ->
                    i ∈ seq 0 (shard_set_size t)).
    { intros i db Hi. apply elem_of_seq. apply lookup_lt_Some in Hi. lia. }
    exists (emit (with_shards cntx shards') (EvExecute Cb_OpMutate true)).
    split_and!.
    + rewrite (Hmutate Hw Hv Hkne). unfold Execute. by rewrite Hex.
    + done.
    + simpl. rewrite Hl, decide_True, Hs.
      * simpl. unfold f. by rewrite decide_True.
      * split; [by eapply Hin|]. by rewrite Hargs, decide_True.
    + simpl. rewrite Hl, decide_True, Hd.
      * simpl. unfold f. rewrite decide_False; [done|]. by intros ?.
      * split; [by eapply Hin|].
        rewrite Hargs, decide_False by (by intros ?). by rewrite decide_True.
    + intros i H1 H2. simpl. rewrite Hl, decide_False; [done|].
      intros [_ Hnonempty]. rewrite Hargs in Hnonempty.
      by rewrite !decide_False in Hnonempty.
  - intros sid db Hkne Hargs. by apply Mover_OpMutate_both.
  - intros db Hw Hv Hkeys Hsize ss sd Hkne Heq Hs Hone ->.
    assert (Hargs : forall i, ShardArgsInShard hash t i
      = if decide (i = ss) then [src_ m; dest_ m] else []).
    { intros i. unfold ShardArgsInShard. rewrite Hkeys.
      rewrite !filter_cons, filter_nil. fold ss sd. rewrite <- Heq.
      destruct (decide (i = ss)) as [->|H1].
      - by rewrite !decide_True by done.
      - by rewrite !decide_False by (by intros ?). }
    set (f := fun (i : ShardId) (db0 : DbSlice) =>
      fst (OpAdd max (fst (OpRem db0 (db_index t) (src_ m) [member_ m]))
             (db_index t) (dest_ m) [member_ m] false)).
    destruct (Execute_on_local hash (Mover_OpMutate true hash max) t f m
                (seq 0 (shard_set_size t)) (shard_set cntx))
      as (shards' & Hex & Hl).
    { apply NoDup_seq. }
    { intros i db0 _ Hi Hnonempty. rewrite Hargs in Hnonempty. unfold f.
      destruct (decide (i = ss)) as [->|H1]; [|done].
      rewrite Mover_OpMutate_both by (done || by rewrite Hargs, decide_True).
      assert (db0 = db) as -> by congruence. by rewrite Hone. }
    exists (emit (with_shards cntx shards') (EvExecute Cb_OpMutate true)).
    split_and!.
    + rewrite (Hmutate Hw Hv Hkne). unfold Execute. by rewrite Hex.
    + done.
    + simpl. rewrite Hl, decide_True, Hs; [done|].
      split; [|by rewrite Hargs, decide_True].
      apply elem_of_seq. apply lookup_lt_Some in Hs. lia.
    + intros i H1. simpl. rewrite Hl, decide_False; [done|].
      intros [_ Hnonempty]. rewrite Hargs in Hnonempty.
      by rewrite decide_False in Hnonempty.
  - intros Hkeys Hsize ss sd Heq Hs ->.
    assert (Hargs : ShardArgsInShard hash t ss = [src_ m; dest_ m]).
    { unfold ShardArgsInShard. rewrite Hkeys.
      rewrite !filter_cons, filter_nil. fold ss sd. rewrite <- Heq.
      by rewrite !decide_True by done. }
    unfold Mover_Find, Execute.
    rewrite (Execute_on_aborts hash (Mover_OpFind false hash) t
               "largs.size() < 2" (shard_set cntx) ss); [done| | |done| |].
    + intros sid db c _. unfold Mover_OpFind, DCHECK, CHECK.
      destruct (length (ShardArgsInShard hash t sid) <? 2)%nat;
        [left; by eexists|by right].
    + by rewrite Hargs.
    + intros db c. unfold Mover_OpFind. by rewrite Hargs.
    + apply elem_of_seq. destruct Hs as [db Hs].
      apply lookup_lt_Some in Hs. lia.
Qed.

(** ** The concluding hop of the commands with two hops *)

Section Concluding.

Variable NDEBUG : bool.
Variable hash : string -> nat.
Variable set_max_intset_entries : Z.

Lemma concluded_noop (cntx cntx1 : ConnectionContext) (cb1 : HopCallback)
    (r : Reply) :
  events cntx1 = events (Schedule cntx) ++ [EvExecute cb1 false] ->
  concluded_after (events cntx)
    (events (reply (emit cntx1 (EvExecute NoOpCb true)) r)).
Proof.
  intros Hev. exists cb1, NoOpCb, r. split; [|done].
  simpl. rewrite Hev. simpl. by rewrite <- !app_assoc.
Qed.

Lemma concluded_value {C} (cntx cntx1 cntx2 : ConnectionContext)
    (cb1 name : HopCallback) (cb : Callback C) (t : Transaction) (c c' : C)
    (r : Reply) :
  events cntx1 = events (Schedule cntx) ++ [EvExecute cb1 false] ->
  Execute hash name cb true t cntx1 c = Done (cntx2, c') ->
  ~ is_error_reply r ->
  concluded_after (events cntx) (events (reply cntx2 r)).
Proof.
  intros Hev Hex Hr. exists cb1, name, r. split; [|done].
  simpl. rewrite (Execute_events _ _ _ _ _ _ _ _ _ Hex), Hev. simpl.
  by rewrite <- !app_assoc.
Qed.

Lemma Mover_Commit_error (m : Mover) (t : Transaction)
    (cntx : ConnectionContext) :
  is_ok (fst (Commit_decision m)) = false ->
  Mover_Commit NDEBUG hash set_max_intset_entries m t cntx
  = Done (emit cntx (EvExecute NoOpCb true), fst (Commit_decision m)).
Proof.
  unfold Mover_Commit, Commit_decision.
  destruct (bool_decide _ || bool_decide _); simpl.
  - by rewrite Execute_NoOp.
  - by destruct (negb (value_or (found_0 m) false)).
Qed.

Lemma SMove_concluded (args : list string) (cntx cntx' : ConnectionContext) :
  SMove NDEBUG hash set_max_intset_entries args cntx = Done cntx' ->
  concluded_after (events cntx) (events cntx').
Proof.
  unfold SMove, Mover_Find.
  destruct (Execute hash Cb_OpFind _ false _ _ _) as [[cntx1 m1]|w] eqn:Hfind;
    [|done].
  apply Execute_events in Hfind. simpl.
  destruct (is_ok (fst (Commit_decision m1))) eqn:Hok.
  - unfold Mover_Commit.
    destruct (Commit_decision m1) as [res noop]. simpl in Hok.
    destruct noop.
    + rewrite Execute_NoOp. simpl. rewrite Hok. simpl. intros [= <-].
      by eapply concluded_noop.
    + destruct (Execute hash Cb_OpMutate _ true _ _ _) as [[cntx2 m2]|w] eqn:Hmut;
        [|done].
      simpl. rewrite Hok. simpl. intros [= <-].
      eapply concluded_value; [exact Hfind|exact Hmut|by intros []].
  - rewrite (Mover_Commit_error _ _ _ Hok). simpl. rewrite Hok. simpl.
    intros [= <-]. by eapply concluded_noop.
Qed.

Lemma SDiffStore_conclude_error (t : Transaction) (dest_key : string)
    (dest_shard src_shard : ShardId) (cntx : ConnectionContext)
    (result_set : ResultStringVec) :
  is_ok (DiffResultVec result_set src_shard) = false ->
  SDiffStore_conclude hash set_max_intset_entries t dest_key dest_shard
    src_shard cntx result_set
  = Done (reply (emit cntx (EvExecute NoOpCb true))
            (SendError (StatusError (status (DiffResultVec result_set src_shard))))).
Proof.
  intros Hok. unfold SDiffStore_conclude. rewrite Hok. simpl.
  by rewrite Execute_NoOp.
Qed.

Lemma SDiffStore_concluded (args : list string) (cntx cntx' : ConnectionContext) :
  SDiffStore NDEBUG hash set_max_intset_entries args cntx = Done cntx' ->
  concluded_after (events cntx) (events cntx').
Proof.
  unfold SDiffStore.
  destruct (Execute hash Cb_diff _ false _ _ _) as [[cntx1 rs]|w] eqn:Hhop;
    [|done].
  apply Execute_events in Hhop. simpl. unfold SDiffStore_conclude.
  destruct (is_ok (DiffResultVec _ _)) eqn:Hok; simpl.
  - destruct (Execute hash Cb_store _ true _ _ _) as [[cntx2 u]|w] eqn:Hst;
      [|done].
    simpl. intros [= <-].
    eapply concluded_value; [exact Hhop|exact Hst|by intros []].
  - rewrite Execute_NoOp. simpl. intros [= <-]. by eapply concluded_noop.
Qed.

Lemma SInterStore_conclude_error (t : Transaction) (dest_key : string)
    (dest_shard : ShardId) (cntx : ConnectionContext)
    (result_set : ResultStringVec) (inter_shard_cnt : Z) :
  is_ok (InterResultVec result_set inter_shard_cnt) = false ->
  SInterStore_conclude hash set_max_intset_entries t dest_key dest_shard cntx
    result_set inter_shard_cnt
  = Done (reply (emit cntx (EvExecute NoOpCb true))
            (SendError
               (StatusError (status (InterResultVec result_set inter_shard_cnt))))).
Proof.
  intros Hok. unfold SInterStore_conclude. rewrite Hok. simpl.
  by rewrite Execute_NoOp.
Qed.

Lemma SInterStore_concluded (args : list string) (cntx cntx' : ConnectionContext) :
  SInterStore NDEBUG hash set_max_intset_entries args cntx = Done cntx' ->
  concluded_after (events cntx) (events cntx').
Proof.
  unfold SInterStore.
  destruct (Execute hash Cb_inter _ false _ _ _) as [[cntx1 [rs cnt]]|w] eqn:Hhop;
    [|done].
  apply Execute_events in Hhop. simpl. unfold SInterStore_conclude.
  destruct (is_ok (InterResultVec _ _)) eqn:Hok; simpl.
  - destruct (Execute hash Cb_store _ true _ _ _) as [[cntx2 u]|w] eqn:Hst;
      [|done].
    simpl. intros [= <-].
    eapply concluded_value; [exact Hhop|exact Hst|by intros []].
  - rewrite Execute_NoOp. simpl. intros [= <-]. by eapply concluded_noop.
Qed.

Lemma SUnionStore_conclude_error (t : Transaction) (dest_key : string)
    (dest_shard : ShardId) (cntx : ConnectionContext)
    (result_set : ResultStringVec) :
  is_ok (UnionResultVec result_set) = false ->
  SUnionStore_conclude hash set_max_intset_entries t dest_key dest_shard cntx
    result_set
  = Done (reply (emit cntx (EvExecute NoOpCb true))
            (SendError (StatusError (status (UnionResultVec result_set))))).
Proof.
  intros Hok. unfold SUnionStore_conclude. rewrite Hok. simpl.
  by rewrite Execute_NoOp.
Qed.

Lemma SUnionStore_concluded (args : list string) (cntx cntx' : ConnectionContext) :
  SUnionStore NDEBUG hash set_max_intset_entries args cntx = Done cntx' ->
  concluded_after (events cntx) (events cntx').
Proof.
  unfold SUnionStore.
  destruct (Execute hash Cb_union _ false _ _ _) as [[cntx1 rs]|w] eqn:Hhop;
    [|done].
  apply Execute_events in Hhop. simpl. unfold SUnionStore_conclude.
  destruct (is_ok (UnionResultVec _)) eqn:Hok; simpl.
  - destruct (Execute hash Cb_store _ true _ _ _) as [[cntx2 u]|w] eqn:Hst;
      [|done].
    simpl. intros [= <-].
    eapply concluded_value; [exact Hhop|exact Hst|by intros []].
  - rewrite Execute_NoOp. simpl. intros [= <-]. by eapply concluded_noop.
Qed.

End Concluding.

(** ** Hops that cannot stop at an assertion *)

Section Completion.

Variable NDEBUG : bool.
Variable hash : string -> nat.
Variable set_max_intset_entries : Z.

Lemma completes_Done {A} (m : Outcome A) :
  completes m -> exists a, m = Done a.
Proof. destruct m; [by eexists|done]. Qed.

Lemma completes_bind {A B} (m : Outcome A) (k : A -> Outcome B) :
  completes m -> (forall a, completes (k a)) -> completes (m ≫= k).
Proof. destruct m; [|done]. intros _ Hk. apply Hk. Qed.

Lemma Execute_on_completes {C} (cb : Callback C) (t : Transaction)
    (sids : list ShardId) :
  (forall sid db c, ShardArgsInShard hash t sid <> [] ->
     completes (cb t sid db c)) ->
  forall shards c, completes (Execute_on hash cb t sids shards c).
Proof.
  intros Hcb. induction sids as [|sid rest IH]; intros shards c; simpl; [done|].
  destruct (ShardArgsInShard hash t sid) as [|k largs] eqn:Hargs; [apply IH|].
  destruct (shards !! sid) as [db|]; [|apply IH].
  destruct (completes_Done (cb t sid db c)) as [[db' c'] ->].
  { apply Hcb. by rewrite Hargs. }
  simpl. apply IH.
Qed.

Lemma Execute_completes {C} (name : HopCallback) (cb : Callback C)
    (is_concluding : bool) (t : Transaction) (cntx : ConnectionContext) (c : C) :
  (forall sid db c, ShardArgsInShard hash t sid <> [] ->
     completes (cb t sid db c)) ->
  completes (Execute hash name cb is_concluding t cntx c).
Proof.
  intros Hcb. unfold Execute.
  destruct (completes_Done
              (Execute_on hash cb t (seq 0 (shard_set_size t)) (shard_set cntx) c))
    as [[shards c'] ->]; [by apply Execute_on_completes|done].
Qed.

Lemma store_cb_completes (dest_shard : ShardId) (dest_key : string)
    (result : StringVec) (t : Transaction) (sid : ShardId) (db : DbSlice)
    (c : unit) :
  completes (store_cb set_max_intset_entries dest_shard dest_key result t sid db c).
Proof.
  unfold store_cb. destruct (sid =? dest_shard)%nat; [|done].
  by destruct (OpAdd _ _ _ _ _ _).
Qed.

(** The key arguments of a STORE command are all arguments but the name
    of the command. *)
Lemma KeyArgs_all (args : list string) : KeyArgs 1 (-1) args = drop 1 args.
Proof.
  unfold KeyArgs. simpl. apply take_ge. rewrite length_drop. lia.
Qed.

Lemma skipped_results_length (n : nat) : length (skipped_results n) = n.
Proof. apply length_replicate. Qed.

(** On the shard of the destination, the destination is the first key. *)
Lemma dest_key_first (args : list string) (t : Transaction) (sid : ShardId) :
  key_args t = drop 1 args ->
  ShardArgsInShard hash t sid <> [] ->
  sid = Shard hash (ArgS args 1) (shard_set_size t) ->
  exists rest, drop 1 args = ArgS args 1 :: rest
    ∧ ShardArgsInShard hash t sid
      = ArgS args 1 :: filter (fun k => Shard hash k (shard_set_size t) = sid) rest.
Proof.
  intros Hkeys Hne Hsid. unfold ShardArgsInShard in *. rewrite Hkeys in *.
  destruct args as [|cmd [|d rest]]; simpl in *; try done.
  unfold ArgS. simpl. exists rest. split; [done|].
  rewrite filter_cons_True; [done|]. by rewrite Hsid.
Qed.

Lemma OpUnion_completes (db : DbSlice) (db_ind : DbIndex) (keys : list string) :
  keys <> [] -> completes (OpUnion NDEBUG db db_ind keys).
Proof.
  intros Hne. unfold OpUnion, DCHECK.
  rewrite bool_decide_eq_false_2 by done. by destruct NDEBUG.
Qed.

Lemma OpDiff_completes (t : Transaction) (sid : ShardId) (db : DbSlice) :
  ShardArgsInShard hash t sid <> [] -> completes (OpDiff NDEBUG hash t sid db).
Proof.
  intros Hne. unfold OpDiff, DCHECK.
  rewrite bool_decide_eq_false_2 by done.
  destruct (ShardArgsInShard hash t sid) as [|front others]; [done|].
  destruct NDEBUG; simpl; by destruct (Find db (db_index t) front OBJ_SET).
Qed.

Lemma CHECK_true {B} (what : string) (k : unit -> Outcome B) :
  CHECK what true ≫= k = k ().
Proof. done. Qed.

Lemma SUnionStore_union_cb_completes (args : list string) (t : Transaction)
    (sid : ShardId) (db : DbSlice) (result_set : ResultStringVec) :
  key_args t = drop 1 args ->
  ShardArgsInShard hash t sid <> [] ->
  completes
    (SUnionStore_union_cb NDEBUG hash (ArgS args 1)
       (Shard hash (ArgS args 1) (shard_set_size t)) t sid db result_set).
Proof.
  intros Hkeys Hne. unfold SUnionStore_union_cb.
  assert (Hunion : forall keys (r : ResultStringVec), keys <> [] ->
    completes (r' ← OpUnion NDEBUG db (db_index t) keys; Done (db, <[sid := r']> r))).
  { intros keys r Hk. apply completes_bind; [by apply OpUnion_completes|done]. }
  destruct (Nat.eqb_spec sid (Shard hash (ArgS args 1) (shard_set_size t)))
    as [Heq|Hneq].
  - destruct (dest_key_first args t sid Hkeys Hne Heq) as (rest & _ & Hargs).
    rewrite Hargs. cbn [head drop].
    rewrite (bool_decide_eq_true_2 (Some (ArgS args 1) = Some (ArgS args 1)) eq_refl).
    rewrite CHECK_true.
    destruct (filter _ rest) as [|k largs] eqn:Hf; [done|].
    by apply Hunion.
  - by apply Hunion.
Qed.

Lemma SUnionStore_completes (args : list string) (cntx : ConnectionContext) :
  completes (SUnionStore NDEBUG hash set_max_intset_entries args cntx).
Proof.
  unfold SUnionStore. apply completes_bind.
  - apply Execute_completes. intros sid db c Hne.
    rewrite skipped_results_length.
    apply SUnionStore_union_cb_completes; [apply KeyArgs_all|done].
  - intros [cntx1 rs]. unfold SUnionStore_conclude.
    destruct (negb (is_ok (UnionResultVec rs))); apply completes_bind;
      try (by intros [? ?]).
    + apply Execute_completes. by intros.
    + apply Execute_completes. intros. apply store_cb_completes.
Qed.

Lemma SDiffStore_diff_cb_completes (args : list string) (t : Transaction)
    (sid : ShardId) (db : DbSlice) (result_set : ResultStringVec) :
  key_args t = drop 1 args ->
  ShardArgsInShard hash t sid <> [] ->
  completes
    (SDiffStore_diff_cb NDEBUG hash (ArgS args 1) (ArgS args 2)
       (Shard hash (ArgS args 1) (shard_set_size t))
       (Shard hash (ArgS args 2) (shard_set_size t)) t sid db result_set).
Proof.
  intros Hkeys Hne. unfold SDiffStore_diff_cb.
  assert (Hdiff : forall r : ResultStringVec,
    completes (r' ← OpDiff NDEBUG hash t sid db; Done (db, <[sid := r']> r))).
  { intros r. apply completes_bind; [by apply OpDiff_completes|done]. }
  assert (Hunion : forall keys (r : ResultStringVec), keys <> [] ->
    completes (r' ← OpUnion NDEBUG db (db_index t) keys; Done (db, <[sid := r']> r))).
  { intros keys r Hk. apply completes_bind; [by apply OpUnion_completes|done]. }
  apply completes_bind.
  { unfold DCHECK. rewrite bool_decide_eq_false_2 by done. by destruct NDEBUG. }
  intros _.
  destruct (Nat.eqb_spec sid (Shard hash (ArgS args 1) (shard_set_size t)))
    as [Heq|Hneq].
  - destruct (dest_key_first args t sid Hkeys Hne Heq) as (rest & Hdrop & Hargs).
    rewrite Hargs. cbn [head drop].
    rewrite (bool_decide_eq_true_2 (Some (ArgS args 1) = Some (ArgS args 1)) eq_refl).
    rewrite CHECK_true.
    destruct (filter _ rest) as [|k largs] eqn:Hf; [done|].
    cbn [mbind mret Outcome_bind Outcome_ret].
    rewrite bool_decide_eq_false_2 by done.
    destruct (Nat.eqb_spec sid (Shard hash (ArgS args 2) (shard_set_size t)))
      as [Heq2|Hneq2]; [|by apply Hunion].
    assert (Hk : k = ArgS args 2).
    { destruct args as [|cmd [|d [|s rest']]]; simpl in *; try done.
      - injection Hdrop as <-. done.
      - injection Hdrop as <-. unfold ArgS in *. simpl in *.
        rewrite filter_cons_True in Hf by by rewrite Heq2.
        by injection Hf as <- _. }
    subst k. cbn [head].
    rewrite (bool_decide_eq_true_2 (Some (ArgS args 2) = Some (ArgS args 2)) eq_refl).
    rewrite CHECK_true. apply Hdiff.
  - cbn [mbind mret Outcome_bind Outcome_ret].
    destruct (Nat.eqb_spec sid (Shard hash (ArgS args 2) (shard_set_size t)))
      as [Heq2|Hneq2]; [|by apply Hunion].
    assert (Hhead : head (ShardArgsInShard hash t sid) = Some (ArgS args 2)).
    { unfold ShardArgsInShard in *. rewrite Hkeys in *.
      destruct args as [|cmd [|d [|s rest']]]; simpl in *; try done.
      - unfold ArgS in *. simpl in *.
        rewrite filter_cons_False in Hne by (by intros ?). done.
      - unfold ArgS in *. simpl in *.
        rewrite filter_cons_False by (by intros ?).
        by rewrite filter_cons_True by by rewrite Heq2. }
    rewrite Hhead.
    rewrite (bool_decide_eq_true_2 (Some (ArgS args 2) = Some (ArgS args 2)) eq_refl).
    rewrite CHECK_true. apply Hdiff.
Qed.

Lemma SDiffStore_completes (args : list string) (cntx : ConnectionContext) :
  completes (SDiffStore NDEBUG hash set_max_intset_entries args cntx).
Proof.
  unfold SDiffStore. apply completes_bind.
  - apply Execute_completes. intros sid db c Hne.
    rewrite skipped_results_length.
    apply SDiffStore_diff_cb_completes; [apply KeyArgs_all|done].
  - intros [cntx1 rs]. unfold SDiffStore_conclude.
    destruct (negb (is_ok (DiffResultVec rs _))); apply completes_bind;
      try (by intros [? ?]).
    + apply Execute_completes. by intros.
    + apply Execute_completes. intros. apply store_cb_completes.
Qed.

End Completion.

(** ** SMOVE runs to its reply *)

Section MoveCompletion.

Variable NDEBUG : bool.
Variable hash : string -> nat.
Variable set_max_intset_entries : Z.

Lemma OpRem_of_member (db : DbSlice) (db_ind : DbIndex) (key member : string)
    (co : CompactObj) :
  Find db db_ind key OBJ_SET = FindOk co ->
  IsMember co member = true ->
  value (snd (OpRem db db_ind key [member])) = 1.
Proof.
  intros Hfind Hmem. unfold OpRem. rewrite Hfind.
  destruct co as [|s|[iset|fs]]; simpl in Hmem; try done; simpl.
  - destruct (string2ll member) as [llval|]; [|done].
    unfold intsetRemove. rewrite Hmem.
    by destruct (intsetLen _ =? 0).
  - unfold FlatSet_Remove. rewrite Hmem.
    by destruct (FlatSet_Empty _).
Qed.

Lemma OpFind_key_src (db : DbSlice) (db_ind : DbIndex) (m : Mover) :
  same_keys m (OpFind_key db db_ind m (src_ m))
  /\ found_0 (OpFind_key db db_ind m (src_ m)) = source_found db db_ind m.
Proof.
  unfold OpFind_key, source_found. rewrite bool_decide_eq_true_2 by done.
  by destruct (Find db db_ind (src_ m) OBJ_SET).
Qed.

Lemma OpFind_key_other (db : DbSlice) (db_ind : DbIndex) (m : Mover)
    (k : string) :
  k <> src_ m ->
  same_keys m (OpFind_key db db_ind m k)
  /\ found_0 (OpFind_key db db_ind m k) = found_0 m.
Proof.
  intros Hne. unfold OpFind_key. rewrite bool_decide_eq_false_2 by done.
  by destruct (Find db db_ind k OBJ_SET).
Qed.

Lemma same_keys_refl (m : Mover) : same_keys m m.
Proof. done. Qed.

Lemma same_keys_trans (m1 m2 m3 : Mover) :
  same_keys m1 m2 -> same_keys m2 m3 -> same_keys m1 m3.
Proof. unfold same_keys. intros (-> & -> & ->) (-> & -> & ->). done. Qed.

Lemma source_found_same_keys (db : DbSlice) (db_ind : DbIndex) (m m' : Mover) :
  same_keys m m' -> source_found db db_ind m' = source_found db db_ind m.
Proof. unfold source_found. by intros (-> & _ & ->). Qed.

(** The slice of a shard when the key arguments are the two keys of
    SMOVE. *)
Lemma ShardArgsInShard_two (t : Transaction) (src dest : string) (sid : ShardId) :
  key_args t = [src; dest] ->
  ShardArgsInShard hash t sid
  = (if decide (Shard hash src (shard_set_size t) = sid) then [src] else [])
    ++ (if decide (Shard hash dest (shard_set_size t) = sid) then [dest] else []).
Proof.
  intros Hkeys. unfold ShardArgsInShard. rewrite Hkeys.
  rewrite !filter_cons, filter_nil. by repeat case_decide.
Qed.

Lemma DCHECK_passes (what : string) (c : bool) :
  NDEBUG = true \/ c = true -> DCHECK NDEBUG what c = Done ().
Proof. unfold DCHECK. intros [->| ->]; [done|by destruct NDEBUG]. Qed.

Lemma Mover_OpFind_shard (t : Transaction) (sid : ShardId) (db : DbSlice)
    (m : Mover) :
  key_args t = [src_ m; dest_ m] ->
  let ss := Shard hash (src_ m) (shard_set_size t) in
  let sd := Shard hash (dest_ m) (shard_set_size t) in
  NDEBUG = true \/ ss <> sd ->
  exists m',
    Mover_OpFind NDEBUG hash t sid db m = Done (db, m')
    /\ same_keys m m'
    /\ (sid = ss -> found_0 m' = source_found db (db_index t) m)
    /\ (sid <> ss -> found_0 m' = found_0 m).
Proof.
  intros Hkeys ss sd Hbuild. unfold Mover_OpFind.
  rewrite (ShardArgsInShard_two t _ _ sid Hkeys). fold ss sd.
  destruct (decide (ss = sid)) as [Hs|Hs]; destruct (decide (sd = sid)) as [Hd|Hd];
    simpl.
  - rewrite DCHECK_passes by (destruct Hbuild as [?|Hne]; [by left|congruence]).
    simpl. eexists. split; [done|].
    destruct (OpFind_key_src db (db_index t) m) as [Hk1 Hf1].
    destruct (decide (dest_ m = src_ m)) as [Heq|Hne].
    + rewrite Heq.
      assert (Hsrc : src_ m = src_ (OpFind_key db (db_index t) m (src_ m)))
        by (by destruct Hk1 as (-> & _)).
      rewrite Hsrc at 2.
      destruct (OpFind_key_src db (db_index t) (OpFind_key db (db_index t) m (src_ m)))
        as [Hk2 Hf2].
      rewrite <- Hsrc in *.
      split_and!; [by eapply same_keys_trans| |done].
      intros _. rewrite Hf2. by apply source_found_same_keys.
    + destruct (OpFind_key_other db (db_index t)
                  (OpFind_key db (db_index t) m (src_ m)) (dest_ m))
        as [Hk2 Hf2].
      { by destruct Hk1 as (-> & _). }
      split_and!; [by eapply same_keys_trans| |done].
      intros _. by rewrite Hf2.
  - rewrite DCHECK_passes by by right. simpl. eexists. split; [done|].
    destruct (OpFind_key_src db (db_index t) m) as [Hk1 Hf1].
    split_and!; [done|done|done].
  - rewrite DCHECK_passes by by right. simpl. eexists. split; [done|].
    destruct (OpFind_key_other db (db_index t) m (dest_ m)) as [Hk1 Hf1].
    { intros Heq. apply Hs. unfold ss, sd in *. by rewrite <- Heq. }
    split_and!; [done| |done]. intros Heq. by subst sid.
  - rewrite DCHECK_passes by by right. simpl. eexists. split; [done|].
    split_and!; [done| |done]. intros Heq. by subst sid.
Qed.

Lemma Execute_on_OpFind (t : Transaction) (shards : list DbSlice)
    (sids : list ShardId) :
  forall m : Mover,
  key_args t = [src_ m; dest_ m] ->
  let ss := Shard hash (src_ m) (shard_set_size t) in
  let sd := Shard hash (dest_ m) (shard_set_size t) in
  NDEBUG = true \/ ss <> sd ->
  exists m',
    Execute_on hash (Mover_OpFind NDEBUG hash) t sids shards m = Done (shards, m')
    /\ same_keys m m'
    /\ (forall db_s, ss ∈ sids -> shards !! ss = Some db_s ->
        found_0 m' = source_found db_s (db_index t) m \/ ShardArgsInShard hash t ss = [])
    /\ (ss ∉ sids -> found_0 m' = found_0 m).
Proof.
  induction sids as [|sid rest IH]; intros m Hkeys ss sd Hbuild.
  - exists m. split_and!; [done|done| |done]. by intros db_s ?%elem_of_nil.
  - simpl.
    assert (Hskip :
      (ShardArgsInShard hash t sid = [] \/ shards !! sid = None) ->
      exists m',
        Execute_on hash (Mover_OpFind NDEBUG hash) t rest shards m = Done (shards, m')
        /\ same_keys m m'
        /\ (forall db_s, ss ∈ sid :: rest -> shards !! ss = Some db_s ->
            found_0 m' = source_found db_s (db_index t) m
            \/ ShardArgsInShard hash t ss = [])
        /\ (ss ∉ sid :: rest -> found_0 m' = found_0 m)).
    { intros Hnone. destruct (IH m Hkeys Hbuild) as (m' & Hex & Hk & Hin & Hout).
      exists m'. split_and!; [done|done| |].
      - intros db_s Hss Hdb. destruct (decide (ss ∈ rest)) as [Hr|Hr];
          [by apply Hin|].
        apply elem_of_cons in Hss as [->|?]; [|done].
        destruct Hnone as [?|Hn]; [by right|congruence].
      - intros Hn. apply Hout. by apply not_elem_of_cons in Hn as [_ ?]. }
    destruct (ShardArgsInShard hash t sid) as [|k largs] eqn:Hargs.
    { apply Hskip. by left. }
    destruct (shards !! sid) as [db|] eqn:Hdb.
    2: { apply Hskip. by right. }
    destruct (Mover_OpFind_shard t sid db m Hkeys Hbuild)
      as (m1 & Hfind & Hk1 & Hsrc1 & Hoth1).
    rewrite Hfind. simpl. rewrite list_insert_id by done.
    assert (Hkeys1 : key_args t = [src_ m1; dest_ m1]).
    { destruct Hk1 as (-> & -> & _). done. }
    assert (Hss1 : Shard hash (src_ m1) (shard_set_size t) = ss).
    { destruct Hk1 as (-> & _). done. }
    assert (Hbuild1 : NDEBUG = true
       \/ Shard hash (src_ m1) (shard_set_size t)
          <> Shard hash (dest_ m1) (shard_set_size t)).
    { destruct Hk1 as (-> & -> & _). done. }
    destruct (IH m1 Hkeys1 Hbuild1) as (m' & Hex & Hk & Hin & Hout).
    rewrite Hss1 in Hin, Hout.
    exists m'. split_and!.
    + done.
    + by eapply same_keys_trans.
    + intros db_s Hss Hdbs. destruct (decide (ss ∈ rest)) as [Hr|Hr].
      * destruct (Hin db_s Hr Hdbs) as [->|?]; [|by right].
        left. by apply source_found_same_keys.
      * apply elem_of_cons in Hss as [Heq|?]; [|done].
        left. rewrite (Hout Hr). rewrite Hsrc1 by done.
        rewrite <- Heq in Hdb. congruence.
    + intros Hn. apply not_elem_of_cons in Hn as [Hne Hr].
      rewrite (Hout Hr). apply Hoth1. by intros ->.
Qed.

Lemma Execute_on_completes_at {C} (cb : Callback C) (t : Transaction)
    (I : C -> Prop) (sids : list ShardId) :
  NoDup sids ->
  forall shards c,
  I c ->
  (forall sid db c, I c -> sid ∈ sids -> shards !! sid = Some db ->
     ShardArgsInShard hash t sid <> [] ->
     exists db' c', cb t sid db c = Done (db', c') /\ I c') ->
  completes (Execute_on hash cb t sids shards c).
Proof.
  induction sids as [|sid rest IH]; intros Hnd shards c Hc Hcb; simpl; [done|].
  apply NoDup_cons in Hnd as [Hsid Hnd].
  assert (Hrest : forall shards' c', I c' ->
    (forall i, i ∈ rest -> shards' !! i = shards !! i) ->
    completes (Execute_on hash cb t rest shards' c')).
  { intros shards' c' Hc' Hsame. apply IH; [done|done|].
    intros i db c0 Hc0 Hi Hdb. apply Hcb; [done|by right|]. by rewrite <- Hsame. }
  destruct (ShardArgsInShard hash t sid) as [|k largs] eqn:Hargs;
    [by apply Hrest|].
  destruct (shards !! sid) as [db|] eqn:Hdb; [|by apply Hrest].
  destruct (Hcb sid db c) as (db' & c' & -> & Hc');
    [done|by left|done|by rewrite Hargs|].
  simpl. apply Hrest; [done|]. intros i Hi.
  rewrite list_lookup_insert_ne; [done|]. by intros ->.
Qed.

Lemma Mover_OpMutate_keeps (t : Transaction) (sid : ShardId) (db : DbSlice)
    (m : Mover) :
  completes (Mover_OpMutate NDEBUG hash set_max_intset_entries t sid db m) ->
  exists db', Mover_OpMutate NDEBUG hash set_max_intset_entries t sid db m
              = Done (db', m).
Proof.
  unfold Mover_OpMutate.
  destruct (DCHECK NDEBUG _ _); [|done]. simpl.
  destruct (OpMutate_loop _ _ _ _ _ _) as [db'|]; [|done]. by exists db'.
Qed.

Lemma Mover_OpMutate_shard_completes (t : Transaction) (sid : ShardId)
    (db : DbSlice) (m : Mover) :
  key_args t = [src_ m; dest_ m] ->
  src_ m <> dest_ m ->
  let ss := Shard hash (src_ m) (shard_set_size t) in
  let sd := Shard hash (dest_ m) (shard_set_size t) in
  NDEBUG = true \/ ss <> sd ->
  (sid = ss -> value (snd (OpRem db (db_index t) (src_ m) [member_ m])) = 1) ->
  completes (Mover_OpMutate NDEBUG hash set_max_intset_entries t sid db m).
Proof.
  intros Hkeys Hne ss sd Hbuild Hrem. unfold Mover_OpMutate.
  rewrite (ShardArgsInShard_two t _ _ sid Hkeys). fold ss sd.
  assert (Hdest : forall db0,
    completes (OpMutate_loop NDEBUG set_max_intset_entries m (db_index t)
                 [dest_ m] db0)).
  { intros db0. simpl. rewrite bool_decide_eq_false_2 by (by intros ?).
    rewrite DCHECK_passes by (right; by apply bool_decide_eq_true_2). simpl.
    by destruct (OpAdd _ db0 _ _ _ _). }
  assert (Hsrc : forall rest, sid = ss ->
    (forall db0, completes (OpMutate_loop NDEBUG set_max_intset_entries m
                              (db_index t) rest db0)) ->
    completes (OpMutate_loop NDEBUG set_max_intset_entries m (db_index t)
                 (src_ m :: rest) db)).
  { intros rest Hsid Hrest. specialize (Hrem Hsid). simpl.
    rewrite bool_decide_eq_true_2 by done.
    destruct (OpRem db (db_index t) (src_ m) [member_ m]) as [db' r].
    simpl in Hrem. rewrite Hrem. simpl. apply Hrest. }
  apply completes_bind.
  { destruct (decide (ss = sid)); destruct (decide (sd = sid)); simpl;
      apply eq_ind with (x := Done ()) (P := completes); try done;
      symmetry; apply DCHECK_passes;
      first [ by right | destruct Hbuild as [?|?]; [by left|congruence] ]. }
  intros _. apply completes_bind; [|done].
  destruct (decide (ss = sid)) as [Hs|Hs]; destruct (decide (sd = sid)) as [Hd|Hd].
  - apply Hsrc; [done|]. apply Hdest.
  - apply Hsrc; [done|]. by intros db0.
  - apply Hdest.
  - done.
Qed.

Lemma KeyArgs_two (args : list string) :
  length args = 4%nat -> KeyArgs 1 2 args = [ArgS args 1; ArgS args 2].
Proof.
  intros Hlen. destruct args as [|cmd [|a [|b [|c [|d rest]]]]]; done.
Qed.

(** SMOVE runs to its reply in a build with [NDEBUG], and in every build
    when its two keys are on two shards. *)
Lemma SMove_completes (args : list string) (cntx : ConnectionContext) :
  length args = 4%nat ->
  NDEBUG = true
  \/ Shard hash (ArgS args 1) (length (shard_set cntx))
     <> Shard hash (ArgS args 2) (length (shard_set cntx)) ->
  completes (SMove NDEBUG hash set_max_intset_entries args cntx).
Proof.
  intros Hlen Hbuild. unfold SMove, Mover_Find, Execute.
  set (t := transaction_of cntx 1 2 args).
  set (m := mkMover (ArgS args 1) (ArgS args 2) (ArgS args 3)
              (ResultOf false) (ResultOf false)).
  assert (Hkeys : key_args t = [src_ m; dest_ m]) by by apply KeyArgs_two.
  destruct (Execute_on_OpFind t (shard_set (Schedule cntx))
              (seq 0 (shard_set_size t)) m Hkeys Hbuild)
    as (m1 & Hex & Hk & Hin & _).
  rewrite Hex. simpl.
  apply completes_bind; [|by intros [cntx2 result]; destruct (negb (is_ok result))].
  unfold Mover_Commit.
  destruct (Commit_decision m1) as [res noop] eqn:Hdec.
  destruct noop; [by rewrite Execute_NoOp|].
  apply completes_bind; [|by intros [? ?]].
  unfold Commit_decision in Hdec.
  destruct (bool_decide _ || bool_decide _); [done|].
  destruct (negb (value_or (found_0 m1) false)) eqn:Hv; [done|].
  injection Hdec as <- Hne. apply bool_decide_eq_false in Hne.
  apply negb_false_iff in Hv.
  assert (Hkeys1 : key_args t = [src_ m1; dest_ m1]).
  { destruct Hk as (-> & -> & _). done. }
  assert (Hbuild1 : NDEBUG = true
     \/ Shard hash (src_ m1) (shard_set_size t)
        <> Shard hash (dest_ m1) (shard_set_size t)).
  { destruct Hk as (-> & -> & _). done. }
  unfold Execute. apply completes_bind; [|by intros [? ?]].
  apply (Execute_on_completes_at _ _ (fun c => c = m1)); [apply NoDup_seq|done|].
  intros sid db c -> Hsid Hdb Hnonempty. simpl in Hdb.
  destruct (Mover_OpMutate_keeps t sid db m1) as [db' ->]; [|by eauto].
  apply Mover_OpMutate_shard_completes; [done|done|done|].
  intros ->.
  assert (Hss : Shard hash (src_ m1) (shard_set_size t)
                = Shard hash (src_ m) (shard_set_size t)).
  { destruct Hk as (-> & _). done. }
  rewrite Hss in Hsid, Hdb, Hnonempty.
  destruct (Hin db Hsid Hdb) as [Hfound|Hempty]; [|done].
  unfold value_or, is_ok in Hv. rewrite Hfound in Hv.
  unfold source_found in Hv.
  destruct (Find db (db_index t) (src_ m) OBJ_SET) as [co|st] eqn:Hfind.
  - simpl in Hv. destruct Hk as (Hk1 & _ & Hk3). rewrite Hk1, Hk3.
    by eapply OpRem_of_member.
  - simpl in Hv. by destruct (bool_decide (st = OK)).
Qed.

End MoveCompletion.

Local Open Scope string_scope.

Lemma Mover_Commit_spec_witness :
  let t := mkTransaction 2 0 ["a"; "bb"] in
  let cntx := context_of two_shards in
  let t1 := mkTransaction 1 0 ["a"; "b"] in
  let cntx1 := context_of one_shard in
  Mover_Commit false String.length 512
    (mkMover "a" "bb" "1" (ResultOf true) (mkOpResult WRONG_TYPE false)) t cntx
  = Done (emit cntx (EvExecute NoOpCb true), mkOpResult WRONG_TYPE 0)
  ∧ (exists cntx',
      Mover_Commit false String.length 512
        (mkMover "a" "bb" "1" (ResultOf true) (ResultOf false)) t cntx
      = Done (cntx', ResultOf 1)
      ∧ shard_set cntx' !! 1%nat
        = Some {[ (0%nat, "a") := CoSet (kEncodingIntSet [2; 3]) ]}
      ∧ shard_set cntx' !! 0%nat
        = Some {[ (0%nat, "bb") := CoSet (kEncodingIntSet [1; 2; 3; 4]) ]})
  ∧ (exists cntx' db',
      Mover_Commit true String.length 512
        (mkMover "a" "b" "1" (ResultOf true) (ResultOf false)) t1 cntx1
      = Done (cntx', ResultOf 1)
      ∧ shard_set cntx' = [db']
      ∧ db' !! (0%nat, "a") = Some (CoSet (kEncodingIntSet [2; 3]))
      ∧ db' !! (0%nat, "b") = Some (CoSet (kEncodingIntSet [1; 2; 3; 4]))
      ∧ db' !! (0%nat, "k") = Some (CoString "string"))
  ∧ Mover_Find false String.length
      (mkMover "a" "b" "1" (ResultOf false) (ResultOf false)) t1 cntx1
    = Aborted "largs.size() < 2".
Proof.
  intros t cntx t1 cntx1. split_and!.
  - apply (Mover_Commit_spec false String.length 512
             (mkMover "a" "bb" "1" (ResultOf true) (mkOpResult WRONG_TYPE false))
             t cntx).
    right. reflexivity.
  - destruct (proj1 (proj2 (proj2 (proj2 (proj2 (proj2 (proj2
        (Mover_Commit_spec false String.length 512
           (mkMover "a" "bb" "1" (ResultOf true) (ResultOf false)) t cntx)))))))
        {[ (0%nat, "a") := CoSet (kEncodingIntSet [1; 2; 3]) ]}
        {[ (0%nat, "bb") := CoSet (kEncodingIntSet [2; 3; 4]) ]})
      as (cntx' & H1 & _ & H3 & H4 & _).
    + intros [H|H]; discriminate H.
    + reflexivity.
    + reflexivity.
    + reflexivity.
    + discriminate.
    + reflexivity.
    + reflexivity.
    + reflexivity.
    + exists cntx'. split_and!; [exact H1|exact H3|exact H4].
  - destruct (proj1 (proj2 (proj2 (proj2 (proj2 (proj2 (proj2 (proj2 (proj2
        (Mover_Commit_spec true String.length 512
           (mkMover "a" "b" "1" (ResultOf true) (ResultOf false)) t1 cntx1)))))))))
        (default ∅ (one_shard !! 0%nat)))
      as (cntx' & H1 & _ & H3 & _).
    + intros [H|H]; discriminate H.
    + reflexivity.
    + reflexivity.
    + reflexivity.
    + discriminate.
    + reflexivity.
    + reflexivity.
    + reflexivity.
    + reflexivity.
    + assert (Hc := H1). vm_compute in Hc. injection Hc as Hc. subst cntx'.
      eexists _, _. split_and!; [exact H1|reflexivity..].
  - apply (proj2 (proj2 (proj2 (proj2 (proj2 (proj2 (proj2 (proj2 (proj2
        (Mover_Commit_spec false String.length 512
           (mkMover "a" "b" "1" (ResultOf false) (ResultOf false)) t1 cntx1)))))))))).
    + reflexivity.
    + reflexivity.
    + reflexivity.
    + by eexists.
    + reflexivity.
Defined.

(** C3 fails on the code: with the two keys of SMOVE on one shard the slice
    of that shard has two keys, and [DCHECK_LT(largs.size(), 2u)] stops
    [Mover::OpFind] (and the whole command) in a build that keeps its
    assertions, although the comment above the assertion announces that
    very case. *)
Theorem OpFind_two_keys_on_one_shard :
  let t := mkTransaction 1 0 ["a"; "b"] in
  let mover := mkMover "a" "b" "1" (ResultOf false) (ResultOf false) in
  ShardArgsInShard String.length t 0%nat = ["a"; "b"]
  ∧ Mover_OpFind false String.length t 0%nat
      (default ∅ (one_shard !! 0%nat)) mover
    = Aborted "largs.size() < 2"
  ∧ SMove false String.length 512 ["SMOVE"; "a"; "b"; "1"] (context_of one_shard)
    = Aborted "largs.size() < 2".
Proof. split_and!; reflexivity. Qed.

(** Any slice of two keys or more stops [Mover::OpFind] so. *)
Lemma OpFind_stops_on_two_keys (hash : string -> nat) (t : Transaction)
    (sid : ShardId) (db : DbSlice) (m : Mover) :
  (2 <= length (ShardArgsInShard hash t sid))%nat ->
  Mover_OpFind false hash t sid db m = Aborted "largs.size() < 2".
Proof.
  intros Hlen. unfold Mover_OpFind, DCHECK, CHECK.
  destruct (Nat.ltb_spec (length (ShardArgsInShard hash t sid)) 2); [lia|done].
Qed.

(** Without the assertion (a build with [NDEBUG]) the same call records
    both slots: whether the member is in the source, and the status of the
    destination. *)
Lemma OpFind_two_keys_without_assertion :
  let t := mkTransaction 1 0 ["a"; "b"] in
  let mover := mkMover "a" "b" "1" (ResultOf false) (ResultOf false) in
  exists mover',
    Mover_OpFind true String.length t 0%nat (default ∅ (one_shard !! 0%nat)) mover
    = Done (default ∅ (one_shard !! 0%nat), mover')
    ∧ found_0 mover' = ResultOf true
    ∧ found_1 mover' = mkOpResult OK false.
Proof. eexists. split_and!; reflexivity. Qed.

(** C4 fails on the code: the block of [OpDiff] that fills [uniques] from
    the source and subtracts the other keys is compiled out, so that for a
    source that exists the result is empty; SDIFF a b answers an empty
    array where the members of a outside b, ["1"], are expected. *)
Theorem OpDiff_returns_nothing :
  let t := mkTransaction 1 0 ["a"; "b"] in
  OpDiff false String.length t 0%nat (default ∅ (one_shard !! 0%nat))
  = Done (ResultOf [])
  ∧ (exists cntx',
       SDiff false String.length ["SDIFF"; "a"; "b"] (context_of one_shard)
       = Done cntx'
       ∧ events cntx'
         = [EvSchedule; EvExecute Cb_diff true; EvReply (SendStringArr [])]).
Proof. split; [reflexivity|]. eexists. split; reflexivity. Qed.

(** Whatever the keys, a source that is found gives an empty result. *)
Lemma OpDiff_found_empty (NDEBUG : bool) (hash : string -> nat)
    (t : Transaction) (sid : ShardId) (db : DbSlice) (front : string)
    (others : list string) (co : CompactObj) :
  ShardArgsInShard hash t sid = front :: others ->
  Find db (db_index t) front OBJ_SET = FindOk co ->
  OpDiff NDEBUG hash t sid db = Done (ResultOf []).
Proof.
  intros Hargs Hfind. unfold OpDiff, DCHECK. rewrite Hargs, Hfind.
  by destruct NDEBUG.
Qed.

(** C10 fails on the code. [OpAdd] with overwrite replaces whatever the
    key holds, and the concluding hop of the STORE commands calls it so;
    but SDIFFSTORE does not get to that hop when its destination holds a
    value of another type and lives on the shard of the first source. The
    first hop drops the destination from the keys of that shard and then
    calls [OpDiff], which reads the keys of the shard again and looks up
    their first, the destination: the lookup answers [WRONG_TYPE], the
    command replies the error, and the destination keeps its value.
    SUNIONSTORE and SINTERSTORE, which hand the keys without the
    destination on, overwrite the same destination. *)
Theorem SDiffStore_rejects_wrong_type_destination :
  let cntx := context_of one_shard in
  stored String.length cntx "k" = Some (CoString "string")
  ∧ (forall NDEBUG : bool,
       exists cntx',
         SDiffStore NDEBUG String.length 512 ["SDIFFSTORE"; "k"; "a"] cntx
         = Done cntx'
         ∧ events cntx'
           = [EvSchedule; EvExecute Cb_diff false; EvExecute NoOpCb true;
              EvReply (SendError (StatusError WRONG_TYPE))]
         ∧ stored String.length cntx' "k" = Some (CoString "string"))
  ∧ (exists cntx',
       SUnionStore false String.length 512 ["SUNIONSTORE"; "k"; "a"] cntx
       = Done cntx'
       ∧ events cntx'
         = [EvSchedule; EvExecute Cb_union false; EvExecute Cb_store true;
            EvReply (SendLong 3)]
       ∧ stored String.length cntx' "k"
         = Some (CoSet (kEncodingIntSet [1; 2; 3]%Z)))
  ∧ (exists cntx',
       SInterStore false String.length 512 ["SINTERSTORE"; "k"; "a"] cntx
       = Done cntx'
       ∧ events cntx'
         = [EvSchedule; EvExecute Cb_inter false; EvExecute Cb_store true;
            EvReply (SendLong 3)]
       ∧ stored String.length cntx' "k"
         = Some (CoSet (kEncodingIntSet [1; 2; 3]%Z))).
Proof.
  intros cntx. split_and!.
  - reflexivity.
  - intros []; eexists; split_and!; reflexivity.
  - eexists. split_and!; reflexivity.
  - eexists. split_and!; reflexivity.
Qed.

(** The call of [OpDiff] on the shard of the first source looks up the
    destination whenever the destination lives there too. *)
Lemma OpDiff_looks_up_destination (NDEBUG : bool) (hash : string -> nat)
    (t : Transaction) (sid : ShardId) (db : DbSlice) (dest : string)
    (sources : list string) (co : CompactObj) :
  ShardArgsInShard hash t sid = dest :: sources ->
  db !! (db_index t, dest) = Some co ->
  ObjTypeOf co <> OBJ_SET ->
  OpDiff NDEBUG hash t sid db = Done (mkOpResult WRONG_TYPE []).
Proof.
  intros Hargs Hdest Hty. unfold OpDiff, DCHECK, Find. rewrite Hargs, Hdest.
  rewrite bool_decide_eq_false_2 by done. by destruct NDEBUG.
Qed.

(** C8 fails on the code: for a key that holds a string, SISMEMBER
    answers the integer 0; the [WRONG_TYPE] of the lookup falls into the
    default branch of the handler. *)
Theorem SIsMember_wrong_type_replies_zero :
  exists cntx',
    SIsMember String.length ["SISMEMBER"; "k"; "x"] (context_of one_shard)
    = Done cntx'
    ∧ Find (default ∅ (one_shard !! 0%nat)) 0%nat "k" OBJ_SET = FindFailed WRONG_TYPE
    ∧ events cntx'
      = [EvSchedule; EvExecute Cb_single true; EvReply (SendLong 0)].
Proof. eexists. split_and!; reflexivity. Qed.

(** So it is for every key that holds a value of another type. *)
Lemma SIsMember_wrong_type (hash : string -> nat) (args : list string)
    (cntx : ConnectionContext) (db : DbSlice) (co : CompactObj) :
  length args = 3%nat ->
  shard_set cntx !! Shard hash (ArgS args 1) (length (shard_set cntx)) = Some db ->
  db !! (conn_db_index cntx, ArgS args 1) = Some co ->
  ObjTypeOf co <> OBJ_SET ->
  SIsMember hash args cntx
  = Done (reply (emit (Schedule cntx) (EvExecute Cb_single true)) (SendLong 0)).
Proof.
  intros Hlen Hshard Hkey Htype.
  destruct args as [|cmd [|key [|val [|x rest]]]]; try done. clear Hlen.
  unfold ArgS in *. simpl in Hshard, Hkey.
  unfold SIsMember, ScheduleSingleHop, Execute. simpl.
  set (N := length (shard_set cntx)) in *.
  set (s := Shard hash key N) in *.
  set (cb := fun (t : Transaction) (_ : ShardId) (db0 : DbSlice) (_ : OpStatus) =>
               match Find db0 (db_index t) key OBJ_SET with
               | FindOk co0 =>
                   Done (db0, if IsMember co0 val then OK else KEY_NOTFOUND)
               | FindFailed st => Done (db0, st)
               end).
  set (t := {| shard_set_size := N; db_index := conn_db_index cntx;
               key_args := [key] |}).
  assert (Hargs : forall i, ShardArgsInShard hash t i
                            = if decide (s = i) then [key] else []).
  { intros i. unfold ShardArgsInShard. simpl.
    rewrite filter_cons, filter_nil. fold s. by case_decide. }
  assert (Hcb : forall c, cb t s db c = Done (db, WRONG_TYPE)).
  { intros c. unfold cb, Find. simpl. rewrite Hkey.
    by rewrite bool_decide_eq_false_2 by done. }
  assert (Hgen : forall sids c,
    Execute_on hash cb t sids (shard_set cntx) c
    = Done (shard_set cntx, if decide (s ∈ sids) then WRONG_TYPE else c)).
  { induction sids as [|i sids IH]; intros c; cbn [Execute_on].
    - destruct (decide (s ∈ [])) as [Hin|_]; [by apply elem_of_nil in Hin|done].
    - rewrite Hargs. destruct (decide (s = i)) as [<-|Hne].
      + rewrite Hshard, Hcb.
        cbn [mbind mret Outcome_bind Outcome_ret].
        rewrite list_insert_id by done. rewrite IH.
        destruct (decide (s ∈ s :: sids)) as [_|Hn]; [|exfalso; apply Hn; by left].
        by destruct (decide (s ∈ sids)).
      + rewrite IH. destruct (decide (s ∈ sids)) as [Hin|Hnin].
        * destruct (decide (s ∈ i :: sids)) as [_|Hn]; [done|].
          exfalso. apply Hn. by right.
        * destruct (decide (s ∈ i :: sids)) as [[?|?]%elem_of_cons|_]; done. }
  rewrite Hgen. cbn [mbind mret Outcome_bind Outcome_ret shard_set_size t].
  destruct (decide (s ∈ seq 0 N)) as [_|Hn].
  - clear. by destruct cntx.
  - exfalso. apply Hn. apply elem_of_seq.
    apply lookup_lt_Some in Hshard. fold N in Hshard. lia.
Qed.

(** [SCard], next to it, answers the same key with the error. *)
Lemma SCard_wrong_type_replies_error :
  exists cntx',
    SCard String.length ["SCARD"; "k"] (context_of one_shard) = Done cntx'
    ∧ events cntx'
      = [EvSchedule; EvExecute Cb_single true;
         EvReply (SendError kWrongTypeErr)].
Proof. eexists. split; reflexivity. Qed.

Lemma OpInter_completes_NDEBUG (hash : string -> nat) (t : Transaction)
    (sid : ShardId) (db : DbSlice) (remove_first : bool) :
  completes (OpInter true hash t sid db remove_first).
Proof.
  unfold OpInter, DCHECK. simpl.
  destruct (if remove_first then _ else _) as [|front [|k keys]]; try done.
  by destruct (Find db (db_index t) front OBJ_SET).
Qed.

Lemma SInterStore_completes_NDEBUG (hash : string -> nat) (max : Z)
    (args : list string) (cntx : ConnectionContext) :
  completes (SInterStore true hash max args cntx).
Proof.
  unfold SInterStore. apply completes_bind.
  - apply Execute_completes. intros sid db [rs cnt] Hne.
    rewrite skipped_results_length. unfold SInterStore_inter_cb.
    assert (Hinter : forall b,
      completes (r ← OpInter true hash (transaction_of cntx 1 (-1) args) sid db b;
                 Done (db, (<[sid := r]> rs, add32 cnt 1)))).
    { intros b. apply completes_bind; [apply OpInter_completes_NDEBUG|done]. }
    destruct (Nat.eqb_spec sid
                (Shard hash (ArgS args 1)
                   (shard_set_size (transaction_of cntx 1 (-1) args))))
      as [Heq|Hneq]; [|apply Hinter].
    destruct (dest_key_first hash args (transaction_of cntx 1 (-1) args) sid
                (KeyArgs_all args) Hne Heq)
      as (rest & _ & Hargs).
    rewrite Hargs. cbn [head].
    rewrite (bool_decide_eq_true_2 (Some (ArgS args 1) = Some (ArgS args 1)) eq_refl).
    rewrite CHECK_true. cbn [mbind mret Outcome_bind Outcome_ret].
    destruct (length _ =? 1)%nat; [done|apply Hinter].
  - intros [cntx1 [rs cnt]]. unfold SInterStore_conclude.
    destruct (negb (is_ok (InterResultVec rs cnt))); apply completes_bind;
      try (by intros [? ?]).
    + apply Execute_completes. by intros.
    + apply Execute_completes. intros. apply store_cb_completes.
Qed.

(** C9: SMOVE, SDIFFSTORE, SINTERSTORE and SUNIONSTORE end with a
    concluding hop. Whenever one of them runs to its reply, its events are
    the scheduling, the first hop, one concluding hop and the reply, in
    this order, and the concluding hop is [NoOpCb] if the reply is an
    error. SDIFFSTORE and SUNIONSTORE always run to their reply; so does
    SINTERSTORE in a build with [NDEBUG], and SMOVE in such a build or with
    its two keys on two shards. From an error found after
    the first hop, each command goes on to the [NoOpCb] hop and then to the
    error reply without meeting an assertion. *)
Theorem multi_hop_concluding (NDEBUG : bool) (hash : string -> nat) (max : Z)
    (args : list string) (cntx : ConnectionContext) :
  (forall cntx', SMove NDEBUG hash max args cntx = Done cntx' ->
     concluded_after (events cntx) (events cntx'))
  ∧ (length args = 4%nat ->
     NDEBUG = true
     ∨ Shard hash (ArgS args 1) (length (shard_set cntx))
       <> Shard hash (ArgS args 2) (length (shard_set cntx)) ->
     exists cntx', SMove NDEBUG hash max args cntx = Done cntx')
  ∧ (exists cntx', SDiffStore NDEBUG hash max args cntx = Done cntx'
       ∧ concluded_after (events cntx) (events cntx'))
  ∧ (forall cntx', SInterStore NDEBUG hash max args cntx = Done cntx' ->
       concluded_after (events cntx) (events cntx'))
  ∧ (NDEBUG = true ->
       exists cntx', SInterStore NDEBUG hash max args cntx = Done cntx')
  ∧ (exists cntx', SUnionStore NDEBUG hash max args cntx = Done cntx'
       ∧ concluded_after (events cntx) (events cntx'))
  ∧ (forall m t cntx1, is_ok (fst (Commit_decision m)) = false ->
       Mover_Commit NDEBUG hash max m t cntx1
       = Done (emit cntx1 (EvExecute NoOpCb true), fst (Commit_decision m)))
  ∧ (forall t dest_key dest_shard src_shard cntx1 result_set,
       is_ok (DiffResultVec result_set src_shard) = false ->
       SDiffStore_conclude hash max t dest_key dest_shard src_shard cntx1 result_set
       = Done (reply (emit cntx1 (EvExecute NoOpCb true))
                 (SendError
                    (StatusError (status (DiffResultVec result_set src_shard))))))
  ∧ (forall t dest_key dest_shard cntx1 result_set inter_shard_cnt,
       is_ok (InterResultVec result_set inter_shard_cnt) = false ->
       SInterStore_conclude hash max t dest_key dest_shard cntx1 result_set
         inter_shard_cnt
       = Done (reply (emit cntx1 (EvExecute NoOpCb true))
                 (SendError
                    (StatusError
                       (status (InterResultVec result_set inter_shard_cnt))))))
  ∧ (forall t dest_key dest_shard cntx1 result_set,
       is_ok (UnionResultVec result_set) = false ->
       SUnionStore_conclude hash max t dest_key dest_shard cntx1 result_set
       = Done (reply (emit cntx1 (EvExecute NoOpCb true))
                 (SendError (StatusError (status (UnionResultVec result_set)))))).
Proof.
  split_and!.
  - intros cntx'. apply SMove_concluded.
  - intros Hlen Hbuild. by apply completes_Done, SMove_completes.
  - destruct (completes_Done _ (SDiffStore_completes NDEBUG hash max args cntx))
      as [cntx' H].
    exists cntx'. split; [done|]. by eapply SDiffStore_concluded.
  - intros cntx'. apply SInterStore_concluded.
  - intros ->. apply completes_Done, SInterStore_completes_NDEBUG.
  - destruct (completes_Done _ (SUnionStore_completes NDEBUG hash max args cntx))
      as [cntx' H].
    exists cntx'. split; [done|]. by eapply SUnionStore_concluded.
  - intros m t cntx1. apply Mover_Commit_error.
  - intros *. apply SDiffStore_conclude_error.
  - intros *. apply SInterStore_conclude_error.
  - intros *. apply SUnionStore_conclude_error.
Qed.

Lemma multi_hop_concluding_witness :
  let cntx := context_of three_shards in
  (exists cntx',
     SMove false String.length 512 ["SMOVE"; "a"; "kkk"; "1"] cntx = Done cntx'
     ∧ events cntx'
       = [EvSchedule; EvExecute Cb_OpFind false; EvExecute NoOpCb true;
          EvReply (SendError (StatusError WRONG_TYPE))]
     ∧ concluded_after [] (events cntx'))
  ∧ (exists cntx',
       SInterStore false String.length 512 ["SINTERSTORE"; "dd"; "a"; "kkk"] cntx
       = Done cntx'
       ∧ events cntx'
         = [EvSchedule; EvExecute Cb_inter false; EvExecute NoOpCb true;
            EvReply (SendError (StatusError WRONG_TYPE))]
       ∧ concluded_after [] (events cntx')).
Proof.
  intros cntx. split.
  - destruct (proj1 (proj2 (multi_hop_concluding false String.length 512
                              ["SMOVE"; "a"; "kkk"; "1"] cntx)))
      as [cntx' Hrun]; [reflexivity|right; discriminate|].
    exists cntx'. split_and!.
    + exact Hrun.
    + assert (Hinj : forall a b : ConnectionContext, Done a = Done b -> a = b)
        by (by intros a b [= ->]).
      rewrite <- (Hinj _ _ Hrun). reflexivity.
    + by apply (proj1 (multi_hop_concluding false String.length 512
                         ["SMOVE"; "a"; "kkk"; "1"] cntx)).
  - eexists. split_and!; [reflexivity|reflexivity|].
    apply (proj1 (proj2 (proj2 (proj2 (multi_hop_concluding false String.length
                    512 ["SINTERSTORE"; "dd"; "a"; "kkk"] cntx))))).
    reflexivity.
Defined.

(** ** The theorems at concrete sets *)

(** With a bound of 4, adding 4, 2, 5, hi, 5 to the IntSet 1, 2, 3 counts
    the three new members once each and leaves a FlatSet. *)
Lemma OpAdd_intset_count_witness :
  let db : DbSlice := {[ (0%nat, "s") := CoSet (kEncodingIntSet [1; 2; 3]) ]} in
  exists r : SetRepr,
    OpAdd 4 db 0 "s" ["4"; "2"; "5"; "hi"; "5"] false
    = (<[(0%nat, "s") := CoSet r]> db, ResultOf 3)
    ∧ "hi" ∈ members r ∧ "1" ∈ members r ∧ ~ is_intset r.
Proof.
  intros db.
  destruct (OpAdd_intset_count 4 db 0 "s" ["4"; "2"; "5"; "hi"; "5"] [1; 2; 3])
    as (r & H1 & H2 & H3 & H4 & H5).
  - left. reflexivity.
  - decide_concrete.
  - reflexivity.
  - exists r. split_and!.
    + exact H1.
    + apply H3. right. decide_concrete.
    + apply H3. left. decide_concrete.
    + intros Hi. apply H4 in Hi as [Hall _]. revert Hall. decide_concrete.
Defined.

(** Overwriting the string at k with b, a, b stores a set of two members. *)
Lemma OpAdd_overwrite_witness :
  let db : DbSlice := {[ (0%nat, "k") := CoString "string" ]} in
  status (snd (OpAdd 512 db 0 "k" ["b"; "a"; "b"] true)) = OK
  ∧ exists r : SetRepr,
      OpAdd 512 db 0 "k" ["b"; "a"; "b"] true
      = (<[(0%nat, "k") := CoSet r]> db, ResultOf 2)
      ∧ "a" ∈ members r.
Proof.
  intros db.
  destruct (OpAdd_overwrite 512 db 0 "k" ["b"; "a"; "b"]) as (H1 & _ & H3).
  - reflexivity.
  - split; [exact H1|].
    destruct H3 as (r & Hr & _ & Hm); [discriminate|].
    exists r. split; [exact Hr|]. apply Hm. decide_concrete.
Defined.

(** Removing 2, 9, x from the IntSet 1, 2, 3 removes one member and keeps
    the key. *)
Lemma OpRem_count_witness :
  let db : DbSlice := {[ (0%nat, "s") := CoSet (kEncodingIntSet [1; 2; 3]) ]} in
  exists r' : SetRepr,
    snd (OpRem db 0 "s" ["2"; "9"; "x"]) = ResultOf 1
    ∧ members r' <> []
    ∧ is_Some (fst (OpRem db 0 "s" ["2"; "9"; "x"]) !! (0%nat, "s"))
    ∧ "2" ∉ members r'.
Proof.
  intros db.
  destruct (OpRem_count db 0 "s" ["2"; "9"; "x"] (kEncodingIntSet [1; 2; 3]))
    as (r' & H1 & H2 & H3 & H4 & H5 & H6).
  - reflexivity.
  - decide_concrete.
  - intros iset [= <-]. decide_concrete.
  - reflexivity.
  - assert (Hne : members r' <> []).
    { intros He. assert (H : "1" ∈ members r').
      { apply H3. split; decide_concrete. }
      rewrite He in H. by apply elem_of_nil in H. }
    exists r'. split_and!.
    + by rewrite H1.
    + exact Hne.
    + by apply H6.
    + intros Hin. apply H3 in Hin as [_ Hnin]. apply Hnin. decide_concrete.
Defined.

(** Popping two members of the IntSet 1, 2, 3, 4, 5 returns 4 and 5. *)
Lemma OpPop_spec_witness :
  let db : DbSlice :=
    {[ (0%nat, "s") := CoSet (kEncodingIntSet [1; 2; 3; 4; 5]) ]} in
  OpPop db 0 "s" 2
  = (<[(0%nat, "s") := CoSet (kEncodingIntSet [1; 2; 3])]> db,
     ResultOf ["4"; "5"])
  ∧ (forall a b, a ∈ [1; 2; 3] -> b ∈ [4; 5] -> a < b)
  ∧ ~ "4" ∈ members (kEncodingIntSet [1; 2; 3])
  ∧ OpPop db 0 "s" 0 = (db, ResultOf [])
  ∧ OpPop db 0 "s" 7
    = (delete (0%nat, "s") db, ResultOf ["1"; "2"; "3"; "4"; "5"]).
Proof.
  intros db.
  destruct (OpPop_spec db 0 "s" 2 (kEncodingIntSet [1; 2; 3; 4; 5]) eq_refl)
    as (_ & _ & H3 & _).
  destruct (H3 [1; 2; 3; 4; 5] eq_refl)
    as (Hpop & _ & _ & _ & _ & Hsorted & Hgone); [simpl; lia|].
  assert (Hs : StronglySorted Z.lt [1; 2; 3; 4; 5])
    by (repeat constructor; lia).
  assert (Hnd : NoDup [1; 2; 3; 4; 5]) by decide_concrete.
  destruct (OpPop_spec db 0 "s" 0 (kEncodingIntSet [1; 2; 3; 4; 5]) eq_refl)
    as (H0 & _).
  destruct (OpPop_spec db 0 "s" 7 (kEncodingIntSet [1; 2; 3; 4; 5]) eq_refl)
    as (_ & H7 & _).
  split_and!.
  - exact Hpop.
  - exact (proj2 (Hsorted Hs)).
  - apply (Hgone Hnd). decide_concrete.
  - exact (H0 eq_refl).
  - apply H7; simpl; lia.
Defined.

Local Close Scope string_scope.

(** * Further properties of the code *)

(** ** Membership, listing and conversion *)

Lemma IsMember_members (r : SetRepr) (v : string) :
  set_wf r -> (IsMember (CoSet r) v = true <-> v ∈ members r).
Proof.
  intros Hwf. destruct r as [iset|fs]; simpl.
  - destruct Hwf as [_ Hl]. rewrite Forall_forall in Hl. split.
    + destruct (string2ll v) as [z|] eqn:E; [|done].
      intros Hf%intsetFind_true. apply list_elem_of_fmap. exists z.
      split; [symmetry; by apply string2ll_canonical|done].
    + intros (z & -> & Hz)%list_elem_of_fmap.
      rewrite string2ll_FastIntToBuffer by by apply Hl.
      by apply intsetFind_true.
  - apply FlatSet_Contains_true.
Qed.

(** X9. On a well-formed set, in both encodings: [IsMember] answers
    exactly for the texts that [FillSet] lists, [FillSet] lists no text
    twice, and [Size] is the number of texts it lists. *)
Theorem IsMember_FillSet (r : SetRepr) (v : string) :
  set_wf r ->
  (IsMember (CoSet r) v = true <-> v ∈ FillSet (CoSet r))
  ∧ NoDup (FillSet (CoSet r))
  ∧ Size (CoSet r) = Z.of_nat (length (FillSet (CoSet r))).
Proof.
  intros Hwf. split_and!.
  - by apply IsMember_members.
  - by apply set_wf_NoDup.
  - change (FillSet (CoSet r)) with (members r).
    rewrite <- (Size_members r). rewrite Z2Nat.id; [done|].
    destruct r; simpl; unfold intsetLen, FlatSet_Size; lia.
Qed.

(** X10. [ConvertTo] into a new FlatSet keeps the members: the FlatSet
    lists exactly the decimal texts of the integers of the IntSet, each
    once, and has the size of the IntSet. Nothing is said about the order
    in which a FlatSet lists its members. *)
Theorem ConvertTo_keeps_listing (iset : intset) :
  NoDup iset ->
  let upgraded := CoSet (kEncodingStrMap (ConvertTo iset CreateFlatSet)) in
  (forall s, s ∈ FillSet upgraded <-> s ∈ FillSet (CoSet (kEncodingIntSet iset)))
  ∧ (forall s, s ∈ FillSet upgraded <->
       exists z, z ∈ iset ∧ s = FastIntToBuffer z)
  ∧ Size upgraded = Size (CoSet (kEncodingIntSet iset))
  ∧ NoDup (FillSet upgraded).
Proof.
  intros Hnd. simpl.
  rewrite ConvertTo_spec; [|done|intros z _ Hin; by apply elem_of_nil in Hin].
  simpl. split_and!.
  - done.
  - intros s. rewrite list_elem_of_fmap. split; intros (z & ? & ?); by exists z.
  - unfold FlatSet_Size, intsetLen. by rewrite length_fmap.
  - by apply NoDup_map_FastIntToBuffer.
Qed.

(** ** [OpAdd] on a FlatSet, and what the mutations leave alone *)

(** The members after the two loops of [OpAdd], and the bound an IntSet
    still obeys after them; the values need not be fewer than 2^32. *)
Lemma OpAdd_loops_members (max : Z) (vals : list string) (r0 r : SetRepr)
    (res : Z) :
  OpAdd_loops max vals r0 = (r, res) ->
  NoDup (members r0) ->
  NoDup (members r)
  ∧ (forall s, s ∈ members r <-> s ∈ members r0 ∨ s ∈ vals)
  ∧ (forall iset', r = kEncodingIntSet iset' ->
       exists iset, r0 = kEncodingIntSet iset
         ∧ (length iset' = length iset ∨ intsetLen iset' <= max_entries max)).
Proof.
  intros Hloops Hnd0. unfold OpAdd_loops in Hloops. destruct r0 as [iset|fs].
  - destruct (OpAdd_intset_loop max vals iset 0) as [[iset' res1] success] eqn:Hloop.
    apply members_intset_NoDup in Hnd0 as Hndi.
    destruct (OpAdd_intset_loop_spec _ _ _ _ _ _ _ Hloop Hndi)
      as (H1 & H2 & H3 & H4 & H5 & H6 & H7 & H8 & H9).
    assert (Hsub : forall s, s ∈ members (kEncodingIntSet iset') ->
                     s ∈ members (kEncodingIntSet iset) ∨ s ∈ vals).
    { intros s (z & -> & Hz)%members_intset_elem.
      destruct (H3 z Hz) as [?|(v & Hv & Hp)].
      - left. apply members_intset_elem. eauto.
      - right. by rewrite (string2ll_canonical _ _ Hp). }
    assert (Hsup : forall s, s ∈ members (kEncodingIntSet iset) ->
                     s ∈ members (kEncodingIntSet iset')).
    { intros s (z & -> & Hz)%members_intset_elem.
      apply members_intset_elem. eauto. }
    destruct success.
    + injection Hloops as <- <-. split_and!.
      * by apply members_intset_NoDup.
      * intros s. split; [apply Hsub|]. intros [?|Hv]; [by apply Hsup|].
        destruct (H4 eq_refl s Hv) as (z & Hp & Hz).
        apply members_intset_elem. exists z.
        by rewrite (string2ll_canonical _ _ Hp).
      * intros i [= <-]. exists iset. split; [done|]. by apply H8.
    + rewrite ConvertTo_spec in Hloops;
        [|done|intros z _ Hin; by apply elem_of_nil in Hin].
      simpl in Hloops.
      destruct (OpAdd_flatset_loop vals (FastIntToBuffer <$> iset') res1)
        as [fs' res'] eqn:Hfl.
      injection Hloops as <- <-.
      destruct (OpAdd_flatset_loop_spec _ _ _ _ _ Hfl (NoDup_map_FastIntToBuffer _ H1))
        as (F1 & F2 & _).
      split_and!.
      * done.
      * intros s. unfold members at 1. simpl. rewrite F2. split.
        -- intros [Hs|?]; [|by right]. by apply Hsub.
        -- intros [Hs|?]; [|by right]. left. by apply Hsup.
      * intros i [=].
  - destruct (OpAdd_flatset_loop vals fs 0) as [fs' res'] eqn:Hfl.
    injection Hloops as <- <-.
    destruct (OpAdd_flatset_loop_spec _ _ _ _ _ Hfl Hnd0) as (F1 & F2 & _).
    split_and!; [done|done|]. intros i [=].
Qed.

(** X1. [OpAdd] without overwrite on a key that holds a FlatSet
    returns the number of distinct values that were no members, the set
    stays a FlatSet (also when every value is an integer) and holds the
    old members and the values, each once. *)
Theorem OpAdd_flatset_count (max : Z) (db : DbSlice) (db_ind : DbIndex)
    (key : string) (vals : list string) (fs : FlatSet) :
  db !! (db_ind, key) = Some (CoSet (kEncodingStrMap fs)) ->
  NoDup fs ->
  Z.of_nat (length vals) < UINT32_MOD ->
  exists fs' : FlatSet,
    OpAdd max db db_ind key vals false
    = (<[(db_ind, key) := CoSet (kEncodingStrMap fs')]> db,
       ResultOf (Z.of_nat (new_count fs vals)))
    ∧ NoDup fs'
    ∧ (forall s, s ∈ fs' <-> s ∈ fs ∨ s ∈ vals)
    ∧ length fs' = (length fs + new_count fs vals)%nat.
Proof.
  intros Hkey Hnd Hlen. unfold OpAdd, AddOrFind. rewrite Hkey. simpl.
  destruct (OpAdd_loops max vals (kEncodingStrMap fs)) as [r res] eqn:Hloops.
  destruct (OpAdd_loops_spec _ _ _ _ _ Hloops Hnd Hlen) as (H1 & H2 & H3 & H4).
  destruct r as [iset'|fs'].
  { exfalso. by apply H4. }
  exists fs'. unfold StoreValue. subst res. split_and!; [done|done|done|].
  change fs with (members (kEncodingStrMap fs)) at 1.
  change fs' with (members (kEncodingStrMap fs')).
  rewrite (grown_set_perm _ _ _ Hnd H1 H2). by rewrite length_app.
Qed.

(** X5. [OpAdd], [OpRem] and [OpPop] read and write the entry of
    their key only: every other entry of the dictionary, in this and in
    the other databases, is as it was. *)
Theorem mutations_touch_one_key (max : Z) (db : DbSlice) (db_ind : DbIndex)
    (key : string) (vals : list string) (overwrite : bool) (count : nat)
    (k' : DbIndex * string) :
  k' <> (db_ind, key) ->
  fst (OpAdd max db db_ind key vals overwrite) !! k' = db !! k'
  ∧ fst (OpRem db db_ind key vals) !! k' = db !! k'
  ∧ fst (OpPop db db_ind key count) !! k' = db !! k'.
Proof.
  intros Hne.
  assert (Hdel : delete (db_ind, key) db !! k' = db !! k')
    by by apply lookup_delete_ne.
  assert (Hins : forall co, <[(db_ind, key) := co]> db !! k' = db !! k')
    by (intros co; by apply lookup_insert_ne).
  split_and!.
  - unfold OpAdd. destruct (overwrite && _); [by rewrite Del_fst|].
    destruct (AddOrFind db db_ind key) as [co inserted].
    destruct (OpAdd_init co inserted overwrite vals) as [r0|]; [|done].
    destruct (OpAdd_loops max vals r0) as [r res]. apply Hins.
  - unfold OpRem. destruct (Find db db_ind key OBJ_SET) as [[|s|r]|st]; try done.
    destruct (RemoveSet vals r) as [[r' removed] isempty].
    destruct isempty; [by rewrite Del_fst|apply Hins].
  - unfold OpPop. destruct (Find db db_ind key OBJ_SET) as [co|st]; [|done].
    destruct (count =? 0)%nat; [done|].
    destruct (_ <=? count)%nat; [by rewrite Del_fst|].
    destruct co as [|s|[iset|fs]]; try done; [apply Hins|].
    destruct (OpPop_flatset_loop count fs []) as [fs' result]. apply Hins.
Qed.

(** ** The invariants of a dictionary *)

Lemma db_bounded_insert (max : Z) (db : DbSlice) (k : DbIndex * string)
    (r : SetRepr) :
  db_bounded max db ->
  (forall iset, r = kEncodingIntSet iset -> intsetLen iset <= max_entries max) ->
  db_bounded max (<[k := CoSet r]> db).
Proof.
  intros Hdb Hr k' iset. destruct (decide (k = k')) as [<-|Hne].
  - rewrite lookup_insert_eq. intros [= ->]. by apply Hr.
  - rewrite lookup_insert_ne by done. apply Hdb.
Qed.

Lemma db_bounded_delete (max : Z) (db : DbSlice) (k : DbIndex * string) :
  db_bounded max db -> db_bounded max (delete k db).
Proof.
  intros Hdb k' iset Hk'. apply lookup_delete_Some in Hk' as [_ Hk'].
  by eapply Hdb.
Qed.

Lemma db_nonempty_insert (db : DbSlice) (k : DbIndex * string) (r : SetRepr) :
  db_nonempty db -> members r <> [] -> db_nonempty (<[k := CoSet r]> db).
Proof.
  intros Hdb Hr k' r'. destruct (decide (k = k')) as [<-|Hne].
  - rewrite lookup_insert_eq. by intros [= <-].
  - rewrite lookup_insert_ne by done. apply Hdb.
Qed.

Lemma db_nonempty_delete (db : DbSlice) (k : DbIndex * string) :
  db_nonempty db -> db_nonempty (delete k db).
Proof.
  intros Hdb k' r Hk'. apply lookup_delete_Some in Hk' as [_ Hk'].
  by eapply Hdb.
Qed.

Lemma db_invariants_empty (max : Z) :
  db_wf ∅ ∧ db_bounded max ∅ ∧ db_nonempty ∅.
Proof.
  split_and!; intros k r Hk; by rewrite lookup_empty in Hk.
Qed.

Lemma db_invariants_insert (max : Z) (db : DbSlice) (k : DbIndex * string)
    (co : CompactObj) :
  db_wf db ∧ db_bounded max db ∧ db_nonempty db ->
  (forall r, co = CoSet r ->
     set_wf r ∧ members r <> []
     ∧ forall iset, r = kEncodingIntSet iset -> intsetLen iset <= max_entries max) ->
  let db' := <[k := co]> db in
  db_wf db' ∧ db_bounded max db' ∧ db_nonempty db'.
Proof.
  intros (Hwf & Hb & Hne) Hco. split_and!.
  - intros k' r. destruct (decide (k = k')) as [<- |Hk].
    + rewrite lookup_insert_eq. intros [= ->]. by apply (Hco r).
    + rewrite lookup_insert_ne by done. apply Hwf.
  - intros k' iset. destruct (decide (k = k')) as [<- |Hk].
    + rewrite lookup_insert_eq. intros [= ->].
      by apply (Hco (kEncodingIntSet iset)).
    + rewrite lookup_insert_ne by done. apply Hb.
  - intros k' r. destruct (decide (k = k')) as [<- |Hk].
    + rewrite lookup_insert_eq. intros [= ->]. by apply (Hco r).
    + rewrite lookup_insert_ne by done. apply Hne.
Qed.

(** X2. [OpAdd] keeps the invariants of the dictionary: sets stay
    well formed, an IntSet never holds more than [max_entries] integers,
    and no set is stored empty. It must be given a value or be asked to
    overwrite: without values and without overwrite it would store an
    empty set under an absent key. *)
Theorem OpAdd_keeps_invariants (max : Z) (db : DbSlice) (db_ind : DbIndex)
    (key : string) (vals : list string) (overwrite : bool) :
  vals <> [] ∨ overwrite = true ->
  db_wf db -> db_bounded max db -> db_nonempty db ->
  let db' := fst (OpAdd max db db_ind key vals overwrite) in
  db_wf db' ∧ db_bounded max db' ∧ db_nonempty db'.
Proof.
  intros Hvals Hwf Hb Hne. split; [by apply OpAdd_db_wf|].
  unfold OpAdd. destruct (overwrite && bool_decide (vals = [])) eqn:Hdel.
  { simpl. rewrite Del_fst.
    split; [by apply db_bounded_delete|by apply db_nonempty_delete]. }
  assert (Hv : vals <> []).
  { destruct Hvals as [?| ->]; [done|]. simpl in Hdel.
    by apply bool_decide_eq_false in Hdel. }
  assert (Hex : exists v0, v0 ∈ vals)
    by (destruct vals as [|v0 ?]; [done|exists v0; by left]).
  destruct Hex as [v0 Hv0].
  assert (Hgo : forall r0, NoDup (members r0) ->
    (forall iset, r0 = kEncodingIntSet iset ->
       iset = [] ∨ intsetLen iset <= max_entries max) ->
    let db' := fst (let '(r, res) := OpAdd_loops max vals r0 in
                    (StoreValue db db_ind key (CoSet r), ResultOf res)) in
    db_bounded max db' ∧ db_nonempty db').
  { intros r0 Hnd0 Hb0. destruct (OpAdd_loops max vals r0) as [r res] eqn:Hloops.
    simpl. destruct (OpAdd_loops_members _ _ _ _ _ Hloops Hnd0) as (M1 & M2 & M3).
    assert (Hin : v0 ∈ members r) by (apply M2; by right).
    split.
    - apply db_bounded_insert; [done|]. intros iset' ->.
      destruct (M3 _ eq_refl) as (iset & -> & [Hl|Hl]); [|done].
      destruct (Hb0 _ eq_refl) as [-> |Hle].
      + destruct iset'; [|done]. by apply elem_of_nil in Hin.
      + unfold intsetLen in *. lia.
    - apply db_nonempty_insert; [done|]. intros Hnil. rewrite Hnil in Hin.
      by apply elem_of_nil in Hin. }
  unfold AddOrFind, OpAdd_init.
  assert (Hnew1 : NoDup (members (kEncodingIntSet intsetNew))) by constructor.
  assert (Hnew2 : NoDup (members (kEncodingStrMap CreateFlatSet))) by constructor.
  assert (Hnew3 : forall iset, kEncodingIntSet intsetNew = kEncodingIntSet iset ->
            iset = [] ∨ intsetLen iset <= max_entries max)
    by (intros iset [= <-]; by left).
  assert (Hnew4 : forall iset, kEncodingStrMap CreateFlatSet = kEncodingIntSet iset ->
            iset = [] ∨ intsetLen iset <= max_entries max) by (intros iset [=]).
  destruct (db !! (db_ind, key)) as [co|] eqn:Hkey; simpl.
  - destruct overwrite.
    + destruct (forallb _ vals); by apply Hgo.
    + destruct co as [|s|r0]; try done. apply Hgo.
      * apply set_wf_NoDup. by eapply Hwf.
      * intros iset ->. right. by eapply Hb.
  - destruct (forallb _ vals); by apply Hgo.
Qed.

Lemma intsetDelete_length (v : Z) (iset : intset) :
  (length (intsetDelete v iset) <= length iset)%nat.
Proof.
  induction iset as [|x iset IH]; simpl; [done|].
  destruct (v =? x); simpl; lia.
Qed.

Lemma RemoveSet_intset_shrinks (vals : list string) :
  forall (i : intset) (removed : Z),
  (length (fst (fold_left RemoveSet_intset_step vals (i, removed)))
   <= length i)%nat.
Proof.
  induction vals as [|v vals IH]; intros i removed; simpl; [done|].
  destruct (string2ll v) as [z|]; [|apply IH].
  unfold intsetRemove. destruct (intsetFind i z); [|apply IH].
  etrans; [apply IH|apply intsetDelete_length].
Qed.

(** X3. [OpRem] keeps the invariants of the dictionary; the key
    whose last member is removed is deleted, so no empty set stays
    behind. *)
Theorem OpRem_keeps_invariants (max : Z) (db : DbSlice) (db_ind : DbIndex)
    (key : string) (vals : list string) :
  db_wf db -> db_bounded max db -> db_nonempty db ->
  let db' := fst (OpRem db db_ind key vals) in
  db_wf db' ∧ db_bounded max db' ∧ db_nonempty db'.
Proof.
  intros Hwf Hb Hne. split; [by apply OpRem_db_wf|].
  unfold OpRem, Find.
  destruct (db !! (db_ind, key)) as [co|] eqn:Hkey; [|done].
  destruct co as [|s|r]; simpl; try done.
  destruct (RemoveSet vals r) as [[r' removed] isempty] eqn:Hrem.
  destruct isempty; simpl.
  { rewrite Del_fst.
    split; [by apply db_bounded_delete|by apply db_nonempty_delete]. }
  unfold RemoveSet in Hrem. destruct r as [iset|fs].
  - pose proof (RemoveSet_intset_shrinks vals iset 0) as Hle.
    destruct (fold_left RemoveSet_intset_step vals (iset, 0)) as [iset' rem'].
    injection Hrem as <- <- Hemp. simpl in Hle. split.
    + apply db_bounded_insert; [done|]. intros i [= <-].
      pose proof (Hb _ _ Hkey). unfold intsetLen in *. lia.
    + apply db_nonempty_insert; [done|]. unfold members. simpl.
      destruct iset'; [done|]. by rewrite fmap_cons.
  - destruct (fold_left RemoveSet_flatset_step vals (fs, 0)) as [fs' rem'].
    injection Hrem as <- <- Hemp. split.
    + apply db_bounded_insert; [done|]. intros i [=].
    + apply db_nonempty_insert; [done|]. unfold members. simpl.
      by destruct fs'.
Qed.

(** X4. [OpPop] keeps the invariants of the dictionary: a partial
    pop leaves a well-formed set with at least one member, a pop of
    everything deletes the key. *)
Theorem OpPop_keeps_invariants (max : Z) (db : DbSlice) (db_ind : DbIndex)
    (key : string) (count : nat) :
  db_wf db -> db_bounded max db -> db_nonempty db ->
  let db' := fst (OpPop db db_ind key count) in
  db_wf db' ∧ db_bounded max db' ∧ db_nonempty db'.
Proof.
  intros Hwf Hb Hne. split; [by apply OpPop_db_wf|].
  unfold OpPop, Find.
  destruct (db !! (db_ind, key)) as [co|] eqn:Hkey; [|done].
  destruct co as [|s|r]; [by simpl|by simpl|].
  replace (bool_decide (ObjTypeOf (CoSet r) = OBJ_SET)) with true by done.
  cbn beta iota.
  destruct (count =? 0)%nat; [done|].
  rewrite (Size_members r).
  destruct (length (members r) <=? count)%nat eqn:Hall; simpl.
  { rewrite Del_fst.
    split; [by apply db_bounded_delete|by apply db_nonempty_delete]. }
  apply Nat.leb_gt in Hall. destruct r as [iset|fs]; simpl.
  - rewrite members_intset_length in Hall. unfold intsetTrimTail. split.
    + apply db_bounded_insert; [done|]. intros i [= <-].
      pose proof (Hb _ _ Hkey). unfold intsetLen in *.
      rewrite length_take. lia.
    + apply db_nonempty_insert; [done|]. intros Hnil.
      apply (f_equal length) in Hnil. rewrite members_intset_length in Hnil.
      rewrite length_take in Hnil. simpl in Hnil. lia.
  - unfold members in Hall. simpl in Hall.
    rewrite OpPop_flatset_loop_spec by lia. simpl. split.
    + apply db_bounded_insert; [done|]. intros i [=].
    + apply db_nonempty_insert; [done|]. unfold members. simpl. intros Hnil.
      apply (f_equal length) in Hnil. rewrite length_drop in Hnil.
      simpl in Hnil. lia.
Qed.

(** ** Adding, removing and looking up *)

Lemma Find_insert_set (db : DbSlice) (db_ind : DbIndex) (key : string)
    (r : SetRepr) :
  Find (<[(db_ind, key) := CoSet r]> db) db_ind key OBJ_SET = FindOk (CoSet r).
Proof. unfold Find. by rewrite lookup_insert_eq. Qed.

Lemma Find_delete (db : DbSlice) (db_ind : DbIndex) (key : string) :
  Find (delete (db_ind, key) db) db_ind key OBJ_SET = FindFailed KEY_NOTFOUND.
Proof. unfold Find. by rewrite lookup_delete_eq. Qed.

(** X6. Adding values under an absent key and removing the same
    values again gives back the dictionary: both calls return the number of
    distinct values, and the key is absent again. *)
Theorem OpRem_undoes_OpAdd (max : Z) (db : DbSlice) (db_ind : DbIndex)
    (key : string) (vals : list string) :
  db !! (db_ind, key) = None ->
  Z.of_nat (length vals) < UINT32_MOD ->
  let added := OpAdd max db db_ind key vals false in
  let distinct := Z.of_nat (length (remove_dups vals)) in
  snd added = ResultOf distinct
  ∧ OpRem (fst added) db_ind key vals = (db, ResultOf distinct).
Proof.
  intros Hkey Hlen. unfold OpAdd, AddOrFind. rewrite Hkey. simpl.
  assert (Hgo : forall r0, members r0 = [] -> set_wf r0 ->
    let added := (let '(r, res) := OpAdd_loops max vals r0 in
                  (StoreValue db db_ind key (CoSet r), ResultOf res)) in
    snd added = ResultOf (Z.of_nat (length (remove_dups vals)))
    ∧ OpRem (fst added) db_ind key vals
      = (db, ResultOf (Z.of_nat (length (remove_dups vals))))).
  { intros r0 Hm0 Hwf0.
    destruct (OpAdd_loops max vals r0) as [r res] eqn:Hloops.
    assert (Hnd0 : NoDup (members r0)) by (rewrite Hm0; constructor).
    destruct (OpAdd_loops_spec _ _ _ _ _ Hloops Hnd0 Hlen) as (H1 & H2 & H3 & _).
    pose proof (OpAdd_loops_wf _ _ _ _ _ Hloops Hwf0) as Hwf.
    rewrite Hm0, new_count_nil in H3. simpl. split; [by rewrite H3|].
    unfold OpRem, StoreValue. rewrite Find_insert_set.
    destruct (RemoveSet vals r) as [[r' removed] isempty] eqn:Hrem.
    destruct (RemoveSet_spec _ _ _ _ _ Hrem H1 (set_wf_in_llong _ Hwf) Hlen)
      as (R1 & R2 & R3 & R4 & _).
    assert (Hnil : members r' = []).
    { destruct (members r') as [|s l] eqn:E; [done|]. exfalso.
      assert (Hs : s ∈ s :: l) by by left.
      apply R2 in Hs as [Hs Hn]. apply H2 in Hs as [Hs|Hs]; [|done].
      rewrite Hm0 in Hs. by apply elem_of_nil in Hs. }
    apply R4 in Hnil as Hemp. subst isempty. rewrite Del_fst.
    rewrite delete_insert_eq, delete_id by done. f_equal.
    rewrite R3. f_equal. f_equal.
    destruct (shrunk_set_length _ _ _ H1 R1 R2) as [Hl _].
    rewrite Hnil in Hl. simpl in Hl. rewrite <- Hl.
    rewrite (grown_set_perm _ _ _ Hnd0 H1 H2), Hm0. simpl.
    pose proof (new_count_nil vals) as Hn. unfold new_count in Hn.
    by rewrite Hn. }
  unfold OpAdd_init. simpl.
  destruct (forallb _ vals); apply Hgo; try done; [split|]; constructor.
Qed.

(** X7. After an [OpAdd] that reports no error the key holds a set
    of which every value added is a member, and, without overwrite, of
    which every earlier member still is one. *)
Theorem OpAdd_then_IsMember (max : Z) (db : DbSlice) (db_ind : DbIndex)
    (key : string) (vals : list string) (overwrite : bool) (v : string) :
  db_wf db ->
  status (snd (OpAdd max db db_ind key vals overwrite)) = OK ->
  v ∈ vals ->
  exists co,
    Find (fst (OpAdd max db db_ind key vals overwrite)) db_ind key OBJ_SET
    = FindOk co
    ∧ IsMember co v = true
    ∧ (overwrite = false ->
       forall old, db !! (db_ind, key) = Some old ->
       forall s, IsMember old s = true -> IsMember co s = true).
Proof.
  intros Hdb Hst Hv. unfold OpAdd in *.
  destruct (overwrite && bool_decide (vals = [])) eqn:Hdel.
  { apply andb_true_iff in Hdel as [_ Hnil%bool_decide_eq_true].
    subst vals. by apply elem_of_nil in Hv. }
  unfold AddOrFind in *.
  assert (Hgo : forall r0, set_wf r0 ->
    (overwrite = false -> forall old, db !! (db_ind, key) = Some old ->
       forall s, IsMember old s = true -> s ∈ members r0) ->
    let res := (let '(r, res) := OpAdd_loops max vals r0 in
                (StoreValue db db_ind key (CoSet r), ResultOf res)) in
    exists co, Find (fst res) db_ind key OBJ_SET = FindOk co
      ∧ IsMember co v = true
      ∧ (overwrite = false -> forall old, db !! (db_ind, key) = Some old ->
         forall s, IsMember old s = true -> IsMember co s = true)).
  { intros r0 Hwf0 Hold.
    destruct (OpAdd_loops max vals r0) as [r res] eqn:Hloops. simpl.
    destruct (OpAdd_loops_members _ _ _ _ _ Hloops (set_wf_NoDup _ Hwf0))
      as (M1 & M2 & _).
    pose proof (OpAdd_loops_wf _ _ _ _ _ Hloops Hwf0) as Hwf.
    exists (CoSet r). unfold StoreValue. rewrite Find_insert_set.
    split_and!; [done| |].
    - apply IsMember_members; [done|]. apply M2. by right.
    - intros Ho old Hk s Hs. apply IsMember_members; [done|].
      apply M2. left. by eapply Hold. }
  assert (Hint : set_wf (kEncodingIntSet intsetNew)) by (split; constructor).
  assert (Hstr : set_wf (kEncodingStrMap CreateFlatSet)) by constructor.
  unfold OpAdd_init in *.
  destruct (db !! (db_ind, key)) as [co|] eqn:Hkey; simpl in *.
  - destruct overwrite.
    + destruct (forallb _ vals); by apply Hgo.
    + destruct co as [|s|r0]; try done. apply Hgo; [by eapply Hdb|].
      intros _ old [= <-] s Hs. apply IsMember_members; [by eapply Hdb|done].
  - destruct (forallb _ vals); by apply Hgo.
Qed.

(** X8. After [OpRem] no value removed is a member of what the key
    holds, and every earlier member that was not among the values still is
    one (so the key is still there). *)
Theorem OpRem_then_IsMember (db : DbSlice) (db_ind : DbIndex) (key : string)
    (vals : list string) (r : SetRepr) :
  db_wf db ->
  db !! (db_ind, key) = Some (CoSet r) ->
  let db' := fst (OpRem db db_ind key vals) in
  (forall v co, v ∈ vals ->
     Find db' db_ind key OBJ_SET = FindOk co -> IsMember co v = false)
  ∧ (forall s, IsMember (CoSet r) s = true -> s ∉ vals ->
     exists co, Find db' db_ind key OBJ_SET = FindOk co ∧ IsMember co s = true).
Proof.
  intros Hdb Hkey. pose proof (Hdb _ _ Hkey) as Hwf.
  pose proof (OpRem_db_wf db db_ind key vals Hdb) as Hdb'.
  unfold OpRem, Find in *. rewrite Hkey in *. simpl in *.
  destruct (RemoveSet vals r) as [[r' removed] isempty] eqn:Hrem.
  assert (Hmem : forall s, s ∈ members r' <-> s ∈ members r ∧ s ∉ vals).
  { unfold RemoveSet in Hrem. destruct r as [iset|fs].
    - destruct (fold_left RemoveSet_intset_step vals (iset, 0))
        as [iset' rem'] eqn:Hfold.
      injection Hrem as <- <- _. destruct Hwf as [Hs Hl].
      destruct (RemoveSet_intset_fold _ _ _ _ _ Hfold (StronglySorted_lt_NoDup _ Hs))
        as (_ & F2 & _).
      intros s. rewrite !members_intset_elem. split.
      + intros (z & -> & Hz). apply F2 in Hz as [Hz Hno]. split; [eauto|].
        intros Hin. apply (Hno _ Hin). apply string2ll_FastIntToBuffer.
        rewrite Forall_forall in Hl. by apply Hl.
      + intros [(z & -> & Hz) Hno]. exists z. split; [done|]. apply F2.
        split; [done|]. intros v Hv Hp.
        apply string2ll_canonical in Hp. by subst v.
    - destruct (fold_left RemoveSet_flatset_step vals (fs, 0))
        as [fs' rem'] eqn:Hfold.
      injection Hrem as <- <- _.
      by destruct (RemoveSet_flatset_fold _ _ _ _ _ Hfold Hwf) as (_ & F2 & _). }
  assert (Hemp : isempty = true -> members r' = []).
  { unfold RemoveSet in Hrem. destruct r as [iset|fs].
    - destruct (fold_left RemoveSet_intset_step vals (iset, 0)) as [iset' rem'].
      injection Hrem as <- <- <-. unfold intsetLen.
      intros Hz%Z.eqb_eq. by destruct iset'.
    - destruct (fold_left RemoveSet_flatset_step vals (fs, 0)) as [fs' rem'].
      injection Hrem as <- <- <-. by destruct fs'. }
  destruct isempty; simpl in *.
  - rewrite Del_fst, lookup_delete_eq. split; [done|].
    intros s Hs%IsMember_members Hno; [|done]. exfalso.
    assert (Hin : s ∈ members r') by by apply Hmem.
    rewrite (Hemp eq_refl) in Hin. by apply elem_of_nil in Hin.
  - unfold StoreValue in *. rewrite lookup_insert_eq. simpl.
    assert (Hwf' : set_wf r') by (eapply Hdb'; apply lookup_insert_eq).
    split.
    + intros v co Hv [= <-]. apply not_true_is_false.
      intros Hin%IsMember_members; [|done]. apply Hmem in Hin as [_ Hno]. done.
    + intros s Hs%IsMember_members Hno; [|done]. exists (CoSet r').
      split; [done|]. apply IsMember_members; [done|]. by apply Hmem.
Qed.

(** ** The local string sets *)

Lemma emplace_spec (uniques : StringSet) (s : string) :
  NoDup uniques ->
  NoDup (emplace uniques s)
  ∧ forall x, x ∈ emplace uniques s <-> x ∈ uniques ∨ x = s.
Proof.
  intros Hnd. unfold emplace.
  destruct (FlatSet_Contains uniques s) eqn:E.
  - apply FlatSet_Contains_true in E. split; [done|]. intros x. split.
    + by left.
    + by intros [?| ->].
  - apply FlatSet_Contains_false in E. split.
    + apply NoDup_app. split_and!; [done| |apply NoDup_singleton].
      intros x Hx ->%list_elem_of_singleton. done.
    + intros x. rewrite elem_of_app, list_elem_of_singleton. done.
Qed.

Lemma emplace_fold (vs : list string) :
  forall uniques : StringSet,
  NoDup uniques ->
  NoDup (fold_left emplace vs uniques)
  ∧ forall x, x ∈ fold_left emplace vs uniques <-> x ∈ uniques ∨ x ∈ vs.
Proof.
  induction vs as [|v vs IH]; intros u Hnd; simpl.
  - split; [done|]. intros x. split; [by left|].
    intros [?|Hx]; [done|]. by apply elem_of_nil in Hx.
  - destruct (emplace_spec u v Hnd) as [E1 E2].
    destruct (IH _ E1) as [I1 I2]. split; [done|].
    intros x. rewrite I2, E2, elem_of_cons. tauto.
Qed.

Lemma FlatSet_Delete_absent (v : string) (fs : FlatSet) :
  v ∉ fs -> FlatSet_Delete v fs = fs.
Proof.
  induction fs as [|x fs IH]; intros Hv; simpl; [done|].
  apply not_elem_of_cons in Hv as [Hne Hv].
  destruct (String.eqb v x) eqn:E; [by apply String.eqb_eq in E|].
  by rewrite IH.
Qed.

Lemma erase_spec (uniques : StringSet) (s : string) :
  NoDup uniques ->
  NoDup (erase uniques s)
  ∧ forall x, x ∈ erase uniques s <-> x ∈ uniques ∧ x <> s.
Proof.
  intros Hnd. unfold erase. destruct (decide (s ∈ uniques)) as [Hin|Hnin].
  - destruct (removed_one _ _ _ Hnd (FlatSet_Delete_perm _ _ Hin)) as (R1 & R2 & _).
    done.
  - rewrite FlatSet_Delete_absent by done. split; [done|].
    intros x. split; [|by intros [? _]]. intros Hx. split; [done|].
    by intros ->.
Qed.

Lemma erase_fold (vs : list string) :
  forall uniques : StringSet,
  NoDup uniques ->
  NoDup (fold_left erase vs uniques)
  ∧ forall x, x ∈ fold_left erase vs uniques <-> x ∈ uniques ∧ x ∉ vs.
Proof.
  induction vs as [|v vs IH]; intros u Hnd; simpl.
  - split; [done|]. intros x. split; [|by intros [? _]].
    intros Hx. split; [done|]. apply not_elem_of_nil.
  - destruct (erase_spec u v Hnd) as [E1 E2].
    destruct (IH _ E1) as [I1 I2]. split; [done|].
    intros x. rewrite I2, E2, not_elem_of_cons. tauto.
Qed.

(** ** [UnionResultVec] *)

Lemma status_in_two (st a b : OpStatus) : st ∈ [a; b] <-> st = a ∨ st = b.
Proof. rewrite !elem_of_cons, elem_of_nil. tauto. Qed.

Lemma status_in_three (st a b c : OpStatus) :
  st ∈ [a; b; c] <-> st = a ∨ st = b ∨ st = c.
Proof. rewrite !elem_of_cons, elem_of_nil. tauto. Qed.

Lemma UnionResultVec_loop_ok (result_vec : ResultStringVec) :
  Forall (fun val => status val ∈ [OK; SKIPPED; KEY_NOTFOUND]) result_vec ->
  forall uniques : StringSet,
  NoDup uniques ->
  let res := UnionResultVec_loop result_vec uniques in
  status res = OK
  ∧ NoDup (value res)
  ∧ forall s, s ∈ value res <->
      s ∈ uniques
      ∨ exists val, val ∈ result_vec ∧ status val ∈ [OK; SKIPPED]
                    ∧ s ∈ value val.
Proof.
  induction 1 as [|val rest Hval Hrest IH]; intros u Hnd; simpl.
  - split_and!; [done|done|]. intros s. split; [by left|].
    intros [?|(val & Hin & _)]; [done|]. by apply elem_of_nil in Hin.
  - unfold is_ok. apply status_in_three in Hval.
    destruct (decide (status val = OK ∨ status val = SKIPPED)) as [Hok|Hno].
    + replace (bool_decide (status val = OK) || bool_decide (status val = SKIPPED))
        with true
        by (destruct Hok as [-> | ->]; done).
      destruct (emplace_fold (value val) u Hnd) as [E1 E2].
      destruct (IH _ E1) as (I1 & I2 & I3). split_and!; [done|done|].
      intros s. rewrite I3, E2. split.
      * intros [[?|Hs]|(val' & Hin & Hst & Hs)].
        -- by left.
        -- right. exists val. split_and!; [by left| |done].
           by apply status_in_two.
        -- right. exists val'. split_and!; [by right|done|done].
      * intros [?|(val' & Hin & Hst & Hs)]; [by left; left|].
        apply elem_of_cons in Hin as [-> |Hin]; [by left; right|].
        right. by exists val'.
    + assert (Hnf : status val = KEY_NOTFOUND) by tauto.
      rewrite Hnf. simpl. destruct (IH _ Hnd) as (I1 & I2 & I3).
      split_and!; [done|done|]. intros s. rewrite I3. split.
      * intros [?|(val' & Hin & Hst & Hs)]; [by left|].
        right. exists val'. split_and!; [by right|done|done].
      * intros [?|(val' & Hin & Hst & Hs)]; [by left|].
        apply elem_of_cons in Hin as [-> |Hin].
        -- rewrite Hnf in Hst. apply status_in_two in Hst as [?|?]; done.
        -- right. by exists val'.
Qed.

Lemma UnionResultVec_loop_error (pre post : ResultStringVec)
    (val : OpResult StringVec) :
  Forall (fun val => status val ∈ [OK; SKIPPED; KEY_NOTFOUND]) pre ->
  status val ∉ [OK; SKIPPED; KEY_NOTFOUND] ->
  forall uniques : StringSet,
  UnionResultVec_loop (pre ++ val :: post) uniques = mkOpResult (status val) [].
Proof.
  intros Hpre Hval. rewrite status_in_three in Hval.
  induction Hpre as [|x pre Hx Hpre IH]; intros u; simpl.
  - unfold is_ok. rewrite !bool_decide_eq_false_2; [done|tauto..].
  - unfold is_ok. apply status_in_three in Hx.
    destruct (bool_decide (status x = OK) || bool_decide (status x = SKIPPED))
      eqn:E1; [apply IH|].
    destruct (bool_decide (status x = KEY_NOTFOUND)) eqn:E; simpl; [apply IH|].
    apply bool_decide_eq_false in E.
    apply orb_false_iff in E1 as [E1%bool_decide_eq_false E2%bool_decide_eq_false].
    tauto.
Qed.

(** X11. [UnionResultVec] returns the status of the first per-shard
    result that is an error other than [KEY_NOTFOUND]; when there is none
    it returns, each once, the strings of the results that are [OK] or
    [SKIPPED], a [KEY_NOTFOUND] result contributing nothing. *)
Theorem UnionResultVec_spec (result_vec : ResultStringVec) :
  (forall pre val post,
     result_vec = pre ++ val :: post ->
     Forall (fun r => status r ∈ [OK; SKIPPED; KEY_NOTFOUND]) pre ->
     status val ∉ [OK; SKIPPED; KEY_NOTFOUND] ->
     UnionResultVec result_vec = mkOpResult (status val) [])
  ∧ (Forall (fun r => status r ∈ [OK; SKIPPED; KEY_NOTFOUND]) result_vec ->
     status (UnionResultVec result_vec) = OK
     ∧ NoDup (value (UnionResultVec result_vec))
     ∧ forall s, s ∈ value (UnionResultVec result_vec) <->
         exists val, val ∈ result_vec ∧ status val ∈ [OK; SKIPPED]
                     ∧ s ∈ value val).
Proof.
  split.
  - intros pre val post -> Hpre Hval. by apply UnionResultVec_loop_error.
  - intros Hall.
    destruct (UnionResultVec_loop_ok _ Hall [] (NoDup_nil_2)) as (H1 & H2 & H3).
    split_and!; [done|done|]. intros s. unfold UnionResultVec. rewrite H3.
    split; [|by right]. intros [Hs|?]; [|done]. by apply elem_of_nil in Hs.
Qed.

(** ** [DiffResultVec] *)

Lemma DiffResultVec_fold (src_shard : ShardId) (result_vec : ResultStringVec) :
  forall (k : nat) (uniques : StringSet),
  NoDup uniques ->
  let res :=
    fold_left
      (fun uniques '(i, res) =>
         if (i =? src_shard)%nat then uniques
         else if is_ok res then fold_left erase (value res) uniques
         else uniques)
      (imap (fun i res => ((k + i)%nat, res)) result_vec) uniques in
  NoDup res
  ∧ forall s, s ∈ res <->
      s ∈ uniques
      ∧ forall i r, result_vec !! i = Some r -> (k + i)%nat <> src_shard ->
                    status r = OK -> s ∉ value r.
Proof.
  induction result_vec as [|res0 rest IH]; intros k u Hnd; simpl.
  - split; [done|]. intros s. split; [|by intros [? _]].
    intros Hs. split; [done|]. intros i r Hi. by rewrite lookup_nil in Hi.
  - rewrite (imap_ext _ (fun i res => ((S k + i)%nat, res)))
      by (intros i x _; simpl; f_equal; lia).
    rewrite Nat.add_0_r.
    set (u' := if (k =? src_shard)%nat then u
               else if is_ok res0 then fold_left erase (value res0) u else u).
    assert (Hu' : NoDup u'
      ∧ forall s, s ∈ u' <->
          s ∈ u ∧ (k <> src_shard -> status res0 = OK -> s ∉ value res0)).
    { unfold u'. destruct (k =? src_shard)%nat eqn:Ek.
      - apply Nat.eqb_eq in Ek. split; [done|]. intros s.
        split; [|by intros [? _]]. intros Hs. split; [done|]. done.
      - apply Nat.eqb_neq in Ek. unfold is_ok.
        destruct (decide (status res0 = OK)) as [Hok|Hno].
        + rewrite bool_decide_eq_true_2 by done.
          destruct (erase_fold (value res0) u Hnd) as [E1 E2].
          split; [done|]. intros s. rewrite E2. tauto.
        + rewrite bool_decide_eq_false_2 by done. split; [done|].
          intros s. tauto. }
    destruct Hu' as [U1 U2]. destruct (IH (S k) u' U1) as [I1 I2].
    split; [done|]. intros s. rewrite I2, U2. split.
    + intros [[Hs H0] Hrest]. split; [done|]. intros [|i] r Hi Hne Hok.
      * simpl in Hi. injection Hi as <-. apply H0; [lia|done].
      * simpl in Hi. eapply Hrest; [done| |done]. lia.
    + intros [Hs Hall]. split_and!; [done| |].
      * intros Hne Hok. apply (Hall 0%nat res0); [done|lia|done].
      * intros i r Hi Hne Hok. apply (Hall (S i) r); [done|lia|done].
Qed.

(** X12. [DiffResultVec] returns [WRONG_TYPE] as soon as any per-shard
    result has that status. Otherwise it returns, each once, the strings of
    the source shard's result that occur in no other shard's [OK] result;
    results of other shards that are not [OK] subtract nothing, and the
    status of the source shard's own result is not looked at. *)
Theorem DiffResultVec_spec (result_vec : ResultStringVec) (src_shard : ShardId) :
  ((exists res, res ∈ result_vec ∧ status res = WRONG_TYPE) ->
   DiffResultVec result_vec src_shard = mkOpResult WRONG_TYPE [])
  ∧ ((forall res, res ∈ result_vec -> status res <> WRONG_TYPE) ->
     status (DiffResultVec result_vec src_shard) = OK
     ∧ NoDup (value (DiffResultVec result_vec src_shard))
     ∧ forall s, s ∈ value (DiffResultVec result_vec src_shard) <->
         (exists r, result_vec !! src_shard = Some r ∧ s ∈ value r)
         ∧ forall i r, result_vec !! i = Some r -> i <> src_shard ->
                       status r = OK -> s ∉ value r).
Proof.
  unfold DiffResultVec. split.
  - intros (res & Hin & Hst).
    destruct (List.find _ result_vec) as [res'|] eqn:Hfind.
    + apply find_some in Hfind as [_ Hst'%bool_decide_eq_true].
      by rewrite Hst'.
    + apply list_elem_of_In in Hin.
      pose proof (find_none _ _ Hfind _ Hin) as Hf. simpl in Hf.
      by apply bool_decide_eq_false in Hf.
  - intros Hall. destruct (List.find _ result_vec) as [res'|] eqn:Hfind.
    { apply find_some in Hfind as [Hin%list_elem_of_In Hst'%bool_decide_eq_true].
      by apply Hall in Hin. }
    set (src := match result_vec !! src_shard with
                | Some r => value r
                | None => []
                end).
    destruct (emplace_fold src [] NoDup_nil_2) as [E1 E2].
    destruct (DiffResultVec_fold src_shard result_vec 0 _ E1) as [D1 D2].
    simpl. split_and!; [done|exact D1|]. intros s.
    etrans; [apply D2|]. rewrite E2. unfold src. split.
    + intros [[Hs|Hs] Hno]; [by apply elem_of_nil in Hs|].
      split; [|done]. destruct (result_vec !! src_shard) as [r|]; [by exists r|].
      by apply elem_of_nil in Hs.
    + intros [(r & Hr & Hs) Hno]. split; [|done]. right. by rewrite Hr.
Qed.

(** ** [OpUnion] *)

Lemma OpUnion_loop_ok (db : DbSlice) (db_ind : DbIndex) (keys : list string) :
  (forall k co, k ∈ keys -> db !! (db_ind, k) = Some co ->
     ObjTypeOf co = OBJ_SET) ->
  forall uniques : StringSet,
  NoDup uniques ->
  let res := OpUnion_loop db db_ind keys uniques in
  status res = OK
  ∧ NoDup (value res)
  ∧ forall s, s ∈ value res <->
      s ∈ uniques
      ∨ exists k r, k ∈ keys ∧ db !! (db_ind, k) = Some (CoSet r)
                    ∧ s ∈ members r.
Proof.
  induction keys as [|key rest IH]; intros Hsets u Hnd; simpl.
  - split_and!; [done|done|]. intros s. split; [by left|].
    intros [?|(k & r & Hin & _)]; [done|]. by apply elem_of_nil in Hin.
  - assert (Hrest : forall k co, k ∈ rest -> db !! (db_ind, k) = Some co ->
              ObjTypeOf co = OBJ_SET)
      by (intros k co Hk; apply Hsets; by right).
    unfold Find. destruct (db !! (db_ind, key)) as [co|] eqn:Hkey.
    + pose proof (Hsets key co (list_elem_of_here _ _) Hkey) as Hty.
      rewrite bool_decide_eq_true_2 by done.
      destruct co as [|str|r]; try done.
      destruct (emplace_fold (FillSet (CoSet r)) u Hnd) as [E1 E2].
      destruct (IH Hrest _ E1) as (I1 & I2 & I3).
      split_and!; [done|done|]. intros s. rewrite I3, E2. split.
      * intros [[?|Hs]|(k & r' & Hin & Hk & Hs)].
        -- by left.
        -- right. exists key, r. split_and!; [by left|done|done].
        -- right. exists k, r'. split_and!; [by right|done|done].
      * intros [?|(k & r' & Hin & Hk & Hs)]; [by left; left|].
        apply elem_of_cons in Hin as [-> |Hin].
        -- rewrite Hkey in Hk. injection Hk as <-. by left; right.
        -- right. by exists k, r'.
    + simpl. destruct (IH Hrest _ Hnd) as (I1 & I2 & I3).
      split_and!; [done|done|]. intros s. rewrite I3. split.
      * intros [?|(k & r' & Hin & Hk & Hs)]; [by left|].
        right. exists k, r'. split_and!; [by right|done|done].
      * intros [?|(k & r' & Hin & Hk & Hs)]; [by left|].
        apply elem_of_cons in Hin as [-> |Hin]; [by rewrite Hkey in Hk|].
        right. by exists k, r'.
Qed.

Lemma OpUnion_loop_wrong (db : DbSlice) (db_ind : DbIndex) (keys : list string) :
  (exists k co, k ∈ keys ∧ db !! (db_ind, k) = Some co
                ∧ ObjTypeOf co <> OBJ_SET) ->
  forall uniques : StringSet,
  OpUnion_loop db db_ind keys uniques = mkOpResult WRONG_TYPE [].
Proof.
  intros (k & co & Hin & Hk & Hty).
  induction keys as [|key rest IH]; intros u; [by apply elem_of_nil in Hin|].
  simpl. unfold Find. destruct (decide (key = k)) as [-> |Hne].
  - rewrite Hk. by rewrite bool_decide_eq_false_2 by done.
  - apply elem_of_cons in Hin as [?|Hin]; [done|].
    destruct (db !! (db_ind, key)) as [co'|]; [|by apply IH].
    destruct (bool_decide (ObjTypeOf co' = OBJ_SET)); [by apply IH|done].
Qed.

(** X13. [OpUnion] on the keys of a shard answers [WRONG_TYPE] when one
    of the keys holds a value that is no set. Otherwise it returns, each
    once, the members of the sets the keys hold; an absent key contributes
    nothing and is no error. *)
Theorem OpUnion_spec (NDEBUG : bool) (db : DbSlice) (db_ind : DbIndex)
    (keys : list string) :
  keys <> [] ->
  exists res,
    OpUnion NDEBUG db db_ind keys = Done res
    ∧ ((exists k co, k ∈ keys ∧ db !! (db_ind, k) = Some co
                     ∧ ObjTypeOf co <> OBJ_SET) ->
       res = mkOpResult WRONG_TYPE [])
    ∧ ((forall k co, k ∈ keys -> db !! (db_ind, k) = Some co ->
          ObjTypeOf co = OBJ_SET) ->
       status res = OK
       ∧ NoDup (value res)
       ∧ forall s, s ∈ value res <->
           exists k r, k ∈ keys ∧ db !! (db_ind, k) = Some (CoSet r)
                       ∧ s ∈ FillSet (CoSet r)).
Proof.
  intros Hkeys. exists (OpUnion_loop db db_ind keys []). split_and!.
  - unfold OpUnion, DCHECK. destruct NDEBUG; [done|].
    by rewrite bool_decide_eq_false_2 by done.
  - intros Hwrong. by apply OpUnion_loop_wrong.
  - intros Hsets.
    destruct (OpUnion_loop_ok db db_ind keys Hsets [] NoDup_nil_2)
      as (H1 & H2 & H3).
    split_and!; [done|done|]. intros s. rewrite H3.
    split; [|by right]. intros [Hs|?]; [|done]. by apply elem_of_nil in Hs.
Qed.

(** ** Commands on one key *)

Section SingleKey.

Variable NDEBUG : bool.
Variable hash : string -> nat.
Variable set_max_intset_entries : Z.
Variable SimpleAtoi : string -> option nat.

(** A hop over shards none of which holds a key runs no callback. *)
Lemma Execute_on_idle {C} (cb : Callback C) (t : Transaction)
    (sids : list ShardId) (shards : list DbSlice) (c : C) :
  (forall i, i ∈ sids -> ShardArgsInShard hash t i = []) ->
  Execute_on hash cb t sids shards c = Done (shards, c).
Proof.
  induction sids as [|i sids IH]; intros Hidle; simpl; [done|].
  rewrite (Hidle i) by by left. apply IH. intros j Hj. apply Hidle. by right.
Qed.

(** A hop of a transaction whose keys all live on the shard [sid] runs the
    callback once, there. *)
Lemma Execute_on_single {C} (cb : Callback C) (t : Transaction)
    (sid : ShardId) (db : DbSlice) (shards : list DbSlice) :
  (forall i, i <> sid -> ShardArgsInShard hash t i = []) ->
  ShardArgsInShard hash t sid <> [] ->
  shards !! sid = Some db ->
  forall (sids : list ShardId) (c : C),
  NoDup sids -> sid ∈ sids ->
  Execute_on hash cb t sids shards c
  = '(db', c') ← cb t sid db c; Done (<[sid := db']> shards, c').
Proof.
  intros Hothers Hactive Hdb.
  induction sids as [|i sids IH]; intros c Hnd Hin;
    [by apply elem_of_nil in Hin|].
  apply NoDup_cons in Hnd as [Hi Hnd]. cbn [Execute_on].
  destruct (decide (i = sid)) as [-> |Hne].
  - rewrite Hdb. destruct (ShardArgsInShard hash t sid) as [|k ks]; [done|].
    destruct (cb t sid db c) as [[db' c']|what]; [|done].
    cbn [mbind Outcome_bind]. apply Execute_on_idle.
    intros j Hj. apply Hothers. by intros ->.
  - rewrite (Hothers i Hne). apply elem_of_cons in Hin as [?|Hin]; [done|].
    by apply IH.
Qed.

Lemma KeyArgs_one (args : list string) :
  (2 <= length args)%nat -> KeyArgs 1 1 args = [ArgS args 1].
Proof.
  intros Hlen. unfold KeyArgs, ArgS. simpl.
  destruct args as [|cmd [|key rest]]; simpl in *; [lia|lia|done].
Qed.

(** The single hop of a command on one key: its callback runs on the
    dictionary of the shard of the key. *)
Lemma single_key_hop {C} (name : HopCallback) (cb : Callback C)
    (args : list string) (cntx : ConnectionContext) (c : C) (db : DbSlice) :
  (2 <= length args)%nat ->
  let t := transaction_of cntx 1 1 args in
  let sid := Shard hash (ArgS args 1) (length (shard_set cntx)) in
  shard_set cntx !! sid = Some db ->
  ScheduleSingleHop hash name cb t cntx c
  = '(db', c') ← cb t sid db c;
    Done (emit (with_shards (Schedule cntx) (<[sid := db']> (shard_set cntx)))
            (EvExecute name true), c').
Proof.
  intros Hlen t sid Hdb. unfold ScheduleSingleHop, Execute.
  assert (Hargs : forall i, ShardArgsInShard hash t i
                            = if decide (sid = i) then [ArgS args 1] else []).
  { intros i. unfold ShardArgsInShard, t, transaction_of. simpl.
    rewrite KeyArgs_one by done. rewrite filter_cons, filter_nil.
    fold sid. by case_decide. }
  rewrite (Execute_on_single cb t sid db).
  - by destruct (cb t sid db c) as [[db' c']|what].
  - intros i Hne. rewrite Hargs. by rewrite decide_False.
  - rewrite Hargs. by rewrite decide_True.
  - done.
  - apply NoDup_seq.
  - apply elem_of_seq. apply lookup_lt_Some in Hdb. simpl. lia.
Qed.

Lemma after_hop_unchanged (cntx : ConnectionContext) (name : HopCallback)
    (sid : ShardId) (db : DbSlice) (r : Reply) :
  shard_set cntx !! sid = Some db ->
  reply (emit (with_shards (Schedule cntx) (<[sid := db]> (shard_set cntx)))
           (EvExecute name true)) r
  = after_single_hop cntx name (shard_set cntx) r.
Proof. intros Hdb. unfold after_single_hop. by rewrite list_insert_id. Qed.

(** X16. SCARD replies the number of members that [FillSet] lists for
    the set under the key (narrowed to 32 bits), 0 for an absent key and
    the type error for a value that is no set; it changes no dictionary. *)
Theorem SCard_reply (args : list string) (cntx : ConnectionContext)
    (db : DbSlice) :
  (2 <= length args)%nat ->
  shard_set cntx !! Shard hash (ArgS args 1) (length (shard_set cntx)) = Some db ->
  SCard hash args cntx
  = Done (after_single_hop cntx Cb_single (shard_set cntx)
            match db !! (conn_db_index cntx, ArgS args 1) with
            | Some (CoSet r) =>
                SendLong (Z.of_nat (length (FillSet (CoSet r))) mod UINT32_MOD)
            | Some _ => SendError kWrongTypeErr
            | None => SendLong 0
            end).
Proof.
  intros Hlen Hdb. unfold SCard. rewrite (single_key_hop _ _ _ _ _ db) by done.
  unfold Find. simpl.
  destruct (db !! (conn_db_index cntx, ArgS args 1)) as [[|s|r]|] eqn:Hkey;
    simpl; rewrite after_hop_unchanged by done; try done.
  do 3 f_equal. destruct r as [iset|fs]; simpl.
  - unfold intsetLen. by rewrite length_fmap.
  - done.
Qed.

(** X17. SISMEMBER replies 1 exactly when the key holds a set of which
    the value is a member, and 0 in every other case; it changes no
    dictionary. *)
Theorem SIsMember_reply (args : list string) (cntx : ConnectionContext)
    (db : DbSlice) :
  (2 <= length args)%nat ->
  shard_set cntx !! Shard hash (ArgS args 1) (length (shard_set cntx)) = Some db ->
  db_wf db ->
  exists b : bool,
    SIsMember hash args cntx
    = Done (after_single_hop cntx Cb_single (shard_set cntx) (SendLong (b2z b)))
    ∧ (b = true <->
       exists r, db !! (conn_db_index cntx, ArgS args 1) = Some (CoSet r)
                 ∧ ArgS args 2 ∈ FillSet (CoSet r)).
Proof.
  intros Hlen Hdb Hwf. unfold SIsMember.
  rewrite (single_key_hop _ _ _ _ _ db) by done.
  unfold Find. cbn [db_index transaction_of].
  destruct (db !! (conn_db_index cntx, ArgS args 1)) as [[|s|r]|] eqn:Hkey.
  - simpl. rewrite after_hop_unchanged by done.
    exists false. split; [done|]. split; [done|]. by intros (r & [=] & _).
  - simpl. rewrite after_hop_unchanged by done.
    exists false. split; [done|]. split; [done|]. by intros (r & [=] & _).
  - pose proof (IsMember_members r (ArgS args 2) (Hwf _ _ Hkey)) as Hmem.
    replace (bool_decide (ObjTypeOf (CoSet r) = OBJ_SET)) with true by done.
    cbn beta iota.
    destruct (IsMember (CoSet r) (ArgS args 2)) eqn:E;
      simpl; rewrite after_hop_unchanged by done.
    + exists true. split; [done|]. split; [|done]. intros _. exists r.
      split; [done|]. by apply Hmem.
    + exists false. split; [done|]. split; [done|].
      intros (r' & [= <-] & Hin). apply Hmem in Hin. done.
  - simpl. rewrite after_hop_unchanged by done.
    exists false. split; [done|]. split; [done|]. by intros (r & [=] & _).
Qed.

(** [OpAdd] without overwrite on an absent key or on a set. *)
Lemma OpAdd_set_result (db : DbSlice) (db_ind : DbIndex) (key : string)
    (vals old : list string) :
  db !! (db_ind, key) = None ∧ old = []
  ∨ (exists r, db !! (db_ind, key) = Some (CoSet r) ∧ old = members r) ->
  NoDup old ->
  Z.of_nat (length vals) < UINT32_MOD ->
  exists r' : SetRepr,
    OpAdd set_max_intset_entries db db_ind key vals false
    = (<[(db_ind, key) := CoSet r']> db,
       ResultOf (Z.of_nat (new_count old vals)))
    ∧ NoDup (members r')
    ∧ forall s, s ∈ members r' <-> s ∈ old ∨ s ∈ vals.
Proof.
  intros Hold Hnd Hlen. unfold OpAdd, AddOrFind, OpAdd_init, StoreValue.
  assert (Hgo : forall r0, members r0 = old ->
    exists r' : SetRepr,
      (let '(r, res) := OpAdd_loops set_max_intset_entries vals r0 in
       (<[(db_ind, key) := CoSet r]> db, ResultOf res))
      = (<[(db_ind, key) := CoSet r']> db,
         ResultOf (Z.of_nat (new_count old vals)))
      ∧ NoDup (members r')
      ∧ forall s, s ∈ members r' <-> s ∈ old ∨ s ∈ vals).
  { intros r0 <-.
    destruct (OpAdd_loops set_max_intset_entries vals r0) as [r res] eqn:Hloops.
    destruct (OpAdd_loops_spec _ _ _ _ _ Hloops Hnd Hlen) as (H1 & H2 & -> & _).
    by exists r. }
  destruct Hold as [[Hkey ->]|(r & Hkey & ->)]; rewrite Hkey; simpl.
  - destruct (forallb _ vals); by apply Hgo.
  - by apply Hgo.
Qed.

(** X14. SADD on a key that holds a value of another type replies the
    type error and changes nothing. On an absent key or a set it replies
    the number of distinct values that were no members, and the dictionary
    of the key's shard (and no other) then holds under the key a set with
    the old members and the values, each once. *)
Theorem SAdd_reply (args : list string) (cntx : ConnectionContext)
    (db : DbSlice) :
  (2 <= length args)%nat ->
  let key := ArgS args 1 in
  let vals := drop 2 args in
  let sid := Shard hash key (length (shard_set cntx)) in
  let k := (conn_db_index cntx, key) in
  shard_set cntx !! sid = Some db ->
  db_wf db ->
  Z.of_nat (length vals) < UINT32_MOD ->
  (forall co, db !! k = Some co -> ObjTypeOf co <> OBJ_SET ->
     SAdd hash set_max_intset_entries args cntx
     = Done (after_single_hop cntx Cb_single (shard_set cntx)
               (SendError kWrongTypeErr)))
  ∧ (forall old,
       db !! k = None ∧ old = []
       ∨ (exists r, db !! k = Some (CoSet r) ∧ old = FillSet (CoSet r)) ->
       exists r' : SetRepr,
         SAdd hash set_max_intset_entries args cntx
         = Done (after_single_hop cntx Cb_single
                   (<[sid := <[k := CoSet r']> db]> (shard_set cntx))
                   (SendLong (Z.of_nat (new_count old vals))))
         ∧ NoDup (FillSet (CoSet r'))
         ∧ forall s, s ∈ FillSet (CoSet r') <-> s ∈ old ∨ s ∈ vals).
Proof.
  intros Hlen key vals sid k Hdb Hwf Hvals. split.
  - intros co Hkey Hty. unfold SAdd.
    rewrite (single_key_hop _ _ _ _ _ db) by done.
    cbn [db_index transaction_of]. fold key vals.
    unfold OpAdd, AddOrFind, OpAdd_init. fold k. rewrite Hkey. simpl.
    destruct co as [|s|r]; try done; simpl;
      by rewrite after_hop_unchanged by done.
  - intros old Hold.
    assert (Hnd : NoDup old).
    { destruct Hold as [[_ ->]|(r & Hkey & ->)]; [constructor|].
      apply set_wf_NoDup. by eapply Hwf. }
    destruct (OpAdd_set_result db (conn_db_index cntx) key vals old Hold Hnd Hvals)
      as (r' & Hadd & H1 & H2).
    exists r'. split; [|done]. unfold SAdd.
    rewrite (single_key_hop _ _ _ _ _ db) by done.
    cbn [db_index transaction_of]. fold key vals. by rewrite Hadd.
Qed.

(** [OpRem] on a set. *)
Lemma OpRem_set_result (db : DbSlice) (db_ind : DbIndex) (key : string)
    (vals : list string) (r : SetRepr) :
  db !! (db_ind, key) = Some (CoSet r) ->
  set_wf r ->
  Z.of_nat (length vals) < UINT32_MOD ->
  exists r' : SetRepr,
    OpRem db db_ind key vals
    = (if decide (members r' = []) then delete (db_ind, key) db
       else <[(db_ind, key) := CoSet r']> db,
       ResultOf (Z.of_nat (removed_count (members r) vals)))
    ∧ NoDup (members r')
    ∧ forall s, s ∈ members r' <-> s ∈ members r ∧ s ∉ vals.
Proof.
  intros Hkey Hwf Hlen. unfold OpRem, Find. rewrite Hkey. simpl.
  destruct (RemoveSet vals r) as [[r' removed] isempty] eqn:Hrem.
  destruct (RemoveSet_spec _ _ _ _ _ Hrem (set_wf_NoDup _ Hwf)
              (set_wf_in_llong _ Hwf) Hlen) as (R1 & R2 & -> & R4 & _).
  exists r'. split; [|done]. destruct isempty.
  - rewrite Del_fst. rewrite decide_True by by apply R4. done.
  - rewrite decide_False; [done|]. intros Hnil. by apply R4 in Hnil.
Qed.

(** X15. SREM replies 0 for an absent key and the type error for a
    value of another type, and changes nothing then. On a set it replies
    the number of members that were among the values; the members that
    were not stay, and the key is deleted when none does. *)
Theorem SRem_reply (args : list string) (cntx : ConnectionContext)
    (db : DbSlice) :
  (2 <= length args)%nat ->
  let key := ArgS args 1 in
  let vals := drop 2 args in
  let sid := Shard hash key (length (shard_set cntx)) in
  let k := (conn_db_index cntx, key) in
  shard_set cntx !! sid = Some db ->
  db_wf db ->
  Z.of_nat (length vals) < UINT32_MOD ->
  (db !! k = None ->
     SRem hash args cntx
     = Done (after_single_hop cntx Cb_single (shard_set cntx) (SendLong 0)))
  ∧ (forall co, db !! k = Some co -> ObjTypeOf co <> OBJ_SET ->
     SRem hash args cntx
     = Done (after_single_hop cntx Cb_single (shard_set cntx)
               (SendError kWrongTypeErr)))
  ∧ (forall r, db !! k = Some (CoSet r) ->
     exists r' : SetRepr,
       SRem hash args cntx
       = Done (after_single_hop cntx Cb_single
                 (<[sid := if decide (FillSet (CoSet r') = [])
                           then delete k db else <[k := CoSet r']> db]>
                    (shard_set cntx))
                 (SendLong (Z.of_nat (removed_count (FillSet (CoSet r)) vals))))
       ∧ NoDup (FillSet (CoSet r'))
       ∧ forall s, s ∈ FillSet (CoSet r')
                   <-> s ∈ FillSet (CoSet r) ∧ s ∉ vals).
Proof.
  intros Hlen key vals sid k Hdb Hwf Hvals. split_and!.
  - intros Hkey. unfold SRem. rewrite (single_key_hop _ _ _ _ _ db) by done.
    cbn [db_index transaction_of]. fold key vals.
    unfold OpRem, Find. fold k. rewrite Hkey. simpl.
    by rewrite after_hop_unchanged by done.
  - intros co Hkey Hty. unfold SRem.
    rewrite (single_key_hop _ _ _ _ _ db) by done.
    cbn [db_index transaction_of]. fold key vals.
    unfold OpRem, Find. fold k. rewrite Hkey.
    destruct co as [|s|r]; try done; simpl;
      by rewrite after_hop_unchanged by done.
  - intros r Hkey.
    destruct (OpRem_set_result db (conn_db_index cntx) key vals r Hkey
                (Hwf _ _ Hkey) Hvals) as (r' & Hrem & H1 & H2).
    exists r'. split; [|done]. unfold SRem.
    rewrite (single_key_hop _ _ _ _ _ db) by done.
    cbn [db_index transaction_of]. fold key vals. by rewrite Hrem.
Qed.

Lemma sort_strings_nil : sort_strings [] = [].
Proof. done. Qed.

(** X18. SMEMBERS replies the members that [FillSet] lists for the
    set under the key (sorted inside a script), an empty array for an
    absent key and an error for a value of another type. It changes no
    dictionary, and none of its assertions can fail: the shard of the key
    is handed exactly one key. *)
Theorem SMembers_reply (args : list string) (cntx : ConnectionContext)
    (db : DbSlice) :
  (2 <= length args)%nat ->
  shard_set cntx !! Shard hash (ArgS args 1) (length (shard_set cntx)) = Some db ->
  SMembers NDEBUG hash args cntx
  = Done (after_single_hop cntx Cb_inter (shard_set cntx)
            match db !! (conn_db_index cntx, ArgS args 1) with
            | Some (CoSet r) =>
                SendStringArr (script_sorted cntx (FillSet (CoSet r)))
            | Some _ => SendError (StatusError WRONG_TYPE)
            | None => SendStringArr []
            end).
Proof.
  intros Hlen Hdb. unfold SMembers.
  rewrite (single_key_hop _ _ _ _ _ db) by done.
  unfold OpInter, ShardArgsInShard. cbn [key_args transaction_of].
  rewrite KeyArgs_one by done. rewrite filter_cons, filter_nil.
  rewrite decide_True by done.
  replace (DCHECK NDEBUG "!keys.empty()"
             (negb (bool_decide ([ArgS args 1] = [])))) with (Done ())
    by (unfold DCHECK; by destruct NDEBUG).
  unfold Find. cbn [db_index transaction_of mbind Outcome_bind].
  destruct (db !! (conn_db_index cntx, ArgS args 1)) as [[|s|r]|] eqn:Hkey;
    unfold after_single_hop; simpl; rewrite list_insert_id by done; try done.
  unfold script_sorted. simpl. destruct (script_info cntx); [|done].
  by rewrite sort_strings_nil.
Qed.

(** A pop of one member from a set that is not empty yields one member. *)
Lemma OpPop_one (db : DbSlice) (db_ind : DbIndex) (key : string) (r : SetRepr) :
  db !! (db_ind, key) = Some (CoSet r) ->
  members r <> [] ->
  exists m, snd (OpPop db db_ind key 1) = ResultOf [m] ∧ m ∈ members r.
Proof.
  intros Hkey Hne. unfold OpPop, Find. rewrite Hkey.
  replace (bool_decide (ObjTypeOf (CoSet r) = OBJ_SET)) with true by done.
  cbn beta iota. rewrite (Size_members r). cbn [Nat.eqb].
  destruct (length (members r) <=? 1)%nat eqn:Hall.
  - apply Nat.leb_le in Hall. cbn [snd].
    destruct (members r) as [|m [|m' l]] eqn:E; [done| |simpl in Hall; lia].
    exists m. change (FillSet (CoSet r)) with (members r). rewrite E.
    split; [done|by left].
  - apply Nat.leb_gt in Hall. destruct r as [iset|fs].
    + rewrite members_intset_length in Hall. cbn [snd].
      rewrite members_intset_length, OpPop_intset_copy_spec by lia.
      destruct (drop (length iset - 1) iset) as [|z [|z' l]] eqn:E.
      * apply (f_equal length) in E. rewrite length_drop in E. simpl in E. lia.
      * exists (StrCat z). split; [done|]. apply members_intset_elem.
        exists z. split; [done|].
        rewrite <- (take_drop (length iset - 1) iset). apply elem_of_app.
        right. rewrite E. by left.
      * apply (f_equal length) in E. rewrite length_drop in E. simpl in E. lia.
    + unfold members in Hall. simpl in Hall.
      rewrite OpPop_flatset_loop_spec by lia. cbn [snd].
      destruct fs as [|m fs]; [simpl in Hall; lia|].
      exists m. split; [done|]. by left.
Qed.

(** X19. SPOP answers a count that does not parse with the integer error,
    before anything is scheduled. Otherwise it pops through [OpPop] on the
    shard of the key: an absent key gives a null reply without a count and
    an empty array with one, a value of another type gives an error, and a
    set gives the popped member as a bulk string without a count (exactly
    one member is popped then, so the assertion on the size holds) and the
    popped members as an array with one. *)
Theorem SPop_reply (args : list string) (cntx : ConnectionContext)
    (db : DbSlice) :
  (2 <= length args)%nat ->
  let key := ArgS args 1 in
  let sid := Shard hash key (length (shard_set cntx)) in
  let k := (conn_db_index cntx, key) in
  shard_set cntx !! sid = Some db ->
  db_nonempty db ->
  ((2 < length args)%nat -> SimpleAtoi (ArgS args 2) = None ->
     SPop NDEBUG hash SimpleAtoi args cntx
     = Done (reply cntx (SendError kInvalidIntErr)))
  ∧ (forall count,
       (if (2 <? length args)%nat then SimpleAtoi (ArgS args 2) else Some 1%nat)
       = Some count ->
       let popped := OpPop db (conn_db_index cntx) key count in
       (db !! k = None ->
          SPop NDEBUG hash SimpleAtoi args cntx
          = Done (after_single_hop cntx Cb_single (shard_set cntx)
                    (if (length args =? 2)%nat then SendNull
                     else SendStringArr [])))
       ∧ (forall co, db !! k = Some co -> ObjTypeOf co <> OBJ_SET ->
          SPop NDEBUG hash SimpleAtoi args cntx
          = Done (after_single_hop cntx Cb_single (shard_set cntx)
                    (SendError (StatusError WRONG_TYPE))))
       ∧ (forall r, db !! k = Some (CoSet r) -> length args = 2%nat ->
          exists m,
            value (snd popped) = [m]
            ∧ m ∈ FillSet (CoSet r)
            ∧ SPop NDEBUG hash SimpleAtoi args cntx
              = Done (after_single_hop cntx Cb_single
                        (<[sid := fst popped]> (shard_set cntx))
                        (SendBulkString m)))
       ∧ (forall r, db !! k = Some (CoSet r) -> length args <> 2%nat ->
          SPop NDEBUG hash SimpleAtoi args cntx
          = Done (after_single_hop cntx Cb_single
                    (<[sid := fst popped]> (shard_set cntx))
                    (SendStringArr (value (snd popped)))))).
Proof.
  intros Hlen key sid k Hdb Hne. split.
  - intros Hmore Hbad. unfold SPop.
    replace (2 <? length args)%nat with true
      by (symmetry; by apply Nat.ltb_lt).
    by rewrite Hbad.
  - intros count Hcount popped. unfold SPop. rewrite Hcount.
    rewrite (single_key_hop _ _ _ _ _ db) by done.
    cbn [db_index transaction_of]. fold key sid. fold popped.
    assert (Hfound : forall r, db !! k = Some (CoSet r) ->
              status (snd popped) = OK).
    { intros r Hkey. unfold popped, OpPop, Find. fold k. rewrite Hkey.
      replace (bool_decide (ObjTypeOf (CoSet r) = OBJ_SET)) with true by done.
      cbn beta iota. destruct (count =? 0)%nat; [done|].
      destruct (_ <=? count)%nat; [done|].
      destruct r as [iset|fs]; [done|].
      by destruct (OpPop_flatset_loop count fs []). }
    split_and!.
    + intros Hkey. unfold popped, OpPop, Find. fold k. rewrite Hkey.
      unfold after_single_hop. simpl. rewrite list_insert_id by done.
      by destruct (length args =? 2)%nat.
    + intros co Hkey Hty. unfold popped, OpPop, Find. fold k. rewrite Hkey.
      rewrite bool_decide_eq_false_2 by done.
      unfold after_single_hop. simpl. by rewrite list_insert_id by done.
    + intros r Hkey Hargs. specialize (Hfound r Hkey).
      assert (Hone : count = 1%nat).
      { rewrite Hargs in Hcount. simpl in Hcount. by injection Hcount as <-. }
      destruct (OpPop_one db (conn_db_index cntx) key r Hkey (Hne _ _ Hkey))
        as (m & Hm & Hin).
      exists m. unfold popped. rewrite Hone. rewrite Hm. split_and!; [done..|].
      destruct (OpPop db (conn_db_index cntx) key 1) as [db' res] eqn:Hpop.
      simpl in Hm. subst res. rewrite Hargs. simpl.
      unfold DCHECK. by destruct NDEBUG.
    + intros r Hkey Hargs. specialize (Hfound r Hkey).
      destruct popped as [db' res]. simpl in Hfound.
      cbn [mbind Outcome_bind fst snd]. unfold is_ok. rewrite Hfound.
      simpl. by rewrite (proj2 (Nat.eqb_neq _ _) Hargs).
Qed.

End SingleKey.

(** ** The command table as a whole *)

Section Family.

Variable NDEBUG : bool.
Variable hash : string -> nat.
Variable set_max_intset_entries : Z.
Variable SimpleAtoi : string -> option nat.

(** *** Hops that only read *)

Lemma Execute_on_readonly {C} (cb : Callback C) (t : Transaction) :
  (forall sid db c db' c', cb t sid db c = Done (db', c') -> db' = db) ->
  forall (sids : list ShardId) (shards shards' : list DbSlice) (c c' : C),
  Execute_on hash cb t sids shards c = Done (shards', c') -> shards' = shards.
Proof.
  intros Hro. induction sids as [|sid sids IH]; intros shards shards' c c' Hrun;
    cbn [Execute_on] in Hrun; [by injection Hrun as <- _|].
  destruct (ShardArgsInShard hash t sid) as [|k ks]; [by eapply IH|].
  destruct (shards !! sid) as [db|] eqn:Hdb; [|by eapply IH].
  destruct (cb t sid db c) as [[db' c1]|what] eqn:Hcb; [|done].
  apply Hro in Hcb as ->. cbn [mbind Outcome_bind] in Hrun.
  rewrite list_insert_id in Hrun by done. by eapply IH.
Qed.

Lemma ScheduleSingleHop_readonly {C} (name : HopCallback) (cb : Callback C)
    (t : Transaction) (cntx cntx' : ConnectionContext) (c c' : C) :
  (forall sid db c db' c', cb t sid db c = Done (db', c') -> db' = db) ->
  ScheduleSingleHop hash name cb t cntx c = Done (cntx', c') ->
  shard_set cntx' = shard_set cntx.
Proof.
  intros Hro. unfold ScheduleSingleHop, Execute.
  destruct (Execute_on hash cb t _ _ c) as [[shards c1]|what] eqn:Hrun; [|done].
  apply (Execute_on_readonly _ _ Hro) in Hrun as ->.
  cbn [mbind Outcome_bind]. by intros [= <- _].
Qed.

Lemma ScheduleSingleHop_events {C} (name : HopCallback) (cb : Callback C)
    (t : Transaction) (cntx cntx' : ConnectionContext) (c c' : C) :
  ScheduleSingleHop hash name cb t cntx c = Done (cntx', c') ->
  events cntx' = events cntx ++ [EvSchedule; EvExecute name true].
Proof.
  unfold ScheduleSingleHop. intros Hrun%Execute_events. rewrite Hrun.
  simpl. by rewrite <- app_assoc.
Qed.

Lemma ScheduleSingleHop_completes {C} (name : HopCallback) (cb : Callback C)
    (t : Transaction) (cntx : ConnectionContext) (c : C) :
  (forall sid db c, ShardArgsInShard hash t sid <> [] ->
     completes (cb t sid db c)) ->
  completes (ScheduleSingleHop hash name cb t cntx c).
Proof. intros Hcb. unfold ScheduleSingleHop. by apply Execute_completes. Qed.

(** The hop of a handler that ran to its reply, taken apart. *)
Ltac single_hop_inv Hrun cntx1 result Hhop :=
  match type of Hrun with
  | (?hop ≫= _) = Done _ =>
      destruct hop as [[cntx1 result]|?] eqn:Hhop; [|done];
      cbn [mbind Outcome_bind] in Hrun
  end.

Ltac reply_inv Hrun :=
  repeat case_match; try done; injection Hrun as <-.

Lemma events_reply (cntx : ConnectionContext) (before : list Event)
    (name : HopCallback) (r : Reply) :
  events cntx = before ++ [EvSchedule; EvExecute name true] ->
  events (reply cntx r)
  = before ++ [EvSchedule; EvExecute name true; EvReply r].
Proof. intros Hev. simpl. rewrite Hev. by rewrite <- app_assoc. Qed.

(** *** The commands that only read *)

Lemma SIsMember_reads (args : list string) (cntx cntx' : ConnectionContext) :
  SIsMember hash args cntx = Done cntx' ->
  shard_set cntx' = shard_set cntx
  ∧ exists r, events cntx'
              = events cntx ++ [EvSchedule; EvExecute Cb_single true; EvReply r].
Proof.
  unfold SIsMember. intros Hrun. single_hop_inv Hrun cntx1 res1 Hhop.
  apply ScheduleSingleHop_events in Hhop as Hev.
  apply ScheduleSingleHop_readonly in Hhop as Hro.
  - reply_inv Hrun; (split; [done|eexists; by apply events_reply]).
  - intros sid db c db' c' Hcb. by repeat case_match; simplify_eq.
Qed.

Lemma SCard_reads (args : list string) (cntx cntx' : ConnectionContext) :
  SCard hash args cntx = Done cntx' ->
  shard_set cntx' = shard_set cntx
  ∧ exists r, events cntx'
              = events cntx ++ [EvSchedule; EvExecute Cb_single true; EvReply r].
Proof.
  unfold SCard. intros Hrun. single_hop_inv Hrun cntx1 res1 Hhop.
  apply ScheduleSingleHop_events in Hhop as Hev.
  apply ScheduleSingleHop_readonly in Hhop as Hro.
  - reply_inv Hrun; (split; [done|eexists; by apply events_reply]).
  - intros sid db c db' c' Hcb. by repeat case_match; simplify_eq.
Qed.

Lemma bind_Done_inv {A B} (m : Outcome A) (k : A -> Outcome B) (b : B) :
  m ≫= k = Done b -> exists a, m = Done a ∧ k a = Done b.
Proof. destruct m as [a|what]; [|done]. intros Hk. by exists a. Qed.

Lemma SMembers_reads (args : list string) (cntx cntx' : ConnectionContext) :
  SMembers NDEBUG hash args cntx = Done cntx' ->
  shard_set cntx' = shard_set cntx
  ∧ exists r, events cntx'
              = events cntx ++ [EvSchedule; EvExecute Cb_inter true; EvReply r].
Proof.
  unfold SMembers. intros Hrun. single_hop_inv Hrun cntx1 res1 Hhop.
  apply ScheduleSingleHop_events in Hhop as Hev.
  apply ScheduleSingleHop_readonly in Hhop as Hro.
  - reply_inv Hrun; (split; [done|eexists; by apply events_reply]).
  - intros sid db c db' c' Hcb.
    apply bind_Done_inv in Hcb as (r & _ & Hcb). by injection Hcb.
Qed.

Lemma SInter_reads (args : list string) (cntx cntx' : ConnectionContext) :
  SInter NDEBUG hash args cntx = Done cntx' ->
  shard_set cntx' = shard_set cntx
  ∧ exists r, events cntx'
              = events cntx ++ [EvSchedule; EvExecute Cb_inter true; EvReply r].
Proof.
  unfold SInter. intros Hrun. single_hop_inv Hrun cntx1 res1 Hhop.
  apply ScheduleSingleHop_events in Hhop as Hev.
  apply ScheduleSingleHop_readonly in Hhop as Hro.
  - reply_inv Hrun; (split; [done|eexists; by apply events_reply]).
  - intros sid db c db' c' Hcb.
    apply bind_Done_inv in Hcb as (r & _ & Hcb). by injection Hcb.
Qed.

Lemma SDiff_reads (args : list string) (cntx cntx' : ConnectionContext) :
  SDiff NDEBUG hash args cntx = Done cntx' ->
  shard_set cntx' = shard_set cntx
  ∧ exists r, events cntx'
              = events cntx ++ [EvSchedule; EvExecute Cb_diff true; EvReply r].
Proof.
  unfold SDiff. intros Hrun. single_hop_inv Hrun cntx1 res1 Hhop.
  apply ScheduleSingleHop_events in Hhop as Hev.
  apply ScheduleSingleHop_readonly in Hhop as Hro.
  - reply_inv Hrun; (split; [done|eexists; by apply events_reply]).
  - intros sid db c db' c' Hcb. destruct (sid =? _)%nat.
    + apply bind_Done_inv in Hcb as (? & _ & Hcb).
      apply bind_Done_inv in Hcb as (r & _ & Hcb). by injection Hcb.
    + apply bind_Done_inv in Hcb as (r & _ & Hcb). by injection Hcb.
Qed.

Lemma SUnion_reads (args : list string) (cntx cntx' : ConnectionContext) :
  SUnion NDEBUG hash args cntx = Done cntx' ->
  shard_set cntx' = shard_set cntx
  ∧ exists r, events cntx'
              = events cntx ++ [EvSchedule; EvExecute Cb_union true; EvReply r].
Proof.
  unfold SUnion. intros Hrun. single_hop_inv Hrun cntx1 res1 Hhop.
  apply ScheduleSingleHop_events in Hhop as Hev.
  apply ScheduleSingleHop_readonly in Hhop as Hro.
  - reply_inv Hrun; (split; [done|eexists; by apply events_reply]).
  - intros sid db c db' c' Hcb.
    apply bind_Done_inv in Hcb as (r & _ & Hcb). by injection Hcb.
Qed.

(** *** The events of the writers with one hop *)

Lemma SAdd_events (args : list string) (cntx cntx' : ConnectionContext) :
  SAdd hash set_max_intset_entries args cntx = Done cntx' ->
  exists r, events cntx'
            = events cntx ++ [EvSchedule; EvExecute Cb_single true; EvReply r].
Proof.
  unfold SAdd. intros Hrun. single_hop_inv Hrun cntx1 res1 Hhop.
  apply ScheduleSingleHop_events in Hhop as Hev.
  reply_inv Hrun; eexists; by apply events_reply.
Qed.

Lemma SRem_events (args : list string) (cntx cntx' : ConnectionContext) :
  SRem hash args cntx = Done cntx' ->
  exists r, events cntx'
            = events cntx ++ [EvSchedule; EvExecute Cb_single true; EvReply r].
Proof.
  unfold SRem. intros Hrun. single_hop_inv Hrun cntx1 res1 Hhop.
  apply ScheduleSingleHop_events in Hhop as Hev.
  reply_inv Hrun; eexists; by apply events_reply.
Qed.

Lemma SPop_events (args : list string) (cntx cntx' : ConnectionContext) :
  SPop NDEBUG hash SimpleAtoi args cntx = Done cntx' ->
  (exists r, events cntx' = events cntx ++ [EvReply r])
  ∨ exists r, events cntx'
              = events cntx ++ [EvSchedule; EvExecute Cb_single true; EvReply r].
Proof.
  unfold SPop. intros Hrun.
  destruct (if (2 <? length args)%nat then _ else _) as [count|].
  - right. single_hop_inv Hrun cntx1 res1 Hhop.
    apply ScheduleSingleHop_events in Hhop as Hev.
    destruct (is_ok res1 || _).
    + destruct (length args =? 2)%nat.
      * destruct (bool_decide _).
        -- injection Hrun as <-. eexists; by apply events_reply.
        -- apply bind_Done_inv in Hrun as (? & _ & Hrun).
           destruct (value res1); [done|]. injection Hrun as <-.
           eexists; by apply events_reply.
      * injection Hrun as <-. eexists; by apply events_reply.
    + injection Hrun as <-. eexists; by apply events_reply.
  - left. injection Hrun as <-. by eexists.
Qed.

(** *** Handlers whose assertions cannot fail *)

Ltac reply_completes :=
  let cntx1 := fresh "cntx1" in
  let res1 := fresh "res1" in
  intros [cntx1 res1]; repeat case_match; done.

Lemma SAdd_completes (args : list string) (cntx : ConnectionContext) :
  completes (SAdd hash set_max_intset_entries args cntx).
Proof.
  unfold SAdd. apply completes_bind; [|reply_completes].
  apply ScheduleSingleHop_completes. intros sid db c _.
  by destruct (OpAdd _ _ _ _ _ _).
Qed.

Lemma SIsMember_completes (args : list string) (cntx : ConnectionContext) :
  completes (SIsMember hash args cntx).
Proof.
  unfold SIsMember. apply completes_bind; [|reply_completes].
  apply ScheduleSingleHop_completes. intros sid db c _.
  by destruct (Find _ _ _ _).
Qed.

Lemma SRem_completes (args : list string) (cntx : ConnectionContext) :
  completes (SRem hash args cntx).
Proof.
  unfold SRem. apply completes_bind; [|reply_completes].
  apply ScheduleSingleHop_completes. intros sid db c _.
  by destruct (OpRem _ _ _ _).
Qed.

Lemma SCard_completes (args : list string) (cntx : ConnectionContext) :
  completes (SCard hash args cntx).
Proof.
  unfold SCard. apply completes_bind; [|reply_completes].
  apply ScheduleSingleHop_completes. intros sid db c _.
  by destruct (Find _ _ _ _).
Qed.

Lemma SMembers_completes (args : list string) (cntx : ConnectionContext) :
  completes (SMembers NDEBUG hash args cntx).
Proof.
  unfold SMembers. apply completes_bind; [|reply_completes].
  apply ScheduleSingleHop_completes. intros sid db c Hne.
  apply completes_bind; [|done].
  unfold OpInter, ShardArgsInShard in *. cbn [key_args transaction_of] in *.
  assert (Hone : (length (KeyArgs 1 1 args) <= 1)%nat).
  { unfold KeyArgs. simpl. rewrite length_take. lia. }
  destruct (KeyArgs 1 1 args) as [|k [|k' ks]]; [done| |simpl in Hone; lia].
  rewrite filter_cons, filter_nil in *.
  destruct (decide _); [|done].
  unfold DCHECK. simpl.
  destruct NDEBUG; simpl; by destruct (Find _ _ _ _).
Qed.

Lemma SUnion_completes (args : list string) (cntx : ConnectionContext) :
  completes (SUnion NDEBUG hash args cntx).
Proof.
  unfold SUnion. apply completes_bind; [|reply_completes].
  apply ScheduleSingleHop_completes. intros sid db c Hne.
  apply completes_bind; [|done]. by apply OpUnion_completes.
Qed.

Lemma SDiff_completes (args : list string) (cntx : ConnectionContext) :
  completes (SDiff NDEBUG hash args cntx).
Proof.
  unfold SDiff. apply completes_bind; [|reply_completes].
  apply ScheduleSingleHop_completes. intros sid db c Hne.
  rewrite skipped_results_length.
  destruct (Nat.eqb_spec sid
              (Shard hash (ArgS args 1)
                 (shard_set_size (transaction_of cntx 1 (-1) args))))
    as [Heq|Hneq].
  - destruct (dest_key_first hash args (transaction_of cntx 1 (-1) args) sid
                (KeyArgs_all args) Hne Heq) as (rest & _ & Hargs).
    rewrite Hargs. cbn [head].
    rewrite (bool_decide_eq_true_2 (Some (ArgS args 1) = Some (ArgS args 1)) eq_refl).
    rewrite CHECK_true. apply completes_bind; [|done].
    by apply OpDiff_completes.
  - apply completes_bind; [|done]. by apply OpUnion_completes.
Qed.

Lemma SPop_completes (args : list string) (cntx : ConnectionContext) :
  (2 <= length args)%nat ->
  shard_set cntx <> [] ->
  Forall db_nonempty (shard_set cntx) ->
  completes (SPop NDEBUG hash SimpleAtoi args cntx).
Proof.
  intros Hlen Hshards Hne. unfold SPop.
  destruct (if (2 <? length args)%nat then _ else _) as [count|] eqn:Hcount;
    [|done].
  assert (Hsid : is_Some (shard_set cntx
                            !! Shard hash (ArgS args 1) (length (shard_set cntx)))).
  { apply lookup_lt_is_Some. unfold Shard. apply Nat.mod_upper_bound.
    by destruct (shard_set cntx). }
  destruct Hsid as [db Hdb].
  rewrite (single_key_hop hash _ _ _ _ _ db) by done.
  cbn [db_index transaction_of].
  assert (Hdbne : db_nonempty db).
  { rewrite Forall_forall in Hne. apply Hne. by eapply list_elem_of_lookup_2. }
  destruct (OpPop db (conn_db_index cntx) (ArgS args 1) count)
    as [db' res] eqn:Hpop.
  cbn [mbind Outcome_bind].
  destruct (is_ok res || _) eqn:Hok; [|done].
  destruct (length args =? 2)%nat eqn:Hargs; [|done].
  destruct (bool_decide (status res = KEY_NOTFOUND)) eqn:Hnf; [done|].
  apply bool_decide_eq_false in Hnf.
  assert (Hone : count = 1%nat).
  { apply Nat.eqb_eq in Hargs. rewrite Hargs in Hcount. simpl in Hcount.
    by injection Hcount as <-. }
  subst count.
  assert (Hval : exists m, value res = [m]).
  { unfold OpPop, Find in Hpop.
    destruct (db !! (conn_db_index cntx, ArgS args 1)) as [co|] eqn:Hkey;
      [|by injection Hpop as _ <-].
    destruct co as [|str|r]; try (by injection Hpop as _ <-).
    destruct (OpPop_one db (conn_db_index cntx) (ArgS args 1) r Hkey
                (Hdbne _ _ Hkey)) as (m & Hm & _).
    unfold OpPop, Find in Hm. rewrite Hkey in Hm.
    exists m. apply (f_equal snd) in Hpop. simpl in Hpop, Hm.
    rewrite Hpop in Hm. by rewrite Hm. }
  destruct Hval as [m Hm]. rewrite Hm. unfold DCHECK. by destruct NDEBUG.
Qed.

(** X23. The commands that [Register] enters as read-only (SDIFF,
    SINTER, SMEMBERS, SISMEMBER, SCARD and SUNION) leave the dictionary of
    every shard as it was, whatever their arguments and whatever they
    reply. *)
Theorem Register_readonly (ci : CommandId) (args : list string)
    (cntx cntx' : ConnectionContext) :
  ci ∈ Register NDEBUG hash set_max_intset_entries SimpleAtoi ->
  CO_READONLY ∈ ci_opt_mask ci ->
  ci_handler ci args cntx = Done cntx' ->
  shard_set cntx' = shard_set cntx.
Proof.
  intros Hci Hro Hrun. unfold Register in Hci.
  repeat (apply elem_of_cons in Hci as [-> |Hci]);
    try (by apply elem_of_nil in Hci);
    cbn [ci_opt_mask ci_handler] in *;
    try (by repeat (apply elem_of_cons in Hro as [Hro|Hro]; [discriminate|]);
            apply elem_of_nil in Hro).
  - by apply SDiff_reads in Hrun as [? _].
  - by apply SInter_reads in Hrun as [? _].
  - by apply SMembers_reads in Hrun as [? _].
  - by apply SIsMember_reads in Hrun as [? _].
  - by apply SCard_reads in Hrun as [? _].
  - by apply SUnion_reads in Hrun as [? _].
Qed.

(** X24. Every command of the table that runs to its end replies
    exactly once, as its last event, and leaves no transaction open: its
    events are a reply alone (SPOP with a bad count), or the scheduling,
    one concluding hop and the reply, or the scheduling, a first hop, a
    concluding hop and the reply. *)
Theorem Register_well_ended (ci : CommandId) (args : list string)
    (cntx cntx' : ConnectionContext) :
  ci ∈ Register NDEBUG hash set_max_intset_entries SimpleAtoi ->
  ci_handler ci args cntx = Done cntx' ->
  well_ended (events cntx) (events cntx').
Proof.
  intros Hci Hrun. unfold Register in Hci. unfold well_ended.
  repeat (apply elem_of_cons in Hci as [-> |Hci]);
    try (by apply elem_of_nil in Hci); cbn [ci_handler] in *.
  - right; left. apply SAdd_events in Hrun as [r Hr]. by exists Cb_single, r.
  - right; left. apply SDiff_reads in Hrun as [_ [r Hr]]. by exists Cb_diff, r.
  - right; right. by eapply SDiffStore_concluded.
  - right; left. apply SInter_reads in Hrun as [_ [r Hr]]. by exists Cb_inter, r.
  - right; right. by eapply SInterStore_concluded.
  - right; left. apply SMembers_reads in Hrun as [_ [r Hr]].
    by exists Cb_inter, r.
  - right; left. apply SIsMember_reads in Hrun as [_ [r Hr]].
    by exists Cb_single, r.
  - right; right. by eapply SMove_concluded.
  - right; left. apply SRem_events in Hrun as [r Hr]. by exists Cb_single, r.
  - right; left. apply SCard_reads in Hrun as [_ [r Hr]].
    by exists Cb_single, r.
  - apply SPop_events in Hrun as [[r Hr]|[r Hr]]; [left; by exists r|].
    right; left. by exists Cb_single, r.
  - right; left. apply SUnion_reads in Hrun as [_ [r Hr]].
    by exists Cb_union, r.
  - right; right. by eapply SUnionStore_concluded.
Qed.

End Family.

Lemma SInter_completes_NDEBUG (hash : string -> nat) (args : list string)
    (cntx : ConnectionContext) :
  completes (SInter true hash args cntx).
Proof.
  unfold SInter. apply completes_bind.
  - apply ScheduleSingleHop_completes. intros sid db c _.
    apply completes_bind; [apply OpInter_completes_NDEBUG|done].
  - intros [cntx1 res1]. by repeat case_match.
Qed.

(** X25. No command of the table trips an assertion in a release
    build, when it is called with a number of arguments its arity allows
    on a store that has a shard and holds no empty set. In a build with
    assertions the same holds for every command but SMOVE, SINTER and
    SINTERSTORE. *)
Theorem Register_completes (NDEBUG : bool) (hash : string -> nat) (max : Z)
    (SimpleAtoi : string -> option nat) (ci : CommandId) (args : list string)
    (cntx : ConnectionContext) :
  ci ∈ Register NDEBUG hash max SimpleAtoi ->
  arity_ok (ci_arity ci) args ->
  shard_set cntx <> [] ->
  Forall db_nonempty (shard_set cntx) ->
  NDEBUG = true
  ∨ ci_name ci ∉ ["SMOVE"; "SINTER"; "SINTERSTORE"]%string ->
  exists cntx', ci_handler ci args cntx = Done cntx'.
Proof.
  intros Hci Harity Hshards Hne Hbuild. apply completes_Done.
  unfold Register in Hci.
  repeat (apply elem_of_cons in Hci as [-> |Hci]);
    try (by apply elem_of_nil in Hci);
    cbn [ci_handler ci_arity ci_name] in *; unfold arity_ok in Harity;
    simpl in Harity.
  - apply SAdd_completes.
  - apply SDiff_completes.
  - apply SDiffStore_completes.
  - destruct Hbuild as [-> |Hno]; [apply SInter_completes_NDEBUG|].
    exfalso. apply Hno. by right; left.
  - destruct Hbuild as [-> |Hno]; [apply SInterStore_completes_NDEBUG|].
    exfalso. apply Hno. by right; right; left.
  - apply SMembers_completes.
  - apply SIsMember_completes.
  - destruct Hbuild as [-> |Hno].
    + apply SMove_completes; [lia|by left].
    + exfalso. apply Hno. by left.
  - apply SRem_completes.
  - apply SCard_completes.
  - apply SPop_completes; [lia|done|done].
  - apply SUnion_completes.
  - apply SUnionStore_completes.
Qed.

(** ** Commands on several keys *)

Section SeveralKeys.

Variable NDEBUG : bool.
Variable hash : string -> nat.
Variable set_max_intset_entries : Z.

(** A hop whose callback only reads the dictionary and, on some shards,
    writes its result into the slot of the shard: the slots afterwards. *)
Lemma Execute_on_collect
    (G : ShardId -> DbSlice -> Outcome (option (OpResult StringVec)))
    (cb : Callback ResultStringVec) (t : Transaction) (shards : list DbSlice) :
  (forall sid db rs,
     ShardArgsInShard hash t sid <> [] ->
     cb t sid db rs
     = o ← G sid db;
       Done (db, match o with Some r => <[sid := r]> rs | None => rs end)) ->
  forall (sids : list ShardId) (rs : ResultStringVec),
  NoDup sids ->
  (forall sid, sid ∈ sids -> (sid < length shards)%nat) ->
  length rs = length shards ->
  (forall sid db, sid ∈ sids -> shards !! sid = Some db ->
     ShardArgsInShard hash t sid <> [] -> completes (G sid db)) ->
  exists rs',
    Execute_on hash cb t sids shards rs = Done (shards, rs')
    ∧ length rs' = length rs
    ∧ (forall i db, i ∈ sids -> ShardArgsInShard hash t i <> [] ->
         shards !! i = Some db ->
         exists o, G i db = Done o
           ∧ rs' !! i = match o with Some r => Some r | None => rs !! i end)
    ∧ (forall i, i ∉ sids ∨ ShardArgsInShard hash t i = [] ->
         rs' !! i = rs !! i).
Proof.
  intros Hcb. induction sids as [|sid sids IH]; intros rs Hnd Hlt Hlen Hcomp.
  { exists rs. split_and!; [done|done| |done].
    intros i db Hi. by apply elem_of_nil in Hi. }
  apply NoDup_cons in Hnd as [Hsid Hnd]. cbn [Execute_on].
  assert (Hlt' : forall s, s ∈ sids -> (s < length shards)%nat)
    by (intros s Hs; apply Hlt; by right).
  assert (Hcomp' : forall s db, s ∈ sids -> shards !! s = Some db ->
            ShardArgsInShard hash t s <> [] -> completes (G s db))
    by (intros s db Hs; apply Hcomp; by right).
  destruct (ShardArgsInShard hash t sid) as [|k ks] eqn:Hargs.
  - destruct (IH rs Hnd Hlt' Hlen Hcomp') as (rs' & Hrun & Hl & Hact & Hidle).
    exists rs'. split_and!; [done|done| |].
    + intros i db [-> |Hi]%elem_of_cons Hne Hdb; [by rewrite Hargs in Hne|].
      by apply Hact.
    + intros i [Hi|Hi].
      * apply Hidle. left. intros Hin. apply Hi. by right.
      * apply Hidle. by right.
  - destruct (lookup_lt_is_Some_2 shards sid (Hlt sid (list_elem_of_here _ _)))
      as [db Hdb].
    assert (Hne : ShardArgsInShard hash t sid <> []) by by rewrite Hargs.
    rewrite Hdb, Hcb by done.
    destruct (completes_Done _ (Hcomp sid db (list_elem_of_here _ _) Hdb Hne))
      as [o Ho].
    rewrite Ho. cbn [mbind Outcome_bind]. rewrite list_insert_id by done.
    set (rs1 := match o with Some r => <[sid := r]> rs | None => rs end).
    assert (Hlen1 : length rs1 = length shards).
    { unfold rs1. destruct o; [by rewrite length_insert|done]. }
    destruct (IH rs1 Hnd Hlt' Hlen1 Hcomp') as (rs' & Hrun & Hl & Hact & Hidle).
    assert (Hsid1 : rs1 !! sid
                    = match o with Some r => Some r | None => rs !! sid end).
    { unfold rs1. destruct o as [r|]; [|done].
      apply list_lookup_insert_eq. rewrite Hlen. apply Hlt. by left. }
    assert (Hother : forall i, i <> sid -> rs1 !! i = rs !! i).
    { intros i Hi. unfold rs1. destruct o as [r|]; [|done].
      by apply list_lookup_insert_ne. }
    exists rs'. split_and!.
    + done.
    + rewrite Hl. by rewrite Hlen1, Hlen.
    + intros i db' [-> |Hi]%elem_of_cons Hne' Hdb'.
      * rewrite Hdb in Hdb'. injection Hdb' as <-. exists o. split; [done|].
        rewrite <- Hsid1. apply Hidle. by left.
      * destruct (Hact i db' Hi Hne' Hdb') as (o' & Ho' & Hrs').
        exists o'. split; [done|]. rewrite Hrs'. destruct o'; [done|].
        apply Hother. by intros ->.
    + intros i [Hi|Hi].
      * apply not_elem_of_cons in Hi as [Hne' Hi].
        rewrite <- (Hother i Hne'). apply Hidle. by left.
      * assert (i <> sid) by (intros ->; by rewrite Hargs in Hi).
        rewrite <- (Hother i) by done. apply Hidle. by right.
Qed.

Lemma UnionResultVec_loop_wrong (result_vec : ResultStringVec) :
  Forall (fun val => status val ∈ [OK; SKIPPED; WRONG_TYPE]) result_vec ->
  (exists val, val ∈ result_vec ∧ status val = WRONG_TYPE) ->
  forall uniques : StringSet,
  UnionResultVec_loop result_vec uniques = mkOpResult WRONG_TYPE [].
Proof.
  induction 1 as [|val rest Hval Hrest IH]; intros (v & Hin & Hst) u.
  { by apply elem_of_nil in Hin. }
  simpl. unfold is_ok. apply status_in_three in Hval.
  destruct (decide (status val = WRONG_TYPE)) as [Hw|Hnw].
  - by rewrite Hw.
  - replace (bool_decide (status val = OK) || bool_decide (status val = SKIPPED))
      with true
      by (destruct Hval as [-> |[-> |?]]; done).
    apply IH. apply elem_of_cons in Hin as [-> |Hin]; [done|]. by exists v.
Qed.

Lemma OpUnion_loop_status (db : DbSlice) (db_ind : DbIndex) (keys : list string) :
  forall uniques : StringSet,
  status (OpUnion_loop db db_ind keys uniques) = OK
  ∨ OpUnion_loop db db_ind keys uniques = mkOpResult WRONG_TYPE [].
Proof.
  induction keys as [|key rest IH]; intros u; simpl; [by left|].
  unfold Find. destruct (db !! (db_ind, key)) as [co|]; [|apply IH].
  destruct (bool_decide (ObjTypeOf co = OBJ_SET)); [apply IH|by right].
Qed.

(** The union of per-shard results, each shard having united the keys of
    [keys] that are routed to it. *)
Lemma union_of_shards (shards : list DbSlice) (db_ind : DbIndex)
    (keys : list string) (rs : ResultStringVec) :
  length rs = length shards ->
  (forall i db, shards !! i = Some db ->
     exists val, rs !! i = Some val
       ∧ let ks := filter (fun k => Shard hash k (length shards) = i) keys in
         (ks = [] -> value val = [] ∧ status val ∈ [OK; SKIPPED])
         ∧ (ks <> [] -> val = OpUnion_loop db db_ind ks [])) ->
  let look k :=
    shards !! Shard hash k (length shards) ≫= fun db => db !! (db_ind, k) in
  ((exists k co, k ∈ keys ∧ look k = Some co ∧ ObjTypeOf co <> OBJ_SET) ->
   UnionResultVec rs = mkOpResult WRONG_TYPE [])
  ∧ ((forall k co, k ∈ keys -> look k = Some co -> ObjTypeOf co = OBJ_SET) ->
     status (UnionResultVec rs) = OK
     ∧ NoDup (value (UnionResultVec rs))
     ∧ forall s, s ∈ value (UnionResultVec rs) <->
         exists k r, k ∈ keys ∧ look k = Some (CoSet r) ∧ s ∈ members r).
Proof.
  intros Hlen Hrs look.
  assert (Hval : forall val, val ∈ rs ->
    exists i db, rs !! i = Some val ∧ shards !! i = Some db
      ∧ let ks := filter (fun k => Shard hash k (length shards) = i) keys in
        (ks = [] -> value val = [] ∧ status val ∈ [OK; SKIPPED])
        ∧ (ks <> [] -> val = OpUnion_loop db db_ind ks [])).
  { intros val (i & Hi)%list_elem_of_lookup_1.
    assert (Hlt : (i < length shards)%nat)
      by (rewrite <- Hlen; by eapply lookup_lt_Some).
    destruct (lookup_lt_is_Some_2 _ _ Hlt) as [db Hdb].
    destruct (Hrs i db Hdb) as (val' & Hi' & Hks).
    rewrite Hi in Hi'. injection Hi' as <-. by exists i, db. }
  assert (Hlook : forall k i db, shards !! i = Some db ->
            Shard hash k (length shards) = i -> look k = db !! (db_ind, k)).
  { intros k i db Hdb Hi. unfold look. rewrite Hi, Hdb. done. }
  assert (Hin : forall k, k ∈ keys -> is_Some (look k) ->
    exists db val,
      shards !! Shard hash k (length shards) = Some db
      ∧ look k = db !! (db_ind, k)
      ∧ rs !! Shard hash k (length shards) = Some val
      ∧ k ∈ filter (fun k' => Shard hash k' (length shards)
                              = Shard hash k (length shards)) keys
      ∧ val = OpUnion_loop db db_ind
                (filter (fun k' => Shard hash k' (length shards)
                                   = Shard hash k (length shards)) keys) []).
  { intros k Hk [co Hco]. unfold look in Hco.
    destruct (shards !! Shard hash k (length shards)) as [db|] eqn:Hdb; [|done].
    destruct (Hrs _ db Hdb) as (val & Hi & Hks).
    assert (Hkin : k ∈ filter (fun k' => Shard hash k' (length shards)
                                 = Shard hash k (length shards)) keys)
      by by apply list_elem_of_filter.
    exists db, val. split_and!; [done| |done|done|].
    - by eapply Hlook.
    - apply Hks. intros Hnil. rewrite Hnil in Hkin. by apply elem_of_nil in Hkin. }
  split.
  - intros (k & co & Hk & Hco & Hty).
    destruct (Hin k Hk (mk_is_Some _ _ Hco)) as (db & val & Hdb & Hl & Hv & Hkin & ->).
    apply UnionResultVec_loop_wrong.
    + apply Forall_forall. intros val Hval'.
      destruct (Hval val Hval') as (i & db' & _ & _ & Hidle & Hact).
      apply status_in_three.
      destruct (decide (filter (fun k0 => Shard hash k0 (length shards) = i) keys = []))
        as [Hnil|Hne].
      * destruct (Hidle Hnil) as [_ Hst]. apply status_in_two in Hst. tauto.
      * rewrite (Hact Hne).
        destruct (OpUnion_loop_status db' db_ind
                    (filter (fun k0 => Shard hash k0 (length shards) = i) keys) [])
          as [-> | ->]; [by left|by right; right].
    + eexists. split; [by eapply list_elem_of_lookup_2|].
      rewrite OpUnion_loop_wrong; [done|].
      exists k, co. split_and!; [done| |done]. by rewrite <- Hl.
  - intros Hsets.
    assert (Hok : forall i db, shards !! i = Some db ->
      status (OpUnion_loop db db_ind
                (filter (fun k => Shard hash k (length shards) = i) keys) []) = OK
      ∧ forall s,
          s ∈ value (OpUnion_loop db db_ind
                       (filter (fun k => Shard hash k (length shards) = i) keys) [])
          <-> exists k r, k ∈ keys ∧ Shard hash k (length shards) = i
                          ∧ db !! (db_ind, k) = Some (CoSet r) ∧ s ∈ members r).
    { intros i db Hdb.
      assert (Hsets' : forall k co,
        k ∈ filter (fun k => Shard hash k (length shards) = i) keys ->
        db !! (db_ind, k) = Some co -> ObjTypeOf co = OBJ_SET).
      { intros k co [Hki Hk]%list_elem_of_filter Hco. apply (Hsets k co Hk).
        by rewrite (Hlook k i db). }
      destruct (OpUnion_loop_ok db db_ind _ Hsets' [] NoDup_nil_2)
        as (O1 & _ & O3).
      split; [done|]. intros s. rewrite O3. split.
      - intros [Hs|(k & r & [Hki Hk]%list_elem_of_filter & Hco & Hs)];
          [by apply elem_of_nil in Hs|].
        by exists k, r.
      - intros (k & r & Hk & Hki & Hco & Hs). right. exists k, r.
        split_and!; [by apply list_elem_of_filter|done|done]. }
    assert (Hall : Forall (fun r => status r ∈ [OK; SKIPPED; KEY_NOTFOUND]) rs).
    { apply Forall_forall. intros val Hval'.
      destruct (Hval val Hval') as (i & db & Hi & Hdb & Hidle & Hact).
      apply status_in_three.
      destruct (decide (filter (fun k0 => Shard hash k0 (length shards) = i) keys = []))
        as [Hnil|Hne].
      - destruct (Hidle Hnil) as [_ Hst]. apply status_in_two in Hst. tauto.
      - rewrite (Hact Hne). destruct (Hok i db Hdb) as [-> _]. by left. }
    destruct (UnionResultVec_loop_ok _ Hall [] NoDup_nil_2) as (U1 & U2 & U3).
    split_and!; [done|done|]. intros s. unfold UnionResultVec. rewrite U3.
    split.
    + intros [Hs|(val & Hval' & _ & Hs)]; [by apply elem_of_nil in Hs|].
      destruct (Hval val Hval') as (i & db & Hi & Hdb & Hidle & Hact).
      destruct (decide (filter (fun k0 => Shard hash k0 (length shards) = i) keys = []))
        as [Hnil|Hne].
      * destruct (Hidle Hnil) as [Hv _]. rewrite Hv in Hs.
        by apply elem_of_nil in Hs.
      * rewrite (Hact Hne) in Hs. destruct (Hok i db Hdb) as [_ Hmem].
        apply Hmem in Hs as (k & r & Hk & Hki & Hco & Hs).
        exists k, r. split_and!; [done| |done]. by rewrite (Hlook k i db).
    + intros (k & r & Hk & Hco & Hs).
      destruct (Hin k Hk (mk_is_Some _ _ Hco))
        as (db & val & Hdb & Hl & Hv & Hkin & ->).
      destruct (Hok _ db Hdb) as [Hst Hmem].
      right. eexists. split_and!; [by eapply list_elem_of_lookup_2| |].
      * rewrite Hst. by apply status_in_two; left.
      * apply Hmem. exists k, r. split_and!; [done|done| |done].
        by rewrite <- Hl.
Qed.

Lemma OpUnion_nonempty (db : DbSlice) (db_ind : DbIndex) (keys : list string) :
  keys <> [] ->
  OpUnion NDEBUG db db_ind keys = Done (OpUnion_loop db db_ind keys []).
Proof.
  intros Hne. unfold OpUnion, DCHECK. destruct NDEBUG; [done|].
  by rewrite bool_decide_eq_false_2 by done.
Qed.

(** X20. SUNION replies an error when one of its keys holds a value
    that is no set. Otherwise it replies, each once (and sorted inside a
    script), the members of the sets its keys hold, wherever the keys
    live; absent keys contribute nothing. It changes no dictionary. *)
Theorem SUnion_reply (args : list string) (cntx : ConnectionContext) :
  let keys := drop 1 args in
  ((exists k co, k ∈ keys ∧ stored hash cntx k = Some co
                 ∧ ObjTypeOf co <> OBJ_SET) ->
   SUnion NDEBUG hash args cntx
   = Done (after_single_hop cntx Cb_union (shard_set cntx)
             (SendError (StatusError WRONG_TYPE))))
  ∧ ((forall k co, k ∈ keys -> stored hash cntx k = Some co ->
        ObjTypeOf co = OBJ_SET) ->
     exists arr,
       SUnion NDEBUG hash args cntx
       = Done (after_single_hop cntx Cb_union (shard_set cntx)
                 (SendStringArr (script_sorted cntx arr)))
       ∧ NoDup arr
       ∧ forall s, s ∈ arr <->
           exists k r, k ∈ keys ∧ stored hash cntx k = Some (CoSet r)
                       ∧ s ∈ FillSet (CoSet r)).
Proof.
  intros keys.
  set (shards := shard_set cntx). set (n := length shards).
  set (t := transaction_of cntx 1 (-1) args).
  set (G := fun (sid : ShardId) (db : DbSlice) =>
              r ← OpUnion NDEBUG db (db_index t) (ShardArgsInShard hash t sid);
              Done (Some r)).
  set (cb := fun (t : Transaction) (shard : ShardId) (db : DbSlice)
                 (result_set : ResultStringVec) =>
               r ← OpUnion NDEBUG db (db_index t) (ShardArgsInShard hash t shard);
               Done (db, <[shard := r]> result_set)).
  assert (Hargs : forall i, ShardArgsInShard hash t i
                            = filter (fun k => Shard hash k n = i) keys).
  { intros i. unfold ShardArgsInShard, t, transaction_of. simpl.
    by rewrite KeyArgs_all. }
  assert (Hcb : forall sid db rs,
    ShardArgsInShard hash t sid <> [] ->
    cb t sid db rs
    = o ← G sid db;
      Done (db, match o with Some r => <[sid := r]> rs | None => rs end)).
  { intros sid db rs _. unfold cb, G.
    by destruct (OpUnion NDEBUG db (db_index t) _). }
  destruct (Execute_on_collect G cb t shards Hcb (seq 0 n)
              (replicate n (ResultOf []))) as (rs' & Hrun & Hl & Hact & Hidle).
  { apply NoDup_seq. }
  { intros sid Hsid%elem_of_seq. lia. }
  { by rewrite length_replicate. }
  { intros sid db _ _ Hne. unfold G. apply completes_bind; [|done].
    by apply OpUnion_completes. }
  assert (Hrs : forall i db, shards !! i = Some db ->
     exists val, rs' !! i = Some val
       ∧ let ks := filter (fun k => Shard hash k (length shards) = i) keys in
         (ks = [] -> value val = [] ∧ status val ∈ [OK; SKIPPED])
         ∧ (ks <> [] -> val = OpUnion_loop db (db_index t) ks [])).
  { intros i db Hdb. fold n.
    assert (Hlt : (i < n)%nat) by by eapply lookup_lt_Some.
    destruct (decide (filter (fun k => Shard hash k n = i) keys = []))
      as [Hnil|Hne].
    - exists (ResultOf []). split.
      + rewrite Hidle by (right; by rewrite Hargs).
        by apply lookup_replicate_2.
      + simpl. split; [|done]. intros _. split; [done|]. by left.
    - destruct (Hact i db) as (o & Ho & Hi).
      { apply elem_of_seq. lia. }
      { by rewrite Hargs. }
      { done. }
      unfold G in Ho. rewrite Hargs in Ho.
      rewrite OpUnion_nonempty in Ho by done. injection Ho as <-.
      eexists. split; [exact Hi|]. simpl. split; [done|]. done. }
  rewrite length_replicate in Hl.
  destruct (union_of_shards shards (db_index t) keys rs' Hl Hrs) as [Hwrong Hfine].
  assert (Hhop : SUnion NDEBUG hash args cntx
    = if is_ok (UnionResultVec rs') then
        Done (after_single_hop cntx Cb_union shards
                (SendStringArr (script_sorted cntx (value (UnionResultVec rs')))))
      else
        Done (after_single_hop cntx Cb_union shards
                (SendError (StatusError (status (UnionResultVec rs')))))).
  { unfold SUnion, ScheduleSingleHop, Execute. fold t cb.
    change (shard_set (Schedule cntx)) with shards.
    change (shard_set_size t) with n. rewrite Hrun.
    cbn [mbind Outcome_bind]. by destruct (is_ok (UnionResultVec rs')). }
  split.
  - intros Hw. rewrite Hhop, Hwrong; [done|]. exact Hw.
  - intros Hf. destruct (Hfine Hf) as (U1 & U2 & U3).
    exists (value (UnionResultVec rs')). split_and!; [|done|exact U3].
    rewrite Hhop. unfold is_ok. by rewrite U1.
Qed.

(** [OpAdd] with overwrite: the key is deleted for no values, and holds
    exactly the values otherwise. *)
Lemma OpAdd_overwrite_result (db : DbSlice) (db_ind : DbIndex) (key : string)
    (vals : list string) :
  (vals = [] ->
   fst (OpAdd set_max_intset_entries db db_ind key vals true)
   = delete (db_ind, key) db)
  ∧ (vals <> [] ->
     exists r' : SetRepr,
       fst (OpAdd set_max_intset_entries db db_ind key vals true)
       = <[(db_ind, key) := CoSet r']> db
       ∧ NoDup (members r')
       ∧ forall s, s ∈ members r' <-> s ∈ vals).
Proof.
  split.
  - intros ->. unfold OpAdd. simpl. by rewrite Del_fst.
  - intros Hne. unfold OpAdd.
    rewrite (bool_decide_eq_false_2 (vals = [])) by done. simpl.
    assert (Hgo : forall r0 : SetRepr, members r0 = [] ->
      exists r' : SetRepr,
        fst (let '(r, res) := OpAdd_loops set_max_intset_entries vals r0 in
             (StoreValue db db_ind key (CoSet r), ResultOf res))
        = <[(db_ind, key) := CoSet r']> db
        ∧ NoDup (members r')
        ∧ forall s, s ∈ members r' <-> s ∈ vals).
    { intros r0 Hm0.
      destruct (OpAdd_loops set_max_intset_entries vals r0) as [r res] eqn:Hloops.
      assert (Hnd0 : NoDup (members r0)) by (rewrite Hm0; constructor).
      destruct (OpAdd_loops_members _ _ _ _ _ Hloops Hnd0) as (M1 & M2 & _).
      exists r. split_and!; [done|done|]. intros s. rewrite M2, Hm0.
      split; [|by right]. intros [Hs|?]; [|done]. by apply elem_of_nil in Hs. }
    destruct (AddOrFind db db_ind key) as [co inserted].
    unfold OpAdd_init. rewrite orb_true_r.
    destruct (forallb _ vals); by apply Hgo.
Qed.

Lemma args_dest_sources (args : list string) :
  (2 <= length args)%nat -> drop 1 args = ArgS args 1 :: drop 2 args.
Proof.
  intros Hlen. destruct args as [|cmd [|dest rest]]; simpl in *; [lia|lia|done].
Qed.

(** X21. SUNIONSTORE replies an error, after a concluding no-op hop
    and without changing anything, when one of its source keys holds a
    value that is no set. Otherwise it computes the members of the sets
    its source keys hold, each once, replies their number, and changes the
    dictionary of the destination's shard only: the destination is deleted
    when there is no member, and holds exactly the members otherwise,
    whatever it held before. *)
Theorem SUnionStore_reply (args : list string) (cntx : ConnectionContext)
    (db_dest : DbSlice) :
  (2 <= length args)%nat ->
  let dest := ArgS args 1 in
  let sources := drop 2 args in
  let sd := Shard hash dest (length (shard_set cntx)) in
  let k := (conn_db_index cntx, dest) in
  let first_hop := emit (Schedule cntx) (EvExecute Cb_union false) in
  shard_set cntx !! sd = Some db_dest ->
  ((exists k co, k ∈ sources ∧ stored hash cntx k = Some co
                 ∧ ObjTypeOf co <> OBJ_SET) ->
   SUnionStore NDEBUG hash set_max_intset_entries args cntx
   = Done (reply (emit first_hop (EvExecute NoOpCb true))
             (SendError (StatusError WRONG_TYPE))))
  ∧ ((forall k co, k ∈ sources -> stored hash cntx k = Some co ->
        ObjTypeOf co = OBJ_SET) ->
     exists arr db',
       SUnionStore NDEBUG hash set_max_intset_entries args cntx
       = Done (reply
                 (emit (with_shards first_hop (<[sd := db']> (shard_set cntx)))
                    (EvExecute Cb_store true))
                 (SendLong (Z.of_nat (length arr))))
       ∧ NoDup arr
       ∧ (forall s, s ∈ arr <->
            exists k r, k ∈ sources ∧ stored hash cntx k = Some (CoSet r)
                        ∧ s ∈ FillSet (CoSet r))
       ∧ (arr = [] -> db' = delete k db_dest)
       ∧ (arr <> [] ->
          exists r' : SetRepr,
            db' = <[k := CoSet r']> db_dest
            ∧ NoDup (FillSet (CoSet r'))
            ∧ forall s, s ∈ FillSet (CoSet r') <-> s ∈ arr)).
Proof.
  intros Hlen dest sources sd k first_hop Hdest.
  set (shards := shard_set cntx) in *. set (n := length shards) in *.
  set (t := transaction_of cntx 1 (-1) args).
  assert (Hkeys : key_args t = dest :: sources).
  { unfold t, transaction_of. simpl. rewrite KeyArgs_all.
    by apply args_dest_sources. }
  assert (Hargs : forall i, ShardArgsInShard hash t i
    = (if decide (sd = i) then [dest] else [])
      ++ filter (fun k => Shard hash k n = i) sources).
  { intros i. unfold ShardArgsInShard. rewrite Hkeys. simpl.
    rewrite filter_cons. fold shards n sd. by destruct (decide (sd = i)). }
  set (G := fun (sid : ShardId) (db : DbSlice) =>
              let ks := filter (fun k => Shard hash k n = sid) sources in
              if decide (ks = []) then Done None
              else r ← OpUnion NDEBUG db (db_index t) ks; Done (Some r)).
  set (cb := SUnionStore_union_cb NDEBUG hash dest sd).
  assert (Hcb : forall sid db rs,
    ShardArgsInShard hash t sid <> [] ->
    cb t sid db rs
    = o ← G sid db;
      Done (db, match o with Some r => <[sid := r]> rs | None => rs end)).
  { intros sid db rs Hne. unfold cb, SUnionStore_union_cb, G.
    rewrite Hargs in *. destruct (Nat.eqb_spec sid sd) as [-> |Hneq].
    - rewrite decide_True by done. cbn [app head drop].
      rewrite (bool_decide_eq_true_2 (Some dest = Some dest) eq_refl).
      rewrite CHECK_true. cbn [mbind Outcome_bind].
      destruct (decide (filter _ sources = [])) as [Hnil|Hn].
      + by rewrite bool_decide_eq_true_2 by done.
      + rewrite bool_decide_eq_false_2 by done.
        by destruct (OpUnion NDEBUG db (db_index t) _).
    - rewrite decide_False in * by done. cbn [app] in *.
      cbn [mbind Outcome_bind]. rewrite decide_False by done.
      by destruct (OpUnion NDEBUG db (db_index t) _). }
  destruct (Execute_on_collect G cb t shards Hcb (seq 0 n) (skipped_results n))
    as (rs' & Hrun & Hl & Hact & Hidle).
  { apply NoDup_seq. }
  { intros sid Hsid%elem_of_seq. lia. }
  { by rewrite skipped_results_length. }
  { intros sid db _ _ Hne. unfold G.
    destruct (decide _); [done|]. apply completes_bind; [|done].
    by apply OpUnion_completes. }
  rewrite skipped_results_length in Hl.
  assert (Hrs : forall i db, shards !! i = Some db ->
     exists val, rs' !! i = Some val
       ∧ let ks := filter (fun k => Shard hash k (length shards) = i) sources in
         (ks = [] -> value val = [] ∧ status val ∈ [OK; SKIPPED])
         ∧ (ks <> [] -> val = OpUnion_loop db (db_index t) ks [])).
  { intros i db Hdb. fold n.
    assert (Hlt : (i < n)%nat) by by eapply lookup_lt_Some.
    assert (Hin : i ∈ seq 0 n) by (apply elem_of_seq; lia).
    assert (Hskip : skipped_results n !! i = Some (mkOpResult SKIPPED []))
      by by apply lookup_replicate_2.
    destruct (decide (filter (fun k => Shard hash k n = i) sources = []))
      as [Hnil|Hne].
    - exists (mkOpResult SKIPPED []). split.
      + destruct (decide (ShardArgsInShard hash t i = [])) as [Hi|Hi].
        * rewrite Hidle by by right. done.
        * destruct (Hact i db Hin Hi Hdb) as (o & Ho & Hrs').
          unfold G in Ho. rewrite decide_True in Ho by done.
          injection Ho as <-. by rewrite Hrs'.
      + simpl. split; [|done]. intros _. split; [done|]. by right; left.
    - assert (Hi : ShardArgsInShard hash t i <> []).
      { rewrite Hargs. intros Happ. apply app_eq_nil in Happ as [_ ?]. done. }
      destruct (Hact i db Hin Hi Hdb) as (o & Ho & Hrs').
      unfold G in Ho. rewrite decide_False in Ho by done.
      rewrite OpUnion_nonempty in Ho by done. injection Ho as <-.
      eexists. split; [exact Hrs'|]. simpl. split; [done|]. done. }
  destruct (union_of_shards shards (db_index t) sources rs' Hl Hrs)
    as [Hwrong Hfine].
  assert (Hhop : SUnionStore NDEBUG hash set_max_intset_entries args cntx
    = SUnionStore_conclude hash set_max_intset_entries t dest sd first_hop rs').
  { unfold SUnionStore, Execute. fold t. rewrite skipped_results_length.
    change (shard_set_size t) with n. fold dest sd cb.
    change (shard_set (Schedule cntx)) with shards. rewrite Hrun.
    cbn [mbind Outcome_bind]. done. }
  split.
  - intros Hw. rewrite Hhop. rewrite SUnionStore_conclude_error.
    + rewrite Hwrong; [done|exact Hw].
    + rewrite Hwrong; [done|exact Hw].
  - intros Hf. destruct (Hfine Hf) as (U1 & U2 & U3).
    set (arr := value (UnionResultVec rs')) in *.
    set (f := fun (sid : ShardId) (db : DbSlice) =>
                if (sid =? sd)%nat
                then fst (OpAdd set_max_intset_entries db (db_index t) dest arr true)
                else db).
    destruct (Execute_on_local hash (store_cb set_max_intset_entries sd dest arr)
                t f () (seq 0 n) shards) as (shards' & Hstore & Hshards').
    { apply NoDup_seq. }
    { intros sid db _ _ _. unfold store_cb, f.
      destruct (sid =? sd)%nat; [|done]. by destruct (OpAdd _ _ _ _ _ _). }
    exists arr, (f sd db_dest). split_and!.
    + rewrite Hhop. unfold SUnionStore_conclude. unfold is_ok. rewrite U1.
      cbn [negb bool_decide decide_rel]. simpl negb. cbv iota.
      unfold Execute. fold arr.
      change (shard_set_size t) with n.
      change (shard_set first_hop) with shards.
      change (ToSvArray arr) with arr. rewrite Hstore.
      cbn [mbind Outcome_bind]. do 4 f_equal.
      apply list_eq. intros i. rewrite Hshards'.
      destruct (decide (i = sd)) as [-> |Hne].
      * rewrite list_lookup_insert_eq by by eapply lookup_lt_Some.
        rewrite decide_True; [by rewrite Hdest|]. split.
        -- apply elem_of_seq. apply lookup_lt_Some in Hdest. lia.
        -- rewrite Hargs. by rewrite decide_True.
      * rewrite list_lookup_insert_ne by done.
        destruct (decide _); [|done]. unfold f.
        rewrite (proj2 (Nat.eqb_neq i sd)) by done.
        by destruct (shards !! i).
    + done.
    + exact U3.
    + intros Hnil. unfold f. rewrite Nat.eqb_refl.
      by apply OpAdd_overwrite_result.
    + intros Hne. unfold f. rewrite Nat.eqb_refl.
      by apply OpAdd_overwrite_result.
Qed.

(** *** SINTER *)

Lemma find_none_all {A} (f : A -> bool) (l : list A) :
  (forall x, x ∈ l -> f x = false) -> List.find f l = None.
Proof.
  induction l as [|x l IH]; intros Hall; simpl; [done|].
  rewrite (Hall x) by by left. apply IH. intros y Hy. apply Hall. by right.
Qed.

(** The intersection of per-shard results none of which failed, when the
    required count is the number of contributions. *)
Lemma InterResultVec_all (result_vec : ResultStringVec) (c : StringVec)
    (rest : list StringVec) :
  first_failure result_vec = None ->
  contributions result_vec = c :: rest ->
  Forall NoDup (c :: rest) ->
  Z.of_nat (length (c :: rest)) < UINT32_MOD ->
  let res := InterResultVec result_vec (Z.of_nat (length (c :: rest))) in
  status res = OK
  ∧ NoDup (value res)
  ∧ forall s, s ∈ value res <-> forall c', c' ∈ c :: rest -> s ∈ c'.
Proof.
  intros Hf Hc Hnd Hlt. unfold InterResultVec.
  rewrite (InterResultVec_loop_first _ _ Hf), Hc. simpl.
  destruct (CountMap_emplace_all c [] (NoDup_nil_2 : NoDup ([] : CountMap).*1))
    as (H1 & H2 & H3); [constructor|].
  destruct (select_counted_spec (Z.of_nat (S (length rest))) _ rest H1 H2)
    as [S1 S2].
  split_and!; [done|done|]. intros s. rewrite S2, H3.
  apply Forall_cons in Hnd as [Hndc Hndr].
  destruct (later_occurrences_all s rest Hndr) as [Hle Hiff].
  simpl in Hlt. rewrite Z.mod_small by lia. split.
  - intros [[Hs|Hs] Heq] c' [-> |Hc']%elem_of_cons;
      try (by apply elem_of_nil in Hs); [done|].
    apply Hiff; [lia|done].
  - intros Hall. split; [right; apply Hall; by left|].
    assert (later_occurrences s rest = length rest); [|lia].
    apply Hiff. intros c' Hc'. apply Hall. by right.
Qed.

Lemma InterResultVec_loop_notfound (required : Z) (result_vec : ResultStringVec) :
  Forall (fun res => status res ∈ [OK; SKIPPED; KEY_NOTFOUND]) result_vec ->
  (exists res, res ∈ result_vec ∧ status res = KEY_NOTFOUND) ->
  forall uniques first,
  InterResultVec_loop result_vec required uniques first = ResultOf [].
Proof.
  induction 1 as [|res rest Hres Hrest IH]; intros (v & Hin & Hst) u first.
  { by apply elem_of_nil in Hin. }
  assert (Hnext : status res <> KEY_NOTFOUND ->
            exists res', res' ∈ rest ∧ status res' = KEY_NOTFOUND).
  { intros Hne. apply elem_of_cons in Hin as [-> |Hin]; [done|]. by exists v. }
  simpl. unfold is_ok. apply status_in_three in Hres.
  destruct Hres as [Hs|[Hs|Hs]]; rewrite Hs; simpl.
  - destruct first; apply IH; apply Hnext; by rewrite Hs.
  - apply IH. apply Hnext. by rewrite Hs.
  - done.
Qed.

Lemma InterResultVec_loop_wrong (required : Z) (result_vec : ResultStringVec) :
  Forall (fun res => status res ∈ [OK; SKIPPED; WRONG_TYPE]) result_vec ->
  (exists res, res ∈ result_vec ∧ status res = WRONG_TYPE) ->
  forall uniques first,
  InterResultVec_loop result_vec required uniques first
  = mkOpResult WRONG_TYPE [].
Proof.
  induction 1 as [|res rest Hres Hrest IH]; intros (v & Hin & Hst) u first.
  { by apply elem_of_nil in Hin. }
  assert (Hnext : status res <> WRONG_TYPE ->
            exists res', res' ∈ rest ∧ status res' = WRONG_TYPE).
  { intros Hne. apply elem_of_cons in Hin as [-> |Hin]; [done|]. by exists v. }
  simpl. unfold is_ok. apply status_in_three in Hres.
  destruct Hres as [Hs|[Hs|Hs]]; rewrite Hs; simpl.
  - destruct first; apply IH; apply Hnext; by rewrite Hs.
  - apply IH. apply Hnext. by rewrite Hs.
  - done.
Qed.

Lemma filter_image_single {A} (f : A -> nat) (l : list A) :
  NoDup (f <$> l) ->
  forall i,
  filter (fun k => f k = i) l = []
  ∨ exists k, k ∈ l ∧ f k = i ∧ filter (fun k => f k = i) l = [k].
Proof.
  induction l as [|x l IH]; intros Hnd i; [by left|].
  rewrite fmap_cons in Hnd. apply NoDup_cons in Hnd as [Hx Hnd].
  rewrite filter_cons. destruct (decide (f x = i)) as [Hfx|Hfx].
  - right. exists x. split_and!; [by left|done|]. f_equal.
    destruct (IH Hnd i) as [Hnil|(k & Hk & Hfk & _)]; [done|].
    exfalso. apply Hx. apply list_elem_of_fmap. exists k.
    split; [congruence|done].
  - destruct (IH Hnd i) as [Hnil|(k & Hk & Hfk & Hone)]; [by left|].
    right. exists k. split_and!; [by right|done|done].
Qed.

Lemma filter_length_index {A} (P : A -> Prop) `{!forall x, Decision (P x)}
    (Q : nat -> Prop) `{!forall i, Decision (Q i)} (l : list A) :
  forall k : nat,
  (forall i x, l !! i = Some x -> (P x <-> Q (k + i)%nat)) ->
  length (filter P l) = length (filter Q (seq k (length l))).
Proof.
  induction l as [|x l IH]; intros k Hiff; [done|].
  simpl. rewrite !filter_cons.
  assert (Hx : P x <-> Q k).
  { rewrite (Hiff 0%nat x) by done. by rewrite Nat.add_0_r. }
  assert (Hrest : length (filter P l) = length (filter Q (seq (S k) (length l)))).
  { apply IH. intros i y Hi. rewrite (Hiff (S i) y) by done.
    by replace (k + S i)%nat with (S k + i)%nat by lia. }
  destruct (decide (P x)) as [HP|HP], (decide (Q k)) as [HQ|HQ];
    simpl; try tauto; by rewrite Hrest.
Qed.

Lemma OpInter_one_key (t : Transaction) (sid : ShardId) (db : DbSlice)
    (key : string) :
  ShardArgsInShard hash t sid = [key] ->
  OpInter NDEBUG hash t sid db false
  = Done match Find db (db_index t) key OBJ_SET with
         | FindOk co => ResultOf (FillSet co)
         | FindFailed st => mkOpResult st []
         end.
Proof.
  intros Hargs. unfold OpInter. rewrite Hargs. unfold DCHECK.
  destruct NDEBUG; simpl; by destruct (Find _ _ _ _).
Qed.

(** X22. SINTER on keys that live on pairwise different shards: when
    every key holds a set it replies, each once (and sorted inside a
    script), the strings that are members of all the sets; when a key is
    absent and no key holds a value of another type it replies an empty
    array; when a key holds a value of another type and no key is absent
    it replies an error. It changes no dictionary. *)
Theorem SInter_reply (args : list string) (cntx : ConnectionContext) :
  let keys := drop 1 args in
  let n := length (shard_set cntx) in
  keys <> [] ->
  shard_set cntx <> [] ->
  NoDup ((fun k => Shard hash k n) <$> keys) ->
  Forall db_wf (shard_set cntx) ->
  Z.of_nat n < UINT32_MOD ->
  ((forall k, k ∈ keys -> exists r, stored hash cntx k = Some (CoSet r)) ->
   exists arr,
     SInter NDEBUG hash args cntx
     = Done (after_single_hop cntx Cb_inter (shard_set cntx)
               (SendStringArr (script_sorted cntx arr)))
     ∧ NoDup arr
     ∧ forall s, s ∈ arr <->
         forall k r, k ∈ keys -> stored hash cntx k = Some (CoSet r) ->
                     s ∈ FillSet (CoSet r))
  ∧ ((exists k, k ∈ keys ∧ stored hash cntx k = None) ->
     (forall k co, k ∈ keys -> stored hash cntx k = Some co ->
        ObjTypeOf co = OBJ_SET) ->
     SInter NDEBUG hash args cntx
     = Done (after_single_hop cntx Cb_inter (shard_set cntx) (SendStringArr [])))
  ∧ ((exists k co, k ∈ keys ∧ stored hash cntx k = Some co
                   ∧ ObjTypeOf co <> OBJ_SET) ->
     (forall k, k ∈ keys -> is_Some (stored hash cntx k)) ->
     SInter NDEBUG hash args cntx
     = Done (after_single_hop cntx Cb_inter (shard_set cntx)
               (SendError (StatusError WRONG_TYPE)))).
Proof.
  intros keys n Hkeys Hshards Hinj Hwf Hn.
  set (shards := shard_set cntx) in *.
  set (t := transaction_of cntx 1 (-1) args).
  set (ind := conn_db_index cntx).
  assert (Hargs : forall i, ShardArgsInShard hash t i
                            = filter (fun k => Shard hash k n = i) keys).
  { intros i. unfold ShardArgsInShard, t, transaction_of. simpl.
    by rewrite KeyArgs_all. }
  set (one := fun (db : DbSlice) (key : string) =>
                match Find db ind key OBJ_SET with
                | FindOk co => ResultOf (FillSet co)
                | FindFailed st => mkOpResult st []
                end).
  set (G := fun (sid : ShardId) (db : DbSlice) =>
              r ← OpInter NDEBUG hash t sid db false; Done (Some r)).
  set (cb := fun (t : Transaction) (shard : ShardId) (db : DbSlice)
                 (result_set : ResultStringVec) =>
               r ← OpInter NDEBUG hash t shard db false;
               Done (db, <[shard := r]> result_set)).
  assert (Hcb : forall sid db rs,
    ShardArgsInShard hash t sid <> [] ->
    cb t sid db rs
    = o ← G sid db;
      Done (db, match o with Some r => <[sid := r]> rs | None => rs end)).
  { intros sid db rs _. unfold cb, G.
    by destruct (OpInter NDEBUG hash t sid db false). }
  assert (Hone : forall i db k,
    filter (fun k => Shard hash k n = i) keys = [k] ->
    G i db = Done (Some (one db k))).
  { intros i db k Hk. unfold G. rewrite (OpInter_one_key t i db k); [done|].
    by rewrite Hargs. }
  destruct (Execute_on_collect G cb t shards Hcb (seq 0 n) (skipped_results n))
    as (rs' & Hrun & Hl & Hact & Hidle).
  { apply NoDup_seq. }
  { intros sid Hsid%elem_of_seq. lia. }
  { by rewrite skipped_results_length. }
  { intros sid db _ _ Hne. rewrite Hargs in Hne.
    destruct (filter_image_single _ _ Hinj sid) as [Hnil|(k & _ & _ & Hk)];
      [done|].
    by rewrite (Hone sid db k Hk). }
  rewrite skipped_results_length in Hl.
  assert (Hrs : forall i db, shards !! i = Some db ->
    (filter (fun k => Shard hash k n = i) keys = [] ->
     rs' !! i = Some (mkOpResult SKIPPED []))
    ∧ (forall k, filter (fun k => Shard hash k n = i) keys = [k] ->
       rs' !! i = Some (one db k))).
  { intros i db Hdb.
    assert (Hlt : (i < n)%nat) by by eapply lookup_lt_Some.
    assert (Hin : i ∈ seq 0 n) by (apply elem_of_seq; lia).
    split.
    - intros Hnil. rewrite Hidle by (right; by rewrite Hargs).
      by apply lookup_replicate_2.
    - intros k Hk.
      destruct (Hact i db Hin) as (o & Ho & Hrs'); [by rewrite Hargs, Hk|done|].
      rewrite (Hone i db k Hk) in Ho. injection Ho as <-. done. }
  assert (Hlook : forall k db, shards !! Shard hash k n = Some db ->
            stored hash cntx k = db !! (ind, k)).
  { intros k db Hdb. unfold stored. fold shards n.
    change (hash k mod n)%nat with (Shard hash k n). by rewrite Hdb. }
  assert (Hkey : forall k, k ∈ keys ->
    exists db, shards !! Shard hash k n = Some db
      ∧ rs' !! Shard hash k n = Some (one db k)).
  { intros k Hk.
    assert (Hlt : (Shard hash k n < n)%nat).
    { unfold Shard. apply Nat.mod_upper_bound. unfold n. by destruct shards. }
    destruct (lookup_lt_is_Some_2 shards _ Hlt) as [db Hdb].
    exists db. split; [done|].
    destruct (filter_image_single _ _ Hinj (Shard hash k n))
      as [Hnil|(k' & _ & _ & Hk')].
    - assert (Hin : k ∈ filter (fun k0 => Shard hash k0 n = Shard hash k n) keys)
        by by apply list_elem_of_filter.
      rewrite Hnil in Hin. by apply elem_of_nil in Hin.
    - assert (Hin : k ∈ filter (fun k0 => Shard hash k0 n = Shard hash k n) keys)
        by by apply list_elem_of_filter.
      rewrite Hk' in Hin. apply list_elem_of_singleton in Hin as ->.
      by apply (Hrs _ db Hdb). }
  assert (Hres : forall i res, rs' !! i = Some res ->
    (ShardArgsInShard hash t i = [] ∧ res = mkOpResult SKIPPED [])
    ∨ exists k db, ShardArgsInShard hash t i = [k] ∧ k ∈ keys
        ∧ shards !! Shard hash k n = Some db ∧ res = one db k).
  { intros i res Hi.
    assert (Hlt : (i < n)%nat) by (rewrite <- Hl; by eapply lookup_lt_Some).
    destruct (lookup_lt_is_Some_2 shards _ Hlt) as [db Hdb].
    destruct (Hrs i db Hdb) as [Hnone Hsome]. rewrite Hargs.
    destruct (filter_image_single _ _ Hinj i) as [Hnil|(k & Hk & Hki & Hone')].
    - left. rewrite (Hnone Hnil) in Hi. injection Hi as <-. done.
    - right. exists k, db. rewrite (Hsome k Hone') in Hi. injection Hi as <-.
      by rewrite Hki. }
  assert (Hhop : SInter NDEBUG hash args cntx
    = if is_ok (InterResultVec rs' (unique_shard_cnt hash t)) then
        Done (after_single_hop cntx Cb_inter shards
                (SendStringArr
                   (script_sorted cntx
                      (value (InterResultVec rs' (unique_shard_cnt hash t))))))
      else
        Done (after_single_hop cntx Cb_inter shards
                (SendError
                   (StatusError
                      (status (InterResultVec rs' (unique_shard_cnt hash t))))))).
  { unfold SInter, ScheduleSingleHop, Execute. fold t cb.
    change (shard_set (Schedule cntx)) with shards.
    change (shard_set_size t) with n. rewrite Hrun.
    cbn [mbind Outcome_bind].
    by destruct (is_ok (InterResultVec rs' (unique_shard_cnt hash t))). }
  assert (Hset : forall k db r, shards !! Shard hash k n = Some db ->
            stored hash cntx k = Some (CoSet r) -> one db k = ResultOf (members r)).
  { intros k db r Hdb Hst. rewrite (Hlook k db Hdb) in Hst.
    unfold one, Find. by rewrite Hst. }
  assert (Hnone : forall k db, shards !! Shard hash k n = Some db ->
            stored hash cntx k = None -> one db k = mkOpResult KEY_NOTFOUND []).
  { intros k db Hdb Hst. rewrite (Hlook k db Hdb) in Hst.
    unfold one, Find. by rewrite Hst. }
  assert (Hother : forall k db co, shards !! Shard hash k n = Some db ->
            stored hash cntx k = Some co -> ObjTypeOf co <> OBJ_SET ->
            one db k = mkOpResult WRONG_TYPE []).
  { intros k db co Hdb Hst Hty. rewrite (Hlook k db Hdb) in Hst.
    unfold one, Find. rewrite Hst. by rewrite bool_decide_eq_false_2 by done. }
  split_and!.
  - intros Hall.
    assert (Hstat : forall i res, rs' !! i = Some res ->
      (ShardArgsInShard hash t i = [] ∧ res = mkOpResult SKIPPED [])
      ∨ exists k r, ShardArgsInShard hash t i = [k] ∧ k ∈ keys
          ∧ stored hash cntx k = Some (CoSet r) ∧ res = ResultOf (members r)).
    { intros i res Hi.
      destruct (Hres i res Hi) as [?|(k & db & Hik & Hk & Hdb & ->)]; [by left|].
      right. destruct (Hall k Hk) as [r Hr]. exists k, r.
      split_and!; [done|done|done|]. by apply Hset. }
    assert (Hff : first_failure rs' = None).
    { unfold first_failure. rewrite find_none_all; [done|].
      intros res (i & Hi)%list_elem_of_lookup_1.
      by destruct (Hstat i res Hi) as [[_ ->]|(k & r & _ & _ & _ & ->)]. }
    assert (Hcontr : forall c', c' ∈ contributions rs' <->
      exists k r, k ∈ keys ∧ stored hash cntx k = Some (CoSet r)
                  ∧ c' = members r).
    { intros c'. unfold contributions.
      rewrite list_elem_of_fmap. split.
      - intros (res & -> & [Hsk (i & Hi)%list_elem_of_lookup_1]%list_elem_of_filter).
        destruct (Hstat i res Hi) as [[_ ->]|(k & r & _ & Hk & Hr & ->)];
          [done|].
        by exists k, r.
      - intros (k & r & Hk & Hr & ->).
        destruct (Hkey k Hk) as (db & Hdb & Hi).
        exists (ResultOf (members r)). split; [done|].
        apply list_elem_of_filter. split; [done|].
        rewrite (Hset k db r Hdb Hr) in Hi. by eapply list_elem_of_lookup_2. }
    assert (Hcount : unique_shard_cnt hash t
                     = Z.of_nat (length (contributions rs'))).
    { unfold unique_shard_cnt, contributions. rewrite length_fmap. f_equal.
      change (shard_set_size t) with n. rewrite <- Hl. symmetry.
      apply filter_length_index. intros i res Hi. simpl.
      destruct (Hstat i res Hi) as [[-> ->]|(k & r & -> & _ & _ & ->)];
        simpl; split; done. }
    destruct (contributions rs') as [|c rest] eqn:Hc.
    { exfalso. destruct keys as [|k ks] eqn:Ek; [done|].
      destruct (Hall k) as [r Hr]; [by left|].
      assert (Hin : members r ∈ @nil StringVec).
      { apply Hcontr. exists k, r. split_and!; [by left|done|done]. }
      by apply elem_of_nil in Hin. }
    assert (Hnd : Forall NoDup (c :: rest)).
    { apply Forall_forall. intros c' (k & r & Hk & Hr & ->)%Hcontr.
      destruct (Hkey k Hk) as (db & Hdb & _).
      apply set_wf_NoDup. rewrite (Hlook k db Hdb) in Hr.
      rewrite Forall_forall in Hwf.
      eapply (Hwf db); [by eapply list_elem_of_lookup_2|done]. }
    assert (Hlt : Z.of_nat (length (c :: rest)) < UINT32_MOD).
    { rewrite <- Hcount. unfold unique_shard_cnt.
      change (shard_set_size t) with n.
      pose proof (length_filter
                    (fun sid => ShardArgsInShard hash t sid <> []) (seq 0 n)) as Hle.
      rewrite length_seq in Hle. lia. }
    destruct (InterResultVec_all rs' c rest Hff Hc Hnd Hlt) as (I1 & I2 & I3).
    rewrite <- Hcount in I1, I2, I3.
    exists (value (InterResultVec rs' (unique_shard_cnt hash t))).
    split_and!; [|done|].
    + rewrite Hhop. unfold is_ok. by rewrite I1.
    + intros s. rewrite I3. split.
      * intros Hin k r Hk Hr. apply Hin. apply Hcontr. by exists k, r.
      * intros Hin c' (k & r & Hk & Hr & ->)%Hcontr. by eapply Hin.
  - intros (k0 & Hk0 & Hmiss) Hsets.
    assert (Hres0 : InterResultVec rs' (unique_shard_cnt hash t) = ResultOf []).
    { apply InterResultVec_loop_notfound.
      - apply Forall_forall. intros res (i & Hi)%list_elem_of_lookup_1.
        apply status_in_three.
        destruct (Hres i res Hi) as [[_ ->]|(k & db & _ & Hk & Hdb & ->)];
          [by right; left|].
        destruct (stored hash cntx k) as [co|] eqn:Hst.
        + pose proof (Hsets k co Hk Hst) as Hty.
          destruct co as [|?|r]; try done.
          rewrite (Hset k db r Hdb Hst). by left.
        + rewrite (Hnone k db Hdb Hst). by right; right.
      - destruct (Hkey k0 Hk0) as (db & Hdb & Hi).
        rewrite (Hnone k0 db Hdb Hmiss) in Hi.
        eexists. split; [by eapply list_elem_of_lookup_2|done]. }
    rewrite Hhop, Hres0. simpl. unfold script_sorted.
    destruct (script_info cntx); [|done]. by rewrite sort_strings_nil.
  - intros (k0 & co0 & Hk0 & Hco0 & Hty0) Hsome.
    assert (Hres0 : InterResultVec rs' (unique_shard_cnt hash t)
                    = mkOpResult WRONG_TYPE []).
    { apply InterResultVec_loop_wrong.
      - apply Forall_forall. intros res (i & Hi)%list_elem_of_lookup_1.
        apply status_in_three.
        destruct (Hres i res Hi) as [[_ ->]|(k & db & _ & Hk & Hdb & ->)];
          [by right; left|].
        destruct (Hsome k Hk) as [co Hst].
        destruct (decide (ObjTypeOf co = OBJ_SET)) as [Hty|Hty].
        + destruct co as [|?|r]; try done.
          rewrite (Hset k db r Hdb Hst). by left.
        + rewrite (Hother k db co Hdb Hst Hty). by right; right.
      - destruct (Hkey k0 Hk0) as (db & Hdb & Hi).
        rewrite (Hother k0 db co0 Hdb Hco0 Hty0) in Hi.
        eexists. split; [by eapply list_elem_of_lookup_2|done]. }
    by rewrite Hhop, Hres0.
Qed.

End SeveralKeys.

(** ** SMOVE between two shards *)

Section MoveBetweenShards.

Variable NDEBUG : bool.
Variable hash : string -> nat.
Variable set_max_intset_entries : Z.

Lemma OpFind_key_dest (db : DbSlice) (db_ind : DbIndex) (m : Mover) :
  dest_ m <> src_ m ->
  OpFind_key db db_ind m (dest_ m)
  = mkMover (src_ m) (dest_ m) (member_ m) (found_0 m)
      (mkOpResult (find_status (Find db db_ind (dest_ m) OBJ_SET)) false).
Proof.
  intros Hne. unfold OpFind_key. rewrite bool_decide_eq_false_2 by done.
  by destruct (Find db db_ind (dest_ m) OBJ_SET).
Qed.

Lemma OpFind_key_source (db : DbSlice) (db_ind : DbIndex) (m : Mover) :
  OpFind_key db db_ind m (src_ m)
  = mkMover (src_ m) (dest_ m) (member_ m) (source_found db db_ind m)
      (found_1 m).
Proof.
  unfold OpFind_key, source_found. rewrite bool_decide_eq_true_2 by done.
  by destruct (Find db db_ind (src_ m) OBJ_SET).
Qed.

Lemma if_elem_of_cons_ne {A} (x y : nat) (l : list nat) (a b : A) :
  x <> y ->
  (if decide (x ∈ y :: l) then a else b) = (if decide (x ∈ l) then a else b).
Proof.
  intros Hne. destruct (decide (x ∈ l)) as [Hin|Hin].
  - rewrite decide_True; [done|by right].
  - rewrite decide_False; [done|]. by intros [?|?]%elem_of_cons.
Qed.

(** The hop of [Mover::OpFind] with the two keys on two shards: the shard
    of the source records what it finds in [found_[0]], the shard of the
    destination in [found_[1]], and no dictionary changes. *)
Lemma Execute_on_OpFind_two (t : Transaction) (shards : list DbSlice)
    (db_s db_d : DbSlice) (sids : list ShardId) :
  forall m : Mover,
  key_args t = [src_ m; dest_ m] ->
  let ss := Shard hash (src_ m) (shard_set_size t) in
  let sd := Shard hash (dest_ m) (shard_set_size t) in
  ss <> sd ->
  shards !! ss = Some db_s ->
  shards !! sd = Some db_d ->
  Execute_on hash (Mover_OpFind NDEBUG hash) t sids shards m
  = Done (shards,
          mkMover (src_ m) (dest_ m) (member_ m)
            (if decide (ss ∈ sids) then source_found db_s (db_index t) m
             else found_0 m)
            (if decide (sd ∈ sids)
             then mkOpResult
                    (find_status (Find db_d (db_index t) (dest_ m) OBJ_SET))
                    false
             else found_1 m)).
Proof.
  induction sids as [|sid rest IH]; intros m Hkeys ss sd Hne Hs Hd.
  - rewrite !decide_False by (by intros ?%elem_of_nil). simpl. by destruct m.
  - assert (Hkne : dest_ m <> src_ m).
    { intros Heq. apply Hne. unfold ss, sd. by rewrite Heq. }
    simpl. rewrite (ShardArgsInShard_two hash t _ _ sid Hkeys). fold ss sd.
    destruct (decide (ss = sid)) as [Hss|Hss].
    + rewrite decide_False by congruence. subst sid. simpl. rewrite Hs.
      unfold Mover_OpFind.
      rewrite (ShardArgsInShard_two hash t _ _ ss Hkeys). fold ss sd.
      rewrite decide_True by done. rewrite decide_False by congruence.
      simpl. rewrite (DCHECK_passes NDEBUG) by by right. simpl.
      rewrite list_insert_id by done.
      rewrite OpFind_key_source.
      rewrite IH; [|done|done|done|done]. simpl.
      rewrite (decide_True (P := ss ∈ ss :: rest)) by by left.
      rewrite (if_elem_of_cons_ne sd ss) by congruence.
      fold ss sd. by destruct (decide (ss ∈ rest)).
    + destruct (decide (sd = sid)) as [Hsd|Hsd].
      * subst sid. simpl. rewrite Hd. unfold Mover_OpFind.
        rewrite (ShardArgsInShard_two hash t _ _ sd Hkeys). fold ss sd.
        rewrite decide_False by done. rewrite decide_True by done.
        simpl. rewrite (DCHECK_passes NDEBUG) by by right. simpl.
        rewrite list_insert_id by done.
        rewrite OpFind_key_dest by done.
        rewrite IH; [|done|done|done|done]. simpl.
        rewrite (decide_True (P := sd ∈ sd :: rest)) by by left.
        rewrite (if_elem_of_cons_ne ss sd) by congruence.
        fold ss sd. by destruct (decide (sd ∈ rest)).
      * simpl. rewrite IH by done.
        rewrite (if_elem_of_cons_ne ss sid) by congruence.
        by rewrite (if_elem_of_cons_ne sd sid) by congruence.
Qed.

(** The hop of [Mover::OpMutate] with the two keys on two shards, when the
    source holds the member. *)
Lemma Execute_on_OpMutate_two (t : Transaction) (shards : list DbSlice)
    (db_s db_d : DbSlice) (m : Mover) :
  key_args t = [src_ m; dest_ m] ->
  shard_set_size t = length shards ->
  let ss := Shard hash (src_ m) (shard_set_size t) in
  let sd := Shard hash (dest_ m) (shard_set_size t) in
  ss <> sd ->
  shards !! ss = Some db_s ->
  shards !! sd = Some db_d ->
  value (snd (OpRem db_s (db_index t) (src_ m) [member_ m])) = 1 ->
  Execute_on hash (Mover_OpMutate NDEBUG hash set_max_intset_entries) t
    (seq 0 (shard_set_size t)) shards m
  = Done (<[sd := fst (OpAdd set_max_intset_entries db_d (db_index t)
                         (dest_ m) [member_ m] false)]>
            (<[ss := fst (OpRem db_s (db_index t) (src_ m) [member_ m])]>
               shards),
          m).
Proof.
  intros Hkeys Hsize ss sd Hne Hs Hd Hone.
  assert (Hkne : src_ m <> dest_ m).
  { intros Heq. apply Hne. unfold ss, sd. by rewrite Heq. }
  assert (Hargs : forall i, ShardArgsInShard hash t i
    = if decide (i = ss) then [src_ m]
      else if decide (i = sd) then [dest_ m] else []).
  { intros i. rewrite (ShardArgsInShard_two hash t _ _ i Hkeys). fold ss sd.
    destruct (decide (i = ss)) as [->|H1].
    - rewrite decide_True by done. by rewrite decide_False by (by intros ?).
    - rewrite decide_False by (by intros ?).
      destruct (decide (i = sd)) as [->|H2].
      + by rewrite decide_True by done.
      + by rewrite decide_False by (by intros ?). }
  set (f := fun (i : ShardId) (db : DbSlice) =>
    if decide (i = ss)
    then fst (OpRem db (db_index t) (src_ m) [member_ m])
    else fst (OpAdd set_max_intset_entries db (db_index t) (dest_ m)
                [member_ m] false)).
  destruct (Execute_on_local hash
              (Mover_OpMutate NDEBUG hash set_max_intset_entries) t f m
              (seq 0 (shard_set_size t)) shards)
    as (shards' & Hex & Hl).
  { apply NoDup_seq. }
  { intros i db _ Hi Hnonempty. rewrite Hargs in Hnonempty. unfold f.
    destruct (decide (i = ss)) as [->|H1].
    - rewrite Mover_OpMutate_src by by rewrite Hargs, decide_True.
      assert (db = db_s) as -> by congruence. by rewrite Hone.
    - destruct (decide (i = sd)) as [->|H2]; [|done].
      apply Mover_OpMutate_dest; [done|].
      rewrite Hargs, decide_False by (by intros ?). by rewrite decide_True. }
  rewrite Hex. f_equal. f_equal.
  assert (Hin : forall i db, shards !! i = Some db ->
                  i ∈ seq 0 (shard_set_size t)).
  { intros i db Hi. apply elem_of_seq. apply lookup_lt_Some in Hi. lia. }
  apply list_eq. intros i. rewrite Hl.
  destruct (decide (i = sd)) as [Hi|H2].
  - rewrite Hi. rewrite list_lookup_insert_eq
      by (rewrite length_insert; by eapply lookup_lt_Some).
    rewrite decide_True.
    + rewrite Hd. simpl. unfold f. by rewrite decide_False by (by intros ?).
    + split; [by eapply Hin|]. rewrite Hargs.
      rewrite decide_False by (by intros ?). by rewrite decide_True.
  - rewrite list_lookup_insert_ne by done.
    destruct (decide (i = ss)) as [Hi|H1].
    + rewrite Hi. rewrite list_lookup_insert_eq by by eapply lookup_lt_Some.
      rewrite decide_True.
      * rewrite Hs. simpl. unfold f. by rewrite decide_True.
      * split; [by eapply Hin|]. rewrite Hargs. by rewrite decide_True.
    + rewrite list_lookup_insert_ne by done.
      rewrite decide_False; [done|]. intros [_ Hnonempty].
      rewrite Hargs in Hnonempty. by rewrite !decide_False in Hnonempty.
Qed.

(** X26. SMOVE with its two keys on two shards. If the source or the
    destination holds a value that is no set, the reply is the wrong-type
    error; if the source is absent or does not hold the member, the reply
    is 0; in both cases the hop of [OpFind] is followed by a concluding hop
    that does nothing, and no dictionary changes. Otherwise the reply is 1
    after a concluding hop of [OpMutate], by which the dictionary of the
    source becomes that of [OpRem] of the member and the dictionary of the
    destination that of [OpAdd] of the member, no other dictionary
    changing; the assertions of the two hops hold in every build. *)
Theorem SMove_reply (args : list string) (cntx : ConnectionContext)
    (db_s db_d : DbSlice) :
  length args = 4%nat ->
  let src := ArgS args 1 in
  let dest := ArgS args 2 in
  let member := ArgS args 3 in
  let ind := conn_db_index cntx in
  let ss := Shard hash src (length (shard_set cntx)) in
  let sd := Shard hash dest (length (shard_set cntx)) in
  ss <> sd ->
  shard_set cntx !! ss = Some db_s ->
  shard_set cntx !! sd = Some db_d ->
  let found := emit (Schedule cntx) (EvExecute Cb_OpFind false) in
  let untouched := emit found (EvExecute NoOpCb true) in
  let moved :=
    emit
      (with_shards found
         (<[sd := fst (OpAdd set_max_intset_entries db_d ind dest [member]
                         false)]>
            (<[ss := fst (OpRem db_s ind src [member])]> (shard_set cntx))))
      (EvExecute Cb_OpMutate true) in
  SMove NDEBUG hash set_max_intset_entries args cntx
  = Done
      match db_s !! (ind, src), db_d !! (ind, dest) with
      | Some (CoSet r), (Some (CoSet _) | None) =>
          if IsMember (CoSet r) member then reply moved (SendLong 1)
          else reply untouched (SendLong 0)
      | None, (Some (CoSet _) | None) => reply untouched (SendLong 0)
      | _, _ => reply untouched (SendError (StatusError WRONG_TYPE))
      end.
Proof.
  intros Hlen src dest member ind ss sd Hne Hs Hd found untouched moved.
  unfold SMove, Mover_Find, Execute.
  set (t := transaction_of cntx 1 2 args).
  set (m := mkMover (ArgS args 1) (ArgS args 2) (ArgS args 3)
              (ResultOf false) (ResultOf false)).
  assert (Hkeys : key_args t = [src_ m; dest_ m]) by by apply KeyArgs_two.
  assert (Hin : forall i db, shard_set cntx !! i = Some db ->
                  i ∈ seq 0 (shard_set_size t)).
  { intros i db Hi. apply elem_of_seq. apply lookup_lt_Some in Hi.
    simpl. lia. }
  rewrite (Execute_on_OpFind_two t (shard_set (Schedule cntx)) db_s db_d
             (seq 0 (shard_set_size t)) m Hkeys Hne Hs Hd).
  rewrite decide_True by (by eapply Hin).
  rewrite decide_True by (by eapply Hin).
  cbn [mbind Outcome_bind]. rewrite with_shards_id. fold found.
  cbn [src_ dest_ member_ m db_index transaction_of t].
  fold src dest member ind.
  set (m1 := mkMover src dest member _ _).
  assert (Hkne : src <> dest).
  { intros Heq. apply Hne. unfold ss, sd. by rewrite Heq. }
  unfold Mover_Commit, Commit_decision.
  cbn [found_0 found_1 m1 status].
  unfold source_found, Find. cbn [src_ dest_ member_ m].
  fold src dest member.
  destruct (db_d !! (ind, dest)) as [[|sdst|rd]|] eqn:Hdst;
    destruct (db_s !! (ind, src)) as [[|ssrc|rs]|] eqn:Hsrc;
    cbn [ObjTypeOf]; try (rewrite !(bool_decide_eq_false_2 (_ = OBJ_SET)) by done);
    try (rewrite !(bool_decide_eq_true_2 (OBJ_SET = OBJ_SET)) by done);
    cbn [find_status status ResultOf];
    try (rewrite (bool_decide_eq_true_2 (WRONG_TYPE = WRONG_TYPE)) by done);
    rewrite ?orb_true_r; cbn [orb];
    try (rewrite !(bool_decide_eq_false_2 (_ = WRONG_TYPE)) by done);
    cbn [orb];
    try (by rewrite Execute_NoOp).
  all: unfold value_or, is_ok; cbn [status value ResultOf].
  all: try (rewrite (bool_decide_eq_false_2 (KEY_NOTFOUND = OK)) by done;
            cbn [negb]; by rewrite Execute_NoOp).
  all: rewrite (bool_decide_eq_true_2 (OK = OK)) by done.
  all: destruct (IsMember (CoSet rs) member) eqn:Hmem; cbn [negb];
    [|by rewrite Execute_NoOp].
  all: rewrite (bool_decide_eq_false_2 (src_ m1 = dest_ m1)) by done.
  all: unfold Execute.
  all: rewrite (Execute_on_OpMutate_two t (shard_set found) db_s db_d m1
                  Hkeys eq_refl Hne Hs Hd)
    by (eapply (OpRem_of_member db_s ind src member (CoSet rs));
        [unfold Find; rewrite Hsrc; by rewrite bool_decide_eq_true_2|done]).
  all: done.
Qed.

End MoveBetweenShards.

(** ** SDIFF *)

Section Difference.

Variable NDEBUG : bool.
Variable hash : string -> nat.

(** With nothing in the slot of the source shard, nothing is left to
    return. *)
Lemma DiffResultVec_of_nothing (rs : ResultStringVec) (src_shard : ShardId) :
  (forall r, rs !! src_shard = Some r -> value r = []) ->
  ((exists res, res ∈ rs ∧ status res = WRONG_TYPE) ->
   DiffResultVec rs src_shard = mkOpResult WRONG_TYPE [])
  ∧ ((forall res, res ∈ rs -> status res <> WRONG_TYPE) ->
     DiffResultVec rs src_shard = ResultOf []).
Proof.
  intros Hsrc. unfold DiffResultVec. split.
  - intros (res & Hin & Hst).
    destruct (List.find _ rs) as [res'|] eqn:Hfind.
    + apply find_some in Hfind as [_ Hst'%bool_decide_eq_true].
      by rewrite Hst'.
    + apply list_elem_of_In in Hin.
      pose proof (find_none _ _ Hfind _ Hin) as Hf. simpl in Hf.
      by apply bool_decide_eq_false in Hf.
  - intros Hall. destruct (List.find _ rs) as [res'|] eqn:Hfind.
    { apply find_some in Hfind as [Hin%list_elem_of_In Hst'%bool_decide_eq_true].
      by apply Hall in Hin. }
    assert (Hnil : match rs !! src_shard with
                   | Some r => value r
                   | None => []
                   end = []).
    { destruct (rs !! src_shard) as [r|]; [by apply Hsrc|done]. }
    rewrite Hnil. simpl. f_equal.
    generalize (imap (fun i res => (i, res)) rs). intros l.
    induction l as [|[i res] l IH]; simpl; [done|].
    destruct (i =? src_shard)%nat; [done|].
    destruct (is_ok res); [|done].
    assert (Herase : fold_left erase (value res) [] = []).
    { generalize (value res). intros vs.
      induction vs as [|v vs IHv]; [done|]. simpl. exact IHv. }
    by rewrite Herase.
Qed.

Lemma OpUnion_loop_wrong_inv (db : DbSlice) (db_ind : DbIndex)
    (keys : list string) :
  forall uniques : StringSet,
  status (OpUnion_loop db db_ind keys uniques) = WRONG_TYPE ->
  exists k co, k ∈ keys ∧ db !! (db_ind, k) = Some co
               ∧ ObjTypeOf co <> OBJ_SET.
Proof.
  induction keys as [|key rest IH]; intros u; simpl; [done|].
  assert (Hrest : forall u', status (OpUnion_loop db db_ind rest u') = WRONG_TYPE ->
    exists k co, k ∈ key :: rest ∧ db !! (db_ind, k) = Some co
                 ∧ ObjTypeOf co <> OBJ_SET).
  { intros u' (k & co & Hk & Hco)%IH. exists k, co. split; [by right|done]. }
  unfold Find. destruct (db !! (db_ind, key)) as [co|] eqn:Hkey; [|apply Hrest].
  destruct (bool_decide (ObjTypeOf co = OBJ_SET)) eqn:Hty; [apply Hrest|].
  intros _. exists key, co. split_and!; [by left|done|].
  by apply bool_decide_eq_false in Hty.
Qed.

(** X27. SDIFF looks at the type of its first key and of the keys that
    live on other shards than the first key: if one of them holds a value
    that is no set, the reply is the wrong-type error. In every other case
    the reply is an empty array, whatever the sets hold: the subtraction
    on the shard of the first key is compiled out, so that shard
    contributes no member. No dictionary changes, and no assertion of the
    command fails. *)
Theorem SDiff_reply (args : list string) (cntx : ConnectionContext) :
  (2 <= length args)%nat ->
  let keys := drop 1 args in
  let src := ArgS args 1 in
  let n := length (shard_set cntx) in
  let looked_at (k : string) :=
    k = src ∨ (k ∈ keys ∧ Shard hash k n <> Shard hash src n) in
  ((exists k co, looked_at k ∧ stored hash cntx k = Some co
                 ∧ ObjTypeOf co <> OBJ_SET) ->
   SDiff NDEBUG hash args cntx
   = Done (after_single_hop cntx Cb_diff (shard_set cntx)
             (SendError (StatusError WRONG_TYPE))))
  ∧ ((forall k co, looked_at k -> stored hash cntx k = Some co ->
        ObjTypeOf co = OBJ_SET) ->
     SDiff NDEBUG hash args cntx
     = Done (after_single_hop cntx Cb_diff (shard_set cntx)
               (SendStringArr []))).
Proof.
  intros Hlen keys src n looked_at.
  set (shards := shard_set cntx).
  set (t := transaction_of cntx 1 (-1) args).
  set (ss := Shard hash src n).
  set (ind := conn_db_index cntx).
  assert (Hkeys : keys = src :: drop 2 args).
  { unfold keys, src, ArgS.
    destruct args as [|cmd [|a rest]]; simpl in Hlen; [lia|lia|done]. }
  assert (Hargs : forall i, ShardArgsInShard hash t i
                            = filter (fun k => Shard hash k n = i) keys).
  { intros i. unfold ShardArgsInShard, t, transaction_of. simpl.
    by rewrite KeyArgs_all. }
  assert (Hfront : ShardArgsInShard hash t ss
                   = src :: filter (fun k => Shard hash k n = ss) (drop 2 args)).
  { rewrite Hargs, Hkeys, filter_cons. by rewrite decide_True. }
  set (slot := fun (i : ShardId) (db : DbSlice) =>
    if (i =? ss)%nat then
      match Find db ind src OBJ_SET with
      | FindFailed st => mkOpResult st []
      | FindOk _ => ResultOf []
      end
    else OpUnion_loop db ind (filter (fun k => Shard hash k n = i) keys) []).
  set (G := fun (i : ShardId) (db : DbSlice) =>
    Done (Some (slot i db)) : Outcome (option (OpResult StringVec))).
  set (cb := fun (t : Transaction) (shard : ShardId) (db : DbSlice)
                 (result_set : ResultStringVec) =>
    let largs := ShardArgsInShard hash t shard in
    if (shard =? ss)%nat then
      CHECK "src_key == largs.front()" (bool_decide (head largs = Some src));;
      r ← OpDiff NDEBUG hash t shard db;
      Done (db, <[shard := r]> result_set)
    else
      r ← OpUnion NDEBUG db (db_index t) largs;
      Done (db, <[shard := r]> result_set)).
  assert (Hcb : forall sid db rs,
    ShardArgsInShard hash t sid <> [] ->
    cb t sid db rs
    = o ← G sid db;
      Done (db, match o with Some r => <[sid := r]> rs | None => rs end)).
  { intros sid db rs Hne. unfold cb, G, slot. cbn [mbind Outcome_bind].
    destruct (sid =? ss)%nat eqn:Hsid.
    - apply Nat.eqb_eq in Hsid. subst sid. rewrite Hfront. simpl.
      rewrite bool_decide_eq_true_2 by done. simpl.
      unfold OpDiff. rewrite Hfront.
      rewrite (DCHECK_passes NDEBUG) by (right; done). simpl.
      fold ind. by destruct (Find db ind src OBJ_SET).
    - rewrite OpUnion_nonempty by done. simpl. by rewrite Hargs. }
  destruct (Execute_on_collect hash G cb t shards Hcb (seq 0 n)
              (skipped_results n)) as (rs' & Hrun & Hl & Hact & Hidle).
  { apply NoDup_seq. }
  { intros sid Hsid%elem_of_seq. unfold n, shards in *. lia. }
  { by rewrite skipped_results_length. }
  { done. }
  rewrite skipped_results_length in Hl.
  assert (Hslots : forall i val, rs' !! i = Some val ->
    val = mkOpResult SKIPPED []
    ∨ exists db, shards !! i = Some db
        ∧ filter (fun k => Shard hash k n = i) keys <> []
        ∧ val = slot i db).
  { intros i val Hi.
    assert (Hlt : (i < n)%nat) by (rewrite <- Hl; by eapply lookup_lt_Some).
    destruct (decide (filter (fun k => Shard hash k n = i) keys = []))
      as [Hnil|Hne].
    - left. rewrite Hidle in Hi by (right; by rewrite Hargs).
      unfold skipped_results in Hi. apply lookup_replicate in Hi as [-> _]. done.
    - right. destruct (lookup_lt_is_Some_2 shards i Hlt) as [db Hdb].
      destruct (Hact i db) as (o & Ho & Hi').
      { apply elem_of_seq. lia. }
      { by rewrite Hargs. }
      { done. }
      unfold G in Ho. injection Ho as <-. rewrite Hi in Hi'.
      injection Hi' as ->. by exists db. }
  assert (Hactive : forall i db, shards !! i = Some db ->
    filter (fun k => Shard hash k n = i) keys <> [] ->
    rs' !! i = Some (slot i db)).
  { intros i db Hdb Hne. destruct (Hact i db) as (o & Ho & Hi').
    { apply elem_of_seq. apply lookup_lt_Some in Hdb. unfold n, shards in *. lia. }
    { by rewrite Hargs. }
    { done. }
    unfold G in Ho. by injection Ho as <-. }
  assert (Hsrc : forall r, rs' !! ss = Some r -> value r = []).
  { intros r [-> |(db & _ & _ & ->)]%Hslots; [done|].
    unfold slot. rewrite Nat.eqb_refl. by destruct (Find db ind src OBJ_SET). }
  destruct (DiffResultVec_of_nothing rs' ss Hsrc) as [Hwrong Hfine].
  assert (Hhop : SDiff NDEBUG hash args cntx
    = if negb (is_ok (DiffResultVec rs' ss)) then
        Done (after_single_hop cntx Cb_diff shards
                (SendError (StatusError (status (DiffResultVec rs' ss)))))
      else
        Done (after_single_hop cntx Cb_diff shards
                (SendStringArr
                   (script_sorted cntx (value (DiffResultVec rs' ss)))))).
  { unfold SDiff, ScheduleSingleHop, Execute. fold t.
    rewrite skipped_results_length.
    change (shard_set_size t) with n. fold src ss. fold cb.
    change (shard_set (Schedule cntx)) with shards. rewrite Hrun.
    cbn [mbind Outcome_bind]. by destruct (negb (is_ok (DiffResultVec rs' ss))). }
  assert (Hstored : forall k db, shards !! Shard hash k n = Some db ->
            stored hash cntx k = db !! (ind, k)).
  { intros k db Hdb. unfold stored, Shard, n, shards, ind in *.
    by rewrite Hdb. }
  split.
  - intros (k & co & Hk & Hco & Hty). rewrite Hhop, Hwrong; [done|].
    assert (Hdb : exists db, shards !! Shard hash k n = Some db
                             ∧ db !! (ind, k) = Some co).
    { unfold stored in Hco. unfold Shard, n, shards, ind.
      destruct (shard_set cntx !! _) as [db|]; [|done]. by exists db. }
    destruct Hdb as (db & Hdb & Hkey).
    destruct Hk as [-> |[Hk Hother]].
    + exists (slot ss db). split.
      * eapply list_elem_of_lookup_2. apply Hactive; [done|].
        rewrite <- Hargs, Hfront. done.
      * unfold slot. rewrite Nat.eqb_refl. unfold Find. rewrite Hkey.
        by rewrite bool_decide_eq_false_2 by done.
    + exists (slot (Shard hash k n) db). split.
      * eapply list_elem_of_lookup_2. apply Hactive; [done|].
        intros Hnil.
        assert (Hin : k ∈ filter (fun k' => Shard hash k' n = Shard hash k n) keys)
          by by apply list_elem_of_filter.
        rewrite Hnil in Hin. by apply elem_of_nil in Hin.
      * unfold slot. fold ss. rewrite (proj2 (Nat.eqb_neq _ _)) by done.
        rewrite OpUnion_loop_wrong; [done|]. exists k, co.
        split_and!; [by apply list_elem_of_filter|done|done].
  - intros Hsets. rewrite Hhop, Hfine.
    { simpl. unfold script_sorted. destruct (script_info cntx); [|done].
      by rewrite sort_strings_nil. }
    intros res (i & Hi)%list_elem_of_lookup_1 Hst.
    destruct (Hslots i res Hi) as [-> |(db & Hdb & Hne & ->)]; [done|].
    unfold slot in Hst. destruct (i =? ss)%nat eqn:His.
    + apply Nat.eqb_eq in His. subst i.
      unfold Find in Hst.
      destruct (db !! (ind, src)) as [co|] eqn:Hkey; [|done].
      destruct (bool_decide (ObjTypeOf co = OBJ_SET)) eqn:Hty; [done|].
      apply bool_decide_eq_false in Hty. apply Hty.
      apply (Hsets src co); [by left|]. by rewrite (Hstored src db).
    + apply Nat.eqb_neq in His.
      apply OpUnion_loop_wrong_inv in Hst as (k & co & [Hki Hk]%list_elem_of_filter & Hco & Hty).
      apply Hty. apply (Hsets k co).
      * right. split; [done|]. fold ss. by rewrite Hki.
      * rewrite (Hstored k db); [done|]. by rewrite Hki.
Qed.

(** *** SDIFFSTORE *)

Variable set_max_intset_entries : Z.

Lemma args_dest_src (args : list string) :
  (3 <= length args)%nat ->
  drop 1 args = ArgS args 1 :: drop 2 args
  ∧ drop 2 args = ArgS args 2 :: drop 3 args.
Proof.
  intros Hlen.
  destruct args as [|cmd [|dest [|src rest]]]; simpl in *; try lia. done.
Qed.

(** X28. SDIFFSTORE looks at the type of one key on the shard of its
    first source (the destination if it lives there too, the first source
    if not) and of the sources that live on other shards: if one of them
    holds a value that is no set, the reply is the wrong-type error after
    a concluding hop that does nothing, and no dictionary changes. In
    every other case the difference it stores is empty, whatever the sets
    hold: the destination is deleted, no other entry of any dictionary
    changes, and the reply is 0. No assertion of the command fails. *)
Theorem SDiffStore_reply (args : list string) (cntx : ConnectionContext)
    (db_dest : DbSlice) :
  (3 <= length args)%nat ->
  let dest := ArgS args 1 in
  let src := ArgS args 2 in
  let sources := drop 2 args in
  let n := length (shard_set cntx) in
  let sd := Shard hash dest n in
  let ss := Shard hash src n in
  let first_hop := emit (Schedule cntx) (EvExecute Cb_diff false) in
  shard_set cntx !! sd = Some db_dest ->
  let looked_at (k : string) :=
    k = (if decide (ss = sd) then dest else src)
    ∨ (k ∈ sources ∧ Shard hash k n <> ss) in
  ((exists k co, looked_at k ∧ stored hash cntx k = Some co
                 ∧ ObjTypeOf co <> OBJ_SET) ->
   SDiffStore NDEBUG hash set_max_intset_entries args cntx
   = Done (reply (emit first_hop (EvExecute NoOpCb true))
             (SendError (StatusError WRONG_TYPE))))
  ∧ ((forall k co, looked_at k -> stored hash cntx k = Some co ->
        ObjTypeOf co = OBJ_SET) ->
     SDiffStore NDEBUG hash set_max_intset_entries args cntx
     = Done (reply
               (emit
                  (with_shards first_hop
                     (<[sd := delete (conn_db_index cntx, dest) db_dest]>
                        (shard_set cntx)))
                  (EvExecute Cb_store true))
               (SendLong 0))).
Proof.
  intros Hlen dest src sources n sd ss first_hop Hdest looked_at.
  set (shards := shard_set cntx) in *.
  set (t := transaction_of cntx 1 (-1) args).
  set (ind := conn_db_index cntx).
  destruct (args_dest_src args Hlen) as [Hdrop1 Hdrop2].
  fold dest in Hdrop1. fold src in Hdrop2. fold sources in Hdrop1, Hdrop2.
  assert (Hkeys : key_args t = dest :: sources).
  { unfold t, transaction_of. simpl. by rewrite KeyArgs_all. }
  assert (Hargs : forall i, ShardArgsInShard hash t i
    = (if decide (sd = i) then [dest] else [])
      ++ filter (fun k => Shard hash k n = i) sources).
  { intros i. unfold ShardArgsInShard. rewrite Hkeys. simpl.
    rewrite filter_cons. fold shards n sd. by destruct (decide (sd = i)). }
  assert (Hfront : filter (fun k => Shard hash k n = ss) sources
                   = src :: filter (fun k => Shard hash k n = ss) (drop 3 args)).
  { rewrite Hdrop2, filter_cons. by rewrite decide_True. }
  set (find_slot := fun (db : DbSlice) (k : string) =>
    match Find db ind k OBJ_SET with
    | FindFailed st => mkOpResult st ([] : StringVec)
    | FindOk _ => ResultOf []
    end).
  set (slot := fun (i : ShardId) (db : DbSlice) =>
    let ks := filter (fun k => Shard hash k n = i) sources in
    if decide (ks = []) then None
    else if (i =? ss)%nat
         then Some (find_slot db (if decide (ss = sd) then dest else src))
         else Some (OpUnion_loop db ind ks [])).
  set (G := fun (i : ShardId) (db : DbSlice) =>
    Done (slot i db) : Outcome (option (OpResult StringVec))).
  set (cb := SDiffStore_diff_cb NDEBUG hash dest src sd ss).
  assert (Hcb : forall sid db rs,
    ShardArgsInShard hash t sid <> [] ->
    cb t sid db rs
    = o ← G sid db;
      Done (db, match o with Some r => <[sid := r]> rs | None => rs end)).
  { intros sid db rs Hne. unfold cb, SDiffStore_diff_cb, G, slot.
    rewrite (DCHECK_passes NDEBUG)
      by (right; by rewrite bool_decide_eq_false_2).
    cbn [mbind Outcome_bind].
    assert (Hdiff : forall front rest,
      ShardArgsInShard hash t sid = front :: rest ->
      OpDiff NDEBUG hash t sid db = Done (find_slot db front)).
    { intros front rest Hfr. unfold OpDiff. rewrite Hfr.
      rewrite (DCHECK_passes NDEBUG) by (right; done). simpl. unfold find_slot.
      fold ind. by destruct (Find db ind front OBJ_SET). }
    rewrite Hargs in Hne. destruct (Nat.eqb_spec sid sd) as [-> |Hneq].
    - rewrite Hargs. rewrite decide_True by done. cbn [app head drop].
      rewrite (bool_decide_eq_true_2 (Some dest = Some dest) eq_refl).
      simpl CHECK. cbn [mbind Outcome_bind].
      destruct (decide (filter (fun k => Shard hash k n = sd) sources = []))
        as [Hnil|Hn].
      + by rewrite bool_decide_eq_true_2 by done.
      + rewrite bool_decide_eq_false_2 by done.
        destruct (Nat.eqb_spec sd ss) as [Heq|Hneq].
        * assert (Hfront' : filter (fun k => Shard hash k n = sd) sources
                   = src :: filter (fun k => Shard hash k n = sd) (drop 3 args))
            by (rewrite Heq; exact Hfront).
          rewrite Hfront'. cbn [head].
          rewrite (bool_decide_eq_true_2 (Some src = Some src) eq_refl).
          simpl CHECK. cbn [mbind Outcome_bind].
          rewrite (Hdiff dest (filter (fun k => Shard hash k n = sd) sources))
            by (rewrite Hargs; by rewrite decide_True).
          cbn [mbind Outcome_bind]. rewrite decide_True by done. done.
        * rewrite OpUnion_nonempty by done. done.
    - rewrite Hargs. rewrite decide_False in * by done. cbn [app] in *.
      cbn [mbind Outcome_bind]. rewrite decide_False by done.
      destruct (Nat.eqb_spec sid ss) as [-> |Hneq'].
      + rewrite Hfront. cbn [head].
        rewrite (bool_decide_eq_true_2 (Some src = Some src) eq_refl).
        simpl CHECK. cbn [mbind Outcome_bind].
        rewrite (Hdiff src (filter (fun k => Shard hash k n = ss) (drop 3 args)))
          by (rewrite Hargs, decide_False by done; by rewrite Hfront).
        cbn [mbind Outcome_bind]. rewrite decide_False by done. done.
      + rewrite OpUnion_nonempty by done. done. }
  destruct (Execute_on_collect hash G cb t shards Hcb (seq 0 n)
              (skipped_results n)) as (rs' & Hrun & Hl & Hact & Hidle).
  { apply NoDup_seq. }
  { intros sid Hsid%elem_of_seq. unfold n in *. lia. }
  { by rewrite skipped_results_length. }
  { done. }
  rewrite skipped_results_length in Hl.
  assert (Hskip : forall i val, skipped_results n !! i = Some val ->
                    val = mkOpResult SKIPPED []).
  { intros i val Hi. unfold skipped_results in Hi.
    by apply lookup_replicate in Hi as [-> _]. }
  assert (Hslots : forall i val, rs' !! i = Some val ->
    val = mkOpResult SKIPPED []
    ∨ exists db, shards !! i = Some db ∧ slot i db = Some val).
  { intros i val Hi.
    assert (Hlt : (i < n)%nat) by (rewrite <- Hl; by eapply lookup_lt_Some).
    destruct (decide (ShardArgsInShard hash t i = [])) as [Hnil|Hne].
    - left. rewrite Hidle in Hi by by right. by eapply Hskip.
    - destruct (lookup_lt_is_Some_2 shards i Hlt) as [db Hdb].
      destruct (Hact i db) as (o & Ho & Hi'); [apply elem_of_seq; lia|done|done|].
      unfold G in Ho. injection Ho as <-. rewrite Hi in Hi'.
      destruct (slot i db) as [r|] eqn:Hslot.
      + right. exists db. split; [done|]. by rewrite Hi'.
      + left. symmetry in Hi'. by eapply Hskip. }
  assert (Hactive : forall i db val, shards !! i = Some db ->
    slot i db = Some val -> rs' !! i = Some val).
  { intros i db val Hdb Hslot. destruct (Hact i db) as (o & Ho & Hi').
    { apply elem_of_seq. apply lookup_lt_Some in Hdb. unfold n, shards in *. lia. }
    { rewrite Hargs. unfold slot in Hslot.
      destruct (decide (filter (fun k => Shard hash k n = i) sources = []));
        [done|].
      intros Happ. by apply app_eq_nil in Happ as [_ ?]. }
    { done. }
    unfold G in Ho. injection Ho as <-. by rewrite Hslot in Hi'. }
  assert (Hsrc : forall r, rs' !! ss = Some r -> value r = []).
  { intros r [-> |(db & _ & Hslot)]%Hslots; [done|].
    unfold slot in Hslot. cbv zeta in Hslot.
    destruct (decide (filter (fun k => Shard hash k n = ss) sources = []));
      [done|].
    rewrite Nat.eqb_refl in Hslot. injection Hslot as <-.
    unfold find_slot. by destruct (Find db ind _ OBJ_SET). }
  destruct (DiffResultVec_of_nothing rs' ss Hsrc) as [Hwrong Hfine].
  assert (Hhop : SDiffStore NDEBUG hash set_max_intset_entries args cntx
    = SDiffStore_conclude hash set_max_intset_entries t dest sd ss first_hop rs').
  { unfold SDiffStore, Execute. fold t. rewrite skipped_results_length.
    change (shard_set_size t) with n. fold dest src sd ss cb.
    change (shard_set (Schedule cntx)) with shards. rewrite Hrun.
    cbn [mbind Outcome_bind]. done. }
  assert (Hstored : forall k db, shards !! Shard hash k n = Some db ->
            stored hash cntx k = db !! (ind, k)).
  { intros k db Hdb. unfold stored. unfold Shard, n, shards, ind in *.
    by rewrite Hdb. }
  assert (Hlooked : Shard hash (if decide (ss = sd) then dest else src) n = ss).
  { destruct (decide (ss = sd)) as [Heq|_]; [by rewrite Heq|done]. }
  split.
  - intros (k & co & Hk & Hco & Hty). rewrite Hhop.
    assert (Hw : DiffResultVec rs' ss = mkOpResult WRONG_TYPE []).
    { apply Hwrong.
      assert (Hdb : exists db, shards !! Shard hash k n = Some db
                               ∧ db !! (ind, k) = Some co).
      { unfold stored in Hco. unfold Shard, n, shards, ind.
        destruct (shard_set cntx !! _) as [db|]; [|done]. by exists db. }
      destruct Hdb as (db & Hdb & Hkey).
      destruct Hk as [-> |[Hk Hother]].
      - rewrite Hlooked in Hdb.
        exists (find_slot db (if decide (ss = sd) then dest else src)). split.
        + eapply list_elem_of_lookup_2. eapply Hactive; [done|].
          unfold slot. rewrite decide_False by (by rewrite Hfront).
          by rewrite Nat.eqb_refl.
        + unfold find_slot, Find. rewrite Hkey.
          by rewrite bool_decide_eq_false_2 by done.
      - exists (OpUnion_loop db ind
                  (filter (fun k' => Shard hash k' n = Shard hash k n) sources) []).
        assert (Hin : k ∈ filter (fun k' => Shard hash k' n = Shard hash k n)
                          sources)
          by by apply list_elem_of_filter.
        split.
        + eapply list_elem_of_lookup_2. eapply Hactive; [done|].
          unfold slot. rewrite decide_False.
          * by rewrite (proj2 (Nat.eqb_neq _ _)) by done.
          * intros Hnil. rewrite Hnil in Hin. by apply elem_of_nil in Hin.
        + rewrite OpUnion_loop_wrong; [done|]. by exists k, co. }
    rewrite SDiffStore_conclude_error by by rewrite Hw. by rewrite Hw.
  - intros Hsets. rewrite Hhop.
    assert (Hok : DiffResultVec rs' ss = ResultOf []).
    { apply Hfine. intros res (i & Hi)%list_elem_of_lookup_1 Hst.
      destruct (Hslots i res Hi) as [-> |(db & Hdb & Hslot)]; [done|].
      unfold slot in Hslot. cbv zeta in Hslot.
      destruct (decide (filter (fun k => Shard hash k n = i) sources = []))
        as [|Hne]; [done|].
      destruct (i =? ss)%nat eqn:His; injection Hslot as <-.
      - apply Nat.eqb_eq in His. subst i.
        unfold find_slot, Find in Hst.
        destruct (db !! (ind, if decide (ss = sd) then dest else src))
          as [co|] eqn:Hkey; [|done].
        destruct (bool_decide (ObjTypeOf co = OBJ_SET)) eqn:Hty; [done|].
        apply bool_decide_eq_false in Hty. apply Hty.
        apply (Hsets (if decide (ss = sd) then dest else src) co); [by left|].
        rewrite (Hstored _ db); [done|]. by rewrite Hlooked.
      - apply Nat.eqb_neq in His.
        apply OpUnion_loop_wrong_inv in Hst
          as (k & co & [Hki Hk]%list_elem_of_filter & Hco & Hty).
        apply Hty. apply (Hsets k co).
        + right. split; [done|]. by rewrite Hki.
        + rewrite (Hstored k db); [done|]. by rewrite Hki. }
    unfold SDiffStore_conclude. rewrite Hok.
    change (negb (is_ok (ResultOf ([] : StringSet)))) with false. cbv iota.
    change (value (ResultOf ([] : StringSet))) with ([] : StringSet).
    change (ToSvArray []) with ([] : list string).
    set (f := fun (sid : ShardId) (db : DbSlice) =>
                if (sid =? sd)%nat
                then fst (OpAdd set_max_intset_entries db (db_index t) dest [] true)
                else db).
    destruct (Execute_on_local hash (store_cb set_max_intset_entries sd dest [])
                t f () (seq 0 n) shards) as (shards' & Hstore & Hshards').
    { apply NoDup_seq. }
    { intros sid db _ _ _. unfold store_cb, f.
      destruct (sid =? sd)%nat; [|done]. by destruct (OpAdd _ _ _ _ _ _). }
    unfold Execute. change (shard_set_size t) with n.
    change (shard_set first_hop) with shards. rewrite Hstore.
    cbn [mbind Outcome_bind]. do 4 f_equal.
    apply list_eq. intros i. rewrite Hshards'.
    destruct (decide (i = sd)) as [-> |Hne].
    + rewrite list_lookup_insert_eq by by eapply lookup_lt_Some.
      rewrite decide_True.
      * rewrite Hdest. simpl. unfold f. rewrite Nat.eqb_refl. f_equal.
        by apply (OpAdd_overwrite_result set_max_intset_entries).
      * split.
        -- apply elem_of_seq. apply lookup_lt_Some in Hdest. unfold n. lia.
        -- rewrite Hargs. by rewrite decide_True.
    + rewrite list_lookup_insert_ne by done.
      destruct (decide (i ∈ seq 0 n ∧ ShardArgsInShard hash t i <> []));
        [|done].
      unfold f. rewrite (proj2 (Nat.eqb_neq i sd)) by done.
      by destruct (shards !! i).
Qed.

End Difference.

(** ** SINTERSTORE *)

Section StoredIntersection.

Variable NDEBUG : bool.
Variable hash : string -> nat.
Variable set_max_intset_entries : Z.

(** A counter that is incremented on the shards that [p] selects counts
    them, modulo 2^32. *)
Lemma add32_count (p : ShardId -> bool) (sids : list ShardId) :
  forall c0 : Z,
  0 <= c0 < UINT32_MOD ->
  fold_left (fun c sid => if p sid then add32 c 1 else c) sids c0
  = (c0 + Z.of_nat (length (filter (fun sid => p sid = true) sids)))
    mod UINT32_MOD.
Proof.
  induction sids as [|sid sids IH]; intros c0 Hc0; simpl.
  - rewrite Z.add_0_r. by rewrite Z.mod_small.
  - rewrite filter_cons. destruct (p sid) eqn:Hp.
    + rewrite decide_True by done. rewrite IH.
      * unfold add32. rewrite Zplus_mod_idemp_l. f_equal. simpl length. lia.
      * unfold add32. apply Z.mod_pos_bound. done.
    + rewrite decide_False by done. by apply IH.
Qed.

(** A hop whose callback also counts the shards on which it writes a
    result runs like the hop without the counter. *)
Lemma Execute_on_counting
    (G : ShardId -> DbSlice -> Outcome (option (OpResult StringVec)))
    (p : ShardId -> bool) (cb : Callback (ResultStringVec * Z))
    (t : Transaction) (shards : list DbSlice) :
  (forall sid db rs cnt,
     ShardArgsInShard hash t sid <> [] ->
     cb t sid db (rs, cnt)
     = o ← G sid db;
       Done (db, match o with
                 | Some r => (<[sid := r]> rs, add32 cnt 1)
                 | None => (rs, cnt)
                 end)) ->
  forall (sids : list ShardId) (rs : ResultStringVec) (cnt : Z),
  (forall sid db o, sid ∈ sids -> ShardArgsInShard hash t sid <> [] ->
     shards !! sid = Some db -> G sid db = Done o ->
     (is_Some o <-> p sid = true)) ->
  (forall sid, sid ∈ sids ->
     ShardArgsInShard hash t sid = [] ∨ shards !! sid = None ->
     p sid = false) ->
  Execute_on hash cb t sids shards (rs, cnt)
  = '(shards', rs') ←
      Execute_on hash
        (fun t sid db rs =>
           o ← G sid db;
           Done (db, match o with Some r => <[sid := r]> rs | None => rs end))
        t sids shards rs;
    Done (shards',
          (rs', fold_left (fun c sid => if p sid then add32 c 1 else c) sids cnt)).
Proof.
  intros Hcb. induction sids as [|sid sids IH]; intros rs cnt Hp Hn; [done|].
  assert (Hp' : forall s db o, s ∈ sids -> ShardArgsInShard hash t s <> [] ->
            shards !! s = Some db -> G s db = Done o ->
            (is_Some o <-> p s = true))
    by (intros s db o Hs; apply Hp; by right).
  assert (Hn' : forall s, s ∈ sids ->
            ShardArgsInShard hash t s = [] ∨ shards !! s = None -> p s = false)
    by (intros s Hs; apply Hn; by right).
  cbn [Execute_on fold_left].
  destruct (ShardArgsInShard hash t sid) as [|k ks] eqn:Hargs.
  { rewrite (Hn sid); [by apply IH|by left|by left]. }
  destruct (shards !! sid) as [db|] eqn:Hdb.
  2: { rewrite (Hn sid); [by apply IH|by left|by right]. }
  assert (Hne : ShardArgsInShard hash t sid <> []) by by rewrite Hargs.
  rewrite Hcb by done.
  destruct (G sid db) as [o|w] eqn:HG; [|done].
  cbn [mbind Outcome_bind]. rewrite list_insert_id by done.
  pose proof (Hp sid db o (list_elem_of_here _ _) Hne Hdb HG) as Hiff.
  destruct o as [r|].
  - rewrite (proj1 Hiff) by done. by apply IH.
  - destruct (p sid) eqn:Hps; [|by apply IH].
    destruct (proj2 Hiff eq_refl) as [? ?]. done.
Qed.

Lemma OpInter_single (t : Transaction) (sid : ShardId) (db : DbSlice)
    (remove_first : bool) (key : string) :
  (if remove_first then drop 1 (ShardArgsInShard hash t sid)
   else ShardArgsInShard hash t sid) = [key] ->
  OpInter NDEBUG hash t sid db remove_first
  = Done match Find db (db_index t) key OBJ_SET with
         | FindOk co => ResultOf (FillSet co)
         | FindFailed st => mkOpResult st []
         end.
Proof.
  intros Hargs. unfold OpInter. rewrite Hargs. unfold DCHECK.
  destruct NDEBUG; simpl; by destruct (Find _ _ _ _).
Qed.

(** X29. SINTERSTORE on source keys that live on pairwise different
    shards and all hold sets; the destination may live on the shard of a
    source. It computes, each once, the strings that are members of all
    the source sets, replies their number, and changes the dictionary of
    the destination's shard only: the destination is deleted when there
    is no such string, and holds exactly these strings otherwise,
    whatever it held before. No assertion of the command fails. *)
Theorem SInterStore_reply (args : list string) (cntx : ConnectionContext)
    (db_dest : DbSlice) :
  (3 <= length args)%nat ->
  let dest := ArgS args 1 in
  let sources := drop 2 args in
  let n := length (shard_set cntx) in
  let sd := Shard hash dest n in
  let k := (conn_db_index cntx, dest) in
  let first_hop := emit (Schedule cntx) (EvExecute Cb_inter false) in
  shard_set cntx !! sd = Some db_dest ->
  NoDup ((fun k => Shard hash k n) <$> sources) ->
  Forall db_wf (shard_set cntx) ->
  Z.of_nat n < UINT32_MOD ->
  (forall k, k ∈ sources -> exists r, stored hash cntx k = Some (CoSet r)) ->
  exists arr db',
    SInterStore NDEBUG hash set_max_intset_entries args cntx
    = Done (reply
              (emit (with_shards first_hop (<[sd := db']> (shard_set cntx)))
                 (EvExecute Cb_store true))
              (SendLong (Z.of_nat (length arr))))
    ∧ NoDup arr
    ∧ (forall s, s ∈ arr <->
         forall k r, k ∈ sources -> stored hash cntx k = Some (CoSet r) ->
                     s ∈ FillSet (CoSet r))
    ∧ (arr = [] -> db' = delete k db_dest)
    ∧ (arr <> [] ->
       exists r' : SetRepr,
         db' = <[k := CoSet r']> db_dest
         ∧ NoDup (FillSet (CoSet r'))
         ∧ forall s, s ∈ FillSet (CoSet r') <-> s ∈ arr).
Proof.
  intros Hlen dest sources n sd k first_hop Hdest Hinj Hwf Hn Hall.
  set (shards := shard_set cntx) in *.
  set (t := transaction_of cntx 1 (-1) args).
  set (ind := conn_db_index cntx).
  destruct (args_dest_src args Hlen) as [Hdrop1 Hdrop2].
  fold dest sources in Hdrop1. fold sources in Hdrop2.
  assert (Hkeys : key_args t = dest :: sources).
  { unfold t, transaction_of. simpl. by rewrite KeyArgs_all. }
  assert (Hargs : forall i, ShardArgsInShard hash t i
    = (if decide (sd = i) then [dest] else [])
      ++ filter (fun k => Shard hash k n = i) sources).
  { intros i. unfold ShardArgsInShard. rewrite Hkeys. simpl.
    rewrite filter_cons. fold shards n sd. by destruct (decide (sd = i)). }
  set (one := fun (db : DbSlice) (key : string) =>
                match Find db ind key OBJ_SET with
                | FindOk co => ResultOf (FillSet co)
                | FindFailed st => mkOpResult st []
                end).
  set (p := fun (sid : ShardId) =>
              bool_decide (filter (fun k => Shard hash k n = sid) sources <> [])).
  set (G := fun (sid : ShardId) (db : DbSlice) =>
              if decide (filter (fun k => Shard hash k n = sid) sources = [])
              then Done None
              else r ← OpInter NDEBUG hash t sid db (sid =? sd)%nat;
                   Done (Some r)).
  set (cb := SInterStore_inter_cb NDEBUG hash dest sd).
  assert (Hcb : forall sid db rs cnt,
    ShardArgsInShard hash t sid <> [] ->
    cb t sid db (rs, cnt)
    = o ← G sid db;
      Done (db, match o with
                | Some r => (<[sid := r]> rs, add32 cnt 1)
                | None => (rs, cnt)
                end)).
  { intros sid db rs cnt Hne. unfold cb, SInterStore_inter_cb, G.
    rewrite Hargs in Hne. rewrite Hargs.
    destruct (Nat.eqb_spec sid sd) as [Heq|Hneq].
    - rewrite decide_True by done. cbn [app head].
      rewrite (bool_decide_eq_true_2 (Some dest = Some dest) eq_refl).
      simpl CHECK. cbn [mbind Outcome_bind length].
      destruct (filter (fun k => Shard hash k n = sid) sources) as [|k0 ks];
        [done|].
      rewrite decide_False by done. cbn [length Nat.eqb].
      by destruct (OpInter NDEBUG hash t sid db true).
    - rewrite decide_False in * by done. cbn [app] in *.
      cbn [mbind Outcome_bind]. rewrite decide_False by done.
      by destruct (OpInter NDEBUG hash t sid db false). }
  assert (Hone : forall i db k0,
    filter (fun k => Shard hash k n = i) sources = [k0] ->
    G i db = Done (Some (one db k0))).
  { intros i db k0 Hk. unfold G. rewrite Hk. rewrite decide_False by done.
    rewrite (OpInter_single t i db _ k0); [done|].
    rewrite Hargs, Hk. destruct (Nat.eqb_spec i sd) as [Heq|Hneq].
    - by rewrite decide_True.
    - by rewrite decide_False. }
  assert (Hnone : forall i db,
    filter (fun k => Shard hash k n = i) sources = [] -> G i db = Done None).
  { intros i db Hk. unfold G. by rewrite decide_True. }
  set (cb1 := (fun _ sid db rs =>
                 o ← G sid db;
                 Done (db, match o with Some r => <[sid := r]> rs | None => rs end))
              : Callback ResultStringVec).
  assert (Hsplit : Execute_on hash cb t (seq 0 n) shards (skipped_results n, 0)
    = '(shards', rs') ←
        Execute_on hash cb1 t (seq 0 n) shards (skipped_results n);
      Done (shards',
            (rs', fold_left (fun c sid => if p sid then add32 c 1 else c)
                    (seq 0 n) 0))).
  { apply (Execute_on_counting G p cb t shards Hcb).
    - intros sid db o _ _ _ HG. unfold p.
      destruct (filter_image_single _ _ Hinj sid) as [Hnil|(k0 & _ & _ & Hk)].
      + rewrite (Hnone sid db Hnil) in HG. injection HG as <-.
        rewrite bool_decide_eq_false_2 by (by rewrite Hnil; intros ?).
        split; [by intros [? ?]|done].
      + rewrite (Hone sid db k0 Hk) in HG. injection HG as <-.
        rewrite bool_decide_eq_true_2 by by rewrite Hk. split; [done|by eexists].
    - intros sid Hsid%elem_of_seq [Hnil|Hnone'].
      + unfold p. apply bool_decide_eq_false_2. intros Hne. apply Hne.
        rewrite Hargs in Hnil. by apply app_eq_nil in Hnil as [_ ?].
      + apply lookup_ge_None in Hnone'. unfold n in *. lia. }
  destruct (Execute_on_collect hash G cb1 t shards
              (fun sid db rs _ => eq_refl) (seq 0 n) (skipped_results n))
    as (rs' & Hrun & Hl & Hact & Hidle).
  { apply NoDup_seq. }
  { intros sid Hsid%elem_of_seq. unfold n in *. lia. }
  { by rewrite skipped_results_length. }
  { intros sid db _ _ _.
    destruct (filter_image_single _ _ Hinj sid) as [Hnil|(k0 & _ & _ & Hk)].
    - by rewrite (Hnone sid db Hnil).
    - by rewrite (Hone sid db k0 Hk). }
  rewrite skipped_results_length in Hl.
  rewrite Hrun in Hsplit. cbn [mbind Outcome_bind] in Hsplit.
  rewrite add32_count in Hsplit by (unfold UINT32_MOD; lia).
  rewrite Z.add_0_l in Hsplit.
  assert (Hle : (length (filter (fun sid => p sid = true) (seq 0 n)) <= n)%nat).
  { pose proof (length_filter (fun sid => p sid = true) (seq 0 n)) as H.
    by rewrite length_seq in H. }
  rewrite Z.mod_small in Hsplit by lia.
  set (cnt := Z.of_nat (length (filter (fun sid => p sid = true) (seq 0 n)))) in *.
  assert (Hskipped : forall i, (i < n)%nat ->
            skipped_results n !! i = Some (mkOpResult SKIPPED [])).
  { intros i Hi. by apply lookup_replicate_2. }
  assert (Hrs : forall i db, shards !! i = Some db ->
    (filter (fun k => Shard hash k n = i) sources = [] ->
     rs' !! i = Some (mkOpResult SKIPPED []))
    ∧ (forall k0, filter (fun k => Shard hash k n = i) sources = [k0] ->
       rs' !! i = Some (one db k0))).
  { intros i db Hdb.
    assert (Hlt : (i < n)%nat) by by eapply lookup_lt_Some.
    assert (Hin : i ∈ seq 0 n) by (apply elem_of_seq; lia).
    split.
    - intros Hnil.
      destruct (decide (ShardArgsInShard hash t i = [])) as [Hi|Hi].
      + rewrite Hidle by by right. by apply Hskipped.
      + destruct (Hact i db Hin Hi Hdb) as (o & Ho & Hrs').
        rewrite (Hnone i db Hnil) in Ho. injection Ho as <-.
        rewrite Hrs'. by apply Hskipped.
    - intros k0 Hk.
      destruct (Hact i db Hin) as (o & Ho & Hrs'); [|done|].
      { rewrite Hargs, Hk. intros Happ. by apply app_eq_nil in Happ as [_ ?]. }
      rewrite (Hone i db k0 Hk) in Ho. injection Ho as <-. done. }
  assert (Hlook : forall k0 db, shards !! Shard hash k0 n = Some db ->
            stored hash cntx k0 = db !! (ind, k0)).
  { intros k0 db Hdb. unfold stored. unfold Shard, n, shards, ind in *.
    by rewrite Hdb. }
  assert (Hshards : shards <> []).
  { intros Hnil. by rewrite Hnil in Hdest. }
  assert (Hkey : forall k0, k0 ∈ sources ->
    exists db, shards !! Shard hash k0 n = Some db
      ∧ rs' !! Shard hash k0 n = Some (one db k0)).
  { intros k0 Hk.
    assert (Hlt : (Shard hash k0 n < n)%nat).
    { unfold Shard. apply Nat.mod_upper_bound. unfold n. by destruct shards. }
    destruct (lookup_lt_is_Some_2 shards _ Hlt) as [db Hdb].
    exists db. split; [done|].
    assert (Hin : k0 ∈ filter (fun k1 => Shard hash k1 n = Shard hash k0 n) sources)
      by by apply list_elem_of_filter.
    destruct (filter_image_single _ _ Hinj (Shard hash k0 n))
      as [Hnil|(k' & _ & _ & Hk')].
    - rewrite Hnil in Hin. by apply elem_of_nil in Hin.
    - rewrite Hk' in Hin. apply list_elem_of_singleton in Hin as ->.
      by apply (Hrs _ db Hdb). }
  assert (Hset : forall k0 db r, shards !! Shard hash k0 n = Some db ->
            stored hash cntx k0 = Some (CoSet r) ->
            one db k0 = ResultOf (members r)).
  { intros k0 db r Hdb Hst. rewrite (Hlook k0 db Hdb) in Hst.
    unfold one, Find. by rewrite Hst. }
  assert (Hstat : forall i res, rs' !! i = Some res ->
    (p i = false ∧ res = mkOpResult SKIPPED [])
    ∨ exists k0 r, p i = true ∧ k0 ∈ sources
        ∧ stored hash cntx k0 = Some (CoSet r) ∧ res = ResultOf (members r)).
  { intros i res Hi.
    assert (Hlt : (i < n)%nat) by (rewrite <- Hl; by eapply lookup_lt_Some).
    destruct (lookup_lt_is_Some_2 shards _ Hlt) as [db Hdb].
    destruct (Hrs i db Hdb) as [Hno Hsome]. unfold p.
    destruct (filter_image_single _ _ Hinj i) as [Hnil|(k0 & Hk & Hki & Hone')].
    - left. rewrite (Hno Hnil) in Hi. injection Hi as <-.
      split; [|done]. apply bool_decide_eq_false_2. by rewrite Hnil; intros ?.
    - right. destruct (Hall k0 Hk) as [r Hr]. exists k0, r.
      rewrite (Hsome k0 Hone') in Hi. injection Hi as <-.
      split_and!; [by apply bool_decide_eq_true_2; rewrite Hone'|done|done|].
      apply Hset; [|done]. by rewrite Hki. }
  assert (Hff : first_failure rs' = None).
  { unfold first_failure. rewrite find_none_all; [done|].
    intros res (i & Hi)%list_elem_of_lookup_1.
    by destruct (Hstat i res Hi) as [[_ ->]|(k0 & r & _ & _ & _ & ->)]. }
  assert (Hcontr : forall c', c' ∈ contributions rs' <->
    exists k0 r, k0 ∈ sources ∧ stored hash cntx k0 = Some (CoSet r)
                 ∧ c' = members r).
  { intros c'. unfold contributions.
    rewrite list_elem_of_fmap. split.
    - intros (res & -> & [Hsk (i & Hi)%list_elem_of_lookup_1]%list_elem_of_filter).
      destruct (Hstat i res Hi) as [[_ ->]|(k0 & r & _ & Hk & Hr & ->)];
        [done|].
      by exists k0, r.
    - intros (k0 & r & Hk & Hr & ->).
      destruct (Hkey k0 Hk) as (db & Hdb & Hi).
      exists (ResultOf (members r)). split; [done|].
      apply list_elem_of_filter. split; [done|].
      rewrite (Hset k0 db r Hdb Hr) in Hi. by eapply list_elem_of_lookup_2. }
  assert (Hcount : cnt = Z.of_nat (length (contributions rs'))).
  { unfold cnt, contributions. rewrite length_fmap. f_equal.
    rewrite <- Hl. symmetry.
    apply filter_length_index. intros i res Hi. simpl.
    destruct (Hstat i res Hi) as [[-> ->]|(k0 & r & -> & _ & _ & ->)];
      simpl; split; done. }
  destruct (contributions rs') as [|c rest] eqn:Hc.
  { exfalso.
    assert (Hsrc : ArgS args 2 ∈ sources) by (rewrite Hdrop2; by left).
    destruct (Hall _ Hsrc) as [r Hr].
    assert (Hin : members r ∈ @nil StringVec).
    { apply Hcontr. by exists (ArgS args 2), r. }
    by apply elem_of_nil in Hin. }
  assert (Hnd : Forall NoDup (c :: rest)).
  { apply Forall_forall. intros c' (k0 & r & Hk & Hr & ->)%Hcontr.
    destruct (Hkey k0 Hk) as (db & Hdb & _).
    apply set_wf_NoDup. rewrite (Hlook k0 db Hdb) in Hr.
    rewrite Forall_forall in Hwf.
    eapply (Hwf db); [by eapply list_elem_of_lookup_2|done]. }
  assert (Hlt : Z.of_nat (length (c :: rest)) < UINT32_MOD).
  { rewrite <- Hcount. unfold cnt. lia. }
  destruct (InterResultVec_all rs' c rest Hff Hc Hnd Hlt) as (I1 & I2 & I3).
  rewrite <- Hcount in I1, I2, I3.
  set (arr := value (InterResultVec rs' cnt)) in *.
  set (f := fun (sid : ShardId) (db : DbSlice) =>
              if (sid =? sd)%nat
              then fst (OpAdd set_max_intset_entries db (db_index t) dest arr true)
              else db).
  destruct (Execute_on_local hash (store_cb set_max_intset_entries sd dest arr)
              t f () (seq 0 n) shards) as (shards' & Hstore & Hshards').
  { apply NoDup_seq. }
  { intros sid db _ _ _. unfold store_cb, f.
    destruct (sid =? sd)%nat; [|done]. by destruct (OpAdd _ _ _ _ _ _). }
  exists arr, (f sd db_dest). split_and!.
  - unfold SInterStore, Execute. fold t. rewrite skipped_results_length.
    change (shard_set_size t) with n. fold dest sd cb.
    change (shard_set (Schedule cntx)) with shards. rewrite Hsplit.
    cbn [mbind Outcome_bind]. rewrite with_shards_id. fold first_hop.
    unfold SInterStore_conclude. unfold is_ok. rewrite I1.
    rewrite (bool_decide_eq_true_2 (OK = OK) eq_refl). cbn [negb].
    unfold Execute. fold arr.
    change (shard_set_size t) with n.
    change (shard_set first_hop) with shards. rewrite Hstore.
    cbn [mbind Outcome_bind]. do 4 f_equal.
    apply list_eq. intros i. rewrite Hshards'.
    destruct (decide (i = sd)) as [-> |Hne].
    + rewrite list_lookup_insert_eq by by eapply lookup_lt_Some.
      rewrite decide_True; [by rewrite Hdest|]. split.
      * apply elem_of_seq. apply lookup_lt_Some in Hdest. unfold n. lia.
      * rewrite Hargs. by rewrite decide_True.
    + rewrite list_lookup_insert_ne by done.
      destruct (decide (i ∈ seq 0 n ∧ ShardArgsInShard hash t i <> []));
        [|done].
      unfold f. rewrite (proj2 (Nat.eqb_neq i sd)) by done.
      by destruct (shards !! i).
  - done.
  - intros s. rewrite I3. split.
    + intros Hin k0 r Hk Hr. apply Hin. apply Hcontr. by exists k0, r.
    + intros Hin c' (k0 & r & Hk & Hr & ->)%Hcontr. by eapply Hin.
  - intros Hnil. unfold f. rewrite Nat.eqb_refl.
    by apply OpAdd_overwrite_result.
  - intros Hne. unfold f. rewrite Nat.eqb_refl.
    by apply OpAdd_overwrite_result.
Qed.

End StoredIntersection.

(** ** SINTER with several keys on one shard *)

Section CrowdedShard.

Variable hash : string -> nat.

(** The combination of results one of which reports a failure. *)
Lemma InterResultVec_loop_on_failure (required : Z) (result_vec : ResultStringVec) :
  Forall (fun res => status res = OK ∨ status res = SKIPPED
                     ∨ status res = KEY_NOTFOUND ∨ status res = WRONG_TYPE)
    result_vec ->
  forall uniques first,
  InterResultVec_loop result_vec required uniques first = ResultOf []
  ∨ InterResultVec_loop result_vec required uniques first
    = mkOpResult WRONG_TYPE []
  ∨ first_failure result_vec = None.
Proof.
  induction 1 as [|res rest Hres Hrest IH]; intros u first;
    [by right; right|].
  cbn [InterResultVec_loop]. unfold first_failure, is_ok. cbn [List.find].
  unfold is_ok.
  destruct Hres as [Hs|[Hs|[Hs|Hs]]]; rewrite Hs; simpl.
  - destruct first; apply IH.
  - apply IH.
  - by left.
  - by right; left.
Qed.

(** [OpInter] in a build without assertions. *)
Lemma OpInter_release (t : Transaction) (sid : ShardId) (db : DbSlice) :
  OpInter true hash t sid db false
  = Done match ShardArgsInShard hash t sid with
         | [front] =>
             match Find db (db_index t) front OBJ_SET with
             | FindFailed st => mkOpResult st []
             | FindOk co => ResultOf (FillSet co)
             end
         | _ => ResultOf []
         end.
Proof.
  unfold OpInter, DCHECK. simpl.
  destruct (ShardArgsInShard hash t sid) as [|front [|k keys]]; try done.
  by destruct (Find db (db_index t) front OBJ_SET).
Qed.

(** X30. SINTER when two or more of its keys live on one shard: the
    intersection on that shard is not implemented. A debug build aborts
    on the fatal log [LOG(DFATAL)] of [OpInter]. A build with [NDEBUG]
    takes the shard to contribute an empty result, so the reply is an
    empty array, or the wrong-type error, whatever the sets hold; no
    dictionary changes. *)
Theorem SInter_colocated (NDEBUG : bool) (args : list string)
    (cntx : ConnectionContext) (crowded : ShardId) :
  let keys := drop 1 args in
  let n := length (shard_set cntx) in
  (crowded < n)%nat ->
  (2 <= length (filter (fun k => Shard hash k n = crowded) keys))%nat ->
  (NDEBUG = false -> SInter NDEBUG hash args cntx = Aborted "TBD")
  ∧ (NDEBUG = true ->
     Forall db_wf (shard_set cntx) ->
     Z.of_nat n < UINT32_MOD ->
     SInter NDEBUG hash args cntx
     = Done (after_single_hop cntx Cb_inter (shard_set cntx) (SendStringArr []))
     ∨ SInter NDEBUG hash args cntx
       = Done (after_single_hop cntx Cb_inter (shard_set cntx)
                 (SendError (StatusError WRONG_TYPE)))).
Proof.
  intros keys n Hcrowded Htwo.
  set (shards := shard_set cntx) in *.
  set (t := transaction_of cntx 1 (-1) args).
  set (ind := conn_db_index cntx).
  assert (Hargs : forall i, ShardArgsInShard hash t i
                            = filter (fun k => Shard hash k n = i) keys).
  { intros i. unfold ShardArgsInShard, t, transaction_of. simpl.
    by rewrite KeyArgs_all. }
  assert (Hactive : ShardArgsInShard hash t crowded <> []).
  { rewrite Hargs. intros Hnil. rewrite Hnil in Htwo. simpl in Htwo. lia. }
  split.
  - intros ->. unfold SInter, ScheduleSingleHop, Execute. fold t.
    change (shard_set (Schedule cntx)) with shards.
    change (shard_set_size t) with n.
    rewrite (Execute_on_aborts hash _ t "TBD" shards crowded);
      [reflexivity| |done| | |].
    + intros sid db rs Hne. unfold OpInter, DCHECK.
      destruct (ShardArgsInShard hash t sid) as [|front [|k ks]] eqn:E;
        [congruence| |].
      * left. rewrite bool_decide_eq_false_2 by done. simpl.
        destruct (Find db _ front OBJ_SET); eexists; reflexivity.
      * right. by rewrite bool_decide_eq_false_2 by done.
    + by apply lookup_lt_is_Some_2.
    + intros db rs. unfold OpInter, DCHECK. rewrite Hargs.
      destruct (filter (fun k => Shard hash k n = crowded) keys)
        as [|front [|k ks]]; simpl in Htwo; [lia|lia|].
      by rewrite bool_decide_eq_false_2 by done.
    + apply elem_of_seq. lia.
  - intros -> Hwf Hn.
    set (slot := fun (i : ShardId) (db : DbSlice) =>
      match filter (fun k => Shard hash k n = i) keys with
      | [front] =>
          match Find db ind front OBJ_SET with
          | FindFailed st => mkOpResult st []
          | FindOk co => ResultOf (FillSet co)
          end
      | _ => ResultOf []
      end).
    set (G := fun (i : ShardId) (db : DbSlice) =>
      Done (Some (slot i db)) : Outcome (option (OpResult StringVec))).
    set (cb := fun (t : Transaction) (shard : ShardId) (db : DbSlice)
                   (result_set : ResultStringVec) =>
                 r ← OpInter true hash t shard db false;
                 Done (db, <[shard := r]> result_set)).
    assert (Hcb : forall sid db rs,
      ShardArgsInShard hash t sid <> [] ->
      cb t sid db rs
      = o ← G sid db;
        Done (db, match o with Some r => <[sid := r]> rs | None => rs end)).
    { intros sid db rs _. unfold cb, G, slot. rewrite OpInter_release.
      by rewrite Hargs. }
    destruct (Execute_on_collect hash G cb t shards Hcb (seq 0 n)
                (skipped_results n)) as (rs' & Hrun & Hl & Hact & Hidle).
    { apply NoDup_seq. }
    { intros sid Hsid%elem_of_seq. unfold n in *. lia. }
    { by rewrite skipped_results_length. }
    { done. }
    rewrite skipped_results_length in Hl.
    assert (Hslots : forall i res, rs' !! i = Some res ->
      (ShardArgsInShard hash t i = [] ∧ res = mkOpResult SKIPPED [])
      ∨ exists db, ShardArgsInShard hash t i <> [] ∧ shards !! i = Some db
          ∧ res = slot i db).
    { intros i res Hi.
      assert (Hlt : (i < n)%nat) by (rewrite <- Hl; by eapply lookup_lt_Some).
      destruct (decide (ShardArgsInShard hash t i = [])) as [Hnil|Hne].
      - left. split; [done|]. rewrite Hidle in Hi by by right.
        unfold skipped_results in Hi. by apply lookup_replicate in Hi as [-> _].
      - right. destruct (lookup_lt_is_Some_2 shards i Hlt) as [db Hdb].
        destruct (Hact i db) as (o & Ho & Hi'); [apply elem_of_seq; lia|done|done|].
        unfold G in Ho. injection Ho as <-. rewrite Hi in Hi'.
        injection Hi' as ->. by exists db. }
    assert (Hstatus : forall i db,
      status (slot i db) = OK ∨ status (slot i db) = KEY_NOTFOUND
      ∨ status (slot i db) = WRONG_TYPE).
    { intros i db. unfold slot, Find.
      destruct (filter (fun k => Shard hash k n = i) keys) as [|front [|k ks]];
        [by left| |by left].
      destruct (db !! (ind, front)) as [co|]; [|by right; left].
      destruct (bool_decide (ObjTypeOf co = OBJ_SET)); [by left|by right; right]. }
    assert (Hhop : SInter true hash args cntx
      = if is_ok (InterResultVec rs' (unique_shard_cnt hash t)) then
          Done (after_single_hop cntx Cb_inter shards
                  (SendStringArr
                     (script_sorted cntx
                        (value (InterResultVec rs' (unique_shard_cnt hash t))))))
        else
          Done (after_single_hop cntx Cb_inter shards
                  (SendError
                     (StatusError
                        (status (InterResultVec rs' (unique_shard_cnt hash t))))))).
    { unfold SInter, ScheduleSingleHop, Execute. fold t cb.
      change (shard_set (Schedule cntx)) with shards.
      change (shard_set_size t) with n. rewrite Hrun.
      cbn [mbind Outcome_bind].
      by destruct (is_ok (InterResultVec rs' (unique_shard_cnt hash t))). }
    assert (Hempty : script_sorted cntx [] = []).
    { unfold script_sorted. destruct (script_info cntx); [|done].
      by rewrite sort_strings_nil. }
    assert (Hall : Forall (fun res => status res = OK ∨ status res = SKIPPED
                       ∨ status res = KEY_NOTFOUND ∨ status res = WRONG_TYPE) rs').
    { apply Forall_forall. intros res (i & Hi)%list_elem_of_lookup_1.
      destruct (Hslots i res Hi) as [[_ ->]|(db & _ & _ & ->)];
        [by right; left|].
      destruct (Hstatus i db) as [?|[?|?]]; tauto. }
    destruct (InterResultVec_loop_on_failure (unique_shard_cnt hash t) rs' Hall [] true)
      as [Hres|[Hres|Hff]].
    { left. rewrite Hhop. unfold InterResultVec. rewrite Hres. simpl.
      by rewrite Hempty. }
    { right. rewrite Hhop. unfold InterResultVec. by rewrite Hres. }
    left.
    destruct (lookup_lt_is_Some_2 shards crowded Hcrowded) as [dbc Hdbc].
    assert (Hslotc : rs' !! crowded = Some (ResultOf [])).
    { destruct (Hact crowded dbc) as (o & Ho & Hi');
        [apply elem_of_seq; lia|done|done|].
      unfold G in Ho. injection Ho as <-. rewrite Hi'. f_equal.
      unfold slot.
      destruct (filter (fun k => Shard hash k n = crowded) keys)
        as [|front [|k ks]]; simpl in Htwo; [done|lia|done]. }
    assert (Hnilc : [] ∈ contributions rs').
    { unfold contributions. apply list_elem_of_fmap. exists (ResultOf []).
      split; [done|]. apply list_elem_of_filter. split; [done|].
      by eapply list_elem_of_lookup_2. }
    assert (Hcount : unique_shard_cnt hash t
                     = Z.of_nat (length (contributions rs'))).
    { unfold unique_shard_cnt, contributions. rewrite length_fmap. f_equal.
      change (shard_set_size t) with n. rewrite <- Hl. symmetry.
      apply filter_length_index. intros i res Hi. simpl.
      destruct (Hslots i res Hi) as [[-> ->]|(db & Hne & _ & ->)]; simpl.
      - split; done.
      - split; [done|]. intros _ Hsk.
        destruct (Hstatus i db) as [?|[?|?]]; congruence. }
    destruct (contributions rs') as [|c rest] eqn:Hc;
      [by apply elem_of_nil in Hnilc|].
    assert (Hnd : Forall NoDup (c :: rest)).
    { rewrite <- Hc. apply Forall_forall. intros c'.
      unfold contributions. rewrite list_elem_of_fmap.
      intros (res & -> & [_ (i & Hi)%list_elem_of_lookup_1]%list_elem_of_filter).
      destruct (Hslots i res Hi) as [[_ ->]|(db & _ & Hdb & ->)];
        [constructor|].
      unfold slot, Find.
      destruct (filter (fun k => Shard hash k n = i) keys) as [|front [|k ks]];
        [constructor| |constructor].
      destruct (db !! (ind, front)) as [co|] eqn:Hco; [|constructor].
      destruct co as [|s|r]; simpl; try constructor.
      apply set_wf_NoDup. rewrite Forall_forall in Hwf.
      eapply (Hwf db); [by eapply list_elem_of_lookup_2|done]. }
    assert (Hlt : Z.of_nat (length (c :: rest)) < UINT32_MOD).
    { rewrite <- Hcount. unfold unique_shard_cnt.
      change (shard_set_size t) with n.
      pose proof (length_filter
                    (fun sid => ShardArgsInShard hash t sid <> []) (seq 0 n)) as Hle.
      rewrite length_seq in Hle. lia. }
    destruct (InterResultVec_all rs' c rest Hff Hc Hnd Hlt) as (I1 & I2 & I3).
    rewrite <- Hcount in I1, I3.
    assert (Hval : value (InterResultVec rs' (unique_shard_cnt hash t)) = []).
    { destruct (value (InterResultVec rs' (unique_shard_cnt hash t)))
        as [|s l] eqn:Hv; [done|].
      assert (Hs : s ∈ @nil string).
      { apply (proj1 (I3 s)); [by left|done]. }
      by apply elem_of_nil in Hs. }
    rewrite Hhop. unfold is_ok. rewrite I1, Hval.
    rewrite (bool_decide_eq_true_2 (OK = OK) eq_refl). by rewrite Hempty.
Qed.

End CrowdedShard.

Local Open Scope string_scope.

(** ** Examples *)

(** The concrete dictionaries obey the invariants. *)
Ltac entry_invariants :=
  let r := fresh "r" in
  let iset := fresh "iset" in
  intros r; first
    [ intros [= <-];
      split_and!; [split; repeat constructor|discriminate|];
      intros iset [= <-]; by vm_compute
    | discriminate ].

Lemma one_set_invariants (max : Z) :
  3 <= max ->
  let db : DbSlice := {[ (0%nat, "s") := CoSet (kEncodingIntSet [1; 2; 3]) ]} in
  db_wf db ∧ db_bounded max db ∧ db_nonempty db.
Proof.
  intros Hmax. apply (db_invariants_insert max ∅); [apply db_invariants_empty|].
  intros r [= <-]. split_and!; [split; repeat constructor|discriminate|].
  intros iset [= <-]. unfold max_entries, intsetLen.
  change (2 ^ 16)%Z with 65536%Z. change (Z.of_nat (length [1; 2; 3]%Z)) with 3%Z.
  destruct (65536 <=? max)%Z; lia.
Qed.

Lemma one_shard_invariants :
  Forall (fun db => db_wf db ∧ db_bounded 512 db ∧ db_nonempty db) one_shard.
Proof.
  unfold one_shard. constructor; [|constructor].
  apply db_invariants_insert; [|entry_invariants].
  apply db_invariants_insert; [|entry_invariants].
  apply (db_invariants_insert 512 ∅); [|entry_invariants].
  apply db_invariants_empty.
Qed.

Lemma three_shards_invariants :
  Forall (fun db => db_wf db ∧ db_bounded 512 db ∧ db_nonempty db) three_shards.
Proof.
  unfold three_shards. constructor; [|constructor; [|constructor; [|constructor]]].
  - apply (db_invariants_insert 512 ∅); [|entry_invariants].
    apply db_invariants_empty.
  - apply (db_invariants_insert 512 ∅); [|entry_invariants].
    apply db_invariants_empty.
  - apply db_invariants_empty.
Qed.

Lemma two_shards_invariants :
  Forall (fun db => db_wf db ∧ db_bounded 512 db ∧ db_nonempty db) two_shards.
Proof.
  unfold two_shards. constructor; [|constructor; [|constructor]].
  - apply (db_invariants_insert 512 ∅); [|entry_invariants].
    apply db_invariants_empty.
  - apply (db_invariants_insert 512 ∅); [|entry_invariants].
    apply db_invariants_empty.
Qed.

Lemma one_shard_wf : db_wf (default ∅ (one_shard !! 0%nat)).
Proof. by destruct (Forall_inv one_shard_invariants) as [? _]. Qed.

Lemma one_shard_nonempty : db_nonempty (default ∅ (one_shard !! 0%nat)).
Proof. by destruct (Forall_inv one_shard_invariants) as (_ & _ & ?). Qed.

Lemma one_shard_routes (key : string) :
  shard_set (context_of one_shard)
    !! Shard String.length key (length (shard_set (context_of one_shard)))
  = Some (default ∅ (one_shard !! 0%nat)).
Proof.
  unfold Shard. change (length (shard_set (context_of one_shard))) with 1%nat.
  by rewrite Nat.mod_1_r.
Qed.

Lemma IsMember_FillSet_witness :
  (IsMember (CoSet (kEncodingIntSet [1; 2; 3])) "2" = true
   <-> "2" ∈ FillSet (CoSet (kEncodingIntSet [1; 2; 3])))
  ∧ NoDup (FillSet (CoSet (kEncodingIntSet [1; 2; 3])))
  ∧ Size (CoSet (kEncodingIntSet [1; 2; 3])) = 3.
Proof.
  exact (IsMember_FillSet (kEncodingIntSet [1; 2; 3]) "2"
           ltac:(split; repeat constructor)).
Defined.

Lemma ConvertTo_keeps_listing_witness :
  let upgraded := CoSet (kEncodingStrMap (ConvertTo [-1; 5; 10] CreateFlatSet)) in
  "-1" ∈ FillSet upgraded
  ∧ ~ "7" ∈ FillSet upgraded
  ∧ Size upgraded = 3
  ∧ NoDup (FillSet upgraded).
Proof.
  intros upgraded.
  destruct (ConvertTo_keeps_listing [-1; 5; 10] ltac:(decide_concrete))
    as (_ & Hmem & Hsize & Hnd).
  split_and!; [| |exact Hsize|exact Hnd].
  - apply Hmem. exists (-1). split; [decide_concrete|reflexivity].
  - intros (z & Hz & Heq)%Hmem.
    repeat (apply elem_of_cons in Hz as [-> |Hz]);
      [discriminate Heq..|by apply elem_of_nil in Hz].
Defined.

Lemma OpAdd_flatset_count_witness :
  let db : DbSlice := {[ (0%nat, "s") := CoSet (kEncodingStrMap ["a"; "b"]) ]} in
  exists fs' : FlatSet,
    OpAdd 512 db 0 "s" ["7"; "a"; "7"] false
    = (<[(0%nat, "s") := CoSet (kEncodingStrMap fs')]> db, ResultOf 1)
    ∧ "7" ∈ fs'
    ∧ length fs' = 3%nat.
Proof.
  intros db.
  destruct (OpAdd_flatset_count 512 db 0 "s" ["7"; "a"; "7"] ["a"; "b"])
    as (fs' & H1 & _ & H3 & H4).
  - reflexivity.
  - decide_concrete.
  - reflexivity.
  - exists fs'. split_and!; [exact H1| |exact H4]. apply H3. right.
    decide_concrete.
Defined.

Lemma mutations_touch_one_key_witness :
  let db : DbSlice :=
    <[(0%nat, "a") := CoSet (kEncodingIntSet [1; 2; 3])]>
      {[ (0%nat, "b") := CoSet (kEncodingIntSet [2; 3; 4]) ]} in
  fst (OpRem db 0 "a" ["1"; "2"; "3"]) !! (0%nat, "b") = db !! (0%nat, "b")
  ∧ fst (OpPop db 0 "a" 2) !! (1%nat, "a") = None.
Proof.
  intros db. split.
  - refine (proj1 (proj2 (mutations_touch_one_key 0 db 0 "a" ["1"; "2"; "3"]
                            false 0 (0%nat, "b") _))).
    discriminate.
  - refine (proj2 (proj2 (mutations_touch_one_key 0 db 0 "a" [] false 2
                            (1%nat, "a") _))).
    discriminate.
Defined.

Lemma OpAdd_keeps_invariants_witness :
  let db : DbSlice := {[ (0%nat, "s") := CoSet (kEncodingIntSet [1; 2; 3]) ]} in
  let db' := fst (OpAdd 4 db 0 "s" ["4"; "5"; "x"] false) in
  db' !! (0%nat, "s")
  = Some (CoSet (kEncodingStrMap ["1"; "2"; "3"; "4"; "5"; "x"]))
  ∧ db_wf db' ∧ db_bounded 4 db' ∧ db_nonempty db'.
Proof.
  intros db. split; [reflexivity|].
  destruct (one_set_invariants 4) as (Hwf & Hb & Hne); [lia|].
  apply (OpAdd_keeps_invariants 4 db 0 "s" ["4"; "5"; "x"] false);
    [by left|exact Hwf|exact Hb|exact Hne].
Defined.

Lemma OpRem_keeps_invariants_witness :
  let db : DbSlice := {[ (0%nat, "s") := CoSet (kEncodingIntSet [1; 2; 3]) ]} in
  let db' := fst (OpRem db 0 "s" ["3"; "1"; "2"]) in
  db' !! (0%nat, "s") = None
  ∧ db_wf db' ∧ db_bounded 4 db' ∧ db_nonempty db'.
Proof.
  intros db. split; [reflexivity|].
  destruct (one_set_invariants 4) as (Hwf & Hb & Hne); [lia|].
  apply (OpRem_keeps_invariants 4 db 0 "s" ["3"; "1"; "2"]);
    [exact Hwf|exact Hb|exact Hne].
Defined.

Lemma OpPop_keeps_invariants_witness :
  let db : DbSlice := {[ (0%nat, "s") := CoSet (kEncodingIntSet [1; 2; 3]) ]} in
  let db' := fst (OpPop db 0 "s" 2) in
  db' !! (0%nat, "s") = Some (CoSet (kEncodingIntSet [1]))
  ∧ db_wf db' ∧ db_bounded 4 db' ∧ db_nonempty db'.
Proof.
  intros db. split; [reflexivity|].
  destruct (one_set_invariants 4) as (Hwf & Hb & Hne); [lia|].
  apply (OpPop_keeps_invariants 4 db 0 "s" 2);
    [exact Hwf|exact Hb|exact Hne].
Defined.

Lemma OpRem_undoes_OpAdd_witness :
  let db : DbSlice := {[ (0%nat, "k") := CoString "string" ]} in
  snd (OpAdd 2 db 0 "s" ["1"; "2"; "1"; "x"] false) = ResultOf 3
  ∧ OpRem (fst (OpAdd 2 db 0 "s" ["1"; "2"; "1"; "x"] false)) 0 "s"
      ["1"; "2"; "1"; "x"]
    = (db, ResultOf 3).
Proof.
  intros db.
  apply (OpRem_undoes_OpAdd 2 db 0 "s" ["1"; "2"; "1"; "x"]); reflexivity.
Defined.

Lemma OpAdd_then_IsMember_witness :
  let db : DbSlice := {[ (0%nat, "s") := CoSet (kEncodingIntSet [1; 2; 3]) ]} in
  exists co,
    Find (fst (OpAdd 512 db 0 "s" ["9"; "x"] false)) 0 "s" OBJ_SET = FindOk co
    ∧ IsMember co "x" = true
    ∧ IsMember co "2" = true.
Proof.
  intros db.
  destruct (one_set_invariants 512) as (Hwf & _); [lia|].
  destruct (OpAdd_then_IsMember 512 db 0 "s" ["9"; "x"] false "x" Hwf)
    as (co & Hfind & Hx & Hold).
  - reflexivity.
  - decide_concrete.
  - exists co. split_and!; [exact Hfind|exact Hx|].
    apply (Hold eq_refl (CoSet (kEncodingIntSet [1; 2; 3]))); reflexivity.
Defined.

Lemma OpRem_then_IsMember_witness :
  let db : DbSlice := {[ (0%nat, "s") := CoSet (kEncodingIntSet [1; 2; 3]) ]} in
  (forall co,
     Find (fst (OpRem db 0 "s" ["2"; "x"])) 0 "s" OBJ_SET = FindOk co ->
     IsMember co "2" = false)
  ∧ exists co,
      Find (fst (OpRem db 0 "s" ["2"; "x"])) 0 "s" OBJ_SET = FindOk co
      ∧ IsMember co "3" = true.
Proof.
  intros db.
  destruct (one_set_invariants 512) as (Hwf & _); [lia|].
  destruct (OpRem_then_IsMember db 0 "s" ["2"; "x"] (kEncodingIntSet [1; 2; 3])
              Hwf eq_refl) as [Hgone Hstay].
  split.
  - intros co. apply Hgone. decide_concrete.
  - apply Hstay; [reflexivity|]. decide_concrete.
Defined.

Lemma OpUnion_spec_witness :
  let db : DbSlice := default ∅ (one_shard !! 0%nat) in
  OpUnion false db 0 ["a"; "k"] = Done (mkOpResult WRONG_TYPE [])
  ∧ exists res,
      OpUnion false db 0 ["a"; "missing"; "b"] = Done res
      ∧ NoDup (value res)
      ∧ "4" ∈ value res.
Proof.
  intros db. split.
  - destruct (OpUnion_spec false db 0 ["a"; "k"]) as (res & Hrun & Hwrong & _);
      [discriminate|].
    rewrite Hrun. f_equal. apply Hwrong.
    exists "k", (CoString "string").
    split_and!; [decide_concrete|reflexivity|discriminate].
  - destruct (OpUnion_spec false db 0 ["a"; "missing"; "b"])
      as (res & Hrun & _ & Hok); [discriminate|].
    exists res. split; [exact Hrun|].
    destruct Hok as (_ & Hnd & Hmem).
    + intros k co Hk Hco.
      repeat (apply elem_of_cons in Hk as [-> |Hk]);
        [| |
         |by apply elem_of_nil in Hk];
        vm_compute in Hco; try discriminate; by injection Hco as <-.
    + split; [exact Hnd|]. apply Hmem.
      exists "b", (kEncodingIntSet [2; 3; 4]).
      split_and!; [decide_concrete|reflexivity|decide_concrete].
Defined.

Lemma SCard_reply_witness :
  SCard String.length ["SCARD"; "a"] (context_of one_shard)
  = Done (after_single_hop (context_of one_shard) Cb_single one_shard (SendLong 3))
  ∧ SCard String.length ["SCARD"; "k"] (context_of one_shard)
    = Done (after_single_hop (context_of one_shard) Cb_single one_shard
              (SendError kWrongTypeErr)).
Proof.
  split.
  - exact (SCard_reply String.length ["SCARD"; "a"] (context_of one_shard)
             (default ∅ (one_shard !! 0%nat)) (le_n 2) (one_shard_routes _)).
  - exact (SCard_reply String.length ["SCARD"; "k"] (context_of one_shard)
             (default ∅ (one_shard !! 0%nat)) (le_n 2) (one_shard_routes _)).
Defined.

Lemma SIsMember_reply_witness :
  SIsMember String.length ["SISMEMBER"; "a"; "2"] (context_of one_shard)
  = Done (after_single_hop (context_of one_shard) Cb_single one_shard (SendLong 1)).
Proof.
  destruct (SIsMember_reply String.length ["SISMEMBER"; "a"; "2"]
              (context_of one_shard) (default ∅ (one_shard !! 0%nat)))
    as (b & Hrun & Hb).
  - simpl. lia.
  - apply one_shard_routes.
  - exact one_shard_wf.
  - rewrite Hrun. replace b with true; [reflexivity|]. symmetry. apply Hb.
    exists (kEncodingIntSet [1; 2; 3]). split; [reflexivity|decide_concrete].
Defined.

Lemma SAdd_reply_witness :
  SAdd String.length 512 ["SADD"; "k"; "1"] (context_of one_shard)
  = Done (after_single_hop (context_of one_shard) Cb_single one_shard
            (SendError kWrongTypeErr))
  ∧ exists r',
      SAdd String.length 512 ["SADD"; "a"; "3"; "7"; "7"] (context_of one_shard)
      = Done (after_single_hop (context_of one_shard) Cb_single
                [<[(0%nat, "a") := CoSet r']> (default ∅ (one_shard !! 0%nat))]
                (SendLong 1))
      ∧ "7" ∈ FillSet (CoSet r').
Proof.
  split.
  - refine (proj1 (SAdd_reply String.length 512 ["SADD"; "k"; "1"]
                     (context_of one_shard) (default ∅ (one_shard !! 0%nat))
                     _ (one_shard_routes _) one_shard_wf eq_refl)
              (CoString "string") eq_refl _); [simpl; lia|discriminate].
  - destruct (proj2 (SAdd_reply String.length 512 ["SADD"; "a"; "3"; "7"; "7"]
                       (context_of one_shard) (default ∅ (one_shard !! 0%nat))
                       ltac:(simpl; lia) (one_shard_routes _) one_shard_wf eq_refl)
                ["1"; "2"; "3"]) as (r' & Hrun & _ & Hmem).
    + right. by exists (kEncodingIntSet [1; 2; 3]).
    + exists r'. split; [exact Hrun|]. apply Hmem. right. decide_concrete.
Defined.

Lemma SRem_reply_witness :
  SRem String.length ["SREM"; "missing"; "1"] (context_of one_shard)
  = Done (after_single_hop (context_of one_shard) Cb_single one_shard (SendLong 0))
  ∧ exists r',
      SRem String.length ["SREM"; "a"; "1"; "9"] (context_of one_shard)
      = Done (after_single_hop (context_of one_shard) Cb_single
                [if decide (FillSet (CoSet r') = [])
                 then delete (0%nat, "a") (default ∅ (one_shard !! 0%nat))
                 else <[(0%nat, "a") := CoSet r']> (default ∅ (one_shard !! 0%nat))]
                (SendLong 1))
      ∧ ~ "1" ∈ FillSet (CoSet r')
      ∧ "2" ∈ FillSet (CoSet r').
Proof.
  split.
  - refine (proj1 (SRem_reply String.length ["SREM"; "missing"; "1"]
                     (context_of one_shard) (default ∅ (one_shard !! 0%nat))
                     _ (one_shard_routes _) one_shard_wf eq_refl) eq_refl).
    simpl. lia.
  - destruct (proj2 (proj2 (SRem_reply String.length ["SREM"; "a"; "1"; "9"]
                       (context_of one_shard) (default ∅ (one_shard !! 0%nat))
                       ltac:(simpl; lia) (one_shard_routes _) one_shard_wf eq_refl))
                (kEncodingIntSet [1; 2; 3]) eq_refl) as (r' & Hrun & _ & Hmem).
    exists r'. split_and!; [exact Hrun| |].
    + intros Hin. apply Hmem in Hin as [_ Hno]. apply Hno. decide_concrete.
    + apply Hmem. split; decide_concrete.
Defined.

Lemma SMembers_reply_witness :
  SMembers false String.length ["SMEMBERS"; "a"] (context_of one_shard)
  = Done (after_single_hop (context_of one_shard) Cb_inter one_shard
            (SendStringArr ["1"; "2"; "3"]))
  ∧ SMembers false String.length ["SMEMBERS"; "missing"] (context_of one_shard)
    = Done (after_single_hop (context_of one_shard) Cb_inter one_shard
              (SendStringArr [])).
Proof.
  split.
  - exact (SMembers_reply false String.length ["SMEMBERS"; "a"]
             (context_of one_shard) (default ∅ (one_shard !! 0%nat))
             (le_n 2) (one_shard_routes _)).
  - exact (SMembers_reply false String.length ["SMEMBERS"; "missing"]
             (context_of one_shard) (default ∅ (one_shard !! 0%nat))
             (le_n 2) (one_shard_routes _)).
Defined.

Lemma SPop_reply_witness :
  SPop false String.length decimal_count ["SPOP"; "a"; "x"] (context_of one_shard)
  = Done (reply (context_of one_shard) (SendError kInvalidIntErr))
  ∧ SPop false String.length decimal_count ["SPOP"; "missing"]
      (context_of one_shard)
    = Done (after_single_hop (context_of one_shard) Cb_single one_shard SendNull)
  ∧ exists m,
      SPop false String.length decimal_count ["SPOP"; "a"] (context_of one_shard)
      = Done (after_single_hop (context_of one_shard) Cb_single
                [<[(0%nat, "a") := CoSet (kEncodingIntSet [1; 2])]>
                   (default ∅ (one_shard !! 0%nat))]
                (SendBulkString m))
      ∧ m ∈ ["1"; "2"; "3"].
Proof.
  split_and!.
  - refine (proj1 (SPop_reply false String.length decimal_count
                     ["SPOP"; "a"; "x"] (context_of one_shard)
                     (default ∅ (one_shard !! 0%nat)) _ (one_shard_routes _)
                     one_shard_nonempty) _ eq_refl); simpl; lia.
  - refine (proj1 (proj2 (SPop_reply false String.length decimal_count
                     ["SPOP"; "missing"] (context_of one_shard)
                     (default ∅ (one_shard !! 0%nat)) _ (one_shard_routes _)
                     one_shard_nonempty) 1%nat eq_refl) eq_refl).
    simpl. lia.
  - destruct (proj1 (proj2 (proj2 (proj2 (SPop_reply false String.length
                     decimal_count ["SPOP"; "a"] (context_of one_shard)
                     (default ∅ (one_shard !! 0%nat)) (le_n 2)
                     (one_shard_routes _) one_shard_nonempty) 1%nat eq_refl)))
                (kEncodingIntSet [1; 2; 3]) eq_refl eq_refl)
      as (m & _ & Hin & Hrun).
    exists m. split; [exact Hrun|exact Hin].
Defined.

Ltac in_Register :=
  unfold Register;
  repeat first [apply list_elem_of_here | apply list_elem_of_further].

Lemma Register_readonly_witness :
  exists cntx',
    SUnion false String.length ["SUNION"; "a"; "b"] (context_of one_shard)
    = Done cntx'
    ∧ shard_set cntx' = one_shard.
Proof.
  eexists. split; [reflexivity|].
  apply (Register_readonly false String.length 512 decimal_count
           (CI "SUNION" [CO_READONLY] (-2) 1 (-1) 1 (SUnion false String.length))
           ["SUNION"; "a"; "b"] (context_of one_shard)).
  - in_Register.
  - apply list_elem_of_here.
  - reflexivity.
Defined.

Lemma Register_well_ended_witness :
  well_ended (events (context_of one_shard))
    (events (reply (context_of one_shard) (SendError kInvalidIntErr))).
Proof.
  apply (Register_well_ended false String.length 512 decimal_count
           (CI "SPOP" [CO_WRITE; CO_RANDOM; CO_FAST] (-2) 1 1 1
              (SPop false String.length decimal_count))
           ["SPOP"; "a"; "x"] (context_of one_shard)).
  - in_Register.
  - reflexivity.
Defined.

Lemma Register_completes_witness :
  exists cntx',
    SMove true String.length 512 ["SMOVE"; "a"; "b"; "1"] (context_of one_shard)
    = Done cntx'.
Proof.
  apply (Register_completes true String.length 512 decimal_count
           (CI "SMOVE" [CO_FAST; CO_WRITE] 4 1 2 1 (SMove true String.length 512))
           ["SMOVE"; "a"; "b"; "1"] (context_of one_shard)).
  - in_Register.
  - reflexivity.
  - discriminate.
  - eapply Forall_impl; [exact one_shard_invariants|]. by intros db (_ & _ & ?).
  - by left.
Defined.

Lemma SUnionStore_reply_witness :
  let cntx := context_of two_shards in
  exists arr db',
    SUnionStore false String.length 512 ["SUNIONSTORE"; "dd"; "a"; "bb"] cntx
    = Done (reply
              (emit
                 (with_shards (emit (Schedule cntx) (EvExecute Cb_union false))
                    (<[0%nat := db']> two_shards))
                 (EvExecute Cb_store true))
              (SendLong (Z.of_nat (length arr))))
    ∧ "1" ∈ arr ∧ "4" ∈ arr
    ∧ exists r', db' !! (0%nat, "dd") = Some (CoSet r')
                 ∧ "4" ∈ FillSet (CoSet r').
Proof.
  intros cntx.
  destruct (proj2 (SUnionStore_reply false String.length 512
                     ["SUNIONSTORE"; "dd"; "a"; "bb"] cntx
                     (default ∅ (two_shards !! 0%nat))
                     ltac:(simpl; lia) eq_refl))
    as (arr & db' & Hrun & _ & Hmem & _ & Hstore).
  { intros k co Hk Hco.
    repeat (apply elem_of_cons in Hk as [-> |Hk]);
      [| |by apply elem_of_nil in Hk];
      vm_compute in Hco; by injection Hco as <-. }
  assert (H4 : "4" ∈ arr).
  { apply Hmem. exists "bb", (kEncodingIntSet [2; 3; 4]).
    split_and!; [decide_concrete|reflexivity|decide_concrete]. }
  exists arr, db'. split_and!; [exact Hrun| |exact H4|].
  - apply Hmem. exists "a", (kEncodingIntSet [1; 2; 3]).
    split_and!; [decide_concrete|reflexivity|decide_concrete].
  - destruct Hstore as (r' & -> & _ & Hr').
    { intros ->. by apply elem_of_nil in H4. }
    exists r'. split; [by rewrite lookup_insert_eq|]. by apply Hr'.
Defined.

Lemma SInter_reply_witness :
  let cntx := context_of two_shards in
  exists arr,
    SInter false String.length ["SINTER"; "a"; "bb"] cntx
    = Done (after_single_hop cntx Cb_inter two_shards
              (SendStringArr (script_sorted cntx arr)))
    ∧ "2" ∈ arr ∧ ~ "1" ∈ arr.
Proof.
  intros cntx.
  destruct (proj1 (SInter_reply false String.length ["SINTER"; "a"; "bb"] cntx
                     ltac:(discriminate) ltac:(discriminate)
                     ltac:(decide_concrete)
                     ltac:(eapply Forall_impl;
                           [exact two_shards_invariants|by intros db [? _]])
                     eq_refl))
    as (arr & Hrun & _ & Hmem).
  { intros k Hk.
    repeat (apply elem_of_cons in Hk as [-> |Hk]);
      [by eexists|by eexists|by apply elem_of_nil in Hk]. }
  exists arr. split_and!; [exact Hrun| |].
  - apply Hmem. intros k r Hk Hr.
    repeat (apply elem_of_cons in Hk as [-> |Hk]);
      [| |by apply elem_of_nil in Hk];
      vm_compute in Hr; injection Hr as <-; decide_concrete.
  - intros Hin.
    assert (Hno : "1" ∈ FillSet (CoSet (kEncodingIntSet [2; 3; 4]))).
    { apply (proj1 (Hmem "1") Hin "bb"); [decide_concrete|reflexivity]. }
    revert Hno. apply (@bool_decide_unpack (~ _) _). vm_compute. exact I.
Defined.

Lemma SMove_reply_witness :
  let cntx := context_of two_shards in
  SMove false String.length 512 ["SMOVE"; "a"; "bb"; "1"] cntx
  = Done (reply
            (emit
               (with_shards (emit (Schedule cntx) (EvExecute Cb_OpFind false))
                  [ {[ (0%nat, "bb") := CoSet (kEncodingIntSet [1; 2; 3; 4]%Z) ]};
                    {[ (0%nat, "a") := CoSet (kEncodingIntSet [2; 3]%Z) ]} ])
               (EvExecute Cb_OpMutate true))
            (SendLong 1)).
Proof.
  intros cntx.
  rewrite (SMove_reply false String.length 512 ["SMOVE"; "a"; "bb"; "1"] cntx
             (default ∅ (two_shards !! 1%nat)) (default ∅ (two_shards !! 0%nat))
             eq_refl ltac:(simpl; lia) eq_refl eq_refl).
  vm_compute. reflexivity.
Defined.

Lemma SDiff_reply_witness :
  let cntx := context_of two_shards in
  SDiff false String.length ["SDIFF"; "a"; "bb"] cntx
  = Done (after_single_hop cntx Cb_diff two_shards (SendStringArr [])).
Proof.
  intros cntx.
  apply (proj2 (SDiff_reply false String.length ["SDIFF"; "a"; "bb"] cntx
                  ltac:(simpl; lia))).
  intros k co [-> |[Hk _]] Hco.
  - vm_compute in Hco. by injection Hco as <-.
  - repeat (apply elem_of_cons in Hk as [-> |Hk]);
      [| |by apply elem_of_nil in Hk];
      vm_compute in Hco; by injection Hco as <-.
Defined.

Lemma SDiffStore_reply_witness :
  let cntx := context_of two_shards in
  SDiffStore false String.length 512 ["SDIFFSTORE"; "bb"; "a"] cntx
  = Done (reply
            (emit
               (with_shards (emit (Schedule cntx) (EvExecute Cb_diff false))
                  [ ∅; {[ (0%nat, "a") := CoSet (kEncodingIntSet [1; 2; 3]%Z) ]} ])
               (EvExecute Cb_store true))
            (SendLong 0)).
Proof.
  intros cntx.
  rewrite (proj2 (SDiffStore_reply false String.length 512
                    ["SDIFFSTORE"; "bb"; "a"] cntx
                    (default ∅ (two_shards !! 0%nat))
                    ltac:(simpl; lia) eq_refl)).
  - vm_compute. reflexivity.
  - intros k co [-> |[Hk Hother]] Hco.
    + vm_compute in Hco. by injection Hco as <-.
    + repeat (apply elem_of_cons in Hk as [-> |Hk]);
        [|by apply elem_of_nil in Hk].
      exfalso. by apply Hother.
Defined.

Lemma SInterStore_reply_witness :
  let cntx := context_of two_shards in
  exists arr db',
    SInterStore false String.length 512 ["SINTERSTORE"; "dd"; "a"; "bb"] cntx
    = Done (reply
              (emit
                 (with_shards (emit (Schedule cntx) (EvExecute Cb_inter false))
                    (<[0%nat := db']> two_shards))
                 (EvExecute Cb_store true))
              (SendLong (Z.of_nat (length arr))))
    ∧ "2" ∈ arr ∧ ~ "1" ∈ arr
    ∧ exists r', db' !! (0%nat, "dd") = Some (CoSet r')
                 ∧ "2" ∈ FillSet (CoSet r').
Proof.
  intros cntx.
  destruct (SInterStore_reply false String.length 512
              ["SINTERSTORE"; "dd"; "a"; "bb"] cntx
              (default ∅ (two_shards !! 0%nat))
              ltac:(simpl; lia) eq_refl
              ltac:(decide_concrete)
              ltac:(eapply Forall_impl;
                    [exact two_shards_invariants|by intros db [? _]])
              eq_refl)
    as (arr & db' & Hrun & _ & Hmem & _ & Hstore).
  { intros k Hk.
    repeat (apply elem_of_cons in Hk as [-> |Hk]);
      [by eexists|by eexists|by apply elem_of_nil in Hk]. }
  assert (H2 : "2" ∈ arr).
  { apply Hmem. intros k r Hk Hr.
    repeat (apply elem_of_cons in Hk as [-> |Hk]);
      [| |by apply elem_of_nil in Hk];
      vm_compute in Hr; injection Hr as <-; decide_concrete. }
  exists arr, db'. split_and!; [exact Hrun|exact H2| |].
  - intros Hin.
    assert (Hno : "1" ∈ FillSet (CoSet (kEncodingIntSet [2; 3; 4]))).
    { apply (proj1 (Hmem "1") Hin "bb"); [decide_concrete|reflexivity]. }
    revert Hno. apply (@bool_decide_unpack (~ _) _). vm_compute. exact I.
  - destruct Hstore as (r' & -> & _ & Hr').
    { intros ->. by apply elem_of_nil in H2. }
    exists r'. split; [by rewrite lookup_insert_eq|]. by apply Hr'.
Defined.

Lemma SInter_colocated_witness :
  let cntx := context_of one_shard in
  SInter false String.length ["SINTER"; "a"; "b"] cntx = Aborted "TBD"
  ∧ SInter true String.length ["SINTER"; "a"; "b"] cntx
    = Done (after_single_hop cntx Cb_inter one_shard (SendStringArr [])).
Proof.
  intros cntx. split.
  - exact (proj1 (SInter_colocated String.length false ["SINTER"; "a"; "b"]
                    cntx 0%nat ltac:(simpl; lia) ltac:(vm_compute; lia))
             eq_refl).
  - destruct (proj2 (SInter_colocated String.length true ["SINTER"; "a"; "b"]
                       cntx 0%nat ltac:(simpl; lia) ltac:(vm_compute; lia))
                eq_refl
                ltac:(eapply Forall_impl;
                      [exact one_shard_invariants|by intros db [? _]])
                eq_refl) as [H|H]; [exact H|].
    vm_compute in H. discriminate H.
Defined.

